(** * Sympathetic strings: two finite-difference strings sharing a rigid bridge

    A shallow embedding of [generativos/sympathetic-strings/src/physics.cpp]
    (the struct [StringState] and the class [SympatheticStrings]) and the
    properties of its operations.

    - The C++ type [float] is IEEE-754 binary32.  It is modelled by the
      Standard Library's executable specification of floating-point
      numbers ([spec_float] at precision 24 and maximal exponent 128,
      rounding to nearest with ties to even, one NaN).  Every arithmetic
      operator of the source is one correctly rounded operation of the
      model, in the order in which C++ parses the expression: no
      contraction into fused multiply-add, no excess precision.  A decimal
      literal is the binary32 value nearest to it.
    - [std::array<float, 200>] is a list of floats; [wfString] says that
      it has 200 cells.  A loop that writes every cell of an array is a
      [fold_left] over the indices, or a [map] over them when the cells are
      written independently of one another.
    - [int] is a 32-bit two's complement integer held in [Z];
      [std::vector<float>] is a list.
    - A member function is a function from the state before the call to
      the state after it. *)

From Stdlib Require Import ZArith List Bool Lia.
From Stdlib Require Import Floats.SpecFloat.
Import ListNotations.

Set Implicit Arguments.

(** ** binary32 *)

Module F32.

Definition prec : Z := 24.
Definition emax : Z := 128.

Definition float := spec_float.

Definition add : float -> float -> float := SFadd prec emax.
Definition sub : float -> float -> float := SFsub prec emax.
Definition mul : float -> float -> float := SFmul prec emax.
Definition div : float -> float -> float := SFdiv prec emax.
Definition sqrt : float -> float := SFsqrt prec emax.
Definition neg : float -> float := SFopp.

(** The comparison operators [<], [<=] and [==] of C++ on floats: false
    as soon as one side is NaN. *)
Definition ltb : float -> float -> bool := SFltb.
Definition leb : float -> float -> bool := SFleb.
Definition eqb : float -> float -> bool := SFeqb.

(** [static_cast<float>(i)] and the implicit conversion of an [int]
    operand. *)
Definition of_int (z : Z) : float := binary_normalize prec emax z 0 false.

(** A decimal literal [n/d] written in the source: the binary32 value
    nearest to it (both [n] and [d] are below [2^24], hence exact). *)
Definition lit (n d : Z) : float := div (of_int n) (of_int d).

(** [std::isfinite] *)
Definition isfinite (x : float) : bool :=
  match x with
  | S754_zero _ | S754_finite _ _ _ => true
  | S754_infinity _ | S754_nan => false
  end.

(** [std::max(a, b)] is [(a < b) ? b : a] and [std::min(a, b)] is
    [(b < a) ? b : a]. *)
Definition max (a b : float) : float := if ltb a b then b else a.
Definition min (a b : float) : float := if ltb b a then b else a.

(** The bit patterns a binary32 variable can hold. *)
Definition valid (x : float) : bool := valid_binary prec emax x.

Definition zero : float := S754_zero false.
Definition one : float := Eval vm_compute in of_int 1.
Definition two : float := Eval vm_compute in of_int 2.
Definition four : float := Eval vm_compute in of_int 4.
Definition half : float := Eval vm_compute in lit 1 2.

End F32.

Import F32.

(** ** Constants of the source *)

Definition NUM_POINTS : nat := 200.
Definition HISTORY_LENGTH : nat := 500.

(** [N-1], the index of the bridge end. *)
Definition LAST : nat := NUM_POINTS - 1.

Definition f_261_63 : float := Eval vm_compute in lit 26163 100.
Definition f_392_00 : float := Eval vm_compute in of_int 392.
Definition f_100 : float := Eval vm_compute in of_int 100.
Definition f_0_001 : float := Eval vm_compute in lit 1 1000.
Definition f_0_00001 : float := Eval vm_compute in lit 1 100000.
Definition f_0_1 : float := Eval vm_compute in lit 1 10.
Definition f_0_9 : float := Eval vm_compute in lit 9 10.
Definition f_0_01 : float := Eval vm_compute in lit 1 100.
Definition f_50 : float := Eval vm_compute in of_int 50.
Definition f_1000 : float := Eval vm_compute in of_int 1000.
Definition f_44100 : float := Eval vm_compute in of_int 44100.
Definition f_8 : float := Eval vm_compute in of_int 8.
Definition f_m0_5 : float := Eval vm_compute in neg half.

(** [1.0f / (NUM_POINTS - 1)], the grid spacing [dx] of [stepOnce] and
    [computeEnergy]. *)
Definition dx : float :=
  Eval vm_compute in div one (of_int (Z.of_nat (NUM_POINTS - 1))).

(** ** Arrays *)

(** A [std::array<float, NUM_POINTS>] is a list; [get] reads a cell. *)
Definition get (a : list float) (i : nat) : float := nth i a zero.

(** [a[i] = x] on an array. *)
Fixpoint set (a : list float) (i : nat) (x : float) : list float :=
  match a, i with
  | [], _ => []
  | _ :: t, O => x :: t
  | h :: t, S j => h :: set t j x
  end.

(** [a.fill(x)] *)
Definition fill (x : float) : list float := repeat x NUM_POINTS.

(** ** StringState *)

Record StringState := mkString {
  y : list float;
  y_prev : list float;
  v : list float;
  frequency : float;
  tension : float;
  density : float;
  damping : float;
  waveSpeed : float;
  length : float;
  kineticEnergy : float;
  potentialEnergy : float;
  totalEnergy : float;
  forceOnBridge : float
}.

(** [StringState::StringState()] *)
Definition newString : StringState :=
  let tension := f_100 in
  let density := f_0_001 in
  {| y := fill zero; y_prev := fill zero; v := fill zero;
     frequency := f_261_63;
     tension := tension;
     density := density;
     damping := f_0_00001;
     waveSpeed := sqrt (div tension density);
     length := one;
     kineticEnergy := zero; potentialEnergy := zero; totalEnergy := zero;
     forceOnBridge := zero |}.

(** [StringState::setFrequency] *)
Definition setFrequency (freq : float) (s : StringState) : StringState :=
  let tension' :=
    mul (mul (mul (mul (mul four (density s)) (length s)) (length s)) freq) freq in
  {| y := y s; y_prev := y_prev s; v := v s;
     frequency := freq;
     tension := tension';
     density := density s;
     damping := damping s;
     waveSpeed := sqrt (div tension' (density s));
     length := length s;
     kineticEnergy := kineticEnergy s;
     potentialEnergy := potentialEnergy s;
     totalEnergy := totalEnergy s;
     forceOnBridge := forceOnBridge s |}.

(** ** SympatheticStrings *)

Record Sim := mkSim {
  string1 : StringState;
  string2 : StringState;
  bridgeY : float;
  bridgeV : float;
  bridgeStiffness : float;
  dt : float;
  time : float;
  stepCount : Z;
  energy1History : list float;
  energy2History : list float;
  bridgeHistory : list float
}.

(** [SympatheticStrings::SympatheticStrings()]; [reserve] changes no
    observable value. *)
Definition construct : Sim :=
  {| string1 := setFrequency f_261_63 newString;
     string2 := setFrequency f_392_00 newString;
     bridgeY := zero; bridgeV := zero; bridgeStiffness := one;
     dt := div one (mul f_44100 f_8);
     time := zero; stepCount := 0;
     energy1History := []; energy2History := []; bridgeHistory := [] |}.

(** *** Energy *)

(** One turn of the loop of [computeEnergy] on the accumulators
    [(ke, pe)]. *)
Definition energyIter (s : StringState) (acc : float * float) (i : nat)
  : float * float :=
  let '(ke, pe) := acc in
  let ke' :=
    add ke (mul (mul (mul (mul half (density s)) dx) (get (v s) i)) (get (v s) i)) in
  let pe' :=
    if i <? NUM_POINTS - 1 then
      let strain := div (sub (get (y s) (S i)) (get (y s) i)) dx in
      add pe (mul (mul (mul (mul half (tension s)) strain) strain) dx)
    else pe in
  (ke', pe').

Definition energySums (s : StringState) : float * float :=
  fold_left (energyIter s) (seq 0 NUM_POINTS) (zero, zero).

(** [SympatheticStrings::computeEnergy] *)
Definition computeEnergy (s : StringState) : StringState :=
  let '(ke, pe) := energySums s in
  {| y := y s; y_prev := y_prev s; v := v s;
     frequency := frequency s; tension := tension s; density := density s;
     damping := damping s; waveSpeed := waveSpeed s; length := length s;
     kineticEnergy := ke;
     potentialEnergy := pe;
     totalEnergy := add ke pe;
     forceOnBridge := forceOnBridge s |}.

(** *** Pluck *)

Definition clampPosition (position : float) : float :=
  max f_0_1 (min f_0_9 position).

Definition clampAmplitude (amplitude : float) : float :=
  max zero (min one amplitude).

(** The abscissa [static_cast<float>(i) / (NUM_POINTS - 1)] of sample [i]. *)
Definition sampleX (i : nat) : float :=
  div (of_int (Z.of_nat i)) (of_int (Z.of_nat (NUM_POINTS - 1))).

(** The value the loop of [pluck] stores in [s.y[i]]; [position] and
    [amplitude] are already clamped. *)
Definition pluckShape (position amplitude : float) (i : nat) : float :=
  let x := sampleX i in
  if ltb x position
  then div (mul amplitude x) position
  else div (mul amplitude (sub one x)) (sub one position).

(** One turn of the loop of [pluck]: the three cells of index [i]. *)
Definition pluckIter (position amplitude : float) (s : StringState) (i : nat)
  : StringState :=
  let yi := pluckShape position amplitude i in
  let y' := set (y s) i yi in
  {| y := y';
     y_prev := set (y_prev s) i (get y' i);
     v := set (v s) i zero;
     frequency := frequency s; tension := tension s; density := density s;
     damping := damping s; waveSpeed := waveSpeed s; length := length s;
     kineticEnergy := kineticEnergy s;
     potentialEnergy := potentialEnergy s;
     totalEnergy := totalEnergy s;
     forceOnBridge := forceOnBridge s |}.

(** [pluck] on the selected string, after the clamps. *)
Definition pluckString (position amplitude : float) (s : StringState)
  : StringState :=
  let s1 := fold_left (pluckIter position amplitude)
                  (seq 0 NUM_POINTS) s in
  let s2 :=
    {| y := set (y s1) 0 zero;
       y_prev := set (y_prev s1) 0 zero;
       v := v s1;
       frequency := frequency s1; tension := tension s1; density := density s1;
       damping := damping s1; waveSpeed := waveSpeed s1; length := length s1;
       kineticEnergy := kineticEnergy s1;
       potentialEnergy := potentialEnergy s1;
       totalEnergy := totalEnergy s1;
       forceOnBridge := forceOnBridge s1 |} in
  computeEnergy s2.

Definition withString1 (m : Sim) (s : StringState) : Sim :=
  {| string1 := s; string2 := string2 m;
     bridgeY := bridgeY m; bridgeV := bridgeV m;
     bridgeStiffness := bridgeStiffness m;
     dt := dt m; time := time m; stepCount := stepCount m;
     energy1History := energy1History m;
     energy2History := energy2History m;
     bridgeHistory := bridgeHistory m |}.

Definition withString2 (m : Sim) (s : StringState) : Sim :=
  {| string1 := string1 m; string2 := s;
     bridgeY := bridgeY m; bridgeV := bridgeV m;
     bridgeStiffness := bridgeStiffness m;
     dt := dt m; time := time m; stepCount := stepCount m;
     energy1History := energy1History m;
     energy2History := energy2History m;
     bridgeHistory := bridgeHistory m |}.

(** [SympatheticStrings::pluck] *)
Definition pluck (stringIndex : Z) (position amplitude : float) (m : Sim) : Sim :=
  let position := clampPosition position in
  let amplitude := clampAmplitude amplitude in
  if (stringIndex =? 0)%Z
  then withString1 m (pluckString position amplitude (string1 m))
  else withString2 m (pluckString position amplitude (string2 m)).

(** *** One physics step *)

(** The Courant number squared, [r*r] with [r = waveSpeed * dt / dx]. *)
Definition courantSq (dt : float) (s : StringState) : float :=
  let r := div (mul (waveSpeed s) dt) dx in
  mul r r.

(** The interior update of sample [i] (step 1 of [stepOnce]). *)
Definition interior (dt : float) (s : StringState) (i : nat) : float :=
  let lap := add (sub (get (y s) (S i)) (mul two (get (y s) i)))
             (get (y s) (pred i)) in
  let vel := div (sub (get (y s) i) (get (y_prev s) i)) dt in
  sub (add (sub (mul two (get (y s) i)) (get (y_prev s) i))
       (mul (courantSq dt s) lap))
      (mul (mul (damping s) dt) vel).

(** What a string wants at its right end (step 2 of [stepOnce]). *)
Definition want (dt : float) (s : StringState) : float :=
  let yN1 := get (y s) LAST in
  let yN2 := get (y s) (pred LAST) in
  let pN1 := get (y_prev s) LAST in
  sub (add (sub (mul two yN1) pN1)
       (mul (courantSq dt s) (add (sub yN2 (mul two yN1)) yN1)))
      (div (mul (mul (damping s) dt) (sub yN1 pN1)) dt).

(** The tension-weighted average of the two candidates. *)
Definition bridgeCandidate (m : Sim) : float :=
  let totalTension := add (tension (string1 m)) (tension (string2 m)) in
  div (add (mul (tension (string1 m)) (want (dt m) (string1 m)))
       (mul (tension (string2 m)) (want (dt m) (string2 m))))
      totalTension.

(** The candidate blended with the previous bridge position. *)
Definition bridgeBlend (m : Sim) : float :=
  add (mul (bridgeStiffness m) (bridgeCandidate m))
      (mul (sub one (bridgeStiffness m)) (bridgeY m)).

(** The safety clamp. *)
Definition clampBridge (x : float) : float := max f_m0_5 (min half x).

(** The guard that follows the clamp. *)
Definition finiteOrZero (x : float) : float :=
  if negb (isfinite x) then zero else x.

Definition newBridgeY (m : Sim) : float :=
  finiteOrZero (clampBridge (bridgeBlend m)).

(** The local array [y_new] of a string, once the bridge position [b] is
    known: cell 0, the interior cells, cell [N-1]. *)
Definition yNew (dt : float) (s : StringState) (b : float) : list float :=
  zero :: map (interior dt s) (seq 1 (NUM_POINTS - 2)) ++ [b].

(** Steps 4 and 5 of [stepOnce] on one string, followed by
    [computeEnergy]. *)
Definition commitString (dt : float) (s : StringState) (b : float)
  : StringState :=
  let yn := yNew dt s b in
  let slope := div (sub (get yn LAST) (get yn (pred LAST))) dx in
  computeEnergy
    {| y := yn;
       y_prev := map (get (y s)) (seq 0 NUM_POINTS);
       v := map (fun i => div (sub (get yn i) (get (y s) i)) dt)
            (seq 0 NUM_POINTS);
       frequency := frequency s; tension := tension s; density := density s;
       damping := damping s; waveSpeed := waveSpeed s; length := length s;
       kineticEnergy := kineticEnergy s;
       potentialEnergy := potentialEnergy s;
       totalEnergy := totalEnergy s;
       forceOnBridge := mul (neg (tension s)) slope |}.

(** [stepCount++] on a 32-bit [int]. *)
Definition wrap32 (z : Z) : Z :=
  ((z + 2147483648) mod 4294967296 - 2147483648)%Z.

(** [v.erase(v.begin())] *)
Definition eraseFirst (h : list float) : list float := tl h.

(** [SympatheticStrings::recordHistory] *)
Definition recordHistory (m : Sim) : Sim :=
  let full := HISTORY_LENGTH <=? List.length (energy1History m) in
  let e1 := if full then eraseFirst (energy1History m) else energy1History m in
  let e2 := if full then eraseFirst (energy2History m) else energy2History m in
  let bh := if full then eraseFirst (bridgeHistory m) else bridgeHistory m in
  {| string1 := string1 m; string2 := string2 m;
     bridgeY := bridgeY m; bridgeV := bridgeV m;
     bridgeStiffness := bridgeStiffness m;
     dt := dt m; time := time m; stepCount := stepCount m;
     energy1History := e1 ++ [totalEnergy (string1 m)];
     energy2History := e2 ++ [totalEnergy (string2 m)];
     bridgeHistory := bh ++ [bridgeY m] |}.

(** [SympatheticStrings::stepOnce] *)
Definition stepOnce (m : Sim) : Sim :=
  let b := newBridgeY m in
  let m' :=
    {| string1 := commitString (dt m) (string1 m) b;
       string2 := commitString (dt m) (string2 m) b;
       bridgeY := b;
       bridgeV := div (sub b (bridgeY m)) (dt m);
       bridgeStiffness := bridgeStiffness m;
       dt := dt m;
       time := add (time m) (dt m);
       stepCount := wrap32 (stepCount m + 1);
       energy1History := energy1History m;
       energy2History := energy2History m;
       bridgeHistory := bridgeHistory m |} in
  if (Z.rem (stepCount m') 100 =? 0)%Z then recordHistory m' else m'.

(** [SympatheticStrings::step]: the loop runs [numSteps] times, not at all
    when [numSteps <= 0]. *)
Definition step (numSteps : Z) (m : Sim) : Sim :=
  Nat.iter (Z.to_nat numSteps) stepOnce m.

(** *** Setters and reset *)

Definition clampFrequency (freq : float) : float := max f_50 (min f_1000 freq).

(** [SympatheticStrings::setString1Frequency] *)
Definition setString1Frequency (freq : float) (m : Sim) : Sim :=
  withString1 m (setFrequency (clampFrequency freq) (string1 m)).

(** [SympatheticStrings::setString2Frequency] *)
Definition setString2Frequency (freq : float) (m : Sim) : Sim :=
  withString2 m (setFrequency (clampFrequency freq) (string2 m)).

Definition withDamping (d : float) (s : StringState) : StringState :=
  {| y := y s; y_prev := y_prev s; v := v s;
     frequency := frequency s; tension := tension s; density := density s;
     damping := d;
     waveSpeed := waveSpeed s; length := length s;
     kineticEnergy := kineticEnergy s;
     potentialEnergy := potentialEnergy s;
     totalEnergy := totalEnergy s;
     forceOnBridge := forceOnBridge s |}.

(** [SympatheticStrings::setDamping] *)
Definition setDamping (d : float) (m : Sim) : Sim :=
  let damping := max zero (min f_0_01 d) in
  withString2 (withString1 m (withDamping damping (string1 m)))
          (withDamping damping (string2 m)).

(** [SympatheticStrings::setBridgeStiffness] *)
Definition setBridgeStiffness (s : float) (m : Sim) : Sim :=
  {| string1 := string1 m; string2 := string2 m;
     bridgeY := bridgeY m; bridgeV := bridgeV m;
     bridgeStiffness := max zero (min one s);
     dt := dt m; time := time m; stepCount := stepCount m;
     energy1History := energy1History m;
     energy2History := energy2History m;
     bridgeHistory := bridgeHistory m |}.

(** [SympatheticStrings::reset]; [dt] is not assigned. *)
Definition reset (m : Sim) : Sim :=
  {| string1 := setFrequency f_261_63 newString;
     string2 := setFrequency f_392_00 newString;
     bridgeY := zero; bridgeV := zero; bridgeStiffness := one;
     dt := dt m;
     time := zero; stepCount := 0;
     energy1History := []; energy2History := []; bridgeHistory := [] |}.

(** *** Read accessors *)

(** [std::vector<float>(a.begin(), a.end())] copies the cells of [a]. *)
Definition getString1Displacement (m : Sim) : list float := y (string1 m).
Definition getString2Displacement (m : Sim) : list float := y (string2 m).
Definition getString1Velocity (m : Sim) : list float := v (string1 m).
Definition getString2Velocity (m : Sim) : list float := v (string2 m).
Definition getEnergy1History (m : Sim) : list float := energy1History m.
Definition getEnergy2History (m : Sim) : list float := energy2History m.
Definition getBridgeHistory (m : Sim) : list float := bridgeHistory m.
Definition getTime (m : Sim) : float := time m.
Definition getEnergy1 (m : Sim) : float := totalEnergy (string1 m).
Definition getEnergy2 (m : Sim) : float := totalEnergy (string2 m).
Definition getKinetic1 (m : Sim) : float := kineticEnergy (string1 m).
Definition getKinetic2 (m : Sim) : float := kineticEnergy (string2 m).
Definition getPotential1 (m : Sim) : float := potentialEnergy (string1 m).
Definition getPotential2 (m : Sim) : float := potentialEnergy (string2 m).
Definition getTotalEnergy (m : Sim) : float :=
  add (totalEnergy (string1 m)) (totalEnergy (string2 m)).
Definition getBridgeY (m : Sim) : float := bridgeY m.
Definition getBridgeV (m : Sim) : float := bridgeV m.
Definition getForce1 (m : Sim) : float := forceOnBridge (string1 m).
Definition getForce2 (m : Sim) : float := forceOnBridge (string2 m).
Definition getString1Frequency (m : Sim) : float := frequency (string1 m).
Definition getString2Frequency (m : Sim) : float := frequency (string2 m).
Definition getBridgeStiffness (m : Sim) : float := bridgeStiffness m.

(** ** Reachable states *)

(** The operations bound for the host, except the read accessors. *)
Inductive Op : Type :=
| OpPluck (stringIndex : Z) (position amplitude : float)
| OpStep (numSteps : Z)
| OpReset
| OpSetString1Frequency (freq : float)
| OpSetString2Frequency (freq : float)
| OpSetDamping (d : float)
| OpSetBridgeStiffness (s : float).

Definition apply (o : Op) (m : Sim) : Sim :=
  match o with
  | OpPluck i p a => pluck i p a m
  | OpStep n => step n m
  | OpReset => reset m
  | OpSetString1Frequency f => setString1Frequency f m
  | OpSetString2Frequency f => setString2Frequency f m
  | OpSetDamping d => setDamping d m
  | OpSetBridgeStiffness s => setBridgeStiffness s m
  end.

(** The state after a sequence of calls on a fresh instance. *)
Definition run (ops : list Op) : Sim :=
  fold_left (fun m o => apply o m) ops construct.

Inductive reachable : Sim -> Prop :=
| reach_construct : reachable construct
| reach_apply o m : reachable m -> reachable (apply o m).

(** Every array of a [StringState] has [NUM_POINTS] cells. *)
Definition wfString (s : StringState) : Prop :=
  List.length (y s) = NUM_POINTS /\
  List.length (y_prev s) = NUM_POINTS /\
  List.length (v s) = NUM_POINTS.

Definition wfSim (m : Sim) : Prop := wfString (string1 m) /\ wfString (string2 m).

(** * Vocabulary of the statements *)

(** ** Floats *)

(** The sign bit of a float, [None] for NaN. *)
Definition signBit (x : float) : option bool :=
  match x with
  | S754_nan => None
  | S754_zero s | S754_infinity s | S754_finite s _ _ => Some s
  end.

(** NaN, or a number whose sign bit is clear. *)
Definition notNegative (x : float) : Prop :=
  signBit x = None \/ signBit x = Some false.

(** Zero or a positive finite number. *)
Definition zeroOrPositive (x : float) : Prop :=
  x = zero \/ exists m e, x = S754_finite false m e.

(** The same, as a test. *)
Definition isZeroOrPositive (x : float) : bool :=
  match x with
  | S754_zero false | S754_finite false _ _ => true
  | _ => false
  end.

(** A stored energy is NaN or compares [>= 0]. *)
Definition nanOrNonNegative (x : float) : Prop :=
  x = S754_nan \/ leb zero x = true.

(** ** The bridge (C1, C3, C7) *)

(** Both rightmost samples and the bridge position are one and the same
    value, and compare equal with the [==] of C++ as well. *)
Definition bridgeShared (m : Sim) : Prop :=
  get (y (string1 m)) LAST = bridgeY m /\
  get (y (string2 m)) LAST = bridgeY m /\
  eqb (get (y (string1 m)) LAST) (get (y (string2 m)) LAST) = true /\
  eqb (get (y (string1 m)) LAST) (bridgeY m) = true /\
  eqb (get (y (string2 m)) LAST) (bridgeY m) = true.

(** The candidate of a string for its right end, written out on the
    cells it reads: [yl] and [yc] are [y[N-2]] and [y[N-1]], [pc] is
    [y_prev[N-1]].  The neighbour outside the string is replaced by [yc]. *)
Definition boundaryCandidate (waveSpeed damping dt yl yc pc : float) : float :=
  let dx := div one (of_int 199) in
  let r := div (mul waveSpeed dt) dx in
  sub (add (sub (mul two yc) pc)
           (mul (mul r r) (add (sub yl (mul two yc)) yc)))
      (div (mul (mul damping dt) (sub yc pc)) dt).

(** The candidate of string [s]. *)
Definition candidateOf (dt : float) (s : StringState) : float :=
  boundaryCandidate (waveSpeed s) (damping s) dt
                    (get (y s) 198) (get (y s) 199) (get (y_prev s) 199).

(** The tension-weighted average of the two candidates, blended with the
    previous bridge position. *)
Definition blendOf (m : Sim) : float :=
  let T1 := tension (string1 m) in
  let T2 := tension (string2 m) in
  let k := bridgeStiffness m in
  let candidate :=
    div (add (mul T1 (candidateOf (dt m) (string1 m)))
             (mul T2 (candidateOf (dt m) (string2 m))))
        (add T1 T2) in
  add (mul k candidate) (mul (sub one k) (bridgeY m)).

(** The state in which the claim is made: stiffness 0 and a bridge at rest
    inside the clamp. *)
Definition decoupled (m : Sim) : Prop :=
  bridgeStiffness m = zero /\
  valid (bridgeY m) = true /\ bridgeY m <> S754_zero true /\
  leb f_m0_5 (bridgeY m) = true /\ leb (bridgeY m) half = true.

(** The bridge candidate stays finite during the next [n] steps. *)
Fixpoint candidatesFinite (n : nat) (m : Sim) : bool :=
  match n with
  | O => true
  | S k => isfinite (bridgeCandidate m) && candidatesFinite k (stepOnce m)
  end.

(** The bridge stays inside the clamp. *)
Definition bridgeBounded (m : Sim) : Prop :=
  isfinite (bridgeY m) = true /\
  leb (neg half) (bridgeY m) = true /\ leb (bridgeY m) half = true.

(** ** The interior update (C2) *)

(** The update formula as the specification writes it,
    [2*y[i] - y_prev[i] + r*r*(y[i+1] - 2*y[i] + y[i-1]) - damping*dt*v[i]]
    with [r = waveSpeed*dt/dx], [dx = 1/199] and [v[i] = (y[i] - y_prev[i])/dt]:
    [yl], [yc], [yr] are [y[i-1]], [y[i]], [y[i+1]] and [pc] is
    [y_prev[i]]. *)
Definition leapfrog (waveSpeed damping dt yl yc yr pc : float) : float :=
  let dx := div one (of_int 199) in
  let r := div (mul waveSpeed dt) dx in
  let vi := div (sub yc pc) dt in
  sub (add (sub (mul two yc) pc)
           (mul (mul r r) (add (sub yr (mul two yc)) yl)))
      (mul (mul damping dt) vi).

(** The fixed left end. *)
Definition leftEndFixed (m : Sim) : Prop :=
  get (y (string1 m)) 0 = zero /\ get (y (string2 m)) 0 = zero.

(** ** Pluck (C4, C5) *)

(** The string [pluck] selects. *)
Definition plucked (stringIndex : Z) (m : Sim) : StringState :=
  if (stringIndex =? 0)%Z then string1 m else string2 m.

(** ** Energy (C6) *)

(** The two sums as the specification writes them, each on its own: the
    kinetic one runs over all the samples, the potential one over the
    [N-1] segments. *)
Definition kineticTerm (s : StringState) (i : nat) : float :=
  mul (mul (mul (mul half (density s)) dx) (get (v s) i)) (get (v s) i).

Definition strain (s : StringState) (i : nat) : float :=
  div (sub (get (y s) (S i)) (get (y s) i)) dx.

Definition potentialTerm (s : StringState) (i : nat) : float :=
  mul (mul (mul (mul half (tension s)) (strain s i)) (strain s i)) dx.

Definition kineticSum (s : StringState) : float :=
  fold_left (fun acc i => add acc (kineticTerm s i)) (seq 0 NUM_POINTS) zero.

Definition potentialSum (s : StringState) : float :=
  fold_left (fun acc i => add acc (potentialTerm s i)) (seq 0 (NUM_POINTS - 1)) zero.

(** The stored energies are those of the stored buffers. *)
Definition energiesCurrent (s : StringState) : Prop :=
  kineticEnergy s = kineticSum s /\
  potentialEnergy s = potentialSum s /\
  totalEnergy s = add (kineticEnergy s) (potentialEnergy s).

(** What every reachable string satisfies: the density and the length of
    the constructor, and a tension and stored energies that are not
    negative. *)
Definition energyInvString (s : StringState) : Prop :=
  density s = f_0_001 /\ length s = one /\ notNegative (tension s) /\
  notNegative (kineticEnergy s) /\ notNegative (potentialEnergy s).

(** ** History (C8) *)

(** [recordHistory] drops the oldest entry of a sequence when the first
    sequence is full. *)
Definition evict (full : bool) (h : list float) : list float :=
  if full then tl h else h.

(** The three sequences have one length, at most [HISTORY_LENGTH]. *)
Definition historyAligned (m : Sim) : Prop :=
  List.length (energy1History m) = List.length (energy2History m) /\
  List.length (energy2History m) = List.length (bridgeHistory m) /\
  List.length (energy1History m) <= HISTORY_LENGTH.

(** The three sequences of [m'] are those of [m]. *)
Definition sameHistory (m m' : Sim) : Prop :=
  energy1History m' = energy1History m /\
  energy2History m' = energy2History m /\
  bridgeHistory m' = bridgeHistory m.

(** ** Reset and the setters (C9, C10) *)

(** What a fresh instance holds. *)
Definition freshValues (m : Sim) : Prop :=
  frequency (string1 m) = lit 26163 100 /\
  frequency (string2 m) = of_int 392 /\
  tension (string1 m) =
    mul (mul (mul (mul (mul four (lit 1 1000)) one) one) (lit 26163 100))
        (lit 26163 100) /\
  tension (string2 m) =
    mul (mul (mul (mul (mul four (lit 1 1000)) one) one) (of_int 392))
        (of_int 392) /\
  waveSpeed (string1 m) = sqrt (div (tension (string1 m)) (lit 1 1000)) /\
  waveSpeed (string2 m) = sqrt (div (tension (string2 m)) (lit 1 1000)) /\
  y (string1 m) = repeat zero 200 /\ y_prev (string1 m) = repeat zero 200 /\
  v (string1 m) = repeat zero 200 /\
  y (string2 m) = repeat zero 200 /\ y_prev (string2 m) = repeat zero 200 /\
  v (string2 m) = repeat zero 200 /\
  bridgeY m = zero /\ bridgeV m = zero /\ bridgeStiffness m = one /\
  time m = zero /\ stepCount m = 0%Z /\
  energy1History m = [] /\ energy2History m = [] /\ bridgeHistory m = [].

(** Everything of a string but [frequency], [tension] and [waveSpeed]. *)
Definition sameButTuning (s s' : StringState) : Prop :=
  y s' = y s /\ y_prev s' = y_prev s /\ v s' = v s /\
  density s' = density s /\ damping s' = damping s /\ length s' = length s /\
  kineticEnergy s' = kineticEnergy s /\
  potentialEnergy s' = potentialEnergy s /\
  totalEnergy s' = totalEnergy s /\
  forceOnBridge s' = forceOnBridge s.

(** Everything of the simulation but the two strings. *)
Definition sameButStrings (m m' : Sim) : Prop :=
  bridgeY m' = bridgeY m /\ bridgeV m' = bridgeV m /\
  bridgeStiffness m' = bridgeStiffness m /\
  dt m' = dt m /\ time m' = time m /\ stepCount m' = stepCount m /\
  energy1History m' = energy1History m /\
  energy2History m' = energy2History m /\
  bridgeHistory m' = bridgeHistory m.

(** The tuning of a string: its frequency lies in the range of the
    setters, its tension is [4*density*length*length*f*f] and its wave speed
    is [sqrt(tension/density)]. *)
Definition tuned (s : StringState) : Prop :=
  leb f_50 (frequency s) = true /\ leb (frequency s) f_1000 = true /\
  tension s =
    mul (mul (mul (mul (mul four (density s)) (length s)) (length s))
             (frequency s)) (frequency s) /\
  waveSpeed s = sqrt (div (tension s) (density s)).

(** ** Arguments and parameters *)

(** A finite number of the closed range [[lo, hi]]. *)
Definition withinBounds (lo hi c : float) : Prop :=
  isfinite c = true /\ leb lo c = true /\ leb c hi = true.

(** What a clamp to [[lo, hi]] does to its argument. *)
Definition sanitizes (lo hi : float) (clamp : float -> float) : Prop :=
  (forall x, withinBounds lo hi (clamp x)) /\
  clamp S754_nan = hi /\
  (forall x, leb lo x = true -> leb x hi = true -> eqb (clamp x) x = true).

Definition parametersBounded (m : Sim) : Prop :=
  damping (string2 m) = damping (string1 m) /\
  withinBounds zero f_0_01 (damping (string1 m)) /\
  withinBounds zero one (bridgeStiffness m).

(** The fields of a string that neither [pluck] nor a step assigns. *)
Definition sameParameters (s s' : StringState) : Prop :=
  frequency s' = frequency s /\ tension s' = tension s /\
  density s' = density s /\ damping s' = damping s /\
  waveSpeed s' = waveSpeed s /\ length s' = length s.

(** ** The buffers after [pluck] *)

(** The profile [pluck] leaves in [y] and [y_prev]. *)
Definition pluckProfile (position amplitude : float) : list float :=
  zero :: map (pluckShape position amplitude) (seq 1 (NUM_POINTS - 1)).

(** A string whose buffers hold the profile of [pluck], before its
    energies are computed. *)
Definition pluckedString (position amplitude : float) (s : StringState)
  : StringState :=
  {| y := pluckProfile position amplitude;
     y_prev := pluckProfile position amplitude;
     v := fill zero;
     frequency := frequency s; tension := tension s; density := density s;
     damping := damping s; waveSpeed := waveSpeed s; length := length s;
     kineticEnergy := kineticEnergy s;
     potentialEnergy := potentialEnergy s;
     totalEnergy := totalEnergy s;
     forceOnBridge := forceOnBridge s |}.

(** The string [pluck] does not select. *)
Definition unplucked (stringIndex : Z) (m : Sim) : StringState :=
  if (stringIndex =? 0)%Z then string2 m else string1 m.

(** ** Steps *)

(** The derived buffers after a step. *)
Definition derivedCurrent (dt : float) (before after : StringState) : Prop :=
  y_prev after = y before /\
  (forall i, i < NUM_POINTS ->
     get (v after) i = div (sub (get (y after) i) (get (y_prev after) i)) dt) /\
  forceOnBridge after =
    mul (neg (tension after))
        (div (sub (get (y after) 199) (get (y after) 198)) dx).

(** The simulation with the roles of the two strings exchanged. *)
Definition swapStrings (m : Sim) : Sim :=
  {| string1 := string2 m; string2 := string1 m;
     bridgeY := bridgeY m; bridgeV := bridgeV m;
     bridgeStiffness := bridgeStiffness m;
     dt := dt m; time := time m; stepCount := stepCount m;
     energy1History := energy2History m;
     energy2History := energy1History m;
     bridgeHistory := bridgeHistory m |}.

(** The number 64, at which the clock of the simulation stops. *)
Definition f_64 : float := Eval vm_compute in of_int 64.

(** ** The read accessors *)

(** The stored total is the sum of the two stored parts. *)
Definition totalIsSum (s : StringState) : Prop :=
  totalEnergy s = add (kineticEnergy s) (potentialEnergy s).

(** What the accessors return in a reachable state. *)
Definition accessorsConsistent (m : Sim) : Prop :=
  List.length (getString1Displacement m) = 200 /\
  List.length (getString2Displacement m) = 200 /\
  List.length (getString1Velocity m) = 200 /\
  List.length (getString2Velocity m) = 200 /\
  List.length (getEnergy2History m) = List.length (getEnergy1History m) /\
  List.length (getBridgeHistory m) = List.length (getEnergy1History m) /\
  List.length (getEnergy1History m) <= 500 /\
  getEnergy1 m = add (getKinetic1 m) (getPotential1 m) /\
  getEnergy2 m = add (getKinetic2 m) (getPotential2 m) /\
  nanOrNonNegative (getKinetic1 m) /\ nanOrNonNegative (getPotential1 m) /\
  nanOrNonNegative (getKinetic2 m) /\ nanOrNonNegative (getPotential2 m) /\
  nanOrNonNegative (getEnergy1 m) /\ nanOrNonNegative (getEnergy2 m) /\
  nanOrNonNegative (getTotalEnergy m) /\
  get (getString1Displacement m) 0 = zero /\
  get (getString2Displacement m) 0 = zero.

(** ** Sequences of calls *)

(** The number of physics steps a sequence of calls has run since the last
    [reset] (or since the constructor). *)
Fixpoint stepsSince (counted : Z) (ops : list Op) : Z :=
  match ops with
  | [] => counted
  | OpStep n :: rest => stepsSince (counted + Z.max n 0) rest
  | OpReset :: rest => stepsSince 0 rest
  | _ :: rest => stepsSince counted rest
  end.

(** No step of the sequence takes the counter, [counted] before it, beyond
    the largest [int]. *)
Fixpoint countable (counted : Z) (ops : list Op) : bool :=
  match ops with
  | [] => true
  | OpStep n :: rest =>
      (counted + Z.max n 0 <? 2147483648)%Z &&
      countable (counted + Z.max n 0) rest
  | OpReset :: rest => countable 0 rest
  | _ :: rest => countable counted rest
  end.

(** The step counter and the three histories after [n] steps from a fresh
    state: one entry per 100 steps, the last 500 of them. *)
Definition counted (n : Z) (m : Sim) : Prop :=
  stepCount m = n /\
  Z.of_nat (List.length (energy1History m)) = Z.min 500 (n / 100) /\
  List.length (energy2History m) = List.length (energy1History m) /\
  List.length (bridgeHistory m) = List.length (energy1History m).

(** The values the setters store are fixed points of the clamps. *)
Definition settingsStable (m : Sim) : Prop :=
  clampFrequency (frequency (string1 m)) = frequency (string1 m) /\
  clampFrequency (frequency (string2 m)) = frequency (string2 m) /\
  max zero (min f_0_01 (damping (string1 m))) = damping (string1 m) /\
  max zero (min one (bridgeStiffness m)) = bridgeStiffness m.

(** A call whose float arguments are binary32 values. *)
Definition validOp (o : Op) : bool :=
  match o with
  | OpPluck _ position amplitude => valid position && valid amplitude
  | OpSetString1Frequency f | OpSetString2Frequency f => valid f
  | OpSetDamping d => valid d
  | OpSetBridgeStiffness s => valid s
  | _ => true
  end.

(** ** Magnitudes *)

(** A positive normal binary32 number whose exponent lies in [[a, b]]. *)
Definition normalIn (a b : Z) (x : float) : Prop :=
  exists m e, x = S754_finite false m e /\
              Zpos (digits2_pos m) = 24%Z /\ (a <= e <= b)%Z.

(** The tuning of a string whose frequency is a binary32 value. *)
Definition tunedValid (s : StringState) : Prop :=
  tuned s /\ valid (frequency s) = true /\
  density s = f_0_001 /\ length s = one.

(** The coefficients of [stepOnce] are positive normal numbers. *)
Definition coefficientsNormal (m : Sim) : Prop :=
  normalIn (-21) (-9) (tension (string1 m)) /\
  normalIn (-21) (-9) (tension (string2 m)) /\
  normalIn (-21) (-7) (add (tension (string1 m)) (tension (string2 m))) /\
  normalIn (-18) (-10) (waveSpeed (string1 m)) /\
  normalIn (-18) (-10) (waveSpeed (string2 m)) /\
  normalIn (-37) (-11) (courantSq (dt m) (string1 m)) /\
  normalIn (-37) (-11) (courantSq (dt m) (string2 m)).

(** ** A simulation at rest *)

(** [x == 0.0f]: a zero of either sign. *)
Definition isZero (x : float) : bool :=
  match x with S754_zero _ => true | _ => false end.

(** Every cell of an array, or every entry of a history, is a zero. *)
Definition allZero (a : list float) : Prop :=
  forall i, isZero (get a i) = true.

(** A string that does not move and stores no energy. *)
Definition restingString (s : StringState) : Prop :=
  allZero (y s) /\ allZero (y_prev s) /\ allZero (v s) /\
  isZero (kineticEnergy s) = true /\ isZero (potentialEnergy s) = true /\
  isZero (totalEnergy s) = true /\ isZero (forceOnBridge s) = true.

(** A simulation at rest: both strings and the bridge, and nothing but zeros
    in the three histories. *)
Definition resting (m : Sim) : Prop :=
  restingString (string1 m) /\ restingString (string2 m) /\
  isZero (bridgeY m) = true /\ isZero (bridgeV m) = true /\
  allZero (energy1History m) /\ allZero (energy2History m) /\
  allZero (bridgeHistory m).

(** A call that sets nothing in motion: any call but a [pluck] whose
    clamped amplitude is not zero. *)
Definition silentOp (o : Op) : bool :=
  match o with
  | OpPluck _ _ amplitude => isZero (clampAmplitude amplitude)
  | _ => true
  end.

(** The settings of a simulation whose setters were called with binary32
    values. *)
Definition settingsValid (m : Sim) : Prop :=
  valid (damping (string1 m)) = true /\
  isfinite (damping (string1 m)) = true /\
  valid (damping (string2 m)) = true /\
  isfinite (damping (string2 m)) = true /\
  valid (bridgeStiffness m) = true /\
  withinBounds zero one (bridgeStiffness m).

(** The invariant of a simulation that is never plucked. *)
Definition restingInv (m : Sim) : Prop :=
  resting m /\ tunedValid (string1 m) /\ tunedValid (string2 m) /\
  settingsValid m /\ dt m = dt construct.

(** ** Values and rounding, as integers *)

(** The values of the floats as integers: the unit is [2^-SCALE], small
    enough for every binary32 number and every exact product of two. *)
Definition SCALE : Z := 512.

(** The value of a float that is not negative, in units of [2^-SCALE]. *)
Definition valZ (x : float) : Z :=
  match x with
  | S754_finite false m e => Zpos m * 2 ^ (e + SCALE)
  | _ => 0
  end.

(** A binary32 number that is zero or positive. *)
Definition okFloat (x : float) : Prop :=
  valid x = true /\ zeroOrPositive x.

(** The position of [num/den] between [num / den] and the next integer. *)
Definition locOf (num den : Z) : location :=
  if (num mod den =? 0)%Z then loc_Exact
  else loc_Inexact (Z.compare (2 * (num mod den)) den).

(** [num/den] rounded to the nearest integer, ties to even. *)
Definition rneq (num den : Z) : Z :=
  round_nearest_even (num / den) (locOf num den).

(** A shift record that holds the integer part of [num/den] and its
    position. *)
Definition recOK (mrs : shr_record) (num den : Z) : Prop :=
  shr_m mrs = (num / den)%Z /\ loc_of_shr_record mrs = locOf num den.

(** The exponent, in units of [2^-SCALE], of the binary32 grid at [z]. *)
Definition ulpExp (z : Z) : Z := Z.max (Zdigits2 z - 24) (SCALE - 149).

(** The value [z] rounded to binary32, to nearest with ties to even. *)
Definition RND (z : Z) : Z := (rneq z (2 ^ ulpExp z) * 2 ^ ulpExp z)%Z.

(** ** The abscissas of [pluck] *)

(** [2^-118]: from this amplitude on, no product [a*x] of [pluck]
    underflows. *)
Definition f_pow2_m118 : float := S754_finite false 8388608 (-141).

(** What the abscissas [x = i/199] and the differences [1.0f - x] are:
    zero, or normal binary32 numbers of [[2^-8, 1]]. *)
Definition gridSample (x : float) : bool :=
  match x with
  | S754_zero false => true
  | S754_finite false m e =>
      valid x && (8388608 <=? Zpos m)%Z && (-31 <=? e)%Z && leb x one
  | _ => false
  end.

(** * Sympathetic Mini: four Karplus-Strong strings

    A shallow embedding of [generativos/sympathetic-mini/src/main.cpp]
    (the classes [String] and [SympathyMini]).  [int] positions are held in
    [Z], the [uint32_t] state of the noise generator is held in [Z] and
    reduced modulo [2^32]; [delayLine] is a list of [MAX_DELAY] floats.  A
    member function that returns a value returns it beside the state after
    the call. *)

Module Mini.

Definition SAMPLE_RATE : float := f_44100.
Definition NUM_STRINGS : nat := 4.
Definition MAX_DELAY : Z := 2048.

Definition f_0_2 : float := Eval vm_compute in lit 2 10.
Definition f_0_3 : float := Eval vm_compute in lit 3 10.
Definition f_0_4 : float := Eval vm_compute in lit 4 10.
Definition f_0_6 : float := Eval vm_compute in lit 6 10.
Definition f_0_7 : float := Eval vm_compute in lit 7 10.
Definition f_0_03 : float := Eval vm_compute in lit 3 100.
Definition f_0_05 : float := Eval vm_compute in lit 5 100.
Definition f_0_95 : float := Eval vm_compute in lit 95 100.
Definition f_0_995 : float := Eval vm_compute in lit 995 1000.
Definition f_0_999 : float := Eval vm_compute in lit 999 1000.
Definition f_0_9995 : float := Eval vm_compute in lit 9995 10000.
Definition f_329_63 : float := Eval vm_compute in lit 32963 100.
Definition f_493_88 : float := Eval vm_compute in lit 49388 100.
Definition f_m1 : float := Eval vm_compute in neg one.

(** Frequencies of C4, E4, G4 and B4. *)
Definition FREQUENCIES : list float := [f_261_63; f_329_63; f_392_00; f_493_88].

Definition COUPLING : list (list float) :=
  [ [one;   f_0_4; f_0_6; f_0_2];
    [f_0_4; one;   f_0_3; f_0_6];
    [f_0_6; f_0_3; one;   f_0_4];
    [f_0_2; f_0_6; f_0_4; one] ].

(** [COUPLING[src][tgt]] *)
Definition coupling (src tgt : nat) : float := get (nth src COUPLING []) tgt.

(** [std::abs] on a float. *)
Definition abs (x : float) : float := SFabs x.

(** [static_cast<int>(x)]: the integer part of [x]; undefined when [x] is
    NaN or infinite or when the integer part is not an [int]. *)
Definition to_int (x : float) : option Z :=
  match x with
  | S754_zero _ => Some 0%Z
  | S754_finite s m e =>
      let magnitude :=
        match e with
        | Zneg p => (Zpos m / 2 ^ Zpos p)%Z
        | _ => (Zpos m * 2 ^ e)%Z
        end in
      let z := if s then (- magnitude)%Z else magnitude in
      if ((-2147483648 <=? z) && (z <=? 2147483647))%Z then Some z else None
  | _ => None
  end.

(** [static_cast<float>(n)] for a [uint32_t]. *)
Definition of_uint32 (n : Z) : float := of_int n.

(** [static_cast<float>(UINT32_MAX)] *)
Definition f_UINT32_MAX : float := Eval vm_compute in of_uint32 4294967295.

(** ** String *)

Record String := mkStr {
  delayLine : list float;
  writePos : Z;
  delayLength : Z;
  feedback : float;
  prevSample : float;
  energy : float;
  noiseState : Z
}.

(** The default member initializers. *)
Definition String_new : String :=
  {| delayLine := repeat zero (Z.to_nat MAX_DELAY);
     writePos := 0; delayLength := 0;
     feedback := f_0_995; prevSample := zero; energy := zero;
     noiseState := 12345 |}.

(** [String::setFrequency] *)
Definition String_setFrequency (freq : float) (s : String) : option String :=
  match to_int (div SAMPLE_RATE freq) with
  | None => None
  | Some n =>
      let n := if (MAX_DELAY - 1 <? n)%Z then (MAX_DELAY - 1)%Z else n in
      let n := if (n <? 2)%Z then 2%Z else n in
      Some {| delayLine := delayLine s; writePos := writePos s;
              delayLength := n;
              feedback := feedback s; prevSample := prevSample s;
              energy := energy s; noiseState := noiseState s |}
  end.

(** [String::nextNoise]: the state of the generator after the call, and
    the value returned. *)
Definition nextState (state : Z) : Z :=
  ((state * 1103515245 + 12345) mod 4294967296)%Z.

Definition noiseValue (state : Z) : float :=
  sub (mul (div (of_uint32 state) f_UINT32_MAX) two) one.

(** One turn of the loop of [String::pluck] on the pair of the delay line
    and the state of the generator. *)
Definition pluckIter (writePos : Z) (velocity : float)
    (acc : list float * Z) (i : nat) : list float * Z :=
  let '(line, state) := acc in
  let state := nextState state in
  let noise := mul (noiseValue state) velocity in
  let pos := Z.rem (writePos + MAX_DELAY - Z.of_nat i) MAX_DELAY in
  (set line (Z.to_nat pos) noise, state).

(** [String::pluck] *)
Definition String_pluck (velocity : float) (s : String) : String :=
  let '(line, state) :=
    fold_left (pluckIter (writePos s) velocity)
              (seq 0 (Z.to_nat (delayLength s)))
              (delayLine s, noiseState s) in
  {| delayLine := line; writePos := writePos s;
     delayLength := delayLength s;
     feedback := feedback s; prevSample := prevSample s;
     energy := velocity; noiseState := state |}.

(** The position [String::process] reads. *)
Definition readPos (s : String) : Z :=
  Z.rem (writePos s + MAX_DELAY - delayLength s) MAX_DELAY.

(** The safety clamp of [String::process] and the guard that follows it. *)
Definition safeSample (x : float) : float :=
  let x := if ltb one x then one else x in
  let x := if ltb x f_m1 then f_m1 else x in
  if negb (isfinite x) then zero else x.

(** The sample [String::process] writes to the delay line. *)
Definition newSample (excitation : float) (s : String) : float :=
  let sample := get (delayLine s) (Z.to_nat (readPos s)) in
  let filtered := mul (add sample (prevSample s)) half in
  let feedbackSample := mul filtered (feedback s) in
  safeSample (add feedbackSample excitation).

(** The energy follower of [String::process]. *)
Definition newEnergy (sample : float) (energy : float) : float :=
  let energy := mul energy f_0_9995 in
  if ltb energy (abs sample) then abs sample else energy.

(** [String::process]: the sample returned and the string after the
    call. *)
Definition String_process (excitation : float) (s : String) : float * String :=
  let sample := get (delayLine s) (Z.to_nat (readPos s)) in
  (sample,
   {| delayLine := set (delayLine s) (Z.to_nat (writePos s))
                       (newSample excitation s);
      writePos := Z.rem (writePos s + 1) MAX_DELAY;
      delayLength := delayLength s;
      feedback := feedback s;
      prevSample := sample;
      energy := newEnergy sample (energy s);
      noiseState := noiseState s |}).

(** [String::getEnergy] *)
Definition String_getEnergy (s : String) : float := energy s.

(** ** SympathyMini *)

Record SympathyMini := mkSympathyMini {
  strings : list String;
  stringOutputs : list float;
  excitationAccum : list float;
  sympathyAmount : float;
  masterVolume : float;
  gateThreshold : float;
  excitationDecay : float;
  couplingScale : float
}.

(** [strings[i]] *)
Definition stringAt (m : SympathyMini) (i : nat) : String :=
  nth i (strings m) String_new.

(** [a[i] = x] on an array of strings. *)
Fixpoint setAt (a : list String) (i : nat) (x : String) : list String :=
  match a, i with
  | [], _ => []
  | _ :: t, O => x :: t
  | h :: t, S j => h :: setAt t j x
  end.

(** The loop of the constructor. *)
Fixpoint tuneAll (freqs : list float) (ss : list String) : option (list String) :=
  match freqs, ss with
  | f :: freqs, s :: ss =>
      match String_setFrequency f s, tuneAll freqs ss with
      | Some s', Some ss' => Some (s' :: ss')
      | _, _ => None
      end
  | _, _ => Some ss
  end.

(** [SympathyMini::SympathyMini()] *)
Definition construct : option SympathyMini :=
  match tuneAll FREQUENCIES (repeat String_new NUM_STRINGS) with
  | None => None
  | Some ss =>
      Some {| strings := ss;
              stringOutputs := repeat zero NUM_STRINGS;
              excitationAccum := repeat zero NUM_STRINGS;
              sympathyAmount := f_0_3;
              masterVolume := f_0_7;
              gateThreshold := f_0_01;
              excitationDecay := f_0_9;
              couplingScale := f_0_03 |}
  end.

Definition withStrings (m : SympathyMini) (ss : list String) : SympathyMini :=
  {| strings := ss;
     stringOutputs := stringOutputs m;
     excitationAccum := excitationAccum m;
     sympathyAmount := sympathyAmount m;
     masterVolume := masterVolume m;
     gateThreshold := gateThreshold m;
     excitationDecay := excitationDecay m;
     couplingScale := couplingScale m |}.

(** [SympathyMini::pluck] *)
Definition pluck (stringIndex : Z) (velocity : float) (m : SympathyMini)
  : SympathyMini :=
  if ((0 <=? stringIndex) && (stringIndex <? Z.of_nat NUM_STRINGS))%Z
  then
    let i := Z.to_nat stringIndex in
    withStrings m (setAt (strings m) i (String_pluck velocity (stringAt m i)))
  else m.

(** [SympathyMini::setSympatheticAmount] *)
Definition setSympatheticAmount (amount : float) (m : SympathyMini)
  : SympathyMini :=
  {| strings := strings m; stringOutputs := stringOutputs m;
     excitationAccum := excitationAccum m;
     sympathyAmount := max zero (min one amount);
     masterVolume := masterVolume m;
     gateThreshold := gateThreshold m;
     excitationDecay := excitationDecay m;
     couplingScale := couplingScale m |}.

(** [SympathyMini::setMasterVolume] *)
Definition setMasterVolume (vol : float) (m : SympathyMini) : SympathyMini :=
  {| strings := strings m; stringOutputs := stringOutputs m;
     excitationAccum := excitationAccum m;
     sympathyAmount := sympathyAmount m;
     masterVolume := max zero (min one vol);
     gateThreshold := gateThreshold m;
     excitationDecay := excitationDecay m;
     couplingScale := couplingScale m |}.

(** [SympathyMini::setGateThreshold] *)
Definition setGateThreshold (val : float) (m : SympathyMini) : SympathyMini :=
  {| strings := strings m; stringOutputs := stringOutputs m;
     excitationAccum := excitationAccum m;
     sympathyAmount := sympathyAmount m;
     masterVolume := masterVolume m;
     gateThreshold := max zero (min f_0_1 val);
     excitationDecay := excitationDecay m;
     couplingScale := couplingScale m |}.

(** [SympathyMini::setExcitationDecay] *)
Definition setExcitationDecay (val : float) (m : SympathyMini) : SympathyMini :=
  {| strings := strings m; stringOutputs := stringOutputs m;
     excitationAccum := excitationAccum m;
     sympathyAmount := sympathyAmount m;
     masterVolume := masterVolume m;
     gateThreshold := gateThreshold m;
     excitationDecay := max half (min f_0_999 val);
     couplingScale := couplingScale m |}.

(** [SympathyMini::setCouplingScale] *)
Definition setCouplingScale (val : float) (m : SympathyMini) : SympathyMini :=
  {| strings := strings m; stringOutputs := stringOutputs m;
     excitationAccum := excitationAccum m;
     sympathyAmount := sympathyAmount m;
     masterVolume := masterVolume m;
     gateThreshold := gateThreshold m;
     excitationDecay := excitationDecay m;
     couplingScale := max f_0_001 (min f_0_2 val) |}.

(** The inner loop over the targets of one source. *)
Definition exciteFrom (m : SympathyMini) (scale : float) (src : nat)
    (excitation : list float) (tgt : nat) : list float :=
  if (src =? tgt)%nat then excitation
  else set excitation tgt
         (add (get excitation tgt)
              (mul (mul (get (stringOutputs m) src) (coupling src tgt)) scale)).

(** The loop over the sources: a source below the gate is skipped. *)
Definition exciteAll (m : SympathyMini) (scale : float)
    (excitation : list float) (src : nat) : list float :=
  if ltb (String_getEnergy (stringAt m src)) (gateThreshold m)
  then excitation
  else fold_left (exciteFrom m scale src) (seq 0 NUM_STRINGS) excitation.

(** The array [excitation] of one sample. *)
Definition excitationOf (m : SympathyMini) : list float :=
  let scale := mul (sympathyAmount m) (couplingScale m) in
  fold_left (exciteAll m scale) (seq 0 NUM_STRINGS) (repeat zero NUM_STRINGS).

(** The clamp of the smoothed excitation. *)
Definition clampAccum (x : float) : float :=
  let x := if ltb f_0_1 x then f_0_1 else x in
  if ltb x (neg f_0_1) then neg f_0_1 else x.

(** The smoothed excitation of string [s]. *)
Definition smooth (m : SympathyMini) (excitation : list float) (s : nat) : float :=
  let blend := sub one (excitationDecay m) in
  clampAccum (add (mul (get (excitationAccum m) s) (excitationDecay m))
                  (mul (get excitation s) blend)).

(** [static_cast<float>(s) / (NUM_STRINGS - 1)] *)
Definition pan (s : nat) : float :=
  div (of_int (Z.of_nat s)) (of_int (Z.of_nat (NUM_STRINGS - 1))).

(** One turn of the mixing loop on [(left, right)]. *)
Definition mixIter (outputs : list float) (acc : float * float) (s : nat)
  : float * float :=
  let '(left_, right_) := acc in
  (add left_ (mul (get outputs s) (sub one (pan s))),
   add right_ (mul (get outputs s) (pan s))).

(** One turn of the loop of [SympathyMini::process], up to the master
    volume: the state after it and the pair [(left, right)] before the soft
    clip. *)
Definition processSample (m : SympathyMini) : SympathyMini * (float * float) :=
  let accum := map (smooth m (excitationOf m)) (seq 0 NUM_STRINGS) in
  let processed :=
    map (fun s => String_process (get accum s) (stringAt m s))
        (seq 0 NUM_STRINGS) in
  let outputs := map fst processed in
  let '(left_, right_) :=
    fold_left (mixIter outputs) (seq 0 NUM_STRINGS) (zero, zero) in
  ({| strings := map snd processed;
      stringOutputs := outputs;
      excitationAccum := accum;
      sympathyAmount := sympathyAmount m;
      masterVolume := masterVolume m;
      gateThreshold := gateThreshold m;
      excitationDecay := excitationDecay m;
      couplingScale := couplingScale m |},
   (mul left_ (masterVolume m), mul right_ (masterVolume m))).

Section SoftClip.

(** [std::tanh] on floats is a function of the C library: the model takes
    it as a parameter. *)
Variable tanh : float -> float.

(** The soft clip of one channel. *)
Definition softClip (x : float) : float :=
  let x :=
    if ltb f_0_95 x then add f_0_95 (mul (tanh (sub x f_0_95)) f_0_05) else x in
  if ltb x (neg f_0_95)
  then add (neg f_0_95) (mul (tanh (add x f_0_95)) f_0_05)
  else x.

(** The loop of [SympathyMini::process]: the state after [n] samples and the
    interleaved samples written to [output]. *)
Fixpoint processLoop (n : nat) (m : SympathyMini) : SympathyMini * list float :=
  match n with
  | O => (m, [])
  | S k =>
      let '(m1, (left_, right_)) := processSample m in
      let '(m2, rest) := processLoop k m1 in
      (m2, softClip left_ :: softClip right_ :: rest)
  end.

(** [SympathyMini::process]: no result when [numSamples * 2] is not the
    size of a vector. *)
Definition process (numSamples : Z) (m : SympathyMini)
  : option (SympathyMini * list float) :=
  if ((0 <=? numSamples) && (numSamples <=? 1073741823))%Z
  then Some (processLoop (Z.to_nat numSamples) m)
  else None.

End SoftClip.

(** [SympathyMini::getEnergies] *)
Definition getEnergies (m : SympathyMini) : list float :=
  map (fun i => String_getEnergy (stringAt m i)) (seq 0 NUM_STRINGS).

End Mini.

(** ** Vocabulary of the statements on the synthesizer *)

(** A well-formed string: [MAX_DELAY] cells, a write position inside the
    line and a delay length in the range [setFrequency] leaves. *)
Definition wfDelay (s : Mini.String) : Prop :=
  List.length (Mini.delayLine s) = 2048 /\
  (0 <= Mini.writePos s < 2048)%Z /\
  (2 <= Mini.delayLength s <= 2047)%Z.

(** The samples [process] returns for a list of excitations, one call per
    excitation, and the string after the calls. *)
Fixpoint processMany (excitations : list float) (s : Mini.String)
  : list float * Mini.String :=
  match excitations with
  | [] => ([], s)
  | e :: rest =>
      let '(sample, s1) := Mini.String_process e s in
      let '(samples, s2) := processMany rest s1 in
      (sample :: samples, s2)
  end.

(** All the fields of a string but [delayLength]. *)
Definition sameButDelayLength (s s' : Mini.String) : Prop :=
  Mini.delayLine s' = Mini.delayLine s /\ Mini.writePos s' = Mini.writePos s /\
  Mini.feedback s' = Mini.feedback s /\ Mini.prevSample s' = Mini.prevSample s /\
  Mini.energy s' = Mini.energy s /\ Mini.noiseState s' = Mini.noiseState s.

(** The state of the noise generator after [k] draws. *)
Definition draws (k : nat) (state : Z) : Z := Nat.iter k Mini.nextState state.

(** The cell the [i]-th turn of the loop of [String::pluck] writes. *)
Definition pluckPos (s : Mini.String) (i : nat) : nat :=
  Z.to_nat ((Mini.writePos s + 2048 - Z.of_nat i) mod 2048).

(** What [String::pluck] leaves alone. *)
Definition sameButLine (s s' : Mini.String) : Prop :=
  Mini.writePos s' = Mini.writePos s /\
  Mini.delayLength s' = Mini.delayLength s /\
  Mini.feedback s' = Mini.feedback s /\
  Mini.prevSample s' = Mini.prevSample s.

(** The parameters of the synthesizer and what the last sample left. *)
Definition sameButStringsMini (m m' : Mini.SympathyMini) : Prop :=
  Mini.stringOutputs m' = Mini.stringOutputs m /\
  Mini.excitationAccum m' = Mini.excitationAccum m /\
  Mini.sympathyAmount m' = Mini.sympathyAmount m /\
  Mini.masterVolume m' = Mini.masterVolume m /\
  Mini.gateThreshold m' = Mini.gateThreshold m /\
  Mini.excitationDecay m' = Mini.excitationDecay m /\
  Mini.couplingScale m' = Mini.couplingScale m.

(** The parameters of the synthesizer. *)
Definition sameSettings (m m' : Mini.SympathyMini) : Prop :=
  Mini.sympathyAmount m' = Mini.sympathyAmount m /\
  Mini.masterVolume m' = Mini.masterVolume m /\
  Mini.gateThreshold m' = Mini.gateThreshold m /\
  Mini.excitationDecay m' = Mini.excitationDecay m /\
  Mini.couplingScale m' = Mini.couplingScale m.

(** [process(a)] followed by [process(b)], the two outputs one after the
    other. *)
Definition processTwice (tanh : float -> float) (a b : Z) (m : Mini.SympathyMini)
  : option (Mini.SympathyMini * list float) :=
  match Mini.process tanh a m with
  | None => None
  | Some (m1, out1) =>
      match Mini.process tanh b m1 with
      | None => None
      | Some (m2, out2) => Some (m2, out1 ++ out2)
      end
  end.

(** A fresh synthesizer: what the constructor builds. *)
Definition freshMini : Mini.SympathyMini :=
  Mini.mkSympathyMini
    (map (fun n => Mini.mkStr (repeat zero 2048) 0 n Mini.f_0_995 zero zero 12345)
         [168; 133; 112; 89]%Z)
    (repeat zero 4) (repeat zero 4)
    Mini.f_0_3 Mini.f_0_7 f_0_01 f_0_9 Mini.f_0_03.

(** A finite number whose sign bit is clear. *)
Definition finiteNotNegative (x : float) : Prop :=
  isfinite x = true /\ signBit x = Some false.

(** A string at rest: every cell of the delay line, the filter state and
    the energy are [0.0f]. *)
Definition stringAtRest (s : Mini.String) : Prop :=
  Mini.delayLine s = repeat zero 2048 /\
  (0 <= Mini.writePos s < 2048)%Z /\
  Mini.feedback s = Mini.f_0_995 /\
  Mini.prevSample s = zero /\ Mini.energy s = zero.

(** A synthesizer at rest, with parameters as the setters leave them: finite
    and not negative. *)
Definition atRest (m : Mini.SympathyMini) : Prop :=
  (forall s, s < 4 -> stringAtRest (Mini.stringAt m s)) /\
  Mini.stringOutputs m = repeat zero 4 /\
  Mini.excitationAccum m = repeat zero 4 /\
  isfinite (mul (Mini.sympathyAmount m) (Mini.couplingScale m)) = true /\
  finiteNotNegative (Mini.excitationDecay m) /\
  isfinite (sub one (Mini.excitationDecay m)) = true /\
  finiteNotNegative (Mini.masterVolume m).

(** * Facts on binary32 *)

(** ** Digits and shifts *)

(** The number of binary digits brackets the number. *)
Lemma digits2_pos_bounds (m : positive) :
  (2 ^ (Zpos (digits2_pos m) - 1) <= Zpos m < 2 ^ Zpos (digits2_pos m))%Z.
Proof.
  induction m as [m IH | m IH |]; cbn [digits2_pos].
  - rewrite Pos2Z.inj_succ.
    replace (Z.succ (Zpos (digits2_pos m)) - 1)%Z with (Zpos (digits2_pos m)) by lia.
    rewrite Z.pow_succ_r by lia.
    replace (Zpos (digits2_pos m)) with (Z.succ (Zpos (digits2_pos m) - 1)) at 1 by lia.
    rewrite Z.pow_succ_r by lia. lia.
  - rewrite Pos2Z.inj_succ.
    replace (Z.succ (Zpos (digits2_pos m)) - 1)%Z with (Zpos (digits2_pos m)) by lia.
    rewrite Z.pow_succ_r by lia.
    replace (Zpos (digits2_pos m)) with (Z.succ (Zpos (digits2_pos m) - 1)) at 1 by lia.
    rewrite Z.pow_succ_r by lia. lia.
  - cbn. lia.
Qed.

Lemma digits2_pos_le (m : positive) (k : Z) :
  (0 <= k)%Z -> (Zpos m < 2 ^ k)%Z -> (Zpos (digits2_pos m) <= k)%Z.
Proof.
  intros Hk Hm. pose proof (digits2_pos_bounds m) as [Hlo _].
  assert (H : (2 ^ (Zpos (digits2_pos m) - 1) < 2 ^ k)%Z)
    by (eapply Z.le_lt_trans; eassumption).
  apply Z.pow_lt_mono_r_iff in H; lia.
Qed.

Lemma digits2_pos_iter_xO (m n : positive) :
  Zpos (digits2_pos (Pos.iter xO m n)) = (Zpos (digits2_pos m) + Zpos n)%Z.
Proof.
  induction n as [|n IH] using Pos.peano_ind.
  - cbn [Pos.iter digits2_pos]. lia.
  - rewrite Pos.iter_succ. cbn [digits2_pos].
    rewrite Pos2Z.inj_succ, IH. lia.
Qed.

Lemma iter_xO_pow (m d : positive) :
  Zpos (Pos.iter xO m d) = (Zpos m * 2 ^ Zpos d)%Z.
Proof.
  induction d as [|d IH] using Pos.peano_ind.
  - cbn [Pos.iter]. rewrite Z.pow_1_r. lia.
  - rewrite Pos.iter_succ, Pos2Z.inj_xO, IH, Pos2Z.inj_succ.
    rewrite Z.pow_succ_r by lia. ring.
Qed.

(** One step of the right shift halves the mantissa. *)
Lemma shr_1_m mrs : (0 <= shr_m mrs)%Z -> shr_m (shr_1 mrs) = (shr_m mrs / 2)%Z.
Proof.
  destruct mrs as [m r s]. cbn [shr_m]. intros Hm.
  destruct m as [|p|p]; [reflexivity | | lia].
  destruct p as [p|p|]; cbn [shr_1 shr_m].
  - rewrite Pos2Z.inj_xI. apply Z.div_unique with (r := 1%Z); lia.
  - rewrite Pos2Z.inj_xO. apply Z.div_unique with (r := 0%Z); lia.
  - reflexivity.
Qed.

Lemma iter_shr_1_m (p : positive) : forall mrs,
  (0 <= shr_m mrs)%Z ->
  shr_m (iter_pos shr_1 p mrs) = (shr_m mrs / 2 ^ Zpos p)%Z.
Proof.
  induction p as [p IH | p IH |]; intros mrs Hm; cbn [iter_pos].
  - assert (H1 : (0 <= shr_m (shr_1 mrs))%Z)
      by (rewrite shr_1_m by exact Hm; apply Z.div_pos; lia).
    assert (H2 : (0 <= shr_m (iter_pos shr_1 p (shr_1 mrs)))%Z)
      by (rewrite IH by exact H1; apply Z.div_pos; [exact H1 | lia]).
    rewrite IH by exact H2. rewrite IH by exact H1. rewrite shr_1_m by exact Hm.
    rewrite !Z.div_div by lia. f_equal.
    replace (Zpos p~1) with (1 + Zpos p + Zpos p)%Z by lia.
    rewrite !Z.pow_add_r by lia. rewrite Z.pow_1_r. ring.
  - assert (H2 : (0 <= shr_m (iter_pos shr_1 p mrs))%Z)
      by (rewrite IH by exact Hm; apply Z.div_pos; [exact Hm | lia]).
    rewrite IH by exact H2. rewrite IH by exact Hm.
    rewrite !Z.div_div by lia. f_equal.
    replace (Zpos p~0) with (Zpos p + Zpos p)%Z by lia.
    rewrite !Z.pow_add_r by lia. ring.
  - rewrite shr_1_m by exact Hm. now rewrite Z.pow_1_r.
Qed.

(** Shifting a positive mantissa down to the format's precision leaves a
    positive mantissa, provided the exponent is not below [emin]. *)
Lemma shr_fexp_pos (m e : Z) (l : location) :
  (0 < m)%Z -> (emin prec emax <= e)%Z ->
  (0 < shr_m (fst (shr_fexp prec emax m e l)))%Z /\
  (emin prec emax <= snd (shr_fexp prec emax m e l))%Z.
Proof.
  intros Hm He. unfold shr_fexp, shr.
  assert (Hrec : shr_m (shr_record_of_loc m l) = m)
    by (destruct l as [|[| |]]; reflexivity).
  destruct m as [|p|p]; try lia. cbn [Zdigits2].
  pose proof (digits2_pos_bounds p) as [Hlo _].
  set (d := Zpos (digits2_pos p)) in *.
  destruct (fexp prec emax (d + e) - e)%Z as [|n|n] eqn:En; cbn [fst snd].
  - rewrite Hrec. lia.
  - rewrite iter_shr_1_m by (rewrite Hrec; lia). rewrite Hrec.
    unfold fexp in En. change prec with 24%Z in *.
    assert (Hn : (Zpos n = d - 24)%Z) by lia.
    split; [|lia].
    apply Z.div_str_pos. split; [apply Z.pow_pos_nonneg; lia|].
    eapply Z.le_trans; [|exact Hlo].
    apply Z.pow_le_mono_r; lia.
  - rewrite Hrec. lia.
Qed.

Lemma shr_fexp_nonneg m e l :
  (0 <= m)%Z -> (0 <= shr_m (fst (shr_fexp prec emax m e l)))%Z.
Proof.
  intros Hm. unfold shr_fexp, shr.
  assert (Hrec : shr_m (shr_record_of_loc m l) = m)
    by (destruct l as [|[| |]]; reflexivity).
  destruct (fexp prec emax (Zdigits2 m + e) - e)%Z as [|n|n]; cbn [fst];
    try (rewrite Hrec; exact Hm).
  rewrite iter_shr_1_m by (rewrite Hrec; exact Hm). rewrite Hrec.
  apply Z.div_pos; [exact Hm | apply Z.pow_pos_nonneg; lia].
Qed.

(** The exponent after the shift. *)
Lemma shr_fexp_snd m e l :
  snd (shr_fexp prec emax m e l) =
  Z.max e (fexp prec emax (Zdigits2 m + e)).
Proof.
  unfold shr_fexp, shr.
  destruct (fexp prec emax (Zdigits2 m + e) - e)%Z eqn:E; cbn [snd]; lia.
Qed.

(** An exact mantissa that needs no shift goes through unchanged. *)
Lemma shr_fexp_exact m e :
  (fexp prec emax (Zdigits2 m + e) <= e)%Z ->
  shr_fexp prec emax m e loc_Exact =
  ({| shr_m := m; shr_r := false; shr_s := false |}, e).
Proof.
  intros H. unfold shr_fexp, shr.
  destruct (fexp prec emax (Zdigits2 m + e) - e)%Z eqn:E; try reflexivity. lia.
Qed.

(** The mantissa after the shift, when a shift takes place, has [prec]
    digits at most. *)
Lemma shr_fexp_digits m e l :
  (emin prec emax <= e)%Z ->
  (e < fexp prec emax (Zpos (digits2_pos m) + e))%Z ->
  (0 < shr_m (fst (shr_fexp prec emax (Zpos m) e l)) < 2 ^ prec)%Z /\
  snd (shr_fexp prec emax (Zpos m) e l) = (Zpos (digits2_pos m) + e - prec)%Z.
Proof.
  intros He Hf.
  pose proof (shr_fexp_pos l (Pos2Z.is_pos m) He) as [Hpos _].
  split; [split; [exact Hpos|] |].
  - unfold shr_fexp, shr. cbn [Zdigits2].
    assert (Hrec : shr_m (shr_record_of_loc (Zpos m) l) = Zpos m)
      by (destruct l as [|[| |]]; reflexivity).
    pose proof (digits2_pos_bounds m) as [_ Hup].
    set (d := Zpos (digits2_pos m)) in *.
    unfold fexp, emin in *. change prec with 24%Z in *.
    change emax with 128%Z in *.
    destruct (Z.max (d + e - 24) (3 - 128 - 24) - e)%Z as [|n|n] eqn:En;
      try lia.
    cbn [fst]. rewrite iter_shr_1_m by (rewrite Hrec; lia). rewrite Hrec.
    assert (Hn : (Zpos n = d - 24)%Z) by lia.
    apply Z.div_lt_upper_bound; [apply Z.pow_pos_nonneg; lia|].
    rewrite <- Z.pow_add_r by lia.
    replace (Zpos n + 24)%Z with d by lia. exact Hup.
  - rewrite shr_fexp_snd. cbn [Zdigits2].
    unfold fexp, emin in *. change prec with 24%Z in *.
    change emax with 128%Z in *. lia.
Qed.

Lemma round_nearest_even_ge m l : (m <= round_nearest_even m l)%Z.
Proof.
  destruct l as [|[| |]]; cbn [round_nearest_even]; try lia.
  destruct (Z.even m); lia.
Qed.

Lemma round_nearest_even_le m l : (round_nearest_even m l <= m + 1)%Z.
Proof.
  destruct l as [|[| |]]; cbn [round_nearest_even]; try lia.
  destruct (Z.even m); lia.
Qed.

(** ** Rounding *)

Lemma binary_round_aux_sign s m e l :
  signBit (binary_round_aux prec emax s m e l) = None \/
  signBit (binary_round_aux prec emax s m e l) = Some s.
Proof.
  unfold binary_round_aux.
  destruct (shr_fexp prec emax m e l) as [mrs' e'].
  destruct (shr_fexp prec emax _ e' loc_Exact) as [mrs'' e''].
  destruct (shr_m mrs''); [right | | left]; try reflexivity.
  destruct (e'' <=? emax - prec)%Z; right; reflexivity.
Qed.

(** Rounding a mantissa that is not negative never gives NaN. *)
Lemma binary_round_aux_nonneg s m e l :
  (0 <= m)%Z -> signBit (binary_round_aux prec emax s m e l) = Some s.
Proof.
  intros Hm. unfold binary_round_aux.
  pose proof (shr_fexp_nonneg e l Hm) as H1.
  destruct (shr_fexp prec emax m e l) as [mrs' e']. cbn [fst] in H1.
  pose proof (round_nearest_even_ge (shr_m mrs') (loc_of_shr_record mrs')) as Hr.
  set (m1 := round_nearest_even (shr_m mrs') (loc_of_shr_record mrs')) in *.
  assert (Hm1 : (0 <= m1)%Z) by lia.
  pose proof (shr_fexp_nonneg e' loc_Exact Hm1) as H2.
  destruct (shr_fexp prec emax m1 e' loc_Exact) as [mrs'' e'']. cbn [fst] in H2.
  destruct (shr_m mrs'') as [|q|q]; try lia; try reflexivity.
  now destruct (e'' <=? emax - prec)%Z.
Qed.

(** A mantissa already aligned on its exponent is returned as it is. *)
Lemma binary_round_aux_aligned s m e :
  fexp prec emax (Zpos (digits2_pos m) + e) = e ->
  binary_round_aux prec emax s (Zpos m) e loc_Exact =
  if (e <=? emax - prec)%Z then S754_finite s m e else S754_infinity s.
Proof.
  intros H. unfold binary_round_aux.
  rewrite shr_fexp_exact by (cbn [Zdigits2]; lia).
  cbn [shr_m loc_of_shr_record round_nearest_even].
  rewrite shr_fexp_exact by (cbn [Zdigits2]; lia).
  reflexivity.
Qed.

(** A positive number below [2^127] whose exponent is not below [emin]
    rounds to a finite number. *)
Lemma binary_round_finite s m e :
  (emin prec emax <= e)%Z -> (Zpos (digits2_pos m) + e <= 127)%Z ->
  exists m' e', binary_round prec emax s m e = S754_finite s m' e'.
Proof.
  intros He Hd. unfold binary_round, shl_align.
  set (d := Zpos (digits2_pos m)) in *.
  assert (Hfe : (fexp prec emax (d + e) <= 103)%Z).
  { unfold fexp, emin. change prec with 24%Z. change emax with 128%Z. lia. }
  destruct (fexp prec emax (d + e) - e)%Z as [|n|n] eqn:En.
  - rewrite binary_round_aux_aligned by (fold d; lia).
    replace (e <=? emax - prec)%Z with true; [eauto|].
    symmetry. apply Z.leb_le. change (emax - prec)%Z with 104%Z. lia.
  - unfold binary_round_aux.
    assert (Hlt : (e < fexp prec emax (Zpos (digits2_pos m) + e))%Z)
      by (fold d; lia).
    pose proof (@shr_fexp_digits m e loc_Exact He Hlt) as [[H1 H2] H3].
    destruct (shr_fexp prec emax (Zpos m) e loc_Exact) as [mrs' e'].
    cbn [fst snd] in *. fold d in H3.
    pose proof (round_nearest_even_ge (shr_m mrs') (loc_of_shr_record mrs')) as Hge.
    pose proof (round_nearest_even_le (shr_m mrs') (loc_of_shr_record mrs')) as Hle.
    set (m1 := round_nearest_even (shr_m mrs') (loc_of_shr_record mrs')) in *.
    assert (He' : (emin prec emax <= e')%Z).
    { unfold fexp, emin in *. change prec with 24%Z in *.
      change emax with 128%Z in *. lia. }
    assert (Hm1 : (0 < m1)%Z) by lia.
    pose proof (shr_fexp_pos loc_Exact Hm1 He') as [H4 _].
    pose proof (shr_fexp_snd m1 e' loc_Exact) as H5.
    destruct (shr_fexp prec emax m1 e' loc_Exact) as [mrs'' e''].
    cbn [fst snd] in *.
    destruct m1 as [|q|q] eqn:Em1; try lia. cbn [Zdigits2] in H5.
    assert (Hq : (Zpos (digits2_pos q) <= 25)%Z).
    { apply digits2_pos_le; [lia|]. change prec with 24%Z in H2.
      change (2 ^ 24)%Z with 16777216%Z in H2.
      change (2 ^ 25)%Z with 33554432%Z. lia. }
    destruct (shr_m mrs'') as [|r|r]; try lia.
    replace (e'' <=? emax - prec)%Z with true; [eauto|].
    symmetry. apply Z.leb_le. change (emax - prec)%Z with 104%Z.
    unfold fexp, emin in *. change prec with 24%Z in *.
    change emax with 128%Z in *. lia.
  - rewrite binary_round_aux_aligned.
    + replace (fexp prec emax (d + e) <=? emax - prec)%Z with true; [eauto|].
      symmetry. apply Z.leb_le. change (emax - prec)%Z with 104%Z. lia.
    + rewrite digits2_pos_iter_xO. fold d.
      replace (d + Zpos n + fexp prec emax (d + e))%Z with (d + e)%Z by lia.
      unfold fexp, emin. change prec with 24%Z. change emax with 128%Z.
      unfold fexp, emin in En. change prec with 24%Z in En.
      change emax with 128%Z in En. lia.
Qed.

(** ** Signs of sums, products and quotients *)

(** The sign of a product is the exclusive or of the signs. *)
Lemma mul_sign x y sx sy :
  signBit x = Some sx -> signBit y = Some sy ->
  signBit (mul x y) = None \/ signBit (mul x y) = Some (xorb sx sy).
Proof.
  intros Hx Hy.
  destruct x as [s1|s1| |s1 m1 e1]; try discriminate;
    destruct y as [s2|s2| |s2 m2 e2]; try discriminate;
    cbn in Hx, Hy; injection Hx as <-; injection Hy as <-;
    cbn [mul SFmul signBit]; auto.
  apply binary_round_aux_sign.
Qed.

(** [(c*x)*x] has the sign of [c], whatever [x] is. *)
Lemma mul_mul_sign c x sc :
  signBit c = Some sc ->
  signBit (mul (mul c x) x) = None \/ signBit (mul (mul c x) x) = Some sc.
Proof.
  intros Hc.
  destruct (signBit x) as [sx|] eqn:Hx.
  - destruct (@mul_sign c x _ _ Hc Hx) as [H | H].
    + left. destruct (mul c x); try discriminate. reflexivity.
    + destruct (@mul_sign (mul c x) x _ _ H Hx) as [H' | H']; [auto|].
      right. rewrite H'. f_equal. now destruct sc, sx.
  - left. destruct x; try discriminate.
    destruct (mul c S754_nan) eqn:E; try reflexivity;
      destruct c; discriminate.
Qed.

Lemma mul_notNegative_l c x :
  notNegative c -> signBit x = Some false -> notNegative (mul c x).
Proof.
  intros [Hc | Hc] Hx.
  - left. destruct c; try discriminate. reflexivity.
  - destruct (@mul_sign c x _ _ Hc Hx) as [H | H]; [left | right]; exact H.
Qed.

Lemma mul_notNegative_r c x :
  signBit c = Some false -> notNegative x -> notNegative (mul c x).
Proof.
  intros Hc [Hx | Hx].
  - left. destruct x; try discriminate. now destruct c.
  - destruct (@mul_sign c x _ _ Hc Hx) as [H | H]; [left | right]; exact H.
Qed.

Lemma mul_mul_notNegative c x :
  notNegative c -> notNegative (mul (mul c x) x).
Proof.
  intros [Hc | Hc].
  - left. destruct c; try discriminate. reflexivity.
  - apply (@mul_mul_sign c x _ Hc).
Qed.

(** A sum of two numbers that are not negative is not negative. *)
Lemma add_notNegative x y : notNegative x -> notNegative y -> notNegative (add x y).
Proof.
  unfold notNegative.
  intros [Hx | Hx] [Hy | Hy];
    destruct x as [s1|s1| |s1 m1 e1]; try discriminate;
    destruct y as [s2|s2| |s2 m2 e2]; try discriminate;
    cbn in Hx, Hy; try (injection Hx as ->); try (injection Hy as ->);
    cbn [add SFadd signBit]; auto.
  unfold binary_normalize, cond_Zopp.
  match goal with
  | |- context [(Zpos ?a + Zpos ?b)%Z] =>
      change (Zpos a + Zpos b)%Z with (Zpos (a + b))
  end.
  unfold binary_round.
  destruct (shl_align _ _ _) as [mz ez].
  apply binary_round_aux_sign.
Qed.

(** A number that is not negative is NaN or compares [>= 0]. *)
Lemma notNegative_leb x : notNegative x -> x = S754_nan \/ leb zero x = true.
Proof.
  intros [H | H]; destruct x as [s|s| |s m e]; try discriminate; auto;
    cbn in H; injection H as ->; right; reflexivity.
Qed.

Lemma notNegative_number_leb x : signBit x = Some false -> leb zero x = true.
Proof.
  destruct x as [s|s| |s m e]; try discriminate;
    intros H; cbn in H; injection H as ->; reflexivity.
Qed.

Lemma signBit_half : signBit half = Some false.
Proof. reflexivity. Qed.

Lemma signBit_dx : signBit dx = Some false.
Proof. reflexivity. Qed.

Lemma notNegative_zero : notNegative zero.
Proof. right. reflexivity. Qed.

Lemma fold_add_notNegative (f : nat -> float) l : forall acc,
  notNegative acc -> (forall i, notNegative (f i)) ->
  notNegative (fold_left (fun a i => add a (f i)) l acc).
Proof.
  induction l as [|i l IH]; intros acc Ha Hf; cbn [fold_left]; [exact Ha|].
  apply IH; [|exact Hf]. apply add_notNegative; auto.
Qed.

Lemma isZeroOrPositive_spec x : isZeroOrPositive x = true -> zeroOrPositive x.
Proof.
  destruct x as [[|]|s| |[|] m e]; try discriminate; intros _;
    [left; reflexivity | right; eauto].
Qed.

Lemma mul_zeroOrPositive x y :
  zeroOrPositive x -> zeroOrPositive y -> signBit (mul x y) = Some false.
Proof.
  intros [-> | (mx & ex & ->)] [-> | (my & ey & ->)]; try reflexivity.
  cbn [mul SFmul xorb]. apply binary_round_aux_nonneg. lia.
Qed.

Lemma div_eucl_nonneg a b :
  (0 <= a)%Z -> (0 < b)%Z -> (0 <= fst (Z.div_eucl a b))%Z.
Proof.
  intros Ha Hb. change (fst (Z.div_eucl a b)) with (a / b)%Z.
  apply Z.div_pos; assumption.
Qed.

Lemma div_positive n md ed :
  signBit n = Some false ->
  signBit (div n (S754_finite false md ed)) = Some false.
Proof.
  intros Hn. destruct n as [s|s| |s mn en]; try discriminate;
    cbn in Hn; injection Hn as ->; try reflexivity.
  unfold div, SFdiv, SFdiv_core_binary. cbv zeta.
  match goal with
  | |- context [Z.div_eucl ?a ?b] =>
      pose proof (@div_eucl_nonneg a b) as Hq;
      destruct (Z.div_eucl a b) as [q r]
  end.
  cbn [fst xorb] in *. apply binary_round_aux_nonneg. apply Hq; [|lia].
  match goal with
  | |- (0 <= match ?s with _ => _ end)%Z => destruct s; try lia
  end.
  apply Z.shiftl_nonneg. lia.
Qed.

(** ** Comparison and multiplication by 1.0 *)

(** [x == x] holds for every finite [x]. *)
Lemma eqb_refl_finite x : isfinite x = true -> eqb x x = true.
Proof.
  destruct x as [s | s | | s m e]; try discriminate; intros _; try reflexivity.
  unfold eqb, SFeqb, SFcompare.
  rewrite Z.compare_refl, Pos.compare_cont_refl. now destruct s.
Qed.

(** Two finite numbers that compare equal are the same number. *)
Lemma compare_Eq_finite s m e s' m' e' :
  SFcompare (S754_finite s m e) (S754_finite s' m' e') = Some Eq ->
  S754_finite s m e = S754_finite s' m' e'.
Proof.
  cbn [SFcompare]. intros H. injection H as H.
  destruct s, s'; try discriminate;
    destruct (Z.compare e e') eqn:Ee; try discriminate;
    apply Z.compare_eq in Ee; subst e';
    destruct (Pos.compare_cont Eq m m') eqn:Em; try discriminate;
    apply Pos.compare_eq in Em; subst m'; reflexivity.
Qed.

Lemma valid_finite s m e :
  valid (S754_finite s m e) = true ->
  fexp prec emax (Zpos (digits2_pos m) + e) = e /\ (e <= emax - prec)%Z.
Proof.
  unfold valid, valid_binary, bounded, canonical_mantissa.
  intros H. apply andb_prop in H as [H1 H2].
  apply Z.eqb_eq in H1. apply Z.leb_le in H2. auto.
Qed.

(** [1.0f * x] is [x] for every binary32 value [x]. *)
Lemma mul_one_l x : valid x = true -> mul one x = x.
Proof.
  destruct x as [s|s| |s m e]; try reflexivity.
  intros V. apply valid_finite in V as [Hc He].
  unfold mul, one, SFmul. cbn [xorb].
  unfold binary_round_aux.
  assert (Hd : Zdigits2 (Zpos (8388608 * m)) = (Zpos (digits2_pos m) + 23)%Z).
  { cbn [Pos.mul Zdigits2 digits2_pos]. rewrite !Pos2Z.inj_succ. lia. }
  assert (E1 : shr_fexp prec emax (Zpos (8388608 * m)) (-23 + e) loc_Exact =
               ({| shr_m := Zpos m; shr_r := false; shr_s := false |}, e)).
  { unfold shr_fexp. rewrite Hd.
    replace (Zpos (digits2_pos m) + 23 + (-23 + e))%Z
      with (Zpos (digits2_pos m) + e)%Z by lia.
    rewrite Hc. replace (e - (-23 + e))%Z with 23%Z by lia.
    unfold shr. f_equal. lia. }
  rewrite E1. cbn [shr_m loc_of_shr_record round_nearest_even].
  assert (E2 : shr_fexp prec emax (Zpos m) e loc_Exact =
               ({| shr_m := Zpos m; shr_r := false; shr_s := false |}, e)).
  { unfold shr_fexp. cbn [Zdigits2]. rewrite Hc, Z.sub_diag. reflexivity. }
  rewrite E2. cbn [shr_m].
  apply Z.leb_le in He. rewrite He. reflexivity.
Qed.

(** ** Symmetry of the comparison and of the sum *)

(** [x == y] is symmetric. *)
Lemma compare_Eq_sym x y :
  SFcompare x y = Some Eq -> SFcompare y x = Some Eq.
Proof.
  destruct x as [s|s| |s m e], y as [s'|s'| |s' m' e'];
    try (destruct s; discriminate); try (destruct s'; discriminate);
    try discriminate; try reflexivity.
  - destruct s, s'; try discriminate; reflexivity.
  - intros H. apply compare_Eq_finite in H. injection H as -> -> ->.
    cbn [SFcompare]. rewrite Z.compare_refl, Pos.compare_cont_refl.
    now destruct s'.
Qed.

(** Addition is commutative. *)
Lemma add_comm x y : add x y = add y x.
Proof.
  destruct x as [sx|sx| |sx mx ex], y as [sy|sy| |sy my ey];
    try reflexivity; try (destruct sx, sy; reflexivity).
  unfold add, SFadd. now rewrite Z.min_comm, Z.add_comm.
Qed.

(** ** The bits a right shift drops *)

Lemma iter_pos_nat (A : Type) (f : A -> A) (p : positive) : forall x,
  iter_pos f p x = Nat.iter (Pos.to_nat p) f x.
Proof.
  induction p as [p IH | p IH |]; intros x; cbn [iter_pos].
  - rewrite !IH, Pos2Nat.inj_xI.
    replace (S (2 * Pos.to_nat p)) with (Pos.to_nat p + (Pos.to_nat p + 1))%nat by lia.
    rewrite !Nat.iter_add. reflexivity.
  - rewrite !IH, Pos2Nat.inj_xO.
    replace (2 * Pos.to_nat p)%nat with (Pos.to_nat p + Pos.to_nat p)%nat by lia.
    rewrite Nat.iter_add. reflexivity.
  - reflexivity.
Qed.

Lemma shr_1_spec m r s :
  (0 <= m)%Z ->
  shr_1 {| shr_m := m; shr_r := r; shr_s := s |} =
  {| shr_m := m / 2; shr_r := Z.odd m; shr_s := r || s |}.
Proof.
  intros Hm. destruct m as [|p|p]; [reflexivity | | lia].
  destruct p as [p|p|]; cbn [shr_1 Z.odd]; f_equal.
  - rewrite Pos2Z.inj_xI. apply Z.div_unique with (r := 1%Z); lia.
  - rewrite Pos2Z.inj_xO. apply Z.div_unique with (r := 0%Z); lia.
Qed.

(** After [n+1] shifts of a mantissa [m] the record holds [m / 2^(n+1)],
    the last bit dropped and whether a lower bit was set. *)
Lemma shr_nat_spec (m : Z) (n : nat) :
  (0 <= m)%Z ->
  Nat.iter (S n) shr_1 {| shr_m := m; shr_r := false; shr_s := false |} =
  {| shr_m := m / 2 ^ Z.of_nat (S n);
     shr_r := Z.odd (m / 2 ^ Z.of_nat n);
     shr_s := negb (m mod 2 ^ Z.of_nat n =? 0)%Z |}.
Proof.
  intros Hm. induction n as [|n IH].
  - cbn [Nat.iter]. rewrite shr_1_spec by exact Hm.
    change (2 ^ Z.of_nat 0)%Z with 1%Z. change (2 ^ Z.of_nat 1)%Z with 2%Z.
    rewrite Z.div_1_r, Z.mod_1_r. reflexivity.
  - rewrite Nat.iter_succ, IH.
    assert (Hp : (0 < 2 ^ Z.of_nat n)%Z) by (apply Z.pow_pos_nonneg; lia).
    assert (E1 : (2 ^ Z.of_nat (S n) = 2 ^ Z.of_nat n * 2)%Z).
    { rewrite Nat2Z.inj_succ, Z.pow_succ_r by lia. ring. }
    assert (E2 : (2 ^ Z.of_nat (S (S n)) = 2 ^ Z.of_nat (S n) * 2)%Z).
    { rewrite (Nat2Z.inj_succ (S n)), Z.pow_succ_r by lia. ring. }
    rewrite shr_1_spec by (apply Z.div_pos; lia).
    f_equal.
    + rewrite E2, <- Z.div_div by lia. reflexivity.
    + rewrite E1. rewrite Z.rem_mul_r by lia.
      rewrite Zodd_mod.
      pose proof (Z.mod_pos_bound m (2 ^ Z.of_nat n) Hp) as B1.
      pose proof (Z.mod_pos_bound (m / 2 ^ Z.of_nat n) 2 ltac:(lia)) as B2.
      destruct (Z.eqb_spec (m mod 2 ^ Z.of_nat n) 0) as [E | E];
        destruct (Z.eqb_spec ((m / 2 ^ Z.of_nat n) mod 2) 1) as [F | F];
        cbn [negb orb]; symmetry.
      * apply Bool.negb_true_iff, Z.eqb_neq. rewrite E, F. lia.
      * apply Bool.negb_false_iff, Z.eqb_eq.
        replace ((m / 2 ^ Z.of_nat n) mod 2)%Z with 0%Z by lia. lia.
      * apply Bool.negb_true_iff, Z.eqb_neq. nia.
      * apply Bool.negb_true_iff, Z.eqb_neq. nia.
Qed.

(** ** A sum that returns its first operand *)

(** From 64 on, adding the time step to a binary32 number returns the
    number: the step is less than half a unit in its last place. *)
Lemma add_dt_absorbed mt et :
  valid (S754_finite false mt et) = true -> (-17 <= et)%Z ->
  add (S754_finite false mt et) (S754_finite false 12466118 (-42)) =
  S754_finite false mt et.
Proof.
  intros V He. apply valid_finite in V as [Hc Hmax].
  unfold fexp, emin in Hc. change prec with 24%Z in *. change emax with 128%Z in *.
  assert (Hd : Zpos (digits2_pos mt) = 24%Z) by lia.
  pose proof (digits2_pos_bounds mt) as [Hlo Hhi]. rewrite Hd in Hlo, Hhi.
  change (2 ^ (24 - 1))%Z with 8388608%Z in Hlo.
  change (2 ^ 24)%Z with 16777216%Z in Hhi.
  unfold add, SFadd. rewrite Z.min_r by lia.
  unfold shl_align at 1.
  destruct (-42 - et)%Z as [|d|d] eqn:Ed; try lia.
  unfold shl_align at 1. rewrite Z.sub_diag. cbn [fst cond_Zopp].
  assert (HD : (Zpos d = et + 42)%Z) by lia.
  destruct (Pos.to_nat d) as [|n] eqn:En; [lia|].
  assert (Hn : (Z.of_nat (S n) = Zpos d)%Z) by lia.
  assert (Hn24 : (24 <= Z.of_nat n)%Z) by lia.
  assert (P24 : (16777216 <= 2 ^ Z.of_nat n)%Z).
  { change 16777216%Z with (2 ^ 24)%Z. apply Z.pow_le_mono_r; lia. }
  assert (PS : (2 ^ Zpos d = 2 * 2 ^ Z.of_nat n)%Z).
  { rewrite <- Hn, Nat2Z.inj_succ, Z.pow_succ_r by lia. reflexivity. }
  set (a := Pos.iter xO mt d).
  assert (Ha : (Zpos a = Zpos mt * 2 ^ Zpos d)%Z) by apply iter_xO_pow.
  change (Zpos a + 12466118)%Z with (Zpos (a + 12466118)).
  cbn [binary_normalize]. unfold binary_round.
  set (M := (a + 12466118)%positive).
  assert (HM : (Zpos M = Zpos mt * 2 ^ Zpos d + 12466118)%Z)
    by (unfold M; rewrite Pos2Z.inj_add, Ha; reflexivity).
  assert (HdM : (Zpos (digits2_pos M) = 24 + Zpos d)%Z).
  { pose proof (digits2_pos_bounds M) as [L U].
    assert (U' : (Zpos M < 2 ^ (24 + Zpos d))%Z).
    { rewrite Z.pow_add_r by lia. change (2 ^ 24)%Z with 16777216%Z.
      rewrite HM, PS. nia. }
    assert (L' : (2 ^ (23 + Zpos d) <= Zpos M)%Z).
    { rewrite Z.pow_add_r by lia. change (2 ^ 23)%Z with 8388608%Z.
      rewrite HM, PS. nia. }
    assert (A : (Zpos (digits2_pos M) - 1 < 24 + Zpos d)%Z).
    { apply (Z.pow_lt_mono_r_iff 2); [lia | lia |].
      eapply Z.le_lt_trans; eassumption. }
    assert (B : (23 + Zpos d < Zpos (digits2_pos M))%Z).
    { apply (Z.pow_lt_mono_r_iff 2); [lia | lia |].
      eapply Z.le_lt_trans; eassumption. }
    lia. }
  assert (Hf : fexp 24 128 (Zpos (digits2_pos M) + -42) = et).
  { unfold fexp, emin. lia. }
  change prec with 24%Z. change emax with 128%Z. rewrite Hf.
  unfold shl_align.
  destruct (et - -42)%Z as [|k|k] eqn:Ek; try lia.
  unfold binary_round_aux, shr_fexp at 1. cbn [Zdigits2]. rewrite Hf.
  rewrite Ek. unfold shr. cbn [shr_record_of_loc].
  rewrite iter_pos_nat.
  assert (Ekd : k = d) by lia. subst k. rewrite En.
  rewrite shr_nat_spec by lia.
  assert (Q1 : (Zpos M / 2 ^ Z.of_nat (S n) = Zpos mt)%Z).
  { symmetry. apply Z.div_unique with (r := 12466118%Z); rewrite Hn; lia. }
  assert (Q2 : (Zpos M / 2 ^ Z.of_nat n = 2 * Zpos mt)%Z).
  { symmetry. apply Z.div_unique with (r := 12466118%Z); lia. }
  assert (Q3 : (Zpos M mod 2 ^ Z.of_nat n = 12466118)%Z).
  { symmetry. apply Z.mod_unique with (q := (2 * Zpos mt)%Z); lia. }
  rewrite Q1, Q2, Q3.
  replace (Z.odd (2 * Zpos mt)) with false
    by (symmetry; rewrite Z.odd_mul; reflexivity).
  cbn [negb Z.eqb shr_m loc_of_shr_record round_nearest_even].
  change (shr_fexp 24 128 (Zpos mt) (-42 + Zpos d) loc_Exact)
    with (shr_fexp prec emax (Zpos mt) (-42 + Zpos d) loc_Exact).
  rewrite shr_fexp_exact.
  - cbn [shr_m]. replace (-42 + Zpos d)%Z with et by lia.
    replace (et <=? 128 - 24)%Z with true by (symmetry; apply Z.leb_le; lia).
    reflexivity.
  - cbn [Zdigits2]. unfold fexp, emin. change prec with 24%Z.
    change emax with 128%Z. lia.
Qed.

Lemma leb_64_shape t :
  leb f_64 t = true ->
  t = S754_infinity false \/ exists mt et, t = S754_finite false mt et /\ (-17 <= et)%Z.
Proof.
  unfold leb, SFleb, f_64.
  destruct t as [s|[|]| |[|] mt et]; cbn [SFcompare]; try discriminate; auto.
  intros H. right. exists mt, et. split; [reflexivity|].
  destruct (Z.compare_spec (-17) et) as [E | E | E]; try lia.
Qed.

(** ** Clamps *)

(** [std::max(lo, std::min(hi, x))], for bounds [lo < hi] that are
    finite. *)
Lemma clamp_sanitizes lo hi :
  ltb lo hi = true -> isfinite lo = true -> isfinite hi = true ->
  sanitizes lo hi (fun x => max lo (min hi x)).
Proof.
  intros Hlt Flo Fhi.
  assert (Hle : leb lo hi = true).
  { unfold ltb, leb, SFltb, SFleb in *.
    destruct (SFcompare lo hi) as [[| |]|]; try discriminate; reflexivity. }
  assert (Rlo : leb lo lo = true).
  { unfold leb, SFleb.
    pose proof (eqb_refl_finite lo Flo) as E. unfold eqb, SFeqb in E.
    destruct (SFcompare lo lo) as [[| |]|]; try discriminate; reflexivity. }
  assert (Rhi : leb hi hi = true).
  { unfold leb, SFleb.
    pose proof (eqb_refl_finite hi Fhi) as E. unfold eqb, SFeqb in E.
    destruct (SFcompare hi hi) as [[| |]|]; try discriminate; reflexivity. }
  repeat split.
  - unfold max, min. destruct (ltb x hi) eqn:H1.
    + destruct (ltb lo x) eqn:H2; [|exact Flo].
      destruct x as [s|[|]| |s m e]; try reflexivity; try discriminate.
      * destruct lo as [s'|[|]| |s' m' e']; discriminate.
      * destruct hi as [s'|[|]| |s' m' e']; discriminate.
    + rewrite Hlt. exact Fhi.
  - unfold max, min. destruct (ltb x hi) eqn:H1.
    + destruct (ltb lo x) eqn:H2; [|exact Rlo].
      unfold ltb, leb, SFltb, SFleb in *.
      destruct (SFcompare lo x) as [[| |]|]; try discriminate; reflexivity.
    + rewrite Hlt. exact Hle.
  - unfold max, min. destruct (ltb x hi) eqn:H1.
    + destruct (ltb lo x) eqn:H2; [|exact Hle].
      unfold ltb, leb, SFltb, SFleb in *.
      destruct (SFcompare x hi) as [[| |]|]; try discriminate; reflexivity.
    + rewrite Hlt. exact Rhi.
  - unfold max, min.
    replace (ltb S754_nan hi) with false by (now destruct hi as [?|[|]| |[|] ? ?]).
    now rewrite Hlt.
  - intros x Hx1 Hx2. unfold max, min.
    destruct (ltb x hi) eqn:H1.
    + destruct (ltb lo x) eqn:H2.
      * apply eqb_refl_finite.
        destruct x as [s|[|]| |s m e]; try reflexivity; try discriminate.
        -- destruct lo as [s'|[|]| |s' m' e']; discriminate.
        -- destruct hi as [s'|[|]| |s' m' e']; discriminate.
      * unfold ltb, leb, eqb, SFltb, SFleb, SFeqb in *.
        destruct (SFcompare lo x) as [[| |]|]; try discriminate; reflexivity.
    + rewrite Hlt.
      unfold ltb, leb, eqb, SFltb, SFleb, SFeqb in *.
      destruct (SFcompare x hi) as [[| |]|] eqn:C; try discriminate.
      apply compare_Eq_sym in C. now rewrite C.
Qed.

Lemma withinBounds_clamp lo hi x :
  ltb lo hi = true -> isfinite lo = true -> isfinite hi = true ->
  withinBounds lo hi (max lo (min hi x)).
Proof.
  intros H1 H2 H3. destruct (@clamp_sanitizes lo hi H1 H2 H3) as [H _]. apply H.
Qed.

Lemma ltb_irrefl x : ltb x x = false.
Proof.
  unfold ltb, SFltb.
  destruct x as [s|[|]| |[|] m e]; cbn [SFcompare]; try reflexivity;
    rewrite Z.compare_refl, Pos.compare_cont_refl; reflexivity.
Qed.

(** A clamp returns its own results as they are. *)
Lemma clamp_idempotent lo hi x :
  ltb lo hi = true ->
  max lo (min hi (max lo (min hi x))) = max lo (min hi x).
Proof.
  intros Hlt. unfold max, min.
  destruct (ltb x hi) eqn:H1.
  - destruct (ltb lo x) eqn:H2.
    + now rewrite H1, H2.
    + now rewrite Hlt, ltb_irrefl.
  - rewrite Hlt, ltb_irrefl. now rewrite Hlt.
Qed.

(** ** Comparisons, and products and sums with zero *)

(** Exchanging the operands of a comparison reverses its result. *)
Lemma compare_antisym x y :
  SFcompare y x = option_map CompOpp (SFcompare x y).
Proof.
  destruct x as [sx|sx| |sx mx ex], y as [sy|sy| |sy my ey];
    cbn [SFcompare option_map]; try reflexivity;
    try (destruct sx; reflexivity); try (destruct sy; reflexivity);
    try (destruct sx, sy; reflexivity).
  assert (A : Pos.compare_cont Eq my mx = CompOpp (Pos.compare_cont Eq mx my))
    by (symmetry; apply (Pos.compare_cont_antisym mx my Eq)).
  rewrite (Z.compare_antisym ex ey).
  destruct sx, sy; try reflexivity;
    destruct (ex ?= ey)%Z; cbn [CompOpp]; try reflexivity;
    rewrite A; try reflexivity.
Qed.

Lemma not_ltb_leb x y :
  isfinite x = true -> isfinite y = true -> ltb x y = false -> leb y x = true.
Proof.
  intros Fx Fy. unfold ltb, leb, SFltb, SFleb. rewrite (compare_antisym x y).
  destruct (SFcompare x y) as [[| |]|] eqn:C; cbn [option_map CompOpp];
    try reflexivity; try discriminate.
  destruct x as [sx|sx| |sx mx ex]; try discriminate;
    destruct y as [sy|sy| |sy my ey]; discriminate.
Qed.

Lemma mul_zero_finite x :
  isfinite x = true -> mul zero x = zero \/ mul zero x = S754_zero true.
Proof. destruct x as [[|]|?| |[|] ? ?]; try discriminate; auto. Qed.

Lemma mul_zero_notNegative x : finiteNotNegative x -> mul zero x = zero.
Proof.
  intros [F S']. destruct x as [[|]|?| |[|] ? ?]; try discriminate; reflexivity.
Qed.

Lemma add_zero_signed_zero x :
  x = zero \/ x = S754_zero true -> add zero x = zero.
Proof. intros [-> | ->]; reflexivity. Qed.

(** ** Results in the normal range *)

(** The number of digits of a number between two powers of 2. *)
Lemma digits2_pos_unique (m : positive) (k : Z) :
  (2 ^ (k - 1) <= Zpos m < 2 ^ k)%Z -> (1 <= k)%Z -> Zpos (digits2_pos m) = k.
Proof.
  intros [Hlo Hhi] Hk. pose proof (digits2_pos_bounds m) as [L U].
  assert (A : (Zpos (digits2_pos m) - 1 < k)%Z).
  { apply (Z.pow_lt_mono_r_iff 2); [lia | lia |]. lia. }
  assert (B : (k - 1 < Zpos (digits2_pos m))%Z).
  { apply (Z.pow_lt_mono_r_iff 2); [lia | lia |]. lia. }
  lia.
Qed.

Lemma digits2_pos_24 (m : positive) :
  Zpos (digits2_pos m) = 24%Z -> (8388608 <= Zpos m < 16777216)%Z.
Proof.
  intros H. pose proof (digits2_pos_bounds m) as [L U]. rewrite H in L, U.
  change (2 ^ (24 - 1))%Z with 8388608%Z in L.
  change (2 ^ 24)%Z with 16777216%Z in U. lia.
Qed.

(** Rounding a mantissa of 24 digits or more, in the normal range: the
    result is a normal number, with the exponent of the mantissa cut to 24
    digits or the next one. *)
Lemma binary_round_aux_normal s (p : positive) e l :
  let d := Zpos (digits2_pos p) in
  (24 <= d)%Z -> (emin prec emax <= d + e - 24)%Z -> (d + e - 23 <= 104)%Z ->
  exists m' e',
    binary_round_aux prec emax s (Zpos p) e l = S754_finite s m' e' /\
    Zpos (digits2_pos m') = 24%Z /\ (d + e - 24 <= e' <= d + e - 23)%Z.
Proof.
  intros d Hd Hmin Hmax. unfold binary_round_aux.
  pose proof (digits2_pos_bounds p) as [Plo Phi]. fold d in Plo, Phi.
  assert (Hf : fexp prec emax (d + e) = (d + e - 24)%Z).
  { unfold fexp, emin in *. change prec with 24%Z in *.
    change emax with 128%Z in *. lia. }
  (* the first shift *)
  assert (S1 : exists mrs,
             shr_fexp prec emax (Zpos p) e l = (mrs, (d + e - 24)%Z) /\
             (8388608 <= shr_m mrs < 16777216)%Z).
  { unfold shr_fexp. cbn [Zdigits2]. fold d. rewrite Hf.
    assert (Hrec : shr_m (shr_record_of_loc (Zpos p) l) = Zpos p)
      by (destruct l as [|[| |]]; reflexivity).
    destruct (d + e - 24 - e)%Z as [|k|k] eqn:Ek; try lia.
    - unfold shr. exists (shr_record_of_loc (Zpos p) l).
      split; [f_equal; lia|]. rewrite Hrec.
      assert (d = 24%Z) by lia.
      apply digits2_pos_24. fold d. assumption.
    - unfold shr. exists (iter_pos shr_1 k (shr_record_of_loc (Zpos p) l)).
      split; [f_equal; lia|].
      rewrite iter_shr_1_m by (rewrite Hrec; lia). rewrite Hrec.
      assert (Hk : (Zpos k = d - 24)%Z) by lia.
      assert (E1 : (2 ^ (d - 1) = 8388608 * 2 ^ Zpos k)%Z).
      { change 8388608%Z with (2 ^ 23)%Z. rewrite <- Z.pow_add_r by lia.
        f_equal. lia. }
      assert (E2 : (2 ^ d = 16777216 * 2 ^ Zpos k)%Z).
      { change 16777216%Z with (2 ^ 24)%Z. rewrite <- Z.pow_add_r by lia.
        f_equal. lia. }
      assert (Pk : (0 < 2 ^ Zpos k)%Z) by (apply Z.pow_pos_nonneg; lia).
      rewrite E1 in Plo. rewrite E2 in Phi.
      split.
      + apply Z.div_le_lower_bound; lia.
      + apply Z.div_lt_upper_bound; lia. }
  destruct S1 as (mrs & -> & Hm).
  pose proof (round_nearest_even_ge (shr_m mrs) (loc_of_shr_record mrs)) as Rge.
  pose proof (round_nearest_even_le (shr_m mrs) (loc_of_shr_record mrs)) as Rle.
  set (m1 := round_nearest_even (shr_m mrs) (loc_of_shr_record mrs)) in *.
  destruct m1 as [|q|q] eqn:Em1; try lia.
  destruct (Z.eq_dec (Zpos q) 16777216) as [Etop | Ntop].
  - (* the rounded mantissa has 25 digits: one more shift *)
    assert (Dq : Zpos (digits2_pos q) = 25%Z).
    { apply digits2_pos_unique; [|lia]. rewrite Etop.
      change (2 ^ (25 - 1))%Z with 16777216%Z.
      change (2 ^ 25)%Z with 33554432%Z. lia. }
    unfold shr_fexp. cbn [Zdigits2]. rewrite Dq.
    assert (Hf2 : fexp prec emax (25 + (d + e - 24)) = (d + e - 23)%Z).
    { unfold fexp, emin in *. change prec with 24%Z in *.
      change emax with 128%Z in *. lia. }
    rewrite Hf2. replace (d + e - 23 - (d + e - 24))%Z with 1%Z by lia.
    unfold shr. cbn [iter_pos shr_record_of_loc].
    rewrite shr_1_spec by lia. cbn [shr_m]. rewrite Etop.
    change (16777216 / 2)%Z with 8388608%Z.
    replace (d + e - 24 + 1 <=? emax - prec)%Z with true
      by (symmetry; apply Z.leb_le; change (emax - prec)%Z with 104%Z; lia).
    exists 8388608%positive, (d + e - 24 + 1)%Z.
    split; [reflexivity|]. split; [reflexivity | lia].
  - assert (Dq : Zpos (digits2_pos q) = 24%Z).
    { apply digits2_pos_unique; [|lia].
      change (2 ^ (24 - 1))%Z with 8388608%Z.
      change (2 ^ 24)%Z with 16777216%Z. lia. }
    rewrite shr_fexp_exact.
    + cbn [shr_m].
      replace (d + e - 24 <=? emax - prec)%Z with true
        by (symmetry; apply Z.leb_le; change (emax - prec)%Z with 104%Z; lia).
      exists q, (d + e - 24)%Z. split; [reflexivity|]. split; [exact Dq | lia].
    + cbn [Zdigits2]. rewrite Dq. unfold fexp, emin in *.
      change prec with 24%Z in *. change emax with 128%Z in *. lia.
Qed.

(** The product of two positive normal numbers, when it is in the normal
    range. *)
Lemma mul_normal a1 b1 a2 b2 x y :
  normalIn a1 b1 x -> normalIn a2 b2 y ->
  (emin prec emax <= a1 + a2 + 23)%Z -> (b1 + b2 + 25 <= 104)%Z ->
  normalIn (a1 + a2 + 23) (b1 + b2 + 25) (mul x y).
Proof.
  intros (m1 & e1 & -> & D1 & E1) (m2 & e2 & -> & D2 & E2) Hmin Hmax.
  apply digits2_pos_24 in D1. apply digits2_pos_24 in D2.
  unfold mul, SFmul. cbn [xorb].
  assert (Hp : (2 ^ 46 <= Zpos (m1 * m2) < 2 ^ 48)%Z).
  { rewrite Pos2Z.inj_mul.
    change (2 ^ 46)%Z with (8388608 * 8388608)%Z.
    change (2 ^ 48)%Z with (16777216 * 16777216)%Z. nia. }
  assert (Hd : (47 <= Zpos (digits2_pos (m1 * m2)) <= 48)%Z).
  { pose proof (digits2_pos_bounds (m1 * m2)) as [L U].
    assert (A : (Zpos (digits2_pos (m1 * m2)) - 1 < 48)%Z)
      by (apply (Z.pow_lt_mono_r_iff 2); lia).
    assert (B : (46 < Zpos (digits2_pos (m1 * m2)))%Z)
      by (apply (Z.pow_lt_mono_r_iff 2); lia).
    lia. }
  destruct (@binary_round_aux_normal false (m1 * m2) (e1 + e2) loc_Exact)
    as (m' & e' & -> & D' & E'); cbv zeta; try lia.
  exists m', e'. split; [reflexivity|]. split; [exact D' | lia].
Qed.

(** The sum of two positive normal numbers. *)
Lemma add_normal a1 b1 a2 b2 x y :
  normalIn a1 b1 x -> normalIn a2 b2 y ->
  (emin prec emax <= Z.min a1 a2)%Z -> (Z.max b1 b2 + 2 <= 104)%Z ->
  normalIn (Z.min a1 a2) (Z.max b1 b2 + 2) (add x y).
Proof.
  intros (m1 & e1 & -> & D1 & E1) (m2 & e2 & -> & D2 & E2) Hmin Hmax.
  apply digits2_pos_24 in D1. apply digits2_pos_24 in D2.
  unfold add, SFadd. cbn [cond_Zopp].
  set (ez := Z.min e1 e2).
  assert (A1 : Zpos (fst (shl_align m1 e1 ez)) = (Zpos m1 * 2 ^ (e1 - ez))%Z).
  { unfold shl_align. destruct (ez - e1)%Z as [|k|k] eqn:Ek; cbn [fst].
    - replace (e1 - ez)%Z with 0%Z by lia. rewrite Z.pow_0_r. lia.
    - unfold ez in Ek. lia.
    - rewrite iter_xO_pow. f_equal. f_equal. lia. }
  assert (A2 : Zpos (fst (shl_align m2 e2 ez)) = (Zpos m2 * 2 ^ (e2 - ez))%Z).
  { unfold shl_align. destruct (ez - e2)%Z as [|k|k] eqn:Ek; cbn [fst].
    - replace (e2 - ez)%Z with 0%Z by lia. rewrite Z.pow_0_r. lia.
    - unfold ez in Ek. lia.
    - rewrite iter_xO_pow. f_equal. f_equal. lia. }
  set (p1 := fst (shl_align m1 e1 ez)) in *.
  set (p2 := fst (shl_align m2 e2 ez)) in *.
  change (Zpos p1 + Zpos p2)%Z with (Zpos (p1 + p2)).
  cbn [binary_normalize]. unfold binary_round.
  set (ex := Z.max e1 e2).
  assert (Hex : (0 <= ex - ez)%Z) by (unfold ex, ez; lia).
  assert (Psum : (2 ^ (23 + (ex - ez)) <= Zpos (p1 + p2) < 2 ^ (25 + (ex - ez)))%Z).
  { rewrite Pos2Z.inj_add, A1, A2.
    rewrite !Z.pow_add_r by lia.
    change (2 ^ 23)%Z with 8388608%Z. change (2 ^ 25)%Z with 33554432%Z.
    assert (P1 : (1 <= 2 ^ (e1 - ez) <= 2 ^ (ex - ez))%Z).
    { split; [|apply Z.pow_le_mono_r; unfold ex, ez; lia].
      assert (0 < 2 ^ (e1 - ez))%Z by (apply Z.pow_pos_nonneg; unfold ez; lia).
      lia. }
    assert (P2 : (1 <= 2 ^ (e2 - ez) <= 2 ^ (ex - ez))%Z).
    { split; [|apply Z.pow_le_mono_r; unfold ex, ez; lia].
      assert (0 < 2 ^ (e2 - ez))%Z by (apply Z.pow_pos_nonneg; unfold ez; lia).
      lia. }
    assert (P3 : (2 ^ (e1 - ez) = 2 ^ (ex - ez) \/ 2 ^ (e2 - ez) = 2 ^ (ex - ez))%Z).
    { unfold ex. destruct (Z.max_spec e1 e2) as [[_ ->] | [_ ->]]; auto. }
    generalize dependent (2 ^ (e1 - ez))%Z.
    generalize dependent (2 ^ (e2 - ez))%Z.
    generalize dependent (2 ^ (ex - ez))%Z. intros. nia. }
  assert (Hd : (24 + (ex - ez) <= Zpos (digits2_pos (p1 + p2)) <= 25 + (ex - ez))%Z).
  { pose proof (digits2_pos_bounds (p1 + p2)) as [L U].
    assert (A : (Zpos (digits2_pos (p1 + p2)) - 1 < 25 + (ex - ez))%Z)
      by (apply (Z.pow_lt_mono_r_iff 2); lia).
    assert (B : (23 + (ex - ez) < Zpos (digits2_pos (p1 + p2)))%Z)
      by (apply (Z.pow_lt_mono_r_iff 2); lia).
    lia. }
  set (d := Zpos (digits2_pos (p1 + p2))) in *.
  assert (Hmin' : (emin prec emax <= ez)%Z) by (unfold ez; lia).
  assert (Hf : fexp prec emax (d + ez) = (d + ez - 24)%Z).
  { unfold fexp, emin in *. change prec with 24%Z in *.
    change emax with 128%Z in *. lia. }
  rewrite Hf.
  assert (Hal : shl_align (p1 + p2) ez (d + ez - 24) = ((p1 + p2)%positive, ez)).
  { unfold shl_align. destruct (d + ez - 24 - ez)%Z eqn:Ek; try reflexivity. lia. }
  rewrite Hal.
  destruct (@binary_round_aux_normal false (p1 + p2) ez loc_Exact)
    as (m' & e' & Hr & D' & E'); cbv zeta; fold d.
  - lia.
  - lia.
  - unfold ex in *. lia.
  - rewrite Hr. exists m', e'. split; [reflexivity|]. split; [exact D'|].
    fold d in E'. unfold ex, ez in *. lia.
Qed.

(** The quotient of two positive normal numbers, when it is in the normal
    range. *)
Lemma div_normal a1 b1 a2 b2 x y :
  normalIn a1 b1 x -> normalIn a2 b2 y ->
  (emin prec emax <= a1 - b2 - 24)%Z -> (b1 - a2 - 22 <= 104)%Z ->
  normalIn (a1 - b2 - 24) (b1 - a2 - 22) (div x y).
Proof.
  intros (m1 & e1 & -> & D1 & E1) (m2 & e2 & -> & D2 & E2) Hmin Hmax.
  unfold div, SFdiv, SFdiv_core_binary. cbn [Zdigits2 xorb]. rewrite D1, D2.
  apply digits2_pos_24 in D1. apply digits2_pos_24 in D2.
  assert (Hf : fexp prec emax (24 + e1 - (24 + e2)) = (e1 - e2 - 24)%Z).
  { unfold fexp, emin in *. change prec with 24%Z in *.
    change emax with 128%Z in *. lia. }
  rewrite Hf. rewrite Z.min_l by lia.
  replace (e1 - e2 - (e1 - e2 - 24))%Z with 24%Z by lia.
  cbv zeta. rewrite Z.shiftl_mul_pow2 by lia.
  change (2 ^ 24)%Z with 16777216%Z.
  pose proof (Z_div_mod (Zpos m1 * 16777216) (Zpos m2) ltac:(lia)) as Hdiv.
  destruct (Z.div_eucl (Zpos m1 * 16777216) (Zpos m2)) as [q r].
  destruct Hdiv as [Hq Hr].
  assert (Bq : (8388608 <= q < 33554432)%Z) by nia.
  destruct q as [|qp|qp]; try lia.
  assert (Hd : (24 <= Zpos (digits2_pos qp) <= 25)%Z).
  { pose proof (digits2_pos_bounds qp) as [L U].
    assert (A : (Zpos (digits2_pos qp) - 1 < 25)%Z).
    { apply (Z.pow_lt_mono_r_iff 2); [lia | lia |].
      change (2 ^ 25)%Z with 33554432%Z. lia. }
    assert (B : (23 < Zpos (digits2_pos qp))%Z).
    { apply (Z.pow_lt_mono_r_iff 2); [lia | lia |].
      change (2 ^ 23)%Z with 8388608%Z. lia. }
    lia. }
  destruct (@binary_round_aux_normal false qp (e1 - e2 - 24)
              (new_location (Zpos m2) r))
    as (m' & e' & Hres & D' & E'); cbv zeta; try lia.
  rewrite Hres. exists m', e'. split; [reflexivity|]. split; [exact D' | lia].
Qed.

(** The square root of a positive normal number. *)
Lemma sqrt_normal a b x :
  normalIn a b x ->
  (emin prec emax <= (a + 25) / 2 - 24)%Z -> ((b + 25) / 2 - 23 <= 104)%Z ->
  normalIn ((a + 25) / 2 - 24) ((b + 25) / 2 - 23) (sqrt x).
Proof.
  intros (m & e & -> & D & E) Hmin Hmax.
  unfold sqrt, SFsqrt, SFsqrt_core_binary. cbn [Zdigits2]. rewrite D.
  apply digits2_pos_24 in D.
  rewrite !Z.div2_div.
  assert (Ha : ((a + 25) / 2 <= (e + 25) / 2)%Z) by (apply Z.div_le_mono; lia).
  assert (Hb : ((e + 25) / 2 <= (b + 25) / 2)%Z) by (apply Z.div_le_mono; lia).
  replace (24 + e + 1)%Z with (e + 25)%Z by lia.
  assert (Hf : fexp prec emax ((e + 25) / 2) = ((e + 25) / 2 - 24)%Z).
  { unfold fexp, emin in *. change prec with 24%Z in *.
    change emax with 128%Z in *. lia. }
  rewrite Hf.
  assert (Hlt : ((e + 25) / 2 - 24 <= e / 2)%Z).
  { Z.to_euclidean_division_equations. lia. }
  rewrite Z.min_l by exact Hlt.
  set (e' := ((e + 25) / 2 - 24)%Z) in *.
  assert (Hs : (e - 2 * e' = 23 \/ e - 2 * e' = 24)%Z).
  { unfold e'. Z.to_euclidean_division_equations. lia. }
  cbv zeta.
  assert (Hm' : exists n, (match (e - 2 * e')%Z with
                           | 0%Z => Zpos m
                           | Zpos _ => Z.shiftl (Zpos m) (e - 2 * e')
                           | Zneg _ => 0%Z
                           end = n) /\ (2 ^ 46 <= n < 2 ^ 48)%Z).
  { destruct Hs as [-> | ->]; eexists; (split; [reflexivity|]);
      rewrite Z.shiftl_mul_pow2 by lia.
    - change (2 ^ 23)%Z with 8388608%Z. change (2 ^ 46)%Z with (8388608 * 8388608)%Z.
      change (2 ^ 48)%Z with (16777216 * 16777216)%Z. lia.
    - change (2 ^ 24)%Z with 16777216%Z. change (2 ^ 46)%Z with (8388608 * 8388608)%Z.
      change (2 ^ 48)%Z with (16777216 * 16777216)%Z. lia. }
  destruct Hm' as (n & -> & Hn).
  pose proof (Z.sqrtrem_spec n ltac:(lia)) as Hsq.
  destruct (Z.sqrtrem n) as [q r]. destruct Hsq as [Hq Hr].
  change (2 ^ 46)%Z with (8388608 * 8388608)%Z in Hn.
  change (2 ^ 48)%Z with (16777216 * 16777216)%Z in Hn.
  assert (Bq : (8388608 <= q < 16777216)%Z) by nia.
  destruct q as [|qp|qp]; try lia.
  assert (Hd : Zpos (digits2_pos qp) = 24%Z).
  { apply digits2_pos_unique; [|lia].
    change (2 ^ (24 - 1))%Z with 8388608%Z.
    change (2 ^ 24)%Z with 16777216%Z. lia. }
  match goal with
  | |- normalIn _ _ (binary_round_aux _ _ _ _ _ ?l) =>
      destruct (@binary_round_aux_normal false qp e' l)
        as (m' & e'' & Hres & D' & E'); cbv zeta; try (rewrite Hd; lia)
  end.
  rewrite Hres. exists m', e''. split; [reflexivity|]. split; [exact D'|].
  rewrite Hd in E'. lia.
Qed.

Lemma normalIn_constant m e :
  Zpos (digits2_pos m) = 24%Z -> normalIn e e (S754_finite false m e).
Proof. intros D. exists m, e. split; [reflexivity|]. split; [exact D | lia]. Qed.

Lemma normalIn_weaken a b a' b' x :
  normalIn a b x -> (a' <= a)%Z -> (b <= b')%Z -> normalIn a' b' x.
Proof.
  intros (m & e & -> & D & E) Ha Hb. exists m, e.
  split; [reflexivity|]. split; [exact D | lia].
Qed.

(** ** Finite results *)

(** Rounding a mantissa whose value is below [2^127] and whose exponent is
    not above that of the largest number never overflows. *)
Lemma binary_round_aux_isfinite s (p : positive) e l :
  (e <= 104)%Z -> (Zpos (digits2_pos p) + e <= 127)%Z ->
  isfinite (binary_round_aux prec emax s (Zpos p) e l) = true.
Proof.
  intros He Hd.
  pose proof (@binary_round_aux_nonneg s (Zpos p) e l ltac:(lia)) as Hsign.
  unfold binary_round_aux in *.
  pose proof (shr_fexp_snd (Zpos p) e l) as E1. cbn [Zdigits2] in E1.
  pose proof (@shr_fexp_nonneg (Zpos p) e l ltac:(lia)) as N1.
  assert (B1 : (shr_m (fst (shr_fexp prec emax (Zpos p) e l)) <
                2 ^ Z.max 0 (Zpos (digits2_pos p) + e -
                             snd (shr_fexp prec emax (Zpos p) e l)))%Z).
  { rewrite E1. unfold shr_fexp, shr. cbn [Zdigits2].
    assert (Hrec : shr_m (shr_record_of_loc (Zpos p) l) = Zpos p)
      by (destruct l as [|[| |]]; reflexivity).
    pose proof (digits2_pos_bounds p) as [_ U].
    set (d := Zpos (digits2_pos p)) in *.
    destruct (fexp prec emax (d + e) - e)%Z as [|k|k] eqn:Ek; cbn [fst].
    - rewrite Hrec. replace (Z.max e (fexp prec emax (d + e))) with e by lia.
      replace (Z.max 0 (d + e - e)) with d by lia. exact U.
    - rewrite iter_shr_1_m by (rewrite Hrec; lia). rewrite Hrec.
      replace (Z.max e (fexp prec emax (d + e))) with (e + Zpos k)%Z by lia.
      destruct (Z.le_gt_cases (Zpos k) d) as [Hk | Hk].
      + replace (Z.max 0 (d + e - (e + Zpos k))) with (d - Zpos k)%Z by lia.
        apply Z.div_lt_upper_bound; [apply Z.pow_pos_nonneg; lia|].
        rewrite <- Z.pow_add_r by lia.
        replace (Zpos k + (d - Zpos k))%Z with d by lia. exact U.
      + replace (Z.max 0 (d + e - (e + Zpos k))) with 0%Z by lia.
        rewrite Z.div_small; [reflexivity|]. split; [lia|].
        eapply Z.lt_trans; [exact U|]. apply Z.pow_lt_mono_r; lia.
    - rewrite Hrec. replace (Z.max e (fexp prec emax (d + e))) with e by lia.
      replace (Z.max 0 (d + e - e)) with d by lia. exact U. }
  destruct (shr_fexp prec emax (Zpos p) e l) as [mrs' e']. cbn [fst snd] in *.
  pose proof (round_nearest_even_ge (shr_m mrs') (loc_of_shr_record mrs')) as Rge.
  pose proof (round_nearest_even_le (shr_m mrs') (loc_of_shr_record mrs')) as Rle.
  set (m1 := round_nearest_even (shr_m mrs') (loc_of_shr_record mrs')) in *.
  pose proof (shr_fexp_snd m1 e' loc_Exact) as E2.
  destruct (shr_fexp prec emax m1 e' loc_Exact) as [mrs'' e'']. cbn [fst snd] in *.
  destruct (shr_m mrs'') as [|q|q]; try reflexivity; [|discriminate].
  replace (e'' <=? emax - prec)%Z with true; [reflexivity|].
  symmetry. apply Z.leb_le. change (emax - prec)%Z with 104%Z.
  assert (He' : (e' <= 104)%Z).
  { rewrite E1. unfold fexp, emin. change prec with 24%Z.
    change emax with 128%Z. lia. }
  assert (Hm1 : (m1 <= 2 ^ Z.max 0 (Zpos (digits2_pos p) + e - e'))%Z) by lia.
  assert (Hdig : (Zdigits2 m1 + e' <= 128)%Z).
  { destruct m1 as [|q1|q1] eqn:Em1; cbn [Zdigits2]; try lia.
    set (t := Z.max 0 (Zpos (digits2_pos p) + e - e')) in *.
    assert (Ht : (Zpos (digits2_pos q1) <= t + 1)%Z).
    { apply digits2_pos_le; [lia|].
      rewrite Z.pow_add_r by lia. rewrite Z.pow_1_r.
      assert (0 < 2 ^ t)%Z by (apply Z.pow_pos_nonneg; lia). lia. }
    unfold t in Ht. lia. }
  rewrite E2. unfold fexp, emin. change prec with 24%Z.
  change emax with 128%Z. lia.
Qed.

Lemma binary_round_isfinite s (p : positive) e :
  (Zpos (digits2_pos p) + e <= 127)%Z ->
  isfinite (binary_round prec emax s p e) = true.
Proof.
  intros Hd. unfold binary_round, shl_align.
  set (d := Zpos (digits2_pos p)) in *.
  assert (Hf : (fexp prec emax (d + e) <= 104)%Z).
  { unfold fexp, emin. change prec with 24%Z. change emax with 128%Z. lia. }
  destruct (fexp prec emax (d + e) - e)%Z as [|k|k] eqn:Ek.
  - apply binary_round_aux_isfinite; fold d; lia.
  - apply binary_round_aux_isfinite; fold d; lia.
  - apply binary_round_aux_isfinite; [lia|].
    rewrite digits2_pos_iter_xO. fold d. lia.
Qed.

Lemma digits2_pos_mul (p q : positive) :
  (Zpos (digits2_pos (p * q)) <= Zpos (digits2_pos p) + Zpos (digits2_pos q))%Z.
Proof.
  pose proof (digits2_pos_bounds p) as [_ Up].
  pose proof (digits2_pos_bounds q) as [_ Uq].
  apply digits2_pos_le; [lia|].
  rewrite Z.pow_add_r by lia. rewrite Pos2Z.inj_mul. nia.
Qed.

(** [1.0f - s] is finite for every binary32 number [s] of [[0, 1]]. *)
Lemma sub_one_isfinite k :
  valid k = true -> leb zero k = true -> leb k one = true ->
  isfinite (sub one k) = true.
Proof.
  intros V Hlo Hhi.
  destruct k as [sk|[|]| |[|] mk ek]; try discriminate; try reflexivity.
  apply valid_finite in V as [Hc He].
  unfold fexp, emin in Hc. change prec with 24%Z in *.
  change emax with 128%Z in *.
  assert (Ek : (ek <= -23)%Z).
  { unfold leb, SFleb, one in Hhi. cbn [SFcompare] in Hhi.
    destruct (Z.compare_spec ek (-23)); try lia; discriminate. }
  pose proof (digits2_pos_bounds mk) as [_ Uk].
  assert (Hmk : (Zpos mk < 2 ^ 24)%Z).
  { eapply Z.lt_le_trans; [exact Uk|]. apply Z.pow_le_mono_r; lia. }
  change (2 ^ 24)%Z with 16777216%Z in Hmk.
  unfold sub, one, SFsub. rewrite Z.min_r by lia.
  unfold shl_align at 1.
  destruct (ek - -23)%Z as [|j|j] eqn:Ej; try lia.
  - (* the exponent of 1.0f *)
    unfold shl_align. rewrite Z.sub_diag. cbn [fst cond_Zopp].
    destruct (Zpos 8388608 - Zpos mk)%Z as [|n|n] eqn:En;
      cbn [binary_normalize]; try reflexivity;
      apply binary_round_isfinite.
    + assert (Zpos (digits2_pos n) <= 24)%Z
        by (apply digits2_pos_le; [lia|]; change (2 ^ 24)%Z with 16777216%Z; lia).
      lia.
    + assert (Zpos (digits2_pos n) <= 24)%Z
        by (apply digits2_pos_le; [lia|]; change (2 ^ 24)%Z with 16777216%Z; lia).
      lia.
  - cbn [fst]. unfold shl_align. rewrite Z.sub_diag. cbn [fst cond_Zopp].
    rewrite iter_xO_pow.
    assert (Htop : (Zpos 8388608 * 2 ^ Zpos j = 2 ^ (- ek))%Z).
    { change (Zpos 8388608) with (2 ^ 23)%Z. rewrite <- Z.pow_add_r by lia.
      f_equal. lia. }
    assert (Hbig : (16777216 <= 2 ^ (- ek))%Z).
    { change 16777216%Z with (2 ^ 24)%Z. apply Z.pow_le_mono_r; lia. }
    rewrite Htop.
    destruct (2 ^ (- ek) - Zpos mk)%Z as [|n|n] eqn:En;
      cbn [binary_normalize]; try reflexivity; [|lia].
    apply binary_round_isfinite.
    assert (Zpos (digits2_pos n) <= - ek)%Z by (apply digits2_pos_le; lia).
    lia.
Qed.

Lemma normalIn_finite a b x :
  normalIn a b x -> exists m e, x = S754_finite false m e.
Proof. intros (m & e & -> & _). now exists m, e. Qed.

Lemma normalIn_isfinite a b x : normalIn a b x -> isfinite x = true.
Proof. intros (m & e & -> & _). reflexivity. Qed.

Lemma zeroOrPositive_isfinite x : zeroOrPositive x -> isfinite x = true.
Proof. intros [-> | (m & e & ->)]; reflexivity. Qed.

(** The clamp of a binary32 value between binary32 bounds. *)
Lemma clamp_valid lo hi x :
  valid lo = true -> valid hi = true -> valid x = true ->
  valid (max lo (min hi x)) = true.
Proof.
  intros Vlo Vhi Vx. unfold max, min.
  destruct (ltb x hi).
  - destruct (ltb lo x); assumption.
  - destruct (ltb lo hi); assumption.
Qed.

(** ** Sums and products of zeros *)

Lemma isZero_isfinite x : isZero x = true -> isfinite x = true.
Proof. destruct x; try discriminate; reflexivity. Qed.

Lemma isZero_add a b :
  isZero a = true -> isZero b = true -> isZero (add a b) = true.
Proof.
  destruct a as [[|]| | |]; try discriminate;
    destruct b as [[|]| | |]; try discriminate; reflexivity.
Qed.

Lemma isZero_sub a b :
  isZero a = true -> isZero b = true -> isZero (sub a b) = true.
Proof.
  destruct a as [[|]| | |]; try discriminate;
    destruct b as [[|]| | |]; try discriminate; reflexivity.
Qed.

Lemma isZero_mul_r a b :
  isfinite a = true -> isZero b = true -> isZero (mul a b) = true.
Proof.
  destruct a as [?|?| |? ? ?]; try discriminate;
    destruct b as [?|?| |? ? ?]; try discriminate; reflexivity.
Qed.

Lemma isZero_mul_l a b :
  isZero a = true -> isfinite b = true -> isZero (mul a b) = true.
Proof.
  destruct a as [?|?| |? ? ?]; try discriminate;
    destruct b as [?|?| |? ? ?]; try discriminate; reflexivity.
Qed.

Lemma isZero_div a s m e :
  isZero a = true -> isZero (div a (S754_finite s m e)) = true.
Proof. destruct a; try discriminate; reflexivity. Qed.

(** ** Rounding to the nearest integer, ties to even *)

Lemma rneq_cases num den :
  (0 < den)%Z ->
  let q := (num / den)%Z in let r := (num mod den)%Z in
  (num = den * q + r)%Z /\ (0 <= r < den)%Z /\
  ((rneq num den = q /\ (2 * r <= den)%Z) \/
   (rneq num den = q + 1 /\ (den <= 2 * r)%Z /\ (0 < r)%Z))%Z.
Proof.
  intros Hd q r.
  pose proof (Z.div_mod num den ltac:(lia)) as E.
  pose proof (Z.mod_pos_bound num den Hd) as B.
  fold q r in E, B. split; [exact E|]. split; [exact B|].
  unfold rneq, locOf. fold q r.
  destruct (r =? 0)%Z eqn:R0.
  - apply Z.eqb_eq in R0. left. cbn [round_nearest_even]. lia.
  - apply Z.eqb_neq in R0.
    destruct (Z.compare_spec (2 * r) den) as [C | C | C];
      cbn [round_nearest_even].
    + destruct (Z.even q); [left | right]; lia.
    + left. lia.
    + right. lia.
Qed.

Lemma rneq_le num den k :
  (0 < den)%Z -> (num <= k * den)%Z -> (rneq num den <= k)%Z.
Proof.
  intros Hd H. destruct (rneq_cases num Hd) as (E & B & [[-> _] | (-> & _ & P)]);
    nia.
Qed.

Lemma rneq_ge num den k :
  (0 < den)%Z -> (k * den <= num)%Z -> (k <= rneq num den)%Z.
Proof.
  intros Hd H. destruct (rneq_cases num Hd) as (E & B & [[-> _] | (-> & _ & P)]);
    nia.
Qed.

Lemma rneq_half num den :
  (0 < den)%Z -> (2 * (rneq num den * den) <= 2 * num + den)%Z.
Proof.
  intros Hd. destruct (rneq_cases num Hd) as (E & B & [[-> _] | (-> & P & _)]);
    nia.
Qed.

Lemma rneq_double num den :
  (0 < den)%Z -> (0 <= num)%Z -> (rneq num den * den <= 2 * num)%Z.
Proof.
  intros Hd Hn.
  assert (Q : (0 <= num / den)%Z) by (apply Z.div_pos; lia).
  destruct (rneq_cases num Hd) as (E & B & [[-> _] | (-> & P & _)]); nia.
Qed.

Lemma rneq_exact k den : (0 < den)%Z -> rneq (k * den) den = k.
Proof.
  intros Hd. unfold rneq, locOf. rewrite Z.mod_mul, Z.div_mul by lia.
  reflexivity.
Qed.

Lemma rneq_scale num den k :
  (0 < den)%Z -> (0 < k)%Z -> rneq (k * num) (k * den) = rneq num den.
Proof.
  intros Hd Hk. unfold rneq, locOf.
  rewrite Z.mul_mod_distr_l, Z.div_mul_cancel_l by lia.
  replace (k * (num mod den) =? 0)%Z with (num mod den =? 0)%Z.
  - destruct (num mod den =? 0)%Z; [reflexivity|].
    replace (2 * (k * (num mod den)) ?= k * den)%Z
      with (2 * (num mod den) ?= den)%Z; [reflexivity|].
    replace (2 * (k * (num mod den)))%Z with (k * (2 * (num mod den)))%Z by ring.
    apply Zmult_compare_compat_l. lia.
  - destruct (Z.eqb_spec (num mod den) 0) as [-> | N].
    + symmetry. apply Z.eqb_eq. ring.
    + symmetry. apply Z.eqb_neq. nia.
Qed.

Lemma rneq_mono num num' den :
  (0 < den)%Z -> (num <= num')%Z -> (rneq num den <= rneq num' den)%Z.
Proof.
  intros Hd H.
  destruct (Z.eq_dec (num / den) (num' / den)) as [Eq | Nq].
  - (* the same integer part *)
    pose proof (Z.div_mod num den ltac:(lia)) as E.
    pose proof (Z.div_mod num' den ltac:(lia)) as E'.
    pose proof (Z.mod_pos_bound num den Hd) as B.
    pose proof (Z.mod_pos_bound num' den Hd) as B'.
    assert (R : (num mod den <= num' mod den)%Z) by nia.
    unfold rneq, locOf. rewrite <- Eq.
    set (q := (num / den)%Z) in *. set (r := (num mod den)%Z) in *.
    set (r' := (num' mod den)%Z) in *.
    destruct (Z.eqb_spec r 0) as [R0 | R0];
      destruct (Z.eqb_spec r' 0) as [R0' | R0'];
      cbn [round_nearest_even]; try lia.
    + destruct (2 * r' ?= den)%Z; try lia; destruct (Z.even q); lia.
    + destruct (Z.compare_spec (2 * r) den) as [C | C | C];
        destruct (Z.compare_spec (2 * r') den) as [C' | C' | C'];
        cbn [round_nearest_even]; try lia;
        destruct (Z.even q); lia.
  - assert (Lt : (num / den < num' / den)%Z).
    { pose proof (Z.div_le_mono num num' den Hd H). lia. }
    pose proof (round_nearest_even_le (num / den) (locOf num den)).
    pose proof (round_nearest_even_ge (num' / den) (locOf num' den)).
    unfold rneq. lia.
Qed.

(** ** The shift records of the rounding *)

Lemma recOK_of_loc num den :
  recOK (shr_record_of_loc (num / den) (locOf num den)) num den.
Proof.
  split; destruct (locOf num den) as [|[| |]]; reflexivity.
Qed.

(** One shift halves the number the record locates. *)
Lemma shr_1_recOK mrs num den :
  (0 <= num)%Z -> (0 < den)%Z ->
  recOK mrs num den -> recOK (shr_1 mrs) num (2 * den).
Proof.
  intros Hn Hd [Em El]. destruct mrs as [m r s]. cbn [shr_m] in Em.
  assert (Hm : (0 <= m)%Z) by (rewrite Em; apply Z.div_pos; lia).
  rewrite shr_1_spec by exact Hm.
  pose proof (Z.div_mod num den ltac:(lia)) as E.
  pose proof (Z.mod_pos_bound num den Hd) as B.
  assert (Inx : r || s = negb (num mod den =? 0)%Z).
  { unfold locOf in El. cbn [loc_of_shr_record] in El.
    destruct (num mod den =? 0)%Z; destruct r, s; try discriminate; reflexivity. }
  assert (Eq2 : (num / (2 * den) = m / 2)%Z).
  { rewrite Em, Z.div_div by lia. f_equal. ring. }
  assert (Er2 : (num mod (2 * den) = num mod den + den * (m mod 2))%Z).
  { rewrite Em. replace (2 * den)%Z with (den * 2)%Z by ring.
    apply Z.rem_mul_r; lia. }
  split; [cbn [shr_m]; now rewrite Eq2|].
  unfold locOf. rewrite Er2. cbn [loc_of_shr_record]. rewrite Inx.
  rewrite Zodd_mod.
  pose proof (Z.mod_pos_bound m 2 ltac:(lia)) as B2.
  destruct (Z.eqb_spec (m mod 2) 1) as [O1 | O1].
  - rewrite O1.
    destruct (Z.eqb_spec (num mod den) 0) as [R0 | R0]; cbn [negb].
    + rewrite R0. replace (0 + den * 1 =? 0)%Z with false
        by (symmetry; apply Z.eqb_neq; lia).
      replace (2 * (0 + den * 1) ?= 2 * den)%Z with Eq
        by (symmetry; apply Z.compare_eq_iff; ring).
      reflexivity.
    + replace (num mod den + den * 1 =? 0)%Z with false
        by (symmetry; apply Z.eqb_neq; lia).
      replace (2 * (num mod den + den * 1) ?= 2 * den)%Z with Gt
        by (symmetry; apply Z.compare_gt_iff; lia).
      reflexivity.
  - assert (O0 : (m mod 2 = 0)%Z) by lia. rewrite O0.
    replace (num mod den + den * 0)%Z with (num mod den)%Z by ring.
    destruct (Z.eqb_spec (num mod den) 0) as [R0 | R0]; cbn [negb];
      [reflexivity|].
    replace (2 * (num mod den) ?= 2 * den)%Z with Lt
      by (symmetry; apply Z.compare_lt_iff; lia).
    reflexivity.
Qed.

Lemma iter_shr_1_recOK (n : nat) mrs num den :
  (0 <= num)%Z -> (0 < den)%Z -> recOK mrs num den ->
  recOK (Nat.iter n shr_1 mrs) num (den * 2 ^ Z.of_nat n).
Proof.
  intros Hn Hd H. induction n as [|n IH].
  - cbn [Nat.iter]. change (2 ^ Z.of_nat 0)%Z with 1%Z.
    now rewrite Z.mul_1_r.
  - cbn [Nat.iter].
    replace (den * 2 ^ Z.of_nat (S n))%Z with (2 * (den * 2 ^ Z.of_nat n))%Z
      by (rewrite Nat2Z.inj_succ, Z.pow_succ_r by lia; ring).
    apply shr_1_recOK; [exact Hn | | exact IH].
    assert (0 < 2 ^ Z.of_nat n)%Z by (apply Z.pow_pos_nonneg; lia). nia.
Qed.

(** The record after the shift of [shr_fexp]. *)
Lemma shr_fexp_recOK m e num den :
  (0 <= num)%Z -> (0 < den)%Z -> m = (num / den)%Z ->
  (e <= fexp prec emax (Zdigits2 m + e))%Z ->
  let E := fexp prec emax (Zdigits2 m + e) in
  exists mrs,
    shr_fexp prec emax m e (locOf num den) = (mrs, E) /\
    recOK mrs num (den * 2 ^ (E - e)).
Proof.
  intros Hn Hd Em He E. unfold shr_fexp. fold E. unfold shr.
  pose proof (recOK_of_loc num den) as R0. rewrite <- Em in R0.
  destruct (E - e)%Z as [|p|p] eqn:En; try lia.
  - exists (shr_record_of_loc m (locOf num den)).
    split; [f_equal; lia|]. now rewrite Z.pow_0_r, Z.mul_1_r.
  - exists (iter_pos shr_1 p (shr_record_of_loc m (locOf num den))).
    split; [f_equal; lia|].
    rewrite iter_pos_nat. rewrite <- (positive_nat_Z p).
    now apply iter_shr_1_recOK.
Qed.

(** ** The rounding of binary32, on values *)

Lemma Zdigits2_bounds m :
  (0 < m)%Z -> (2 ^ (Zdigits2 m - 1) <= m < 2 ^ Zdigits2 m)%Z.
Proof.
  intros Hm. destruct m as [|p|p]; try lia. apply digits2_pos_bounds.
Qed.

Lemma Zdigits2_nonneg m : (0 <= Zdigits2 m)%Z.
Proof. destruct m; cbn; lia. Qed.

Lemma Zdigits2_le m k : (0 <= k)%Z -> (0 <= m < 2 ^ k)%Z -> (Zdigits2 m <= k)%Z.
Proof.
  intros Hk [H0 H]. destruct m as [|p|p]; try lia; cbn [Zdigits2]; [lia|].
  now apply digits2_pos_le.
Qed.

Lemma Zdigits2_ge m k : (2 ^ (k - 1) <= m)%Z -> (0 < m)%Z -> (k <= Zdigits2 m)%Z.
Proof.
  intros H Hm. pose proof (Zdigits2_bounds Hm) as [_ U].
  pose proof (Zdigits2_nonneg m) as N.
  destruct (Z.le_gt_cases k (Zdigits2 m)) as [L | L]; [exact L|].
  assert (2 ^ Zdigits2 m <= 2 ^ (k - 1))%Z by (apply Z.pow_le_mono_r; lia).
  lia.
Qed.

(** Rounding to nearest even, as [binary_round_aux] does it on a
    mantissa [m] with a location: [m] is the integer part of [num/den], the
    real number to round is [num/den * 2^e], and the result is the multiple
    of [2^E] nearest to it, [E] being the exponent of the format there. *)
Lemma binary_round_aux_spec m e num den :
  (0 <= num)%Z -> (0 < den)%Z -> m = (num / den)%Z ->
  (e <= fexp prec emax (Zdigits2 m + e))%Z -> (Zdigits2 m + e <= 127)%Z ->
  let E := fexp prec emax (Zdigits2 m + e) in
  let F := binary_round_aux prec emax false m e (locOf num den) in
  okFloat F /\
  valZ F = (rneq num (den * 2 ^ (E - e)) * 2 ^ (E + SCALE))%Z.
Proof.
  intros Hn Hd Em He Hov E F. unfold F, binary_round_aux.
  destruct (@shr_fexp_recOK m e num den Hn Hd Em He) as (mrs & -> & [Rm Rl]).
  fold E in Rm, Rl |- *.
  set (n := (E - e)%Z) in *.
  assert (Hn0 : (0 <= n)%Z) by (unfold n; lia).
  assert (Pn : (0 < 2 ^ n)%Z) by (apply Z.pow_pos_nonneg; lia).
  assert (HD : (0 < den * 2 ^ n)%Z) by nia.
  rewrite Rm, Rl. change (round_nearest_even (num / (den * 2 ^ n))
                            (locOf num (den * 2 ^ n)))
    with (rneq num (den * 2 ^ n)).
  set (M := rneq num (den * 2 ^ n)).
  assert (Hm0 : (0 <= m)%Z) by (rewrite Em; apply Z.div_pos; lia).
  pose proof (Z.div_mod num den ltac:(lia)) as Edm.
  pose proof (Z.mod_pos_bound num den Hd) as Bdm. rewrite <- Em in Edm.
  assert (Emin : (emin prec emax = -149)%Z) by reflexivity.
  assert (HE : (E = Z.max (Zdigits2 m + e - 24) (-149))%Z) by reflexivity.
  (* the rounded mantissa has 24 digits at most, or is 2^24 *)
  assert (Mhi : (M <= 16777216)%Z).
  { apply rneq_le; [exact HD|].
    assert (m < 2 ^ (24 + n))%Z.
    { destruct (Z.eq_dec m 0) as [-> | Nz].
      - apply Z.pow_pos_nonneg; lia.
      - pose proof (@Zdigits2_bounds m ltac:(lia)) as [_ U].
        eapply Z.lt_le_trans; [exact U|]. apply Z.pow_le_mono_r; lia. }
    rewrite Z.pow_add_r in H by lia. change (2 ^ 24)%Z with 16777216%Z in H.
    nia. }
  assert (Mlo : (0 <= M)%Z) by (apply rneq_ge; [exact HD | lia]).
  assert (Mnorm : (-149 < E)%Z -> (8388608 <= M)%Z).
  { intros HEn. apply rneq_ge; [exact HD|].
    assert (Hm : (0 < m)%Z).
    { destruct (Z.eq_dec m 0) as [Ez | Nz]; [|lia].
      rewrite Ez in HE. cbn [Zdigits2] in HE. lia. }
    pose proof (Zdigits2_bounds Hm) as [L _].
    assert (En : (Zdigits2 m - 1 = 23 + n)%Z) by (unfold n; lia).
    rewrite En, Z.pow_add_r in L by lia.
    change (2 ^ 23)%Z with 8388608%Z in L. nia. }
  assert (HE104 : (E <= 103)%Z) by lia.
  destruct (Z.eq_dec M 16777216) as [Etop | Ntop].
  - (* a carry: one more shift *)
    rewrite Etop. unfold shr_fexp.
    change (Zdigits2 16777216) with 25%Z.
    replace (fexp prec emax (25 + E) - E)%Z with 1%Z
      by (unfold fexp; rewrite Emin; change prec with 24%Z; lia).
    unfold shr. cbn [iter_pos shr_record_of_loc shr_1 shr_m].
    replace (E + 1 <=? emax - prec)%Z with true
      by (symmetry; apply Z.leb_le; change (emax - prec)%Z with 104%Z; lia).
    split.
    + split; [|right; eauto].
      unfold valid, valid_binary, bounded, canonical_mantissa.
      change (Zpos (digits2_pos 8388608)) with 24%Z.
      apply andb_true_intro. split.
      * apply Z.eqb_eq. unfold fexp. rewrite Emin. change prec with 24%Z. lia.
      * apply Z.leb_le. change (emax - prec)%Z with 104%Z. lia.
    + cbn [valZ]. replace (E + 1 + SCALE)%Z with (1 + (E + SCALE))%Z by ring.
      rewrite Z.pow_add_r by (unfold SCALE; lia). ring.
  - assert (Hfd : (fexp prec emax (Zdigits2 M + E) <= E)%Z).
    { assert (Zdigits2 M <= 24)%Z
        by (apply Zdigits2_le; [lia|]; change (2 ^ 24)%Z with 16777216%Z; lia).
      unfold fexp. rewrite Emin. change prec with 24%Z. lia. }
    rewrite shr_fexp_exact by exact Hfd. cbn [shr_m].
    destruct M as [|q|q] eqn:EM; try lia.
    + split; [split; [reflexivity | left; reflexivity]|]. reflexivity.
    + replace (E <=? emax - prec)%Z with true
        by (symmetry; apply Z.leb_le; change (emax - prec)%Z with 104%Z; lia).
      split; [|reflexivity].
      split; [|right; eauto].
      unfold valid, valid_binary, bounded, canonical_mantissa.
      apply andb_true_intro. split.
      * apply Z.eqb_eq.
        assert (Dq : (Zpos (digits2_pos q) <= 24)%Z).
        { apply digits2_pos_le; [lia|].
          change (2 ^ 24)%Z with 16777216%Z. lia. }
        unfold fexp. rewrite Emin. change prec with 24%Z.
        destruct (Z.eq_dec E (-149)) as [E149 | NE]; [lia|].
        assert (D24 : (24 <= Zpos (digits2_pos q))%Z).
        { apply (@Zdigits2_ge (Zpos q) 24); [|lia].
          change (2 ^ (24 - 1))%Z with 8388608%Z. apply Mnorm. lia. }
        lia.
      * apply Z.leb_le. change (emax - prec)%Z with 104%Z. lia.
Qed.

(** ** Values and the comparisons *)

(** The mantissa and the exponent of a binary32 number. *)
Lemma valid_shape s m e :
  valid (S754_finite s m e) = true ->
  (-149 <= e <= 104)%Z /\ (Zpos m < 16777216)%Z /\
  ((-149 < e)%Z -> (8388608 <= Zpos m)%Z).
Proof.
  intros V. apply valid_finite in V as [Hc He].
  unfold fexp, emin in Hc. change prec with 24%Z in *.
  change emax with 128%Z in *.
  pose proof (digits2_pos_bounds m) as [L U].
  split; [lia|]. split.
  - eapply Z.lt_le_trans; [exact U|].
    change 16777216%Z with (2 ^ 24)%Z. apply Z.pow_le_mono_r; lia.
  - intros H. assert (D : Zpos (digits2_pos m) = 24%Z) by lia.
    rewrite D in L. exact L.
Qed.

Lemma pow_scale_pos e : (-149 <= e)%Z -> (0 < 2 ^ (e + SCALE))%Z.
Proof. intros H. apply Z.pow_pos_nonneg; unfold SCALE; lia. Qed.

Lemma valZ_nonneg x : (0 <= valZ x)%Z.
Proof.
  destruct x as [s|s| |[|] m e]; cbn [valZ]; lia.
Qed.

(** The comparison of two binary32 numbers that are not negative is the
    comparison of their values. *)
Lemma compare_valZ x y :
  okFloat x -> okFloat y ->
  SFcompare x y = Some (Z.compare (valZ x) (valZ y)).
Proof.
  intros [Vx [-> | (m1 & e1 & ->)]] [Vy [-> | (m2 & e2 & ->)]].
  - reflexivity.
  - destruct (@valid_shape _ _ _ Vy) as (He & _).
    pose proof (@pow_scale_pos e2 ltac:(lia)).
    cbn [SFcompare valZ zero]. f_equal. symmetry. apply Z.compare_lt_iff. nia.
  - destruct (@valid_shape _ _ _ Vx) as (He & _).
    pose proof (@pow_scale_pos e1 ltac:(lia)).
    cbn [SFcompare valZ zero]. f_equal. symmetry. apply Z.compare_gt_iff. nia.
  - destruct (@valid_shape _ _ _ Vx) as (He1 & U1 & L1).
    destruct (@valid_shape _ _ _ Vy) as (He2 & U2 & L2).
    pose proof (@pow_scale_pos e1 ltac:(lia)) as P1.
    pose proof (@pow_scale_pos e2 ltac:(lia)) as P2.
    cbn [SFcompare valZ]. f_equal.
    destruct (Z.compare_spec e1 e2) as [E | E | E].
    + subst e2. rewrite Pos.compare_cont_spec.
      change (Pos.compare m1 m2) with (Z.compare (Zpos m1) (Zpos m2)).
      replace (Pos.switch_Eq Eq (Zpos m1 ?= Zpos m2)%Z)
        with (Zpos m1 ?= Zpos m2)%Z
        by (destruct (Zpos m1 ?= Zpos m2)%Z; reflexivity).
      apply Zmult_compare_compat_r. lia.
    + symmetry. apply Z.compare_lt_iff.
      assert (E2 : (2 ^ (e2 + SCALE) = 2 ^ (e1 + SCALE) * 2 * 2 ^ (e2 - e1 - 1))%Z).
      { replace (e2 + SCALE)%Z with ((e1 + SCALE) + 1 + (e2 - e1 - 1))%Z by lia.
        rewrite !Z.pow_add_r by (unfold SCALE; lia). rewrite Z.pow_1_r. ring. }
      assert (Q : (0 < 2 ^ (e2 - e1 - 1))%Z) by (apply Z.pow_pos_nonneg; lia).
      specialize (L2 ltac:(lia)). rewrite E2.
      generalize dependent (2 ^ (e2 - e1 - 1))%Z.
      generalize dependent (2 ^ (e1 + SCALE))%Z. intros. nia.
    + symmetry. apply Z.compare_gt_iff.
      assert (E2 : (2 ^ (e1 + SCALE) = 2 ^ (e2 + SCALE) * 2 * 2 ^ (e1 - e2 - 1))%Z).
      { replace (e1 + SCALE)%Z with ((e2 + SCALE) + 1 + (e1 - e2 - 1))%Z by lia.
        rewrite !Z.pow_add_r by (unfold SCALE; lia). rewrite Z.pow_1_r. ring. }
      assert (Q : (0 < 2 ^ (e1 - e2 - 1))%Z) by (apply Z.pow_pos_nonneg; lia).
      specialize (L1 ltac:(lia)). rewrite E2.
      generalize dependent (2 ^ (e1 - e2 - 1))%Z.
      generalize dependent (2 ^ (e2 + SCALE))%Z. intros. nia.
Qed.

Lemma valZ_leb x y :
  okFloat x -> okFloat y -> (valZ x <= valZ y)%Z -> leb x y = true.
Proof.
  intros Hx Hy H. unfold leb, SFleb. rewrite (compare_valZ Hx Hy).
  destruct (Z.compare_spec (valZ x) (valZ y)); try reflexivity. lia.
Qed.

Lemma leb_valZ x y :
  okFloat x -> okFloat y -> leb x y = true -> (valZ x <= valZ y)%Z.
Proof.
  intros Hx Hy. unfold leb, SFleb. rewrite (compare_valZ Hx Hy).
  destruct (Z.compare_spec (valZ x) (valZ y)); try discriminate; lia.
Qed.

Lemma ltb_valZ x y :
  okFloat x -> okFloat y -> ltb x y = true -> (valZ x < valZ y)%Z.
Proof.
  intros Hx Hy. unfold ltb, SFltb. rewrite (compare_valZ Hx Hy).
  destruct (Z.compare_spec (valZ x) (valZ y)); try discriminate; lia.
Qed.

Lemma not_ltb_valZ x y :
  okFloat x -> okFloat y -> ltb x y = false -> (valZ y <= valZ x)%Z.
Proof.
  intros Hx Hy. unfold ltb, SFltb. rewrite (compare_valZ Hx Hy).
  destruct (Z.compare_spec (valZ x) (valZ y)); try discriminate; lia.
Qed.

(** ** The rounded value *)

Lemma ulpExp_pos z : (0 < 2 ^ ulpExp z)%Z.
Proof. apply Z.pow_pos_nonneg; [lia|]. unfold ulpExp, SCALE. lia. Qed.

Lemma Zdigits2_shift p k :
  (0 <= k)%Z -> Zdigits2 (Zpos p * 2 ^ k) = (Zpos (digits2_pos p) + k)%Z.
Proof.
  intros Hk. destruct k as [|k|k]; try lia.
  - rewrite Z.pow_0_r, Z.mul_1_r. cbn [Zdigits2]. lia.
  - rewrite <- iter_xO_pow. cbn [Zdigits2]. apply digits2_pos_iter_xO.
Qed.

Lemma Zdigits2_mono z z' : (0 <= z <= z')%Z -> (Zdigits2 z <= Zdigits2 z')%Z.
Proof.
  intros [H0 H]. destruct (Z.eq_dec z 0) as [-> | Nz].
  - apply Zdigits2_nonneg.
  - pose proof (@Zdigits2_bounds z ltac:(lia)) as [L _].
    apply Zdigits2_ge; lia.
Qed.

Lemma RND_nonneg z : (0 <= z)%Z -> (0 <= RND z)%Z.
Proof.
  intros Hz. pose proof (ulpExp_pos z) as P. unfold RND.
  assert (0 <= rneq z (2 ^ ulpExp z))%Z by (apply rneq_ge; lia). nia.
Qed.

Lemma RND_double z : (0 <= z)%Z -> (RND z <= 2 * z)%Z.
Proof. intros Hz. apply rneq_double; [apply ulpExp_pos | exact Hz]. Qed.

Lemma RND_half z : (2 * RND z <= 2 * z + 2 ^ ulpExp z)%Z.
Proof. apply rneq_half. apply ulpExp_pos. Qed.

(** A multiple of the grid step rounds to itself. *)
Lemma RND_exact z k : (z = k * 2 ^ ulpExp z)%Z -> RND z = z.
Proof.
  intros H. unfold RND. rewrite H at 1.
  rewrite rneq_exact by apply ulpExp_pos. now rewrite <- H.
Qed.

(** Rounding is monotone. *)
Lemma RND_mono z z' : (0 <= z <= z')%Z -> (RND z <= RND z')%Z.
Proof.
  intros [H0 H].
  pose proof (@Zdigits2_mono z z' ltac:(lia)) as Hd.
  assert (HE : (ulpExp z <= ulpExp z')%Z) by (unfold ulpExp; lia).
  pose proof (ulpExp_pos z) as P. pose proof (ulpExp_pos z') as P'.
  destruct (Z.eq_dec (ulpExp z) (ulpExp z')) as [Eq | Ne].
  - unfold RND. rewrite <- Eq.
    pose proof (@rneq_mono z z' (2 ^ ulpExp z) P H). nia.
  - assert (Lt : (ulpExp z + 1 <= ulpExp z')%Z) by lia.
    assert (Ez : (0 <= ulpExp z)%Z) by (unfold ulpExp, SCALE; lia).
    (* the smaller value rounds to 2^24 steps at most *)
    assert (U : (RND z <= 16777216 * 2 ^ ulpExp z)%Z).
    { unfold RND.
      assert (rneq z (2 ^ ulpExp z) <= 16777216)%Z; [|nia].
      apply rneq_le; [exact P|].
      destruct (Z.eq_dec z 0) as [-> | Nz]; [lia|].
      pose proof (@Zdigits2_bounds z ltac:(lia)) as [_ Uz].
      assert (2 ^ Zdigits2 z <= 2 ^ (24 + ulpExp z))%Z
        by (apply Z.pow_le_mono_r; unfold ulpExp; lia).
      rewrite Z.pow_add_r in H1 by lia.
      change (2 ^ 24)%Z with 16777216%Z in H1. lia. }
    (* the larger one to 2^23 steps at least *)
    assert (Ez' : (ulpExp z' = Zdigits2 z' - 24)%Z) by (unfold ulpExp in *; lia).
    assert (Pz' : (0 < z')%Z).
    { destruct (Z.eq_dec z' 0) as [E0 | N0]; [|lia].
      rewrite E0 in Ez'. cbn [Zdigits2] in Ez'. unfold ulpExp, SCALE in *. lia. }
    assert (L : (8388608 * 2 ^ ulpExp z' <= RND z')%Z).
    { unfold RND.
      assert (8388608 <= rneq z' (2 ^ ulpExp z'))%Z; [|nia].
      apply rneq_ge; [exact P'|].
      pose proof (Zdigits2_bounds Pz') as [Lz _].
      replace (Zdigits2 z' - 1)%Z with (23 + ulpExp z')%Z in Lz by lia.
      rewrite Z.pow_add_r in Lz by lia.
      change (2 ^ 23)%Z with 8388608%Z in Lz. lia. }
    assert (S2 : (2 * 2 ^ ulpExp z <= 2 ^ ulpExp z')%Z).
    { rewrite <- Z.pow_succ_r by lia. apply Z.pow_le_mono_r; lia. }
    lia.
Qed.

(** Rounding an exact mantissa. *)
Lemma binary_round_aux_exact p e :
  (- SCALE <= e)%Z ->
  (e <= fexp prec emax (Zpos (digits2_pos p) + e))%Z ->
  (Zpos (digits2_pos p) + e <= 127)%Z ->
  let F := binary_round_aux prec emax false (Zpos p) e loc_Exact in
  okFloat F /\ valZ F = RND (Zpos p * 2 ^ (e + SCALE)).
Proof.
  intros Hs He Hov F.
  destruct (@binary_round_aux_spec (Zpos p) e (Zpos p) 1) as [Ok Ev];
    try lia; try (cbn [Zdigits2]; assumption).
  { now rewrite Z.div_1_r. }
  replace (locOf (Zpos p) 1) with loc_Exact in Ok, Ev
    by (unfold locOf; now rewrite Z.mod_1_r).
  split; [exact Ok|]. fold F in Ev. rewrite Ev. clear Ok Ev F.
  cbn [Zdigits2]. set (E := fexp prec emax (Zpos (digits2_pos p) + e)) in *.
  assert (HE : (E = Z.max (Zpos (digits2_pos p) + e - 24) (-149))%Z) by reflexivity.
  unfold RND.
  assert (Eu : ulpExp (Zpos p * 2 ^ (e + SCALE)) = (E + SCALE)%Z).
  { unfold ulpExp. rewrite Zdigits2_shift by lia. lia. }
  rewrite Eu. f_equal.
  replace (2 ^ (E + SCALE))%Z with (2 ^ (e + SCALE) * 2 ^ (E - e))%Z
    by (rewrite <- Z.pow_add_r by lia; f_equal; lia).
  rewrite (Z.mul_comm (Zpos p)), Z.mul_1_l.
  symmetry. apply rneq_scale; apply Z.pow_pos_nonneg; lia.
Qed.

Lemma binary_round_spec p e :
  (- SCALE <= e)%Z -> (Zpos (digits2_pos p) + e <= 127)%Z ->
  let F := binary_round prec emax false p e in
  okFloat F /\ valZ F = RND (Zpos p * 2 ^ (e + SCALE)).
Proof.
  intros Hs Hov F. unfold F, binary_round, shl_align.
  set (E := fexp prec emax (Zpos (digits2_pos p) + e)).
  assert (HE : (E = Z.max (Zpos (digits2_pos p) + e - 24) (-149))%Z) by reflexivity.
  destruct (E - e)%Z as [|k|k] eqn:Ek.
  - apply binary_round_aux_exact; try assumption. fold E. lia.
  - apply binary_round_aux_exact; try assumption. fold E. lia.
  - assert (Ev : (Zpos p * 2 ^ (e + SCALE)
                  = Zpos (Pos.iter xO p k) * 2 ^ (E + SCALE))%Z).
    { rewrite iter_xO_pow. replace (e + SCALE)%Z with (Zpos k + (E + SCALE))%Z by lia.
      rewrite Z.pow_add_r by (unfold SCALE; lia). ring. }
    rewrite Ev. apply binary_round_aux_exact.
    + unfold SCALE. lia.
    + rewrite digits2_pos_iter_xO.
      replace (Zpos (digits2_pos p) + Zpos k + E)%Z
        with (Zpos (digits2_pos p) + e)%Z by lia.
      fold E. lia.
    + rewrite digits2_pos_iter_xO. lia.
Qed.

(** ** Products, differences from 1.0 and doubles, on values *)

Lemma okFloat_finite m e :
  valid (S754_finite false m e) = true -> okFloat (S754_finite false m e).
Proof. intros V. split; [exact V | right; eauto]. Qed.

Lemma okFloat_zero : okFloat zero.
Proof. split; [reflexivity | left; reflexivity]. Qed.

Lemma valZ_one : valZ one = (2 ^ SCALE)%Z.
Proof. reflexivity. Qed.

(** A binary32 number of [[0, 1]] has an exponent of -23 at most. *)
Lemma le_one_exponent m e :
  valid (S754_finite false m e) = true ->
  (valZ (S754_finite false m e) <= valZ one)%Z -> (e <= -23)%Z.
Proof.
  intros V H. destruct (@valid_shape _ _ _ V) as (He & U & L).
  destruct (Z.le_gt_cases e (-23)) as [Le | Gt]; [exact Le|].
  specialize (L ltac:(lia)). rewrite valZ_one in H. cbn [valZ] in H.
  assert (2 * 2 ^ SCALE <= 8388608 * 2 ^ (e + SCALE))%Z.
  { replace (e + SCALE)%Z with ((e + 22) + (SCALE - 22))%Z by lia.
    rewrite Z.pow_add_r by (unfold SCALE; lia).
    replace SCALE with (22 + (SCALE - 22))%Z at 1 by lia.
    rewrite Z.pow_add_r by (unfold SCALE; lia).
    change (2 ^ 22)%Z with 4194304%Z.
    assert (1 <= 2 ^ (e + 22))%Z
      by (change 1%Z with (2 ^ 0)%Z; apply Z.pow_le_mono_r; lia).
    assert (0 < 2 ^ (SCALE - 22))%Z by (apply Z.pow_pos_nonneg; unfold SCALE; lia).
    nia. }
  assert (0 < 2 ^ SCALE)%Z by (apply Z.pow_pos_nonneg; unfold SCALE; lia).
  assert (0 < 2 ^ (e + SCALE))%Z by (apply Z.pow_pos_nonneg; unfold SCALE; lia).
  nia.
Qed.

(** The product of two binary32 numbers of [[0, 1]], the second one
    normal, is their exact product rounded. *)
Lemma mul_spec ma ea md ed :
  valid (S754_finite false ma ea) = true ->
  valid (S754_finite false md ed) = true ->
  (8388608 <= Zpos md)%Z -> (ea + ed <= 79)%Z ->
  let F := mul (S754_finite false ma ea) (S754_finite false md ed) in
  okFloat F /\
  valZ F = RND (Zpos ma * Zpos md * 2 ^ (ea + ed + SCALE)).
Proof.
  intros Va Vd Hd He F. unfold F, mul, SFmul. cbn [xorb].
  destruct (@valid_shape _ _ _ Va) as (Ha & Ua & _).
  destruct (@valid_shape _ _ _ Vd) as (Hd' & Ud & _).
  assert (D1 : (24 <= Zpos (digits2_pos (ma * md)))%Z).
  { apply (@Zdigits2_ge (Zpos (ma * md)) 24); [|lia].
    change (2 ^ (24 - 1))%Z with 8388608%Z. rewrite Pos2Z.inj_mul. nia. }
  assert (D2 : (Zpos (digits2_pos (ma * md)) <= 48)%Z).
  { apply digits2_pos_le; [lia|]. rewrite Pos2Z.inj_mul.
    change (2 ^ 48)%Z with (16777216 * 16777216)%Z. nia. }
  rewrite <- Pos2Z.inj_mul.
  apply binary_round_aux_exact.
  - unfold SCALE. lia.
  - unfold fexp, emin. change prec with 24%Z. change emax with 128%Z. lia.
  - lia.
Qed.

Lemma shl_align_value m e ez :
  (ez <= e)%Z ->
  Zpos (fst (shl_align m e ez)) = (Zpos m * 2 ^ (e - ez))%Z.
Proof.
  intros H. unfold shl_align.
  destruct (ez - e)%Z as [|k|k] eqn:Ek; cbn [fst]; try lia.
  - replace (e - ez)%Z with 0%Z by lia. rewrite Z.pow_0_r. lia.
  - rewrite iter_xO_pow. f_equal. f_equal. lia.
Qed.

Lemma RND_zero : RND 0 = 0%Z.
Proof. reflexivity. Qed.

(** [1.0f - x] for a binary32 number [x] of [(0, 1]]: the exact
    difference, rounded. *)
Lemma sub_one_spec mx ex :
  valid (S754_finite false mx ex) = true ->
  (valZ (S754_finite false mx ex) <= valZ one)%Z ->
  let F := sub one (S754_finite false mx ex) in
  okFloat F /\ valZ F = RND (valZ one - valZ (S754_finite false mx ex)).
Proof.
  intros V H F. pose proof (@le_one_exponent _ _ V H) as He.
  destruct (@valid_shape _ _ _ V) as (Hx & Ux & _).
  rewrite valZ_one in *.
  unfold F, sub, one, SFsub. rewrite Z.min_r by lia. cbn [cond_Zopp].
  rewrite !shl_align_value by lia.
  rewrite Z.sub_diag, Z.pow_0_r, Z.mul_1_r.
  cbn [valZ] in *.
  assert (P : (0 < 2 ^ (ex + SCALE))%Z) by (apply Z.pow_pos_nonneg; unfold SCALE; lia).
  assert (ES : (2 ^ SCALE = 8388608 * 2 ^ (-23 - ex) * 2 ^ (ex + SCALE))%Z).
  { change 8388608%Z with (2 ^ 23)%Z.
    rewrite <- !Z.pow_add_r by (unfold SCALE; lia). f_equal. lia. }
  destruct (8388608 * 2 ^ (-23 - ex) - Zpos mx)%Z as [|p|p] eqn:Ed;
    cbn [binary_normalize].
  - split; [exact okFloat_zero|]. cbn [valZ].
    replace (2 ^ SCALE - Zpos mx * 2 ^ (ex + SCALE))%Z with 0%Z by nia.
    reflexivity.
  - replace (2 ^ SCALE - Zpos mx * 2 ^ (ex + SCALE))%Z
      with (Zpos p * 2 ^ (ex + SCALE))%Z by nia.
    apply binary_round_spec; [unfold SCALE; lia|].
    assert (Hp : (Zpos p < 2 ^ (- ex))%Z).
    { assert (8388608 * 2 ^ (-23 - ex) = 2 ^ (- ex))%Z.
      { change 8388608%Z with (2 ^ 23)%Z. rewrite <- Z.pow_add_r by lia.
        f_equal. lia. }
      lia. }
    assert (Zpos (digits2_pos p) <= - ex)%Z by (apply digits2_pos_le; lia).
    lia.
  - exfalso. nia.
Qed.

(** [a + a] is exact. *)
Lemma add_self_spec a :
  okFloat a -> (valZ a <= valZ one)%Z ->
  okFloat (add a a) /\ valZ (add a a) = (2 * valZ a)%Z.
Proof.
  intros [V [-> | (m & e & ->)]] H; [split; [exact okFloat_zero | reflexivity]|].
  pose proof (@le_one_exponent _ _ V H) as He.
  destruct (@valid_shape _ _ _ V) as (Hx & Ux & Lx).
  unfold add, SFadd. rewrite Z.min_id. cbn [cond_Zopp].
  rewrite !shl_align_value by lia. rewrite Z.sub_diag, Z.pow_0_r, Z.mul_1_r.
  change (Zpos m + Zpos m)%Z with (Zpos (m + m)). cbn [binary_normalize].
  assert (D : (Zpos (digits2_pos (m + m)) = Zpos (digits2_pos m) + 1)%Z).
  { replace (m + m)%positive with (m~0)%positive by lia.
    cbn [digits2_pos]. lia. }
  destruct (@binary_round_spec (m + m) e) as [Ok Ev];
    [unfold SCALE; lia | | ].
  { rewrite D. pose proof (digits2_pos_bounds m) as [L _].
    assert (Zpos (digits2_pos m) <= 24)%Z
      by (apply digits2_pos_le; [lia|]; change (2 ^ 24)%Z with 16777216%Z; lia).
    lia. }
  split; [exact Ok|]. rewrite Ev. cbn [valZ].
  replace (2 * (Zpos m * 2 ^ (e + SCALE)))%Z with (Zpos (m + m) * 2 ^ (e + SCALE))%Z
    by (rewrite Pos2Z.inj_add; ring).
  set (z := (Zpos (m + m) * 2 ^ (e + SCALE))%Z).
  assert (Eu : ulpExp z = Z.max (Zpos (digits2_pos m) + 1 + (e + SCALE) - 24)
                                (SCALE - 149)).
  { unfold ulpExp, z. rewrite Zdigits2_shift by (unfold SCALE; lia).
    rewrite D. reflexivity. }
  apply valid_finite in V as [Hc _].
  unfold fexp, emin in Hc. change prec with 24%Z in Hc.
  change emax with 128%Z in Hc.
  destruct (Z.eq_dec (Zpos (digits2_pos m)) 24) as [D24 | N24].
  - apply (@RND_exact z (Zpos m)). rewrite Eu.
    replace (Z.max (Zpos (digits2_pos m) + 1 + (e + SCALE) - 24) (SCALE - 149))
      with (1 + (e + SCALE))%Z by lia.
    unfold z. rewrite (Z.pow_add_r 2 1 (e + SCALE)) by (unfold SCALE; lia).
    rewrite Pos2Z.inj_add. ring.
  - assert (E149 : e = (-149)%Z) by lia.
    apply (@RND_exact z (Zpos (m + m))). rewrite Eu.
    replace (Z.max (Zpos (digits2_pos m) + 1 + (e + SCALE) - 24) (SCALE - 149))
      with (e + SCALE)%Z by lia.
    reflexivity.
Qed.

(** ** Quotients, on values *)

Lemma new_location_locOf num den :
  (0 < den)%Z -> new_location den (num mod den) = locOf num den.
Proof.
  intros Hd. pose proof (Z.mod_pos_bound num den Hd) as B.
  unfold new_location, new_location_even, new_location_odd, locOf.
  destruct (Z.even den) eqn:Ev; [reflexivity|].
  destruct (num mod den =? 0)%Z; [reflexivity|]. f_equal.
  assert (Od : (den mod 2 = 1)%Z).
  { rewrite Zeven_mod in Ev. apply Z.eqb_neq in Ev.
    pose proof (Z.mod_pos_bound den 2 ltac:(lia)). lia. }
  pose proof (Z.div_mod den 2 ltac:(lia)) as E2. rewrite Od in E2.
  destruct (Z.compare_spec (2 * (num mod den) + 1) den);
    destruct (Z.compare_spec (2 * (num mod den)) den); try reflexivity; lia.
Qed.

Lemma fexp_mono a b : (a <= b)%Z -> (fexp prec emax a <= fexp prec emax b)%Z.
Proof. intros H. unfold fexp. lia. Qed.

Lemma fexp_eq a : fexp prec emax a = Z.max (a - 24) (-149).
Proof. reflexivity. Qed.

(** The digits of an integer quotient, from the digits of its operands. *)
Lemma quotient_digits (m d : Z) (dm dd : Z) :
  (1 <= dm)%Z -> (1 <= dd)%Z ->
  (2 ^ (dm - 1) <= m < 2 ^ dm)%Z -> (2 ^ (dd - 1) <= d < 2 ^ dd)%Z ->
  (0 <= m / d)%Z /\
  ((dm - dd + 1 <= 0)%Z -> (m / d = 0)%Z) /\
  ((0 < dm - dd + 1)%Z -> (Zdigits2 (m / d) <= dm - dd + 1)%Z) /\
  ((0 < dm - dd)%Z -> (dm - dd <= Zdigits2 (m / d))%Z).
Proof.
  intros Hdm Hdd [Lm Um] [Ld Ud].
  assert (Pd : (0 < 2 ^ (dd - 1))%Z) by (apply Z.pow_pos_nonneg; lia).
  assert (Hq0 : (0 <= m / d)%Z) by (apply Z.div_pos; lia).
  pose proof (Z.div_mod m d ltac:(lia)) as Edm.
  pose proof (Z.mod_pos_bound m d ltac:(lia)) as Bdm.
  split; [exact Hq0|]. split; [|split].
  - intros Neg.
    assert (2 ^ dm <= 2 ^ (dd - 1))%Z by (apply Z.pow_le_mono_r; lia).
    apply Z.div_small. lia.
  - intros Pos. apply Zdigits2_le; [lia|]. split; [exact Hq0|].
    assert (E : (2 ^ dm = 2 ^ (dm - dd + 1) * 2 ^ (dd - 1))%Z)
      by (rewrite <- Z.pow_add_r by lia; f_equal; lia).
    apply Z.div_lt_upper_bound; [lia|].
    rewrite E in Um.
    assert (0 < 2 ^ (dm - dd + 1))%Z by (apply Z.pow_pos_nonneg; lia).
    clear - Um Ld Pd H. nia.
  - intros Pos.
    assert (Lq : (2 ^ (dm - dd - 1) <= m / d)%Z).
    { apply Z.div_le_lower_bound; [lia|].
      assert (E : (2 ^ (dm - 1) = 2 ^ dd * 2 ^ (dm - dd - 1))%Z)
        by (rewrite <- Z.pow_add_r by lia; f_equal; lia).
      assert (0 < 2 ^ (dm - dd - 1))%Z by (apply Z.pow_pos_nonneg; lia).
      rewrite E in Lm. clear - Lm Ud H. nia. }
    apply Zdigits2_ge; [exact Lq|].
    assert (0 < 2 ^ (dm - dd - 1))%Z by (apply Z.pow_pos_nonneg; lia). lia.
Qed.

(** Rounding a quotient that is at most a binary32 number [c] gives [c] at
    most. *)
Lemma round_quotient_le (m' md q e' mc ec : Z) :
  (0 < md)%Z -> (0 <= q)%Z -> (q * md <= m')%Z ->
  (-253 <= e')%Z -> (-149 <= ec)%Z -> (0 < mc < 16777216)%Z ->
  let E := Z.max (Zdigits2 q + e' - 24) (-149) in
  (e' <= E)%Z ->
  (m' * 2 ^ (e' + SCALE) <= mc * 2 ^ (ec + SCALE) * md)%Z ->
  (rneq m' (md * 2 ^ (E - e')) * 2 ^ (E + SCALE) <= mc * 2 ^ (ec + SCALE))%Z.
Proof.
  intros Hmd Hq Hqm He' Hec Hmc E HE Hle.
  set (n := (E - e')%Z).
  assert (Hn : (0 <= n)%Z) by (unfold n; lia).
  set (A := (2 ^ (e' + SCALE))%Z) in *.
  assert (PA : (0 < A)%Z) by (apply Z.pow_pos_nonneg; unfold SCALE; lia).
  assert (Pn : (0 < 2 ^ n)%Z) by (apply Z.pow_pos_nonneg; lia).
  assert (EE : (2 ^ (E + SCALE) = 2 ^ n * A)%Z).
  { unfold A, n. rewrite <- Z.pow_add_r by (unfold SCALE; lia). f_equal. lia. }
  assert (Pc : (0 < 2 ^ (ec + SCALE))%Z)
    by (apply Z.pow_pos_nonneg; unfold SCALE; lia).
  (* the exponent of [c] is not below the one of the grid *)
  assert (HEc : (E <= ec)%Z).
  { destruct (Z.le_gt_cases E ec) as [L | G]; [exact L|]. exfalso.
    assert (Pq : (0 < q)%Z).
    { destruct (Z.eq_dec q 0) as [Ez | Nz]; [|lia].
      unfold E in G, HE. rewrite Ez in G, HE. cbn [Zdigits2] in G, HE. lia. }
    pose proof (Zdigits2_bounds Pq) as [Lq _].
    replace (Zdigits2 q - 1)%Z with (23 + n)%Z in Lq by (unfold n, E in *; lia).
    rewrite Z.pow_add_r in Lq by lia. change (2 ^ 23)%Z with 8388608%Z in Lq.
    assert (Ec : (2 * 2 ^ (ec + SCALE) <= 2 ^ n * A)%Z).
    { rewrite <- EE, <- Z.pow_succ_r by (unfold SCALE; lia).
      apply Z.pow_le_mono_r; lia. }
    clear - Hle Hqm Lq Ec Pc Hmc PA Pn Hmd.
    remember (2 ^ (ec + SCALE))%Z as C eqn:HC. clear HC.
    remember (2 ^ n)%Z as N eqn:HN. clear HN.
    assert (H1 : (mc * C * md < 8388608 * N * A * md)%Z).
    { apply Z.mul_lt_mono_pos_r; [lia|]. nia. }
    assert (H2 : (8388608 * N * md * A <= m' * A)%Z).
    { apply Z.mul_le_mono_pos_r; [exact PA|]. nia. }
    lia. }
  assert (EC : (2 ^ (ec + SCALE) = 2 ^ (ec - E) * (2 ^ n * A))%Z).
  { rewrite <- EE, <- Z.pow_add_r by (unfold SCALE; lia). f_equal. lia. }
  assert (PC : (0 < 2 ^ (ec - E))%Z) by (apply Z.pow_pos_nonneg; lia).
  rewrite EC in Hle |- *. rewrite EE. fold n.
  assert (HD : (0 < md * 2 ^ n)%Z) by (apply Z.mul_pos_pos; assumption).
  assert (R : (rneq m' (md * 2 ^ n) <= mc * 2 ^ (ec - E))%Z).
  { apply rneq_le; [exact HD|].
    apply Z.mul_le_mono_pos_r with (p := A); [exact PA|].
    clear - Hle. lia. }
  clear - R PC Pn PA.
  generalize dependent (rneq m' (md * 2 ^ n)). intros M R.
  replace (mc * (2 ^ (ec - E) * (2 ^ n * A)))%Z
    with (mc * 2 ^ (ec - E) * (2 ^ n * A))%Z by ring.
  apply Z.mul_le_mono_nonneg_r; [|exact R].
  apply Z.lt_le_incl, Z.mul_pos_pos; assumption.
Qed.

(** The quotient is below 8: a bound on the exponents. *)
Lemma quotient_exponent (mN md eN ed dN dd : Z) :
  (2 ^ (dN - 1) <= mN)%Z -> (md < 2 ^ dd)%Z -> (1 <= dN)%Z -> (1 <= dd)%Z ->
  (-149 <= eN)%Z -> (-149 <= ed)%Z ->
  (mN * 2 ^ (eN + SCALE) <= 4 * (md * 2 ^ (ed + SCALE)))%Z ->
  (dN + eN - (dd + ed) <= 2)%Z.
Proof.
  intros LdN Udd HdN Hdd HeN Hed H4.
  assert (A : (2 ^ (dN - 1 + (eN + SCALE)) < 2 ^ (2 + dd + (ed + SCALE)))%Z).
  { rewrite (Z.pow_add_r 2 (dN - 1) (eN + SCALE)) by (unfold SCALE; lia).
    rewrite (Z.pow_add_r 2 (2 + dd) (ed + SCALE)) by (unfold SCALE; lia).
    rewrite (Z.pow_add_r 2 2 dd) by lia.
    change (2 ^ 2)%Z with 4%Z.
    assert (0 < 2 ^ (eN + SCALE))%Z by (apply Z.pow_pos_nonneg; unfold SCALE; lia).
    assert (0 < 2 ^ (ed + SCALE))%Z by (apply Z.pow_pos_nonneg; unfold SCALE; lia).
    clear - LdN Udd H4 H H0. nia. }
  apply Z.pow_lt_mono_r_iff in A; unfold SCALE in *; lia.
Qed.

(** The quotient of two positive binary32 numbers, when it is 4 at most:
    a binary32 number that is below every binary32 number above the exact
    quotient. *)
Lemma div_spec mN eN md ed :
  valid (S754_finite false mN eN) = true ->
  valid (S754_finite false md ed) = true ->
  (valZ (S754_finite false mN eN) <= 4 * valZ (S754_finite false md ed))%Z ->
  let F := div (S754_finite false mN eN) (S754_finite false md ed) in
  okFloat F /\
  forall c, okFloat c ->
    (valZ (S754_finite false mN eN) * 2 ^ SCALE
     <= valZ c * valZ (S754_finite false md ed))%Z ->
    (valZ F <= valZ c)%Z.
Proof.
  intros VN Vd H4 F.
  destruct (@valid_shape _ _ _ VN) as (HeN & UN & _).
  destruct (@valid_shape _ _ _ Vd) as (Hed & Ud & _).
  pose proof (digits2_pos_bounds mN) as [LdN UdN].
  pose proof (digits2_pos_bounds md) as [Ldd Udd].
  unfold F, div, SFdiv, SFdiv_core_binary. cbn [Zdigits2 xorb]. cbv zeta.
  set (dN := Zpos (digits2_pos mN)) in *.
  set (dd := Zpos (digits2_pos md)) in *.
  assert (HdN : (1 <= dN)%Z) by (unfold dN; lia).
  assert (Hdd : (1 <= dd)%Z) by (unfold dd; lia).
  cbn [valZ] in H4.
  assert (Ht : (dN + eN - (dd + ed) <= 2)%Z)
    by (apply (@quotient_exponent (Zpos mN) (Zpos md)); lia).
  rewrite fexp_eq.
  set (e' := Z.min (Z.max (dN + eN - (dd + ed) - 24) (-149)) (eN - ed)).
  set (s := (eN - ed - e')%Z).
  assert (Hs : (0 <= s)%Z) by (unfold s, e'; lia).
  assert (He' : (-253 <= e' <= -22)%Z) by (unfold e'; lia).
  set (m' := (Zpos mN * 2 ^ s)%Z).
  assert (Em' : match s with
                | 0%Z => Zpos mN
                | Zpos _ => Z.shiftl (Zpos mN) s
                | Zneg _ => 0%Z
                end = m').
  { unfold m'. generalize Hs. generalize s. intros [|k|k] Hk; try lia.
    apply Z.shiftl_mul_pow2. lia. }
  rewrite Em'.
  assert (Ps : (0 < 2 ^ s)%Z) by (apply Z.pow_pos_nonneg; lia).
  assert (Bm' : (2 ^ (dN + s - 1) <= m' < 2 ^ (dN + s))%Z).
  { unfold m'. replace (dN + s - 1)%Z with (dN - 1 + s)%Z by lia.
    rewrite !Z.pow_add_r by lia. clear - LdN UdN Ps. nia. }
  destruct (Z.div_eucl m' (Zpos md)) as [q r] eqn:Edv.
  assert (Eq : q = (m' / Zpos md)%Z) by (unfold Z.div; now rewrite Edv).
  assert (Er : r = (m' mod Zpos md)%Z) by (unfold Z.modulo; now rewrite Edv).
  rewrite Er, new_location_locOf by lia.
  destruct (@quotient_digits m' (Zpos md) (dN + s) dd)
    as (Hq0 & Q0 & Qhi & Qlo); try lia.
  rewrite <- Eq in Hq0, Q0, Qhi, Qlo.
  pose proof (Z.div_mod m' (Zpos md) ltac:(lia)) as Edm. rewrite <- Eq in Edm.
  pose proof (Z.mod_pos_bound m' (Zpos md) ltac:(lia)) as Bdm.
  assert (Hqm : (q * Zpos md <= m')%Z) by (clear - Edm Bdm; lia).
  assert (Hts : (dN + s - dd + e' = dN + eN - (dd + ed))%Z) by (unfold s; lia).
  (* the digits of the integer quotient *)
  assert (Dq_hi : (Zdigits2 q + e' <= 3)%Z).
  { destruct (Z.le_gt_cases (dN + s - dd + 1) 0) as [Neg | Pos].
    - rewrite (Q0 Neg). cbn [Zdigits2]. clear - He'. lia.
    - specialize (Qhi Pos). clear - Qhi Hts Ht. lia. }
  assert (Dq_lo : (e' <= Z.max (Zdigits2 q + e' - 24) (-149))%Z).
  { destruct (Z.le_gt_cases (dN + s - dd) 0) as [Neg | Pos].
    - assert (e' <= -149)%Z by (unfold e' in *; clear - Neg Hts; lia).
      clear - H. lia.
    - specialize (Qlo Pos).
      assert (e' <= Z.max (dN + eN - (dd + ed) - 24) (-149))%Z
        by (unfold e'; clear; lia).
      clear - Qlo Hts H. lia. }
  destruct (@binary_round_aux_spec q e' m' (Zpos md)) as [Ok Ev];
    try (clear; lia); try assumption.
  { clear - Dq_hi. lia. }
  split; [exact Ok|]. intros c Hc Hle. rewrite Ev. clear Ok Ev.
  rewrite fexp_eq.
  set (A := (2 ^ (e' + SCALE))%Z).
  set (B := (2 ^ (ed + SCALE))%Z).
  assert (PA : (0 < A)%Z) by (apply Z.pow_pos_nonneg; unfold SCALE; clear - He'; lia).
  assert (PB : (0 < B)%Z) by (apply Z.pow_pos_nonneg; unfold SCALE; clear - Hed; lia).
  assert (EN : (Zpos mN * 2 ^ (eN + SCALE) * 2 ^ SCALE = m' * A * B)%Z).
  { unfold m', A, B.
    replace (eN + SCALE)%Z with (s + (e' + SCALE) + ed)%Z by (unfold s; clear; lia).
    replace (Zpos mN * 2 ^ (s + (e' + SCALE) + ed) * 2 ^ SCALE)%Z
      with (Zpos mN * (2 ^ (s + (e' + SCALE) + ed) * 2 ^ SCALE))%Z by ring.
    rewrite <- Z.pow_add_r by (unfold SCALE; clear - Hs He' Hed; lia).
    replace (s + (e' + SCALE) + ed + SCALE)%Z
      with (s + ((e' + SCALE) + (ed + SCALE)))%Z by (clear; lia).
    rewrite !Z.pow_add_r by (unfold SCALE; clear - Hs He' Hed; lia). ring. }
  cbn [valZ] in Hle. rewrite EN in Hle. fold B in Hle.
  destruct Hc as [Vc [-> | (mc & ec & ->)]].
  { cbn [valZ zero] in Hle. exfalso.
    assert (0 < m' * A * B)%Z.
    { apply Z.mul_pos_pos; [apply Z.mul_pos_pos|]; try assumption.
      clear - Bm' Ps. assert (0 < 2 ^ (dN + s - 1))%Z; [|lia].
      apply Z.pow_pos_nonneg; lia. }
    clear - H Hle. lia. }
  destruct (@valid_shape _ _ _ Vc) as (Hec & Uc & _).
  cbn [valZ] in Hle |- *.
  apply round_quotient_le; try assumption; try (clear - Hec Uc He'; lia).
  apply Z.mul_le_mono_pos_r with (p := B); [exact PB|].
  clear - Hle. lia.
Qed.

(** ** The quotient [a * d1 / d2] with [d1 <= d2] *)

Lemma gridSample_spec x :
  gridSample x = true ->
  okFloat x /\ (valZ x <= valZ one)%Z /\
  (x = zero \/
   exists m e, x = S754_finite false m e /\ (8388608 <= Zpos m)%Z /\ (-31 <= e)%Z).
Proof.
  destruct x as [[|]|s| |[|] m e]; try discriminate; intros H.
  - split; [exact okFloat_zero|]. split; [rewrite valZ_one; cbn [valZ]|left; reflexivity].
    apply Z.lt_le_incl, Z.pow_pos_nonneg; unfold SCALE; lia.
  - unfold gridSample in H.
    apply andb_prop in H as [H Hl]. apply andb_prop in H as [H He].
    apply andb_prop in H as [V Hm].
    apply Z.leb_le in Hm, He.
    pose proof (@okFloat_finite _ _ V) as Ok.
    split; [exact Ok|]. split.
    + apply leb_valZ; [exact Ok | | exact Hl].
      split; [reflexivity | right; unfold one; eauto].
    + right. eauto.
Qed.

(** A binary32 number above a normal one is at least one grid step above
    it. *)
Lemma above_normal ma ea z :
  valid (S754_finite false ma ea) = true -> (-149 < ea)%Z ->
  okFloat z -> (valZ (S754_finite false ma ea) < valZ z)%Z ->
  (valZ (S754_finite false ma ea) + 2 ^ (ea + SCALE) <= valZ z)%Z.
Proof.
  intros Va Hea [Vz [-> | (mz & ez & ->)]] H; cbn [valZ zero] in *.
  - pose proof (valZ_nonneg (S754_finite false ma ea)) as N. cbn [valZ] in N. lia.
  - destruct (@valid_shape _ _ _ Va) as (Ha & Ua & La). specialize (La Hea).
    destruct (@valid_shape _ _ _ Vz) as (Hz & Uz & _).
    assert (PU : (0 < 2 ^ (ea + SCALE))%Z) by (apply Z.pow_pos_nonneg; unfold SCALE; lia).
    destruct (Z.le_gt_cases ea ez) as [L | G].
    + assert (E : (2 ^ (ez + SCALE) = 2 ^ (ez - ea) * 2 ^ (ea + SCALE))%Z)
        by (rewrite <- Z.pow_add_r by (unfold SCALE; lia); f_equal; lia).
      rewrite E in *.
      assert (0 < 2 ^ (ez - ea))%Z by (apply Z.pow_pos_nonneg; lia).
      clear - H PU H0.
      remember (2 ^ (ez - ea))%Z as k. remember (2 ^ (ea + SCALE))%Z as U.
      assert (Zpos ma < Zpos mz * k)%Z by nia. nia.
    + exfalso.
      assert (E : (2 ^ (ea + SCALE) = 2 * 2 ^ (ea - ez - 1) * 2 ^ (ez + SCALE))%Z).
      { replace (ea + SCALE)%Z with (1 + (ea - ez - 1) + (ez + SCALE))%Z by lia.
        rewrite !Z.pow_add_r by (unfold SCALE; lia). rewrite Z.pow_1_r. ring. }
      assert (0 < 2 ^ (ea - ez - 1))%Z by (apply Z.pow_pos_nonneg; lia).
      assert (0 < 2 ^ (ez + SCALE))%Z by (apply Z.pow_pos_nonneg; unfold SCALE; lia).
      rewrite E in H. clear - H H0 H1 La Uz.
      remember (2 ^ (ea - ez - 1))%Z as k. remember (2 ^ (ez + SCALE))%Z as U.
      assert (K : (U <= k * U)%Z) by nia.
      assert (A1 : (8388608 * (2 * (k * U)) <= Zpos ma * (2 * (k * U)))%Z)
        by (apply Z.mul_le_mono_nonneg_r; lia).
      assert (A2 : (Zpos mz * U < 16777216 * U)%Z)
        by (apply Z.mul_lt_mono_pos_r; lia).
      lia.
Qed.

Lemma div_zero_finite m e : div zero (S754_finite false m e) = zero.
Proof. reflexivity. Qed.

(** The quotient [a * d1 / d2] that [pluck] computes, for [d1 <= d2]: it
    is twice [a] at most, and at most every binary32 number above [a] when
    [a] is [2^-118] at least. *)
Lemma ratio_bounds a d1 d2 :
  okFloat a -> (valZ a <= valZ one)%Z ->
  gridSample d1 = true ->
  okFloat d2 -> (0 < valZ d2)%Z -> (valZ d1 <= valZ d2)%Z ->
  let y := div (mul a d1) d2 in
  okFloat y /\ (valZ y <= 2 * valZ a)%Z /\
  (forall ma ea z,
     a = S754_finite false ma ea -> (-141 <= ea)%Z ->
     okFloat z -> (valZ a < valZ z)%Z -> (valZ y <= valZ z)%Z).
Proof.
  intros Oa Ha1 G1 O2 P2 H12 y.
  destruct (@gridSample_spec _ G1) as (O1 & H11 & S1).
  destruct O2 as [V2 [E2 | (m2 & e2 & E2)]]; [rewrite E2 in P2; cbn in P2; lia|].
  subst d2.
  pose proof (valZ_nonneg a) as Na.
  assert (Zero : y = zero -> okFloat y /\ (valZ y <= 2 * valZ a)%Z /\
           (forall ma ea z, a = S754_finite false ma ea -> (-141 <= ea)%Z ->
              okFloat z -> (valZ a < valZ z)%Z -> (valZ y <= valZ z)%Z)).
  { intros ->. split; [exact okFloat_zero|]. split; [cbn [valZ zero]; lia|].
    intros ma ea z _ _ _ Hz. cbn [valZ zero]. lia. }
  destruct Oa as [Va [Ea | (ma & ea & Ea)]].
  { (* a = 0 *)
    apply Zero. unfold y. rewrite Ea.
    destruct S1 as [-> | (m1 & e1 & -> & _)]; reflexivity. }
  destruct S1 as [E1 | (m1 & e1 & E1 & Hm1 & He1)].
  { apply Zero. unfold y. rewrite Ea, E1. reflexivity. }
  subst a d1. destruct O1 as [V1 _].
  pose proof (@le_one_exponent _ _ Va Ha1) as Hea.
  pose proof (@le_one_exponent _ _ V1 H11) as He1'.
  destruct (@valid_shape _ _ _ Va) as (Hva & Ua & La).
  destruct (@mul_spec ma ea m1 e1 Va V1 Hm1 ltac:(lia)) as [ON EN].
  cbv zeta in ON, EN.
  set (N := mul (S754_finite false ma ea) (S754_finite false m1 e1)) in *.
  set (W := (2 ^ (ea + e1 + SCALE))%Z) in *.
  set (P := (Zpos ma * Zpos m1 * W)%Z) in *.
  assert (PW : (0 < W)%Z) by (apply Z.pow_pos_nonneg; unfold SCALE; lia).
  assert (PS : (0 < 2 ^ SCALE)%Z) by (apply Z.pow_pos_nonneg; unfold SCALE; lia).
  assert (PP : (0 <= P)%Z) by (unfold P; nia).
  assert (EW : (W * 2 ^ SCALE = 2 ^ (ea + SCALE) * 2 ^ (e1 + SCALE))%Z).
  { unfold W. rewrite <- !Z.pow_add_r by (unfold SCALE; lia). f_equal. lia. }
  assert (EP : (P * 2 ^ SCALE
                = valZ (S754_finite false ma ea) * valZ (S754_finite false m1 e1))%Z).
  { cbn [valZ]. unfold P.
    replace (Zpos ma * Zpos m1 * W * 2 ^ SCALE)%Z
      with (Zpos ma * Zpos m1 * (W * 2 ^ SCALE))%Z by ring.
    rewrite EW. ring. }
  pose proof (RND_double PP) as Rd. rewrite <- EN in Rd.
  (* the product is at most [2 * d2] *)
  assert (HN2 : (valZ N * 2 ^ SCALE
                 <= 2 * valZ (S754_finite false ma ea)
                    * valZ (S754_finite false m2 e2))%Z).
  { pose proof (valZ_nonneg (S754_finite false m1 e1)).
    remember (valZ (S754_finite false ma ea)) as va.
    remember (valZ (S754_finite false m1 e1)) as v1.
    remember (valZ (S754_finite false m2 e2)) as v2.
    clear - Rd EP PS H12 Na H.
    assert (valZ N * 2 ^ SCALE <= 2 * (P * 2 ^ SCALE))%Z by nia.
    rewrite EP in H0. nia. }
  destruct ON as [VN [EN0 | (mN & eN & ENf)]].
  { apply Zero. unfold y. fold N. rewrite EN0. reflexivity. }
  assert (HN4 : (valZ N <= 4 * valZ (S754_finite false m2 e2))%Z).
  { rewrite valZ_one in Ha1.
    remember (valZ (S754_finite false ma ea)) as va.
    remember (valZ (S754_finite false m2 e2)) as v2.
    pose proof (valZ_nonneg N).
    clear - HN2 Ha1 PS Na P2 H.
    assert (valZ N * 2 ^ SCALE <= 2 * 2 ^ SCALE * v2)%Z by nia.
    nia. }
  unfold y. fold N. rewrite ENf in *.
  destruct (@div_spec mN eN m2 e2 VN V2 HN4) as [Oy Hy]. cbv zeta in Oy, Hy.
  split; [exact Oy|]. split.
  - destruct (@add_self_spec (S754_finite false ma ea)
                (@okFloat_finite _ _ Va) Ha1) as [Oc Ec].
    rewrite <- Ec. apply Hy; [exact Oc|]. rewrite Ec. exact HN2.
  - intros ma' ea' z Ez Hea' Oz Hz. injection Ez as <- <-.
    apply Hy; [exact Oz|].
    pose proof (@above_normal ma ea z Va ltac:(lia) Oz Hz) as Habove.
    specialize (La ltac:(lia)).
    (* the rounding error of the product is half a grid step at most *)
    pose proof (RND_half P) as Rh. rewrite <- EN in Rh.
    assert (Eu : (2 ^ ulpExp P <= 2 * Zpos m1 * W)%Z).
    { assert (Dp : (Zdigits2 P = Zpos (digits2_pos (ma * m1)) + (ea + e1 + SCALE))%Z).
      { unfold P, W. rewrite <- Pos2Z.inj_mul.
        apply Zdigits2_shift. unfold SCALE. lia. }
      assert (D47 : (47 <= Zpos (digits2_pos (ma * m1)) <= 48)%Z).
      { destruct (@valid_shape _ _ _ V1) as (_ & U1 & _).
        split.
        - apply (@Zdigits2_ge (Zpos (ma * m1)) 47); [|lia].
          rewrite Pos2Z.inj_mul.
          change (2 ^ (47 - 1))%Z with (8388608 * 8388608)%Z.
          clear - La Hm1. nia.
        - apply digits2_pos_le; [lia|]. rewrite Pos2Z.inj_mul.
          change (2 ^ 48)%Z with (16777216 * 16777216)%Z.
          clear - Ua U1. nia. }
      assert (Ex : (ulpExp P <= 24 + (ea + e1 + SCALE))%Z)
        by (unfold ulpExp; rewrite Dp; unfold SCALE; lia).
      assert (2 ^ ulpExp P <= 2 ^ (24 + (ea + e1 + SCALE)))%Z
        by (apply Z.pow_le_mono_r; [lia | exact Ex]).
      rewrite Z.pow_add_r in H by (unfold SCALE; lia).
      fold W in H. change (2 ^ 24)%Z with 16777216%Z in H.
      clear - H Hm1 PW. nia. }
    assert (HN : (valZ (S754_finite false mN eN) <= (Zpos ma + 1) * Zpos m1 * W)%Z).
    { assert (EPd : P = (Zpos ma * Zpos m1 * W)%Z) by reflexivity.
      clear - Rh Eu EPd. remember (2 ^ ulpExp P)%Z as u. nia. }
    assert (HNS : (valZ (S754_finite false mN eN) * 2 ^ SCALE
                   <= (valZ (S754_finite false ma ea) + 2 ^ (ea + SCALE))
                      * valZ (S754_finite false m1 e1))%Z).
    { cbn [valZ].
      replace ((Zpos ma * 2 ^ (ea + SCALE) + 2 ^ (ea + SCALE))
               * (Zpos m1 * 2 ^ (e1 + SCALE)))%Z
        with ((Zpos ma + 1) * Zpos m1 * (2 ^ (ea + SCALE) * 2 ^ (e1 + SCALE)))%Z
        by ring.
      rewrite <- EW.
      replace ((Zpos ma + 1) * Zpos m1 * (W * 2 ^ SCALE))%Z
        with ((Zpos ma + 1) * Zpos m1 * W * 2 ^ SCALE)%Z by ring.
      apply Z.mul_le_mono_nonneg_r; [lia | exact HN]. }
    pose proof (valZ_nonneg (S754_finite false m1 e1)) as N1.
    remember (valZ (S754_finite false ma ea)) as va.
    remember (valZ (S754_finite false m1 e1)) as v1.
    remember (valZ (S754_finite false m2 e2)) as v2.
    remember (valZ z) as vz.
    remember (valZ (S754_finite false mN eN)) as vN.
    assert (PU : (0 < 2 ^ (ea + SCALE))%Z) by (apply Z.pow_pos_nonneg; unfold SCALE; lia).
    clear - HNS Habove H12 N1 Na PU.
    remember (2 ^ (ea + SCALE))%Z as U.
    assert ((va + U) * v1 <= vz * v2)%Z by nia. lia.
Qed.

(** * The program *)

(** ** Projections through the record updates *)

Lemma computeEnergy_y s : y (computeEnergy s) = y s.
Proof. unfold computeEnergy. destruct (energySums s). reflexivity. Qed.

Lemma computeEnergy_y_prev s : y_prev (computeEnergy s) = y_prev s.
Proof. unfold computeEnergy. destruct (energySums s). reflexivity. Qed.

Lemma computeEnergy_v s : v (computeEnergy s) = v s.
Proof. unfold computeEnergy. destruct (energySums s). reflexivity. Qed.

Lemma computeEnergy_tension s : tension (computeEnergy s) = tension s.
Proof. unfold computeEnergy. destruct (energySums s). reflexivity. Qed.

Lemma computeEnergy_density s : density (computeEnergy s) = density s.
Proof. unfold computeEnergy. destruct (energySums s). reflexivity. Qed.

Lemma computeEnergy_kinetic s :
  kineticEnergy (computeEnergy s) = fst (energySums s).
Proof. unfold computeEnergy. destruct (energySums s). reflexivity. Qed.

Lemma computeEnergy_potential s :
  potentialEnergy (computeEnergy s) = snd (energySums s).
Proof. unfold computeEnergy. destruct (energySums s). reflexivity. Qed.

Lemma computeEnergy_total s :
  totalEnergy (computeEnergy s) = add (fst (energySums s)) (snd (energySums s)).
Proof. unfold computeEnergy. destruct (energySums s). reflexivity. Qed.

(** The fields of the simulation after one step, whether or not the step
    records history. *)
Lemma stepOnce_string1 m :
  string1 (stepOnce m) = commitString (dt m) (string1 m) (newBridgeY m).
Proof. unfold stepOnce. cbv zeta. destruct (_ =? 0)%Z; reflexivity. Qed.

Lemma stepOnce_string2 m :
  string2 (stepOnce m) = commitString (dt m) (string2 m) (newBridgeY m).
Proof. unfold stepOnce. cbv zeta. destruct (_ =? 0)%Z; reflexivity. Qed.

Lemma stepOnce_bridgeY m : bridgeY (stepOnce m) = newBridgeY m.
Proof. unfold stepOnce. cbv zeta. destruct (_ =? 0)%Z; reflexivity. Qed.

Lemma stepOnce_dt m : dt (stepOnce m) = dt m.
Proof. unfold stepOnce. cbv zeta. destruct (_ =? 0)%Z; reflexivity. Qed.

Lemma stepOnce_bridgeStiffness m :
  bridgeStiffness (stepOnce m) = bridgeStiffness m.
Proof. unfold stepOnce. cbv zeta. destruct (_ =? 0)%Z; reflexivity. Qed.

Lemma stepOnce_stepCount m :
  stepCount (stepOnce m) = wrap32 (stepCount m + 1).
Proof. unfold stepOnce. cbv zeta. destruct (_ =? 0)%Z; reflexivity. Qed.

Lemma commitString_y dt0 s b : y (commitString dt0 s b) = yNew dt0 s b.
Proof. unfold commitString. cbv zeta. apply computeEnergy_y. Qed.

Lemma step_pos n m :
  (0 < n)%Z -> exists m0, step n m = stepOnce m0.
Proof.
  intros Hn. unfold step.
  destruct (Z.to_nat n) as [|k] eqn:E; [lia|].
  exists (Nat.iter k stepOnce m). reflexivity.
Qed.

(** ** The cells of [y_new] *)

Lemma yNew_length dt0 s b : List.length (yNew dt0 s b) = NUM_POINTS.
Proof.
  unfold yNew. cbn [List.length]. rewrite length_app, length_map, length_seq.
  reflexivity.
Qed.

Lemma yNew_first dt0 s b : get (yNew dt0 s b) 0 = zero.
Proof. reflexivity. Qed.

Lemma yNew_last dt0 s b : get (yNew dt0 s b) LAST = b.
Proof.
  unfold yNew, get. change LAST with (S 198).
  change (NUM_POINTS - 2) with 198. cbn [nth].
  rewrite app_nth2; rewrite length_map, length_seq.
  - now rewrite Nat.sub_diag.
  - apply Nat.le_refl.
Qed.

Lemma yNew_interior dt0 s b i :
  1 <= i <= 198 -> get (yNew dt0 s b) i = interior dt0 s i.
Proof.
  intros Hi. unfold yNew, get. change (NUM_POINTS - 2) with 198.
  destruct i as [|j]; [lia|]. cbn [nth].
  rewrite app_nth1 by (rewrite length_map, length_seq; lia).
  rewrite nth_indep with (d' := interior dt0 s 0)
    by (rewrite length_map, length_seq; lia).
  rewrite map_nth. rewrite seq_nth by lia. reflexivity.
Qed.

Lemma interior_leapfrog dt0 s i :
  interior dt0 s (S i) =
  leapfrog (waveSpeed s) (damping s) dt0
           (get (y s) i) (get (y s) (S i)) (get (y s) (S (S i)))
           (get (y_prev s) (S i)).
Proof. reflexivity. Qed.

(** ** The safety clamp *)

Lemma clampBridge_cases x :
  clampBridge x = half \/ clampBridge x = f_m0_5 \/
  (clampBridge x = x /\ ltb x half = true /\ ltb f_m0_5 x = true).
Proof.
  unfold clampBridge, max, min.
  destruct (ltb x half) eqn:H1.
  - destruct (ltb f_m0_5 x) eqn:H2; auto.
  - left. reflexivity.
Qed.

(** Whatever comes in, the clamp returns a finite number. *)
Lemma clampBridge_isfinite x : isfinite (clampBridge x) = true.
Proof.
  destruct (clampBridge_cases x) as [-> | [-> | (-> & H1 & H2)]];
    try reflexivity.
  destruct x as [s | [|] | | s m e]; try reflexivity; discriminate.
Qed.

(** Hence the guard that follows the clamp never replaces anything. *)
Lemma newBridgeY_clamp m : newBridgeY m = clampBridge (bridgeBlend m).
Proof.
  unfold newBridgeY, finiteOrZero. now rewrite clampBridge_isfinite.
Qed.

Lemma newBridgeY_isfinite m : isfinite (newBridgeY m) = true.
Proof. rewrite newBridgeY_clamp. apply clampBridge_isfinite. Qed.

(** The clamp leaves a number of [[-0.5, 0.5]] alone. *)
Lemma clampBridge_id b :
  leb f_m0_5 b = true -> leb b half = true -> clampBridge b = b.
Proof.
  intros Hlo Hhi. unfold clampBridge, max, min.
  destruct b as [s|s| |s m e]; try (destruct s; discriminate); try discriminate.
  - reflexivity.
  - unfold ltb, leb, SFltb, SFleb in *.
    destruct (SFcompare (S754_finite s m e) half) as [[| |]|] eqn:C1;
      try discriminate.
    + apply compare_Eq_finite in C1. rewrite C1. reflexivity.
    + destruct (SFcompare f_m0_5 (S754_finite s m e)) as [[| |]|] eqn:C2;
        try discriminate; [|reflexivity].
      apply compare_Eq_finite in C2. now rewrite <- C2.
Qed.

Lemma clampBridge_range x :
  leb f_m0_5 (clampBridge x) = true /\ leb (clampBridge x) half = true.
Proof.
  destruct (clampBridge_cases x) as [-> | [-> | (-> & H1 & H2)]];
    try (split; reflexivity).
  unfold leb, SFleb. unfold ltb, SFltb in H1, H2.
  destruct (SFcompare f_m0_5 x) as [[| |]|]; try discriminate.
  destruct (SFcompare x half) as [[| |]|]; try discriminate.
  split; reflexivity.
Qed.

(** ** Arrays: reading after writing *)

Lemma set_length a i x : List.length (set a i x) = List.length a.
Proof.
  revert i. induction a as [|h t IH]; intros [|j]; cbn; auto.
Qed.

Lemma get_set_same a i x : i < List.length a -> get (set a i x) i = x.
Proof.
  revert i. induction a as [|h t IH]; intros [|j] H; cbn in *; try lia; auto.
  apply IH. lia.
Qed.

Lemma get_set_other a i j x : i <> j -> get (set a i x) j = get a j.
Proof.
  revert i j. induction a as [|h t IH]; intros [|i] [|j] H; cbn; auto;
    try congruence.
  apply IH. congruence.
Qed.

(** ** The loop of [pluck] *)

Section PluckLoop.

Variables position amplitude : float.

Let body := pluckIter position amplitude.

Lemma pluckIter_lengths s i :
  List.length (y (body s i)) = List.length (y s) /\
  List.length (y_prev (body s i)) = List.length (y_prev s) /\
  List.length (v (body s i)) = List.length (v s).
Proof. cbn. now rewrite !set_length. Qed.

Lemma pluckLoop_lengths k a s :
  let s' := fold_left body (seq a k) s in
  List.length (y s') = List.length (y s) /\
  List.length (y_prev s') = List.length (y_prev s) /\
  List.length (v s') = List.length (v s).
Proof.
  revert a s. induction k as [|k IH]; intros a s; cbn [seq fold_left].
  - auto.
  - destruct (IH (S a) (body s a)) as (H1 & H2 & H3).
    destruct (pluckIter_lengths s a) as (L1 & L2 & L3).
    cbv zeta in *. rewrite H1, H2, H3. auto.
Qed.

Lemma pluckIter_cell s i :
  i < List.length (y s) ->
  List.length (y_prev s) = List.length (y s) ->
  List.length (v s) = List.length (y s) ->
  get (y (body s i)) i = pluckShape position amplitude i /\
  get (y_prev (body s i)) i = pluckShape position amplitude i /\
  get (v (body s i)) i = zero.
Proof.
  intros Hi Hp Hv. unfold body, pluckIter. cbn [y y_prev v].
  assert (E : get (set (y s) i (pluckShape position amplitude i)) i =
              pluckShape position amplitude i) by (apply get_set_same; lia).
  rewrite E. repeat split; try assumption; apply get_set_same; lia.
Qed.

Lemma pluckIter_others s i j :
  i <> j ->
  get (y (body s i)) j = get (y s) j /\
  get (y_prev (body s i)) j = get (y_prev s) j /\
  get (v (body s i)) j = get (v s) j.
Proof.
  intros Hne. unfold body, pluckIter. cbn [y y_prev v].
  now rewrite !get_set_other by exact Hne.
Qed.

(** The cells the loop has visited hold the profile, a zero velocity and a
    copy of the profile; the others are untouched. *)
Lemma pluckLoop_cells k : forall a s j,
  a + k <= List.length (y s) ->
  List.length (y_prev s) = List.length (y s) ->
  List.length (v s) = List.length (y s) ->
  let s' := fold_left body (seq a k) s in
  (a <= j < a + k ->
     get (y s') j = pluckShape position amplitude j /\
     get (y_prev s') j = pluckShape position amplitude j /\
     get (v s') j = zero) /\
  (~ a <= j < a + k ->
     get (y s') j = get (y s) j /\
     get (y_prev s') j = get (y_prev s) j /\
     get (v s') j = get (v s) j).
Proof.
  induction k as [|k IH]; intros a s j Hk Hp Hv; cbn [seq fold_left].
  - cbv zeta. split; [lia | auto].
  - destruct (pluckIter_lengths s a) as (L1 & L2 & L3).
    specialize (IH (S a) (body s a) j).
    cbv zeta in *.
    destruct IH as [IHin IHout]; try (rewrite ?L1, ?L2, ?L3; lia).
    split; intros Hj.
    + destruct (Nat.eq_dec j a) as [-> | Hne].
      * destruct IHout as (E1 & E2 & E3); [lia|].
        rewrite E1, E2, E3. apply pluckIter_cell; lia.
      * apply IHin. lia.
    + destruct IHout as (E1 & E2 & E3); [lia|].
      rewrite E1, E2, E3. apply pluckIter_others. lia.
Qed.

End PluckLoop.

(** The whole loop: every cell holds the profile. *)
Lemma pluckLoop_full p a s j :
  wfString s -> j < NUM_POINTS ->
  let s1 := fold_left (pluckIter p a) (seq 0 NUM_POINTS) s in
  wfString s1 /\
  get (y s1) j = pluckShape p a j /\
  get (y_prev s1) j = pluckShape p a j /\
  get (v s1) j = zero.
Proof.
  intros (Wy & Wp & Wv) Hj.
  pose proof (pluckLoop_lengths p a NUM_POINTS 0 s) as L.
  pose proof (pluckLoop_cells p a NUM_POINTS 0 s j) as C.
  cbv zeta in *.
  generalize dependent (fold_left (pluckIter p a) (seq 0 NUM_POINTS) s).
  intros s1 (L1 & L2 & L3) C.
  split.
  - unfold wfString. rewrite L1, L2, L3. auto.
  - apply C.
    + rewrite Wy. apply Nat.le_refl.
    + now rewrite Wy, Wp.
    + now rewrite Wy, Wv.
    + split; [apply Nat.le_0_l | exact Hj].
Qed.

(** The three buffers of a string right after [pluck], cell by cell. *)
Lemma pluckString_cells p a s j :
  wfString s -> j < NUM_POINTS ->
  get (y (pluckString p a s)) j = (if j =? 0 then zero else pluckShape p a j) /\
  get (y_prev (pluckString p a s)) j = (if j =? 0 then zero else pluckShape p a j) /\
  get (v (pluckString p a s)) j = zero.
Proof.
  intros W Hj. unfold pluckString.
  destruct (pluckLoop_full p a W Hj) as ((Wy & Wp & Wv) & E1 & E2 & E3).
  cbv zeta in *.
  generalize dependent (fold_left (pluckIter p a) (seq 0 NUM_POINTS) s).
  intros s1 Wy Wp Wv E1 E2 E3.
  rewrite computeEnergy_y, computeEnergy_y_prev, computeEnergy_v.
  cbn [y y_prev v].
  assert (H0 : 0 < NUM_POINTS) by (unfold NUM_POINTS; apply Nat.lt_0_succ).
  destruct j as [|j]; cbn [Nat.eqb].
  - rewrite !get_set_same by (rewrite ?Wy, ?Wp; exact H0). auto.
  - rewrite !get_set_other by discriminate. auto.
Qed.

Lemma pluckString_wf p a s : wfString s -> wfString (pluckString p a s).
Proof.
  intros W. unfold pluckString.
  assert (H0 : 0 < NUM_POINTS) by (unfold NUM_POINTS; apply Nat.lt_0_succ).
  destruct (pluckLoop_full p a W H0) as ((Wy & Wp & Wv) & _).
  cbv zeta in *.
  generalize dependent (fold_left (pluckIter p a) (seq 0 NUM_POINTS) s).
  intros s1 Wy Wp Wv. unfold wfString.
  rewrite computeEnergy_y, computeEnergy_y_prev, computeEnergy_v.
  cbn [y y_prev v]. rewrite !set_length. auto.
Qed.

Lemma pluckLoop_params p a l : forall s,
  let s' := fold_left (pluckIter p a) l s in
  density s' = density s /\ length s' = length s /\ tension s' = tension s.
Proof.
  induction l as [|i l IH]; intros s; cbn [fold_left]; [auto|].
  destruct (IH (pluckIter p a s i)) as (H1 & H2 & H3).
  cbv zeta. rewrite H1, H2, H3. auto.
Qed.

Lemma pluck_plucked i position amplitude m :
  plucked i (pluck i position amplitude m) =
  pluckString (clampPosition position) (clampAmplitude amplitude) (plucked i m).
Proof. unfold plucked, pluck. now destruct (i =? 0)%Z. Qed.

Lemma LAST_lt : LAST < NUM_POINTS.
Proof. unfold LAST, NUM_POINTS. apply Nat.lt_succ_diag_r. Qed.

(** ** The clamps of [pluck] *)

Lemma clampPosition_cases position :
  clampPosition position = f_0_1 \/ clampPosition position = f_0_9 \/
  (clampPosition position = position /\
   ltb position f_0_9 = true /\ ltb f_0_1 position = true).
Proof.
  unfold clampPosition, max, min.
  destruct (ltb position f_0_9) eqn:H1.
  - destruct (ltb f_0_1 position) eqn:H2; auto.
  - right. left. reflexivity.
Qed.

Lemma clampPosition_shape position :
  exists m e, clampPosition position = S754_finite false m e.
Proof.
  destruct (clampPosition_cases position) as [-> | [-> | (-> & Hhi & Hlo)]].
  - vm_compute. eauto.
  - vm_compute. eauto.
  - destruct position as [s|[|]| |[|] mp ep]; try discriminate. eauto.
Qed.

Lemma clampAmplitude_shape amplitude : zeroOrPositive (clampAmplitude amplitude).
Proof.
  unfold clampAmplitude, max, min, zeroOrPositive.
  destruct (ltb amplitude one) eqn:H1.
  - destruct (ltb zero amplitude) eqn:H2; [|left; reflexivity].
    right. destruct amplitude as [s|[|]| |[|] m e]; try discriminate. eauto.
  - right. exists 8388608%positive, (-23)%Z. reflexivity.
Qed.

(** [1.0f - p] is a positive finite number for every clamped position. *)
Lemma sub_one_position_finite position :
  valid position = true ->
  exists m e, sub one (clampPosition position) = S754_finite false m e.
Proof.
  intros V.
  destruct (clampPosition_cases position) as [-> | [-> | (-> & Hhi & Hlo)]].
  - vm_compute. eauto.
  - vm_compute. eauto.
  - destruct position as [s|[|]| |[|] mp ep]; try discriminate.
    apply valid_finite in V as [Hc _].
    assert (Hep : (ep <= -24)%Z).
    { unfold ltb, SFltb, f_0_9 in Hhi. cbn [SFcompare] in Hhi.
      destruct (Z.compare ep (-24)) eqn:C; try discriminate.
      - apply Z.compare_eq in C. lia.
      - change (ep < -24)%Z in C. lia. }
    unfold fexp, emin in Hc. change prec with 24%Z in Hc.
    change emax with 128%Z in Hc.
    assert (Hdig : (Zpos (digits2_pos mp) <= 24)%Z) by lia.
    assert (Hmp : (Zpos mp < 2 ^ 24)%Z).
    { pose proof (digits2_pos_bounds mp) as [_ Hup].
      eapply Z.lt_le_trans; [exact Hup|]. apply Z.pow_le_mono_r; lia. }
    assert (Hmin : (-149 <= ep)%Z) by lia.
    clear Hc Hhi Hlo Hdig. change (2 ^ 24)%Z with 16777216%Z in Hmp.
    unfold sub, one, SFsub. rewrite Z.min_r by lia.
    unfold shl_align at 1.
    destruct (ep - -23)%Z as [|d|d] eqn:Ed; try lia.
    cbn [fst]. unfold shl_align. rewrite Z.sub_diag. cbn [fst cond_Zopp].
    rewrite iter_xO_pow.
    assert (Hpow : (2 <= 2 ^ Zpos d)%Z).
    { change 2%Z with (2 ^ 1)%Z at 1. apply Z.pow_le_mono_r; lia. }
    assert (Htop : (Zpos 8388608 * 2 ^ Zpos d = 2 ^ (- ep))%Z).
    { change (Zpos 8388608) with (2 ^ 23)%Z. rewrite <- Z.pow_add_r by lia.
      f_equal. lia. }
    destruct (Zpos 8388608 * 2 ^ Zpos d - Zpos mp)%Z as [|k|k] eqn:Ek;
      try (generalize dependent (2 ^ Zpos d)%Z; intros; lia).
    cbn [binary_normalize]. apply binary_round_finite.
    + unfold emin. change prec with 24%Z. change emax with 128%Z. lia.
    + assert (Hk : (Zpos (digits2_pos k) <= - ep)%Z).
      { apply digits2_pos_le; [lia|]. rewrite <- Htop.
        generalize dependent (2 ^ Zpos d)%Z. intros. lia. }
      lia.
Qed.

(** The abscissa of the last sample is exactly 1, and no clamped position
    exceeds it. *)
Lemma sampleX_last : sampleX LAST = one.
Proof. vm_compute. reflexivity. Qed.

(** The 200 abscissas [i/199] lie in [[0, 1]]: each of [x] and [1 - x] is
    zero or positive. *)
Lemma sampleX_range i :
  i < NUM_POINTS ->
  zeroOrPositive (sampleX i) /\ zeroOrPositive (sub one (sampleX i)).
Proof.
  intros Hi.
  assert (H : forallb (fun j => isZeroOrPositive (sampleX j) &&
                                isZeroOrPositive (sub one (sampleX j)))
                      (seq 0 NUM_POINTS) = true) by (vm_compute; reflexivity).
  rewrite forallb_forall in H.
  specialize (H i). rewrite in_seq in H.
  destruct (andb_prop _ _ (H (conj (Nat.le_0_l i) Hi))) as [H1 H2].
  split; now apply isZeroOrPositive_spec.
Qed.

Lemma ltb_one_position position : ltb one (clampPosition position) = false.
Proof.
  destruct (clampPosition_cases position) as [-> | [-> | (-> & Hhi & Hlo)]];
    try reflexivity.
  destruct position as [s|[|]| |[|] mp ep]; try discriminate; try reflexivity.
  unfold ltb, SFltb, f_0_9, one in *. cbn [SFcompare] in *.
  destruct (Z.compare ep (-24)) eqn:C; try discriminate.
  - apply Z.compare_eq in C. subst ep. reflexivity.
  - change (ep < -24)%Z in C.
    destruct (Z.compare (-23) ep) eqn:C'; try reflexivity.
    + apply Z.compare_eq in C'. lia.
    + change (-23 < ep)%Z in C'. lia.
Qed.

(** The profile value of sample 0 is +0.0, the value the source stores
    there after the loop. *)
Lemma pluckShape_first position amplitude :
  pluckShape (clampPosition position) (clampAmplitude amplitude) 0 = zero.
Proof.
  unfold pluckShape. cbv zeta. change (sampleX 0) with zero.
  destruct (clampPosition_shape position) as (mp & ep & ->).
  change (ltb zero (S754_finite false mp ep)) with true. cbv iota.
  destruct (clampAmplitude_shape amplitude) as [-> | (m & e & ->)];
    reflexivity.
Qed.

(** The profile value of the last sample is +0.0. *)
Lemma pluckShape_last position amplitude :
  valid position = true ->
  pluckShape (clampPosition position) (clampAmplitude amplitude) LAST = zero.
Proof.
  intros V. unfold pluckShape. cbv zeta.
  rewrite sampleX_last, ltb_one_position.
  change (sub one one) with zero.
  assert (Hn : mul (clampAmplitude amplitude) zero = zero).
  { destruct (clampAmplitude_shape amplitude) as [-> | (m & e & ->)];
      reflexivity. }
  rewrite Hn.
  destruct (@sub_one_position_finite position V) as (m & e & ->).
  reflexivity.
Qed.

(** No sample of the profile is negative or NaN. *)
Lemma pluckShape_nonneg position amplitude i :
  valid position = true -> i < NUM_POINTS ->
  signBit (pluckShape (clampPosition position) (clampAmplitude amplitude) i)
  = Some false.
Proof.
  intros V Hi. unfold pluckShape. cbv zeta.
  destruct (sampleX_range Hi) as [Hx H1x].
  pose proof (clampAmplitude_shape amplitude) as Ha.
  destruct (ltb (sampleX i) (clampPosition position)).
  - destruct (clampPosition_shape position) as (mp & ep & ->).
    apply div_positive. now apply mul_zeroOrPositive.
  - destruct (@sub_one_position_finite position V) as (md & ed & ->).
    apply div_positive. now apply mul_zeroOrPositive.
Qed.

(** ** The two sums of [computeEnergy] *)

Lemma energyIter_segment s l : forall ke pe,
  (forall i, In i l -> i < NUM_POINTS - 1) ->
  fold_left (energyIter s) l (ke, pe) =
  (fold_left (fun acc i => add acc (kineticTerm s i)) l ke,
   fold_left (fun acc i => add acc (potentialTerm s i)) l pe).
Proof.
  induction l as [|i l IH]; intros ke pe Hl; cbn [fold_left]; [reflexivity|].
  assert (Hi : (i <? NUM_POINTS - 1) = true)
    by (apply Nat.ltb_lt, Hl; now left).
  unfold energyIter at 2. rewrite Hi.
  apply IH. intros j Hj. apply Hl. now right.
Qed.

Lemma energySums_split s : energySums s = (kineticSum s, potentialSum s).
Proof.
  unfold energySums, kineticSum, potentialSum.
  change NUM_POINTS with (S (NUM_POINTS - 1)).
  rewrite seq_S, !fold_left_app.
  rewrite energyIter_segment
    by (intros i Hi; apply in_seq in Hi; exact (proj2 Hi)).
  cbn [fold_left]. unfold energyIter.
  change (0 + (NUM_POINTS - 1) <? S (NUM_POINTS - 1) - 1) with false.
  reflexivity.
Qed.

Lemma computeEnergy_current s : energiesCurrent (computeEnergy s).
Proof.
  unfold energiesCurrent.
  rewrite computeEnergy_kinetic, computeEnergy_potential, computeEnergy_total.
  rewrite energySums_split. cbn [fst snd].
  unfold kineticSum, potentialSum, kineticTerm, potentialTerm, strain.
  rewrite computeEnergy_v, computeEnergy_y, computeEnergy_density,
    computeEnergy_tension.
  auto.
Qed.

(** With a density and a tension that are not negative, neither sum is. *)
Lemma sums_notNegative s :
  notNegative (density s) -> notNegative (tension s) ->
  notNegative (kineticSum s) /\ notNegative (potentialSum s).
Proof.
  intros Hd Ht. split.
  - apply fold_add_notNegative; [apply notNegative_zero|].
    intros i. unfold kineticTerm. apply mul_mul_notNegative.
    apply mul_notNegative_l; [|apply signBit_dx].
    apply mul_notNegative_r; [apply signBit_half | exact Hd].
  - apply fold_add_notNegative; [apply notNegative_zero|].
    intros i. unfold potentialTerm.
    apply mul_notNegative_l; [|apply signBit_dx].
    apply mul_mul_notNegative.
    apply mul_notNegative_r; [apply signBit_half | exact Ht].
Qed.

(** The tension [setFrequency] stores is not negative. *)
Lemma setFrequency_tension f s :
  density s = f_0_001 -> length s = one ->
  notNegative (tension (setFrequency f s)).
Proof.
  intros Hd Hl. cbn [tension setFrequency]. rewrite Hd, Hl.
  apply mul_mul_notNegative. right. reflexivity.
Qed.

Lemma computeEnergy_inv s :
  density s = f_0_001 -> length s = one -> notNegative (tension s) ->
  energyInvString (computeEnergy s).
Proof.
  intros Hd Hl Ht. unfold energyInvString.
  rewrite computeEnergy_kinetic, computeEnergy_potential, energySums_split.
  rewrite computeEnergy_density, computeEnergy_tension.
  destruct (@sums_notNegative s) as [Hk Hp];
    [rewrite Hd; right; reflexivity | exact Ht |].
  unfold computeEnergy. destruct (energySums s). cbn [length fst snd].
  auto.
Qed.

(** ** Invariants of the reachable states *)

(** Induction over the calls: [step(n)] is [n] times [stepOnce]. *)
Lemma reachable_inv (P : Sim -> Prop) :
  P construct ->
  (forall i p a m, P m -> P (pluck i p a m)) ->
  (forall m, P m -> P (stepOnce m)) ->
  (forall m, P m -> P (reset m)) ->
  (forall f m, P m -> P (setString1Frequency f m)) ->
  (forall f m, P m -> P (setString2Frequency f m)) ->
  (forall d m, P m -> P (setDamping d m)) ->
  (forall k m, P m -> P (setBridgeStiffness k m)) ->
  forall m, reachable m -> P m.
Proof.
  intros H0 Hpluck Hstep Hreset Hf1 Hf2 Hd Hk m R.
  induction R as [|o m R IH]; [assumption|].
  destruct o; cbn [apply]; auto.
  unfold step. induction (Z.to_nat numSteps) as [|k IHk]; [exact IH|].
  rewrite Nat.iter_succ. auto.
Qed.

Lemma run_reachable ops : reachable (run ops).
Proof.
  unfold run. generalize construct, reach_construct.
  induction ops as [|o ops IH]; intros m R; cbn [fold_left]; [assumption|].
  apply IH. now constructor.
Qed.

Lemma commitString_wf dt0 s b : wfString (commitString dt0 s b).
Proof.
  unfold wfString, commitString. cbv zeta.
  rewrite computeEnergy_y, computeEnergy_y_prev, computeEnergy_v.
  cbn [y y_prev v].
  rewrite yNew_length, !length_map, !length_seq. auto.
Qed.

Lemma newString_wf : wfString newString.
Proof. repeat split. Qed.

Lemma setFrequency_wf f s : wfString s -> wfString (setFrequency f s).
Proof. intros W. exact W. Qed.

Lemma reachable_wf m : reachable m -> wfSim m.
Proof.
  revert m. apply reachable_inv; unfold wfSim.
  - split; apply setFrequency_wf, newString_wf.
  - intros i p a m [W1 W2]. unfold pluck.
    destruct (i =? 0)%Z; cbn [string1 string2 withString1 withString2];
      split; auto using pluckString_wf.
  - intros m _. rewrite stepOnce_string1, stepOnce_string2.
    split; apply commitString_wf.
  - intros m _. split; apply setFrequency_wf, newString_wf.
  - intros f m [W1 W2]. split; assumption.
  - intros f m [W1 W2]. split; assumption.
  - intros d m [W1 W2]. split; assumption.
  - intros k m [W1 W2]. split; assumption.
Qed.

Lemma plucked_wf i m : wfSim m -> wfString (plucked i m).
Proof. intros [W1 W2]. unfold plucked. now destruct (i =? 0)%Z. Qed.

Lemma reachable_leftEndFixed m : reachable m -> leftEndFixed m.
Proof.
  intros R.
  cut (wfSim m /\ leftEndFixed m); [tauto|].
  revert m R. apply reachable_inv; unfold leftEndFixed.
  - split; [apply reachable_wf; constructor | split; reflexivity].
  - intros i p a m ([W1 W2] & Z1 & Z2).
    assert (H0 : 0 < NUM_POINTS) by (unfold NUM_POINTS; apply Nat.lt_0_succ).
    split.
    + unfold wfSim, pluck.
      destruct (i =? 0)%Z; cbn [string1 string2 withString1 withString2];
        split; auto using pluckString_wf.
    + unfold pluck.
      destruct (i =? 0)%Z; cbn [string1 string2 withString1 withString2];
        split; try assumption.
      * apply (pluckString_cells (clampPosition p) (clampAmplitude a) W1 H0).
      * apply (pluckString_cells (clampPosition p) (clampAmplitude a) W2 H0).
  - intros m _. unfold wfSim.
    rewrite stepOnce_string1, stepOnce_string2. split.
    + split; apply commitString_wf.
    + rewrite !commitString_y. split; apply yNew_first.
  - intros m _. split; [apply (reachable_wf reach_construct) | split; reflexivity].
  - intros f m H. exact H.
  - intros f m H. exact H.
  - intros d m H. exact H.
  - intros k m H. exact H.
Qed.

Lemma reachable_dt m : reachable m -> dt m = dt construct.
Proof.
  revert m. apply reachable_inv; try reflexivity; try (intros; assumption).
  - intros i p a m H. unfold pluck. now destruct (i =? 0)%Z.
  - intros m H. now rewrite stepOnce_dt.
Qed.

Lemma newString_energyInv f : energyInvString (setFrequency f newString).
Proof.
  unfold energyInvString. repeat split.
  - apply setFrequency_tension; reflexivity.
  - apply notNegative_zero.
  - apply notNegative_zero.
Qed.

Lemma pluckString_energyInv p a s :
  energyInvString s -> energyInvString (pluckString p a s).
Proof.
  intros (Hd & Hl & Ht & _). unfold pluckString. cbv zeta.
  destruct (pluckLoop_params p a (seq 0 NUM_POINTS) s) as (H1 & H2 & H3).
  cbv zeta in *.
  generalize dependent (fold_left (pluckIter p a) (seq 0 NUM_POINTS) s).
  intros s1 H1 H2 H3.
  apply computeEnergy_inv; cbn [density length tension]; congruence.
Qed.

Lemma commitString_energyInv dt0 s b :
  energyInvString s -> energyInvString (commitString dt0 s b).
Proof.
  intros (Hd & Hl & Ht & _). unfold commitString. cbv zeta.
  apply computeEnergy_inv; cbn [density length tension]; assumption.
Qed.

Lemma setFrequency_energyInv f s :
  energyInvString s -> energyInvString (setFrequency f s).
Proof.
  intros (Hd & Hl & Ht & Hk & Hp). unfold energyInvString.
  split; [exact Hd|]. split; [exact Hl|].
  split; [now apply setFrequency_tension|]. split; assumption.
Qed.

Lemma reachable_energyInv m :
  reachable m -> energyInvString (string1 m) /\ energyInvString (string2 m).
Proof.
  revert m. apply reachable_inv.
  - split; apply newString_energyInv.
  - intros i p a m [H1 H2]. unfold pluck.
    destruct (i =? 0)%Z; cbn [string1 string2 withString1 withString2];
      split; try assumption; now apply pluckString_energyInv.
  - intros m [H1 H2]. rewrite stepOnce_string1, stepOnce_string2.
    split; now apply commitString_energyInv.
  - intros m _. split; apply newString_energyInv.
  - intros f m [H1 H2]. cbn [string1 string2 setString1Frequency withString1].
    split; [now apply setFrequency_energyInv | exact H2].
  - intros f m [H1 H2]. cbn [string1 string2 setString2Frequency withString2].
    split; [exact H1 | now apply setFrequency_energyInv].
  - intros d m [H1 H2]. split; assumption.
  - intros k m [H1 H2]. split; assumption.
Qed.

Lemma recordHistory_aligned m : historyAligned m -> historyAligned (recordHistory m).
Proof.
  unfold historyAligned, recordHistory.
  cbn [energy1History energy2History bridgeHistory].
  intros (E1 & E2 & B). rewrite !length_app. cbn [List.length].
  destruct (HISTORY_LENGTH <=? List.length (energy1History m)) eqn:F.
  - apply Nat.leb_le in F. unfold HISTORY_LENGTH in *.
    destruct (energy1History m) as [|a1 t1]; [cbn in F; lia|].
    destruct (energy2History m) as [|a2 t2]; [discriminate|].
    destruct (bridgeHistory m) as [|a3 t3]; [discriminate|].
    unfold eraseFirst. cbn [List.length tl] in *. lia.
  - apply Nat.leb_gt in F. unfold HISTORY_LENGTH in *. lia.
Qed.

(** What one step does to the three sequences. *)
Lemma stepOnce_history m :
  let m' := stepOnce m in
  let full := HISTORY_LENGTH <=? List.length (energy1History m) in
  if (Z.rem (stepCount m') 100 =? 0)%Z
  then energy1History m' =
         evict full (energy1History m) ++ [totalEnergy (string1 m')] /\
       energy2History m' =
         evict full (energy2History m) ++ [totalEnergy (string2 m')] /\
       bridgeHistory m' = evict full (bridgeHistory m) ++ [bridgeY m']
  else sameHistory m m'.
Proof.
  cbv zeta. rewrite stepOnce_stepCount. unfold stepOnce. cbv zeta.
  cbn [stepCount].
  match goal with
  | |- context [recordHistory ?M] =>
      assert (H1 : energy1History M = energy1History m) by reflexivity;
      assert (H2 : energy2History M = energy2History m) by reflexivity;
      assert (H3 : bridgeHistory M = bridgeHistory m) by reflexivity;
      generalize dependent M
  end.
  intros M0 H1 H2 H3.
  destruct (Z.rem (wrap32 (stepCount m + 1)) 100 =? 0)%Z.
  - unfold recordHistory, evict.
    cbn [energy1History energy2History bridgeHistory string1 string2 bridgeY].
    rewrite H1, H2, H3. repeat split; reflexivity.
  - unfold sameHistory. auto.
Qed.

Lemma stepOnce_aligned m : historyAligned m -> historyAligned (stepOnce m).
Proof.
  intros H. unfold stepOnce. cbv zeta.
  match goal with |- context [if ?c then _ else _] => destruct c end.
  - apply recordHistory_aligned. exact H.
  - exact H.
Qed.

Lemma reachable_historyAligned m : reachable m -> historyAligned m.
Proof.
  revert m. apply reachable_inv; try (intros; assumption).
  - unfold historyAligned, HISTORY_LENGTH. cbn. lia.
  - intros i p a m H. unfold pluck. now destruct (i =? 0)%Z.
  - apply stepOnce_aligned.
  - intros m _. unfold historyAligned, HISTORY_LENGTH. cbn. lia.
Qed.

Lemma clampFrequency_range f :
  leb f_50 (clampFrequency f) = true /\ leb (clampFrequency f) f_1000 = true.
Proof.
  unfold clampFrequency, max, min.
  destruct (ltb f f_1000) eqn:H1; [|split; reflexivity].
  destruct (ltb f_50 f) eqn:H2; [|split; reflexivity].
  unfold leb, SFleb. unfold ltb, SFltb in H1, H2.
  destruct (SFcompare f_50 f) as [[| |]|]; try discriminate.
  destruct (SFcompare f f_1000) as [[| |]|]; try discriminate.
  split; reflexivity.
Qed.

Lemma setFrequency_tuned f s : tuned (setFrequency (clampFrequency f) s).
Proof.
  destruct (clampFrequency_range f) as [H1 H2].
  unfold tuned. cbn [frequency tension waveSpeed density length setFrequency].
  repeat split; assumption.
Qed.

Lemma computeEnergy_tuned s : tuned s -> tuned (computeEnergy s).
Proof.
  unfold tuned, computeEnergy. destruct (energySums s). cbn. auto.
Qed.

Lemma pluckLoop_tuned p a l : forall s,
  tuned s -> tuned (fold_left (pluckIter p a) l s).
Proof.
  induction l as [|i l IH]; intros s H; cbn [fold_left]; [exact H|].
  apply IH. exact H.
Qed.

Lemma pluckString_tuned p a s : tuned s -> tuned (pluckString p a s).
Proof.
  intros H. unfold pluckString. cbv zeta.
  pose proof (pluckLoop_tuned p a (seq 0 NUM_POINTS) H) as H1.
  generalize dependent (fold_left (pluckIter p a) (seq 0 NUM_POINTS) s).
  intros s1 H1. apply computeEnergy_tuned. exact H1.
Qed.

Lemma commitString_tuned dt0 s b : tuned s -> tuned (commitString dt0 s b).
Proof.
  intros H. unfold commitString. cbv zeta. apply computeEnergy_tuned. exact H.
Qed.

Lemma construct_tuned : tuned (string1 construct) /\ tuned (string2 construct).
Proof. split; (repeat split). Qed.

(** ** What [pluck] and a step leave alone *)

Lemma computeEnergy_parameters s : sameParameters s (computeEnergy s).
Proof.
  unfold sameParameters, computeEnergy. destruct (energySums s).
  cbn [frequency tension density damping waveSpeed length]. auto 7.
Qed.

Lemma computeEnergy_forceOnBridge s :
  forceOnBridge (computeEnergy s) = forceOnBridge s.
Proof. unfold computeEnergy. destruct (energySums s). reflexivity. Qed.

Lemma commitString_parameters dt0 s b : sameParameters s (commitString dt0 s b).
Proof.
  unfold commitString. cbv zeta.
  match goal with
  | |- sameParameters _ (computeEnergy ?S) =>
      pose proof (computeEnergy_parameters S) as H; revert H;
      generalize (computeEnergy S)
  end.
  intros s' H. exact H.
Qed.

Lemma pluckLoop_parameters p a l : forall s,
  sameParameters s (fold_left (pluckIter p a) l s) /\
  forceOnBridge (fold_left (pluckIter p a) l s) = forceOnBridge s.
Proof.
  induction l as [|i l IH]; intros s; cbn [fold_left].
  - unfold sameParameters. auto 8.
  - destruct (IH (pluckIter p a s i)) as [H F]. split; [exact H | exact F].
Qed.

Lemma pluckString_parameters p a s :
  sameParameters s (pluckString p a s) /\
  forceOnBridge (pluckString p a s) = forceOnBridge s.
Proof.
  unfold pluckString. cbv zeta.
  destruct (pluckLoop_parameters p a (seq 0 NUM_POINTS) s) as [H F].
  generalize dependent (fold_left (pluckIter p a) (seq 0 NUM_POINTS) s).
  intros s1 H F.
  match goal with
  | |- sameParameters _ (computeEnergy ?S) /\ _ =>
      pose proof (computeEnergy_parameters S) as H';
      pose proof (computeEnergy_forceOnBridge S) as F';
      revert H' F'; generalize (computeEnergy S)
  end.
  intros s' H' F'. unfold sameParameters in *.
  cbn [frequency tension density damping waveSpeed length forceOnBridge] in H', F'.
  destruct H as (A1 & A2 & A3 & A4 & A5 & A6).
  destruct H' as (B1 & B2 & B3 & B4 & B5 & B6).
  rewrite B1, B2, B3, B4, B5, B6, F'. auto 8.
Qed.

Lemma parametersBounded_construct : parametersBounded construct.
Proof. repeat split. Qed.

(** ** The buffers after [pluck], as arrays *)

(** Two arrays with the same cells are the same array. *)
Lemma array_ext (a b : list float) :
  List.length a = NUM_POINTS -> List.length b = NUM_POINTS ->
  (forall j, j < NUM_POINTS -> get a j = get b j) -> a = b.
Proof.
  intros La Lb H. apply nth_ext with (d := zero) (d' := zero).
  - now rewrite La, Lb.
  - intros j Hj. rewrite La in Hj. apply H. exact Hj.
Qed.

Lemma pluckProfile_length p a : List.length (pluckProfile p a) = NUM_POINTS.
Proof.
  unfold pluckProfile. cbn [List.length]. now rewrite length_map, length_seq.
Qed.

Lemma pluckProfile_get p a j :
  j < NUM_POINTS ->
  get (pluckProfile p a) j = if j =? 0 then zero else pluckShape p a j.
Proof.
  intros Hj. unfold pluckProfile, get. destruct j as [|j]; [reflexivity|].
  cbn [nth Nat.eqb]. change (NUM_POINTS - 1) with 199.
  unfold NUM_POINTS in Hj.
  rewrite nth_indep with (d' := pluckShape p a 0)
    by (rewrite length_map, length_seq; lia).
  rewrite map_nth, seq_nth by lia. reflexivity.
Qed.

Lemma fill_get x j : j < NUM_POINTS -> get (fill x) j = x.
Proof.
  intros Hj. unfold get, fill. apply nth_repeat_lt. exact Hj.
Qed.

(** The three buffers of a string right after [pluck], as arrays. *)
Lemma pluckString_buffers p a s :
  wfString s ->
  y (pluckString p a s) = pluckProfile p a /\
  y_prev (pluckString p a s) = pluckProfile p a /\
  v (pluckString p a s) = fill zero.
Proof.
  intros W. destruct (pluckString_wf p a W) as (Ly & Lp & Lv).
  pose proof (fun j Hj => @pluckString_cells p a s j W Hj) as C.
  generalize dependent (pluckString p a s). intros s' Ly Lp Lv C.
  split; [|split].
  - apply array_ext; [exact Ly | apply pluckProfile_length |].
    intros j Hj. rewrite pluckProfile_get by exact Hj. apply (C j Hj).
  - apply array_ext; [exact Lp | apply pluckProfile_length |].
    intros j Hj. rewrite pluckProfile_get by exact Hj. apply (C j Hj).
  - apply array_ext; [exact Lv | unfold fill; apply repeat_length |].
    intros j Hj. rewrite fill_get by exact Hj. apply (C j Hj).
Qed.

Lemma fold_left_ext_in (A B : Type) (f g : A -> B -> A) (l : list B) :
  (forall a b, f a b = g a b) -> forall a, fold_left f l a = fold_left g l a.
Proof.
  intros H. induction l as [|b l IH]; intros a; cbn [fold_left]; [reflexivity|].
  now rewrite H, IH.
Qed.

(** [computeEnergy] reads the buffers [y] and [v], the tension and the
    density, and overwrites the three energies. *)
Lemma energySums_ext s s' :
  y s' = y s -> v s' = v s -> tension s' = tension s ->
  density s' = density s -> energySums s' = energySums s.
Proof.
  intros Hy Hv Ht Hd. unfold energySums. apply fold_left_ext_in.
  intros [ke pe] i. unfold energyIter. now rewrite Hy, Hv, Ht, Hd.
Qed.

Lemma computeEnergy_ext s s' :
  y s' = y s -> y_prev s' = y_prev s -> v s' = v s ->
  sameParameters s s' -> forceOnBridge s' = forceOnBridge s ->
  computeEnergy s' = computeEnergy s.
Proof.
  intros Hy Hp Hv (H1 & H2 & H3 & H4 & H5 & H6) Hf.
  unfold computeEnergy. rewrite (energySums_ext s s' Hy Hv H2 H3).
  destruct (energySums s) as [ke pe].
  now rewrite Hy, Hp, Hv, H1, H2, H3, H4, H5, H6, Hf.
Qed.

(** [pluck] forgets the buffers and the energies of the string. *)
Lemma pluckString_closed p a s :
  wfString s -> pluckString p a s = computeEnergy (pluckedString p a s).
Proof.
  intros W. unfold pluckString.
  pose proof (fun j Hj => @pluckLoop_full p a s j W Hj) as C.
  destruct (pluckLoop_parameters p a (seq 0 NUM_POINTS) s) as [H F].
  cbv zeta in *.
  generalize dependent (fold_left (pluckIter p a) (seq 0 NUM_POINTS) s).
  intros s1 C H F.
  assert (H0 : 0 < NUM_POINTS) by (unfold NUM_POINTS; apply Nat.lt_0_succ).
  destruct (C 0 H0) as ((Wy & Wp & Wv) & _).
  apply computeEnergy_ext.
  - cbn [y pluckedString]. symmetry.
    apply array_ext; [apply pluckProfile_length | now rewrite set_length |].
    intros j Hj. rewrite pluckProfile_get by exact Hj.
    destruct j as [|j]; cbn [Nat.eqb].
    + rewrite get_set_same by (rewrite Wy; exact H0). reflexivity.
    + rewrite get_set_other by discriminate. symmetry. apply (C (S j) Hj).
  - cbn [y_prev pluckedString]. symmetry.
    apply array_ext; [apply pluckProfile_length | now rewrite set_length |].
    intros j Hj. rewrite pluckProfile_get by exact Hj.
    destruct j as [|j]; cbn [Nat.eqb].
    + rewrite get_set_same by (rewrite Wp; exact H0). reflexivity.
    + rewrite get_set_other by discriminate. symmetry. apply (C (S j) Hj).
  - cbn [v pluckedString]. symmetry.
    apply array_ext; [unfold fill; apply repeat_length | exact Wv |].
    intros j Hj. rewrite fill_get by exact Hj. symmetry. apply (C j Hj).
  - unfold sameParameters in *.
    cbn [frequency tension density damping waveSpeed length pluckedString].
    destruct H as (A1 & A2 & A3 & A4 & A5 & A6).
    rewrite A1, A2, A3, A4, A5, A6. auto 8.
  - cbn [forceOnBridge pluckedString]. exact F.
Qed.

Lemma pluckString_twice p a q b s :
  wfString s -> pluckString p a (pluckString q b s) = pluckString p a s.
Proof.
  intros W.
  rewrite (pluckString_closed p a (pluckString_wf q b W)).
  rewrite (pluckString_closed p a W).
  destruct (pluckString_parameters q b s) as [H F].
  generalize dependent (pluckString q b s). intros s' H F.
  apply computeEnergy_ext; try reflexivity.
  - unfold sameParameters in *.
    cbn [frequency tension density damping waveSpeed length pluckedString].
    exact H.
  - cbn [forceOnBridge pluckedString]. exact F.
Qed.

(** ** The derived quantities after a step *)

Lemma map_get_seq (a : list float) :
  List.length a = NUM_POINTS -> map (get a) (seq 0 NUM_POINTS) = a.
Proof.
  intros L. apply array_ext.
  - now rewrite length_map, length_seq.
  - exact L.
  - intros j Hj. unfold get at 1.
    rewrite nth_indep with (d' := get a 0) by (now rewrite length_map, length_seq).
    rewrite map_nth, seq_nth by exact Hj. reflexivity.
Qed.

Lemma commitString_derived dt0 s b :
  wfString s -> derivedCurrent dt0 s (commitString dt0 s b).
Proof.
  intros (Wy & _). unfold derivedCurrent, commitString. cbv zeta.
  rewrite computeEnergy_y, computeEnergy_y_prev, computeEnergy_v,
    computeEnergy_forceOnBridge, computeEnergy_tension.
  cbn [y y_prev v forceOnBridge tension].
  rewrite (@map_get_seq (y s) Wy).
  split; [reflexivity|]. split; [|reflexivity].
  intros i Hi. unfold get at 1.
  set (f := fun i => div (sub (get (yNew dt0 s b) i) (get (y s) i)) dt0).
  rewrite nth_indep with (d' := f 0) by (now rewrite length_map, length_seq).
  rewrite map_nth, seq_nth by exact Hi. reflexivity.
Qed.

Lemma stepOnce_time m : time (stepOnce m) = add (time m) (dt m).
Proof. unfold stepOnce. cbv zeta. destruct (_ =? 0)%Z; reflexivity. Qed.

Lemma stepOnce_time_absorbed m :
  dt m = dt construct -> valid (time m) = true -> leb f_64 (time m) = true ->
  time (stepOnce m) = time m.
Proof.
  intros Hdt V H. rewrite stepOnce_time, Hdt.
  destruct (leb_64_shape _ H) as [E | (mt & et & E & He)]; rewrite E in *.
  - reflexivity.
  - change (dt construct) with (S754_finite false 12466118 (-42)).
    now apply add_dt_absorbed.
Qed.

Lemma step_time_absorbed k : forall m,
  dt m = dt construct -> valid (time m) = true -> leb f_64 (time m) = true ->
  time (Nat.iter k stepOnce m) = time m.
Proof.
  induction k as [|k IH]; intros m Hdt V H; [reflexivity|].
  rewrite Nat.iter_succ_r.
  pose proof (stepOnce_time_absorbed m Hdt V H) as E.
  pose proof (stepOnce_dt m) as D.
  generalize dependent (stepOnce m). intros m' E D.
  rewrite IH; rewrite ?E, ?D; assumption || reflexivity.
Qed.

(** ** Exchanging the strings *)

Lemma newBridgeY_swap m : newBridgeY (swapStrings m) = newBridgeY m.
Proof.
  unfold newBridgeY, bridgeBlend, bridgeCandidate.
  cbn [swapStrings string1 string2 bridgeY bridgeStiffness dt].
  rewrite (add_comm (tension (string2 m)) (tension (string1 m))).
  rewrite (add_comm (mul (tension (string2 m)) (want (dt m) (string2 m)))).
  reflexivity.
Qed.

Lemma recordHistory_swap m :
  List.length (energy1History m) = List.length (energy2History m) ->
  recordHistory (swapStrings m) = swapStrings (recordHistory m).
Proof.
  intros L. unfold recordHistory, swapStrings.
  cbn [string1 string2 bridgeY bridgeV bridgeStiffness dt time stepCount
       energy1History energy2History bridgeHistory].
  rewrite L. reflexivity.
Qed.

Lemma stepOnce_swap m :
  List.length (energy1History m) = List.length (energy2History m) ->
  stepOnce (swapStrings m) = swapStrings (stepOnce m).
Proof.
  intros L. unfold stepOnce. cbv zeta. rewrite newBridgeY_swap.
  cbn [swapStrings string1 string2 bridgeY bridgeV bridgeStiffness dt time
       stepCount energy1History energy2History bridgeHistory].
  generalize (commitString (dt m) (string1 m) (newBridgeY m)).
  generalize (commitString (dt m) (string2 m) (newBridgeY m)).
  intros s2 s1.
  destruct (Z.rem (wrap32 (stepCount m + 1)) 100 =? 0)%Z; [|reflexivity].
  match goal with
  | |- recordHistory ?A = swapStrings (recordHistory ?B) =>
      change A with (swapStrings B); apply recordHistory_swap
  end.
  exact L.
Qed.

Lemma step_swap n : forall m,
  historyAligned m -> step n (swapStrings m) = swapStrings (step n m).
Proof.
  unfold step. induction (Z.to_nat n) as [|k IH]; intros m H; [reflexivity|].
  rewrite !Nat.iter_succ_r.
  rewrite stepOnce_swap by apply H.
  apply IH. apply stepOnce_aligned. exact H.
Qed.

(** ** The stored total energy *)

Lemma computeEnergy_totalIsSum s : totalIsSum (computeEnergy s).
Proof.
  unfold totalIsSum.
  now rewrite computeEnergy_total, computeEnergy_kinetic, computeEnergy_potential.
Qed.

Lemma pluckString_totalIsSum p a s : totalIsSum (pluckString p a s).
Proof.
  unfold pluckString. cbv zeta.
  generalize (fold_left (pluckIter p a) (seq 0 NUM_POINTS) s). intros s1.
  apply computeEnergy_totalIsSum.
Qed.

Lemma commitString_totalIsSum dt0 s b : totalIsSum (commitString dt0 s b).
Proof. unfold commitString. cbv zeta. apply computeEnergy_totalIsSum. Qed.

Lemma reachable_totalIsSum m :
  reachable m -> totalIsSum (string1 m) /\ totalIsSum (string2 m).
Proof.
  revert m. apply reachable_inv.
  - split; reflexivity.
  - intros i p a m [H1 H2]. unfold pluck.
    destruct (i =? 0)%Z; cbn [string1 string2 withString1 withString2];
      split; try assumption; apply pluckString_totalIsSum.
  - intros m _. rewrite stepOnce_string1, stepOnce_string2.
    split; apply commitString_totalIsSum.
  - intros m _. split; reflexivity.
  - intros f m H. exact H.
  - intros f m H. exact H.
  - intros d m H. exact H.
  - intros k m H. exact H.
Qed.

(** ** The history counter *)

Lemma wrap32_small z : (-2147483648 <= z < 2147483648)%Z -> wrap32 z = z.
Proof.
  intros H. unfold wrap32. rewrite Z.mod_small by lia. lia.
Qed.

Lemma stepOnce_counted n m :
  (0 <= n < 2147483647)%Z -> counted n m -> counted (n + 1) (stepOnce m).
Proof.
  intros Hn (C & L1 & L2 & L3).
  pose proof (stepOnce_history m) as H. cbv zeta in H.
  pose proof (stepOnce_stepCount m) as SC.
  rewrite C, wrap32_small in SC by lia.
  rewrite SC in H.
  generalize dependent (stepOnce m). intros m' H SC.
  unfold counted. split; [exact SC|].
  rewrite Z.rem_mod_nonneg in H by lia.
  destruct (Z.eqb_spec ((n + 1) mod 100) 0) as [E | E].
  - destruct H as (H1 & H2 & H3). rewrite H1, H2, H3.
    rewrite !length_app. cbn [List.length].
    assert (Q : ((n + 1) / 100 = n / 100 + 1)%Z).
    { Z.to_euclidean_division_equations. lia. }
    unfold evict.
    destruct (Nat.leb_spec HISTORY_LENGTH (List.length (energy1History m)))
      as [F | F]; unfold HISTORY_LENGTH in F.
    + destruct (energy1History m) as [|a1 t1]; [cbn in F; lia|].
      destruct (energy2History m) as [|a2 t2]; [discriminate|].
      destruct (bridgeHistory m) as [|a3 t3]; [discriminate|].
      cbn [tl List.length] in *. rewrite Q. split; [lia|]. split; lia.
    + rewrite Q. split; [lia|]. split; lia.
  - destruct H as (H1 & H2 & H3). rewrite H1, H2, H3.
    assert (Q : ((n + 1) / 100 = n / 100)%Z).
    { Z.to_euclidean_division_equations. lia. }
    rewrite Q. auto.
Qed.

Lemma steps_counted k : forall n m,
  (0 <= n)%Z -> (n + Z.of_nat k < 2147483648)%Z -> counted n m ->
  counted (n + Z.of_nat k) (Nat.iter k stepOnce m).
Proof.
  induction k as [|k IH]; intros n m Hn Hk C.
  - cbn [Nat.iter]. now rewrite Z.add_0_r.
  - rewrite Nat.iter_succ_r.
    replace (n + Z.of_nat (S k))%Z with (n + 1 + Z.of_nat k)%Z by lia.
    apply IH; try lia. apply stepOnce_counted; [lia | exact C].
Qed.

Lemma run_counted ops : forall n m,
  (0 <= n)%Z -> counted n m -> countable n ops = true ->
  counted (stepsSince n ops) (fold_left (fun m o => apply o m) ops m).
Proof.
  induction ops as [|o ops IH]; intros n m Hn C Hc; [exact C|].
  cbn [fold_left]. destruct o; cbn [stepsSince countable apply] in *.
  - apply IH; try assumption. unfold counted, pluck in *.
    destruct (stringIndex =? 0)%Z; exact C.
  - apply andb_prop in Hc as [Hlt Hc]. apply Z.ltb_lt in Hlt.
    apply IH; [lia | | exact Hc].
    unfold step. replace (Z.max numSteps 0) with (Z.of_nat (Z.to_nat numSteps)) by lia.
    apply steps_counted; [exact Hn | lia | exact C].
  - apply IH; [lia | | exact Hc]. repeat split.
  - apply IH; assumption.
  - apply IH; assumption.
  - apply IH; assumption.
  - apply IH; assumption.
Qed.

(** ** The setters on reachable states *)

Lemma reachable_settingsStable m : reachable m -> settingsStable m.
Proof.
  revert m. apply reachable_inv.
  - repeat split.
  - intros i p a m (H1 & H2 & H3 & H4). unfold settingsStable, pluck.
    destruct (pluckString_parameters (clampPosition p) (clampAmplitude a)
                (string1 m)) as [(F1 & _ & _ & D1 & _) _].
    destruct (pluckString_parameters (clampPosition p) (clampAmplitude a)
                (string2 m)) as [(F2 & _ & _ & D2 & _) _].
    destruct (i =? 0)%Z; cbn [withString1 withString2 string1 string2 bridgeStiffness];
      rewrite ?F1, ?F2, ?D1; auto.
  - intros m (H1 & H2 & H3 & H4). unfold settingsStable.
    rewrite stepOnce_string1, stepOnce_string2, stepOnce_bridgeStiffness.
    destruct (commitString_parameters (dt m) (string1 m) (newBridgeY m))
      as (F1 & _ & _ & D1 & _).
    destruct (commitString_parameters (dt m) (string2 m) (newBridgeY m))
      as (F2 & _ & _ & D2 & _).
    rewrite F1, F2, D1. auto.
  - intros m _. repeat split.
  - intros f m (H1 & H2 & H3 & H4). unfold settingsStable.
    cbn [setString1Frequency withString1 setFrequency string1 string2
         frequency damping bridgeStiffness].
    split; [|auto]. unfold clampFrequency. apply clamp_idempotent; reflexivity.
  - intros f m (H1 & H2 & H3 & H4). unfold settingsStable.
    cbn [setString2Frequency withString2 setFrequency string1 string2
         frequency damping bridgeStiffness].
    split; [exact H1|]. split; [|auto].
    unfold clampFrequency. apply clamp_idempotent; reflexivity.
  - intros d m (H1 & H2 & H3 & H4). unfold settingsStable.
    cbn [setDamping withString1 withString2 withDamping string1 string2
         frequency damping bridgeStiffness].
    split; [exact H1|]. split; [exact H2|]. split; [|exact H4].
    apply clamp_idempotent; reflexivity.
  - intros k m (H1 & H2 & H3 & H4). unfold settingsStable.
    cbn [setBridgeStiffness string1 string2 frequency damping bridgeStiffness].
    split; [exact H1|]. split; [exact H2|]. split; [exact H3|].
    apply clamp_idempotent; reflexivity.
Qed.

Lemma reachable_tuned m : reachable m -> tuned (string1 m) /\ tuned (string2 m).
Proof.
  revert m. apply reachable_inv.
  - apply construct_tuned.
  - intros i p a m [H1 H2]. unfold pluck.
    destruct (i =? 0)%Z; cbn [string1 string2 withString1 withString2];
      split; try assumption; now apply pluckString_tuned.
  - intros m [H1 H2]. rewrite stepOnce_string1, stepOnce_string2.
    split; now apply commitString_tuned.
  - intros m _. apply construct_tuned.
  - intros f m [H1 H2]. cbn [string1 string2 setString1Frequency withString1].
    split; [apply setFrequency_tuned | exact H2].
  - intros f m [H1 H2]. cbn [string1 string2 setString2Frequency withString2].
    split; [exact H1 | apply setFrequency_tuned].
  - intros d m [H1 H2]. split; assumption.
  - intros k m [H1 H2]. split; assumption.
Qed.

Lemma reachable_sameDamping m :
  reachable m -> damping (string2 m) = damping (string1 m).
Proof.
  revert m. apply reachable_inv; try reflexivity; try (intros; assumption).
  - intros i p a m H. unfold pluck.
    destruct (pluckString_parameters (clampPosition p) (clampAmplitude a)
                (string1 m)) as [(_ & _ & _ & D1 & _) _].
    destruct (pluckString_parameters (clampPosition p) (clampAmplitude a)
                (string2 m)) as [(_ & _ & _ & D2 & _) _].
    destruct (i =? 0)%Z; cbn [withString1 withString2 string1 string2];
      rewrite ?D1, ?D2; exact H.
  - intros m H. rewrite stepOnce_string1, stepOnce_string2.
    destruct (commitString_parameters (dt m) (string1 m) (newBridgeY m))
      as (_ & _ & _ & D1 & _).
    destruct (commitString_parameters (dt m) (string2 m) (newBridgeY m))
      as (_ & _ & _ & D2 & _).
    now rewrite D1, D2.
Qed.

Lemma setFrequency_same s :
  tuned s -> setFrequency (frequency s) s = s.
Proof.
  intros (_ & _ & T & W). unfold setFrequency. cbv zeta.
  rewrite <- T, <- W. now destruct s.
Qed.

Lemma withDamping_same s : withDamping (damping s) s = s.
Proof. now destruct s. Qed.

(** ** The coefficients of the update *)

(** Induction over a sequence of calls with binary32 arguments. *)
Lemma run_valid_inv (P : Sim -> Prop) :
  P construct ->
  (forall i p a m, valid p = true -> valid a = true -> P m -> P (pluck i p a m)) ->
  (forall m, P m -> P (stepOnce m)) ->
  (forall m, P m -> P (reset m)) ->
  (forall f m, valid f = true -> P m -> P (setString1Frequency f m)) ->
  (forall f m, valid f = true -> P m -> P (setString2Frequency f m)) ->
  (forall d m, valid d = true -> P m -> P (setDamping d m)) ->
  (forall k m, valid k = true -> P m -> P (setBridgeStiffness k m)) ->
  forall ops, forallb validOp ops = true -> P (run ops).
Proof.
  intros H0 Hpluck Hstep Hreset Hf1 Hf2 Hd Hk ops. unfold run.
  generalize construct H0.
  induction ops as [|o ops IH]; intros m Hm V; [exact Hm|].
  cbn [forallb] in V. apply andb_prop in V as [Vo V].
  cbn [fold_left]. apply IH; [|exact V].
  destruct o; cbn [apply validOp] in *; auto.
  - apply andb_prop in Vo as [V1 V2]. auto.
  - unfold step. induction (Z.to_nat numSteps) as [|k IHk]; [exact Hm|].
    rewrite Nat.iter_succ. auto.
Qed.

(** A binary32 value of [[50, 1000]] is a positive normal number. *)
Lemma frequency_normal f :
  valid f = true -> leb f_50 f = true -> leb f f_1000 = true ->
  normalIn (-18) (-14) f.
Proof.
  intros V Hlo Hhi.
  destruct f as [s|[|]| |[|] m e]; try discriminate.
  unfold leb, SFleb, f_50, f_1000 in Hlo, Hhi. cbn [SFcompare] in Hlo, Hhi.
  assert (E1 : (-18 <= e)%Z).
  { destruct (Z.compare_spec (-18) e); try lia; discriminate. }
  assert (E2 : (e <= -14)%Z).
  { destruct (Z.compare_spec e (-14)); try lia; discriminate. }
  apply valid_finite in V as [Hc _].
  unfold fexp, emin in Hc. change prec with 24%Z in Hc.
  change emax with 128%Z in Hc.
  exists m, e. split; [reflexivity|]. split; lia.
Qed.

Lemma clampFrequency_valid f : valid f = true -> valid (clampFrequency f) = true.
Proof.
  intros V. unfold clampFrequency, max, min.
  destruct (ltb f f_1000); [|reflexivity].
  destruct (ltb f_50 f); [exact V | reflexivity].
Qed.

(** The coefficients of a tuned string. *)
Lemma tunedValid_normal s :
  tunedValid s ->
  normalIn (-21) (-9) (tension s) /\
  normalIn (-18) (-10) (waveSpeed s) /\
  normalIn (-37) (-11) (courantSq (dt construct) s).
Proof.
  intros ((Flo & Fhi & T & W) & V & Dn & Ln).
  pose proof (@frequency_normal (frequency s) V Flo Fhi) as Nf.
  assert (Nc : normalIn (-31) (-31)
                 (mul (mul (mul four (density s)) (length s)) (length s))).
  { rewrite Dn, Ln. apply (@normalIn_constant 8589935 (-31)). reflexivity. }
  assert (NT : normalIn (-21) (-9) (tension s)).
  { rewrite T.
    pose proof (@mul_normal (-31) (-31) (-18) (-14) _ _ Nc Nf) as N1.
    specialize (N1 ltac:(unfold emin; cbn; lia) ltac:(lia)).
    pose proof (@mul_normal _ _ (-18) (-14) _ _ N1 Nf) as N2.
    specialize (N2 ltac:(unfold emin; cbn; lia) ltac:(lia)).
    exact N2. }
  assert (NW : normalIn (-18) (-10) (waveSpeed s)).
  { rewrite W, Dn.
    assert (Nd : normalIn (-33) (-33) f_0_001)
      by (apply (@normalIn_constant 8589935 (-33)); reflexivity).
    pose proof (@div_normal (-21) (-9) (-33) (-33) _ _ NT Nd) as N1.
    specialize (N1 ltac:(unfold emin; cbn; lia) ltac:(lia)).
    pose proof (@sqrt_normal _ _ _ N1) as N2.
    specialize (N2 ltac:(unfold emin; cbn; lia) ltac:(cbn; lia)).
    exact N2. }
  split; [exact NT|]. split; [exact NW|].
  unfold courantSq. cbv zeta.
  assert (Ndt : normalIn (-42) (-42) (dt construct))
    by (apply (@normalIn_constant 12466118 (-42)); reflexivity).
  assert (Ndx : normalIn (-31) (-31) dx).
  { unfold dx. eapply normalIn_constant. reflexivity. }
  pose proof (@mul_normal (-18) (-10) (-42) (-42) _ _ NW Ndt) as N1.
  specialize (N1 ltac:(unfold emin; cbn; lia) ltac:(lia)).
  pose proof (@div_normal _ _ (-31) (-31) _ _ N1 Ndx) as N2.
  specialize (N2 ltac:(unfold emin; cbn; lia) ltac:(lia)).
  pose proof (@mul_normal _ _ _ _ _ _ N2 N2) as N3.
  specialize (N3 ltac:(unfold emin; cbn; lia) ltac:(lia)).
  exact N3.
Qed.

Lemma computeEnergy_tunedValid s : tunedValid s -> tunedValid (computeEnergy s).
Proof.
  intros (T & V & D & L).
  destruct (computeEnergy_parameters s) as (F1 & _ & D1 & _ & _ & L1).
  split; [now apply computeEnergy_tuned|].
  rewrite F1, D1, L1. auto.
Qed.

Lemma pluckString_tunedValid p a s : tunedValid s -> tunedValid (pluckString p a s).
Proof.
  intros (T & V & D & L).
  destruct (pluckString_parameters p a s) as [(F1 & _ & D1 & _ & _ & L1) _].
  pose proof (pluckString_tuned p a T) as T1.
  generalize dependent (pluckString p a s). intros s' F1 D1 L1 T1.
  split; [exact T1|]. rewrite F1, D1, L1. auto.
Qed.

Lemma commitString_tunedValid dt0 s b :
  tunedValid s -> tunedValid (commitString dt0 s b).
Proof.
  intros (T & V & D & L).
  destruct (commitString_parameters dt0 s b) as (F1 & _ & D1 & _ & _ & L1).
  pose proof (commitString_tuned dt0 b T) as T1.
  generalize dependent (commitString dt0 s b). intros s' F1 D1 L1 T1.
  split; [exact T1|]. rewrite F1, D1, L1. auto.
Qed.

Lemma setFrequency_tunedValid f s :
  valid f = true -> tunedValid s ->
  tunedValid (setFrequency (clampFrequency f) s).
Proof.
  intros Vf (T & V & D & L).
  split; [apply setFrequency_tuned|].
  cbn [setFrequency frequency density length].
  split; [now apply clampFrequency_valid | auto].
Qed.

Lemma construct_tunedValid :
  tunedValid (string1 construct) /\ tunedValid (string2 construct).
Proof.
  destruct construct_tuned as [T1 T2].
  split; (split; [assumption | repeat split]).
Qed.

Lemma run_tunedValid ops :
  forallb validOp ops = true ->
  tunedValid (string1 (run ops)) /\ tunedValid (string2 (run ops)).
Proof.
  revert ops.
  apply (run_valid_inv
           (fun m => tunedValid (string1 m) /\ tunedValid (string2 m))).
  - exact construct_tunedValid.
  - intros i p a m _ _ [H1 H2]. unfold pluck.
    destruct (i =? 0)%Z; cbn [string1 string2 withString1 withString2];
      split; try assumption; now apply pluckString_tunedValid.
  - intros m [H1 H2]. rewrite stepOnce_string1, stepOnce_string2.
    split; now apply commitString_tunedValid.
  - intros m _. exact construct_tunedValid.
  - intros f m V [H1 H2]. cbn [string1 string2 setString1Frequency withString1].
    split; [now apply setFrequency_tunedValid | exact H2].
  - intros f m V [H1 H2]. cbn [string1 string2 setString2Frequency withString2].
    split; [exact H1 | now apply setFrequency_tunedValid].
  - intros d m _ [H1 H2]. split; assumption.
  - intros k m _ [H1 H2]. split; assumption.
Qed.

(** ** A simulation at rest *)

(** [damping * dt] is finite for every finite binary32 damping
    coefficient. *)
Lemma mul_dt_isfinite d :
  valid d = true -> isfinite d = true ->
  isfinite (mul d (dt construct)) = true.
Proof.
  intros V F.
  destruct d as [sd|sd| |sd md ed]; try discriminate; try reflexivity.
  apply valid_finite in V as [Hc He].
  unfold fexp, emin in Hc. change prec with 24%Z in *.
  change emax with 128%Z in *.
  change (dt construct) with (S754_finite false 12466118 (-42)).
  unfold mul, SFmul.
  pose proof (digits2_pos_mul md 12466118) as Hd.
  change (Zpos (digits2_pos 12466118)) with 24%Z in Hd.
  apply binary_round_aux_isfinite; lia.
Qed.

Lemma allZero_fill : allZero (fill zero).
Proof.
  intros i. unfold get, fill.
  destruct (nth_in_or_default i (repeat zero NUM_POINTS) zero) as [H | ->];
    [|reflexivity].
  apply repeat_spec in H. now rewrite H.
Qed.

Lemma allZero_nil : allZero [].
Proof. intros [|i]; reflexivity. Qed.

Lemma allZero_tl h : allZero h -> allZero (tl h).
Proof.
  intros H i. destruct h as [|x h]; [apply allZero_nil|].
  exact (H (S i)).
Qed.

Lemma allZero_snoc h x : allZero h -> isZero x = true -> allZero (h ++ [x]).
Proof.
  intros H Hx i. unfold get.
  destruct (Nat.lt_ge_cases i (List.length h)) as [L | L].
  - rewrite app_nth1 by exact L. exact (H i).
  - rewrite app_nth2 by exact L.
    destruct (i - List.length h) as [|[|k]]; cbn [nth]; auto.
Qed.

Lemma allZero_map_seq (f : nat -> float) n :
  (forall i, isZero (f i) = true) -> allZero (map f (seq 0 n)).
Proof.
  intros H i. unfold get.
  destruct (Nat.lt_ge_cases i n) as [L | L].
  - rewrite (nth_indep _ zero (f 0)) by (now rewrite length_map, length_seq).
    rewrite map_nth, seq_nth by exact L. apply H.
  - rewrite nth_overflow by (now rewrite length_map, length_seq). reflexivity.
Qed.

Lemma fold_add_zero (t : nat -> float) (l : list nat) :
  (forall i, isZero (t i) = true) ->
  forall acc, isZero acc = true ->
    isZero (fold_left (fun acc i => add acc (t i)) l acc) = true.
Proof.
  intros H. induction l as [|i l IH]; intros acc Ha; cbn [fold_left];
    [exact Ha|].
  apply IH. now apply isZero_add.
Qed.

(** The energies of a string whose cells are zeros. *)
Lemma computeEnergy_resting s :
  density s = f_0_001 -> normalIn (-21) (-9) (tension s) ->
  allZero (y s) -> allZero (y_prev s) -> allZero (v s) ->
  isZero (forceOnBridge s) = true ->
  restingString (computeEnergy s).
Proof.
  intros Dn Ft Hy Hp Hv Hf.
  assert (K : isZero (kineticSum s) = true).
  { unfold kineticSum. apply fold_add_zero; [|reflexivity].
    intros i. unfold kineticTerm. rewrite Dn.
    apply isZero_mul_l; [|apply isZero_isfinite, Hv].
    apply isZero_mul_r; [reflexivity | apply Hv]. }
  assert (P : isZero (potentialSum s) = true).
  { unfold potentialSum. apply fold_add_zero; [|reflexivity].
    intros i. unfold potentialTerm.
    assert (St : isZero (strain s i) = true).
    { unfold strain, dx. apply isZero_div. apply isZero_sub; apply Hy. }
    apply isZero_mul_l; [|reflexivity].
    apply isZero_mul_l; [|apply isZero_isfinite, St].
    apply isZero_mul_r; [|exact St].
    assert (Nh : normalIn (-24) (-24) half)
      by (apply (@normalIn_constant 8388608 (-24)); reflexivity).
    pose proof (@mul_normal _ _ _ _ _ _ Nh Ft) as N.
    specialize (N ltac:(unfold emin; cbn; lia) ltac:(lia)).
    exact (normalIn_isfinite N). }
  unfold restingString.
  rewrite computeEnergy_y, computeEnergy_y_prev, computeEnergy_v,
    computeEnergy_kinetic, computeEnergy_potential, computeEnergy_total,
    computeEnergy_forceOnBridge, energySums_split.
  cbn [fst snd].
  split; [exact Hy|]. split; [exact Hp|]. split; [exact Hv|].
  split; [exact K|]. split; [exact P|]. split; [|exact Hf].
  now apply isZero_add.
Qed.

(** The interior update of a string at rest. *)
Lemma interior_resting dt0 s i sd md ed :
  dt0 = S754_finite sd md ed ->
  allZero (y s) -> allZero (y_prev s) ->
  isfinite (courantSq dt0 s) = true ->
  isfinite (mul (damping s) dt0) = true ->
  isZero (interior dt0 s i) = true.
Proof.
  intros Hdt Hy Hp Fc Fk. unfold interior. cbv zeta.
  generalize dependent (courantSq dt0 s). intros c Fc.
  generalize dependent (mul (damping s) dt0). intros k Fk.
  pose proof (Hy i) as Y0. pose proof (Hy (S i)) as Y1.
  pose proof (Hy (pred i)) as Y2. pose proof (Hp i) as P0.
  assert (T : isZero (mul two (get (y s) i)) = true)
    by (apply isZero_mul_r; [reflexivity | exact Y0]).
  apply isZero_sub; [apply isZero_add; [apply isZero_sub; assumption|]|].
  - apply isZero_mul_r; [exact Fc|].
    apply isZero_add; [apply isZero_sub|]; assumption.
  - apply isZero_mul_r; [exact Fk|]. rewrite Hdt. apply isZero_div.
    apply isZero_sub; assumption.
Qed.

(** What a string at rest wants at its right end. *)
Lemma want_resting dt0 s sd md ed :
  dt0 = S754_finite sd md ed ->
  allZero (y s) -> allZero (y_prev s) ->
  isfinite (courantSq dt0 s) = true ->
  isfinite (mul (damping s) dt0) = true ->
  isZero (want dt0 s) = true.
Proof.
  intros Hdt Hy Hp Fc Fk. unfold want. cbv zeta.
  generalize dependent (courantSq dt0 s). intros c Fc.
  generalize dependent (mul (damping s) dt0). intros k Fk.
  pose proof (Hy LAST) as Y0. pose proof (Hy (pred LAST)) as Y1.
  pose proof (Hp LAST) as P0.
  assert (T : isZero (mul two (get (y s) LAST)) = true)
    by (apply isZero_mul_r; [reflexivity | exact Y0]).
  apply isZero_sub; [apply isZero_add; [apply isZero_sub; assumption|]|].
  - apply isZero_mul_r; [exact Fc|].
    apply isZero_add; [apply isZero_sub|]; assumption.
  - rewrite Hdt. apply isZero_div.
    apply isZero_mul_r; [exact Fk|]. apply isZero_sub; assumption.
Qed.

Lemma clampBridge_zero x : isZero x = true -> isZero (clampBridge x) = true.
Proof. destruct x as [[|]| | |]; try discriminate; reflexivity. Qed.

Lemma finiteOrZero_zero x : isZero x = true -> isZero (finiteOrZero x) = true.
Proof. destruct x as [[|]| | |]; try discriminate; reflexivity. Qed.

(** The bridge of a simulation at rest does not move. *)
Lemma newBridgeY_resting m : restingInv m -> isZero (newBridgeY m) = true.
Proof.
  intros (R & T1 & T2 & (V1 & F1 & V2 & F2 & Vk & Fk & K0 & K1) & Hdt).
  destruct R as ((Y1 & P1 & _) & (Y2 & P2 & _) & B & _).
  destruct (tunedValid_normal T1) as (NT1 & _ & C1).
  destruct (tunedValid_normal T2) as (NT2 & _ & C2).
  pose proof (@add_normal _ _ _ _ _ _ NT1 NT2) as NT.
  specialize (NT ltac:(unfold emin; cbn; lia) ltac:(cbn; lia)).
  apply normalIn_finite in NT as (mt & et & ET).
  apply normalIn_isfinite in NT1, NT2, C1, C2.
  assert (Edt : dt construct = S754_finite false 12466118 (-42)) by reflexivity.
  assert (W1 : isZero (want (dt m) (string1 m)) = true).
  { rewrite Hdt. eapply want_resting; eauto using mul_dt_isfinite. }
  assert (W2 : isZero (want (dt m) (string2 m)) = true).
  { rewrite Hdt. eapply want_resting; eauto using mul_dt_isfinite. }
  unfold newBridgeY. apply finiteOrZero_zero, clampBridge_zero.
  unfold bridgeBlend. apply isZero_add.
  - apply isZero_mul_r; [exact Fk|]. unfold bridgeCandidate. cbv zeta.
    rewrite ET. apply isZero_div.
    apply isZero_add; apply isZero_mul_r; assumption.
  - apply isZero_mul_r; [|exact B]. now apply sub_one_isfinite.
Qed.

Lemma allZero_yNew dt0 s b :
  (forall i, isZero (interior dt0 s i) = true) -> isZero b = true ->
  allZero (yNew dt0 s b).
Proof.
  intros Hi Hb i.
  destruct (Nat.eq_dec i 0) as [-> | N0]; [reflexivity|].
  destruct (Nat.le_gt_cases i 198) as [L | L].
  - rewrite yNew_interior by lia. apply Hi.
  - destruct (Nat.eq_dec i LAST) as [-> | NL].
    + now rewrite yNew_last.
    + unfold get. rewrite nth_overflow; [reflexivity|].
      rewrite yNew_length. unfold LAST, NUM_POINTS in *. lia.
Qed.

(** One step on a string at rest, with a bridge that stays where it is. *)
Lemma commitString_resting s b :
  tunedValid s -> valid (damping s) = true -> isfinite (damping s) = true ->
  allZero (y s) -> allZero (y_prev s) -> isZero b = true ->
  restingString (commitString (dt construct) s b).
Proof.
  intros T V F Hy Hp Hb.
  destruct (tunedValid_normal T) as (NT & _ & C).
  destruct T as (_ & _ & Dn & _).
  assert (Edt : dt construct = S754_finite false 12466118 (-42)) by reflexivity.
  assert (Hi : forall i, isZero (interior (dt construct) s i) = true).
  { intros i. eapply interior_resting; eauto using mul_dt_isfinite.
    exact (normalIn_isfinite C). }
  pose proof (@allZero_yNew _ _ _ Hi Hb) as Hn.
  unfold commitString. cbv zeta.
  generalize dependent (yNew (dt construct) s b). intros yn Hn.
  apply computeEnergy_resting;
    cbn [y y_prev v density tension forceOnBridge].
  - exact Dn.
  - exact NT.
  - exact Hn.
  - apply allZero_map_seq. exact Hy.
  - apply allZero_map_seq. intros i. rewrite Edt. apply isZero_div.
    apply isZero_sub; [apply Hn | apply Hy].
  - apply isZero_mul_r.
    + apply normalIn_isfinite in NT.
      destruct (tension s); try discriminate; reflexivity.
    + unfold dx. apply isZero_div. apply isZero_sub; apply Hn.
Qed.

Lemma stepOnce_settingsValid m : settingsValid m -> settingsValid (stepOnce m).
Proof.
  unfold settingsValid.
  rewrite stepOnce_string1, stepOnce_string2, stepOnce_bridgeStiffness.
  destruct (commitString_parameters (dt m) (string1 m) (newBridgeY m))
    as (_ & _ & _ & -> & _).
  destruct (commitString_parameters (dt m) (string2 m) (newBridgeY m))
    as (_ & _ & _ & -> & _).
  auto.
Qed.

Lemma stepOnce_bridgeV m :
  bridgeV (stepOnce m) = div (sub (newBridgeY m) (bridgeY m)) (dt m).
Proof. unfold stepOnce. cbv zeta. destruct (_ =? 0)%Z; reflexivity. Qed.

(** A step keeps a simulation at rest. *)
Lemma stepOnce_resting m : restingInv m -> restingInv (stepOnce m).
Proof.
  intros I. pose proof (newBridgeY_resting I) as Hb.
  destruct I as (R & T1 & T2 & Sv & Hdt).
  pose proof Sv as (V1 & F1 & V2 & F2 & _).
  destruct R as (R1 & R2 & B & _ & H1 & H2 & H3).
  pose proof R1 as (Y1 & P1 & _). pose proof R2 as (Y2 & P2 & _).
  assert (S1 : restingString (string1 (stepOnce m))).
  { rewrite stepOnce_string1, Hdt. now apply commitString_resting. }
  assert (S2 : restingString (string2 (stepOnce m))).
  { rewrite stepOnce_string2, Hdt. now apply commitString_resting. }
  split; [|split; [|split; [|split]]].
  - split; [exact S1|]. split; [exact S2|].
    rewrite stepOnce_bridgeY, stepOnce_bridgeV.
    split; [exact Hb|].
    split; [rewrite Hdt; apply isZero_div; now apply isZero_sub|].
    pose proof (stepOnce_history m) as H. cbv zeta in H.
    destruct S1 as (_ & _ & _ & _ & _ & E1 & _).
    destruct S2 as (_ & _ & _ & _ & _ & E2 & _).
    rewrite stepOnce_bridgeY in H.
    destruct (Z.rem (stepCount (stepOnce m)) 100 =? 0)%Z.
    + destruct H as (-> & -> & ->).
      unfold evict.
      destruct (HISTORY_LENGTH <=? List.length (energy1History m));
        (split; [|split]); apply allZero_snoc;
        try apply allZero_tl; assumption.
    + destruct H as (-> & -> & ->). auto.
  - rewrite stepOnce_string1. now apply commitString_tunedValid.
  - rewrite stepOnce_string2. now apply commitString_tunedValid.
  - now apply stepOnce_settingsValid.
  - now rewrite stepOnce_dt.
Qed.

Lemma restingString_setFrequency f s :
  restingString s -> restingString (setFrequency f s).
Proof. intros H. exact H. Qed.

Lemma restingInv_construct : restingInv construct.
Proof.
  assert (R : restingString newString).
  { unfold restingString, newString.
    cbn [y y_prev v kineticEnergy potentialEnergy totalEnergy forceOnBridge].
    pose proof allZero_fill. auto 8. }
  destruct construct_tunedValid as [T1 T2].
  split; [|split; [exact T1|split; [exact T2|split; [|reflexivity]]]].
  - unfold resting, construct.
    cbn [string1 string2 bridgeY bridgeV energy1History energy2History
         bridgeHistory].
    pose proof allZero_nil.
    split; [now apply restingString_setFrequency|].
    split; [now apply restingString_setFrequency|]. auto 8.
  - repeat split.
Qed.

(** The profile of a pluck of amplitude zero. *)
Lemma pluckShape_zero p a i :
  valid p = true -> i < NUM_POINTS -> isZero a = true ->
  isZero (pluckShape (clampPosition p) a i) = true.
Proof.
  intros V Hi Ha. unfold pluckShape. cbv zeta.
  destruct (sampleX_range Hi) as [Hx H1x].
  apply zeroOrPositive_isfinite in Hx, H1x.
  destruct (ltb (sampleX i) (clampPosition p)).
  - destruct (clampPosition_shape p) as (mp & ep & ->).
    apply isZero_div. now apply isZero_mul_l.
  - destruct (@sub_one_position_finite p V) as (md & ed & ->).
    apply isZero_div. now apply isZero_mul_l.
Qed.

Lemma allZero_pluckProfile p a :
  valid p = true -> isZero a = true -> allZero (pluckProfile (clampPosition p) a).
Proof.
  intros V Ha i.
  destruct (Nat.lt_ge_cases i NUM_POINTS) as [L | L].
  - rewrite pluckProfile_get by exact L.
    destruct (i =? 0); [reflexivity | now apply pluckShape_zero].
  - unfold get. rewrite nth_overflow; [reflexivity|].
    now rewrite pluckProfile_length.
Qed.

(** A pluck of amplitude zero leaves a string at rest. *)
Lemma pluckString_resting p a s :
  wfString s -> tunedValid s -> valid p = true -> isZero a = true ->
  isZero (forceOnBridge s) = true ->
  restingString (pluckString (clampPosition p) a s).
Proof.
  intros W T V Ha Hf. rewrite pluckString_closed by exact W.
  destruct (tunedValid_normal T) as (NT & _ & _).
  destruct T as (_ & _ & Dn & _).
  pose proof (@allZero_pluckProfile p a V Ha) as Hp.
  apply computeEnergy_resting; unfold pluckedString;
    cbn [y y_prev v density tension forceOnBridge];
    try assumption.
  apply allZero_fill.
Qed.

Lemma pluck_resting i p a m :
  reachable m -> valid p = true -> isZero (clampAmplitude a) = true ->
  restingInv m -> restingInv (pluck i p a m).
Proof.
  intros Rm V Ha (R & T1 & T2 & Sv & Hdt).
  destruct (reachable_wf Rm) as [W1 W2].
  destruct R as (R1 & R2 & R).
  unfold pluck. cbv zeta.
  destruct (i =? 0)%Z.
  - destruct (pluckString_parameters (clampPosition p) (clampAmplitude a)
                (string1 m)) as [(_ & _ & _ & D & _) _].
    split; [|split; [|split; [exact T2|split; [|exact Hdt]]]].
    + split; [|split; [exact R2 | exact R]].
      cbn [string1 withString1].
      apply pluckString_resting; try assumption. apply R1.
    + cbn [string1 withString1]. now apply pluckString_tunedValid.
    + unfold settingsValid in *.
      cbn [string1 string2 withString1 bridgeStiffness].
      rewrite D. exact Sv.
  - destruct (pluckString_parameters (clampPosition p) (clampAmplitude a)
                (string2 m)) as [(_ & _ & _ & D & _) _].
    split; [|split; [exact T1|split; [|split; [|exact Hdt]]]].
    + split; [exact R1|]. split; [|exact R].
      cbn [string2 withString2].
      apply pluckString_resting; try assumption. apply R2.
    + cbn [string2 withString2]. now apply pluckString_tunedValid.
    + unfold settingsValid in *.
      cbn [string1 string2 withString2 bridgeStiffness].
      rewrite D. exact Sv.
Qed.

(** The silent calls keep a simulation at rest. *)
Lemma apply_resting o m :
  reachable m -> validOp o = true -> silentOp o = true -> restingInv m ->
  restingInv (apply o m).
Proof.
  intros Rm V N I. destruct o; cbn [apply validOp silentOp] in *.
  - apply andb_prop in V as [Vp _]. now apply pluck_resting.
  - unfold step. induction (Z.to_nat numSteps) as [|k IHk]; [exact I|].
    rewrite Nat.iter_succ. now apply stepOnce_resting.
  - destruct I as (_ & _ & _ & _ & Hdt).
    destruct restingInv_construct as (R & T1 & T2 & Sv & _).
    split; [exact R|]. split; [exact T1|]. split; [exact T2|].
    split; [exact Sv | exact Hdt].
  - destruct I as ((R1 & R) & T1 & T2 & Sv & Hdt).
    split; [|split; [|split; [exact T2|split; [exact Sv | exact Hdt]]]].
    + split; [|exact R].
      cbn [string1 setString1Frequency withString1].
      now apply restingString_setFrequency.
    + cbn [string1 setString1Frequency withString1].
      now apply setFrequency_tunedValid.
  - destruct I as ((R1 & R2 & R) & T1 & T2 & Sv & Hdt).
    split; [|split; [exact T1|split; [|split; [exact Sv | exact Hdt]]]].
    + split; [exact R1|]. split; [|exact R].
      cbn [string2 setString2Frequency withString2].
      now apply restingString_setFrequency.
    + cbn [string2 setString2Frequency withString2].
      now apply setFrequency_tunedValid.
  - destruct I as ((R1 & R2 & R) & T1 & T2 & Sv & Hdt).
    destruct Sv as (_ & _ & _ & _ & Vk & Bk).
    assert (Vd : valid (max zero (min f_0_01 d)) = true)
      by (apply clamp_valid; [reflexivity | reflexivity | exact V]).
    assert (Fd : isfinite (max zero (min f_0_01 d)) = true).
    { pose proof (@clamp_sanitizes zero f_0_01 eq_refl eq_refl eq_refl) as Hs.
      destruct Hs as (Hs & _). exact (proj1 (Hs d)). }
    split; [|split; [exact T1|split; [exact T2|split; [|exact Hdt]]]].
    + split; [exact R1|]. split; [exact R2 | exact R].
    + unfold settingsValid, setDamping. cbv zeta.
      cbn [string1 string2 withString1 withString2 withDamping damping
           bridgeStiffness].
      auto 8.
  - destruct I as (R & T1 & T2 & Sv & Hdt).
    destruct Sv as (V1 & F1 & V2 & F2 & _).
    split; [exact R|]. split; [exact T1|]. split; [exact T2|].
    split; [|exact Hdt].
    unfold settingsValid, setBridgeStiffness.
    cbn [string1 string2 bridgeStiffness].
    split; [exact V1|]. split; [exact F1|]. split; [exact V2|].
    split; [exact F2|].
    split; [apply clamp_valid; [reflexivity | reflexivity | exact V]|].
    pose proof (@clamp_sanitizes zero one eq_refl eq_refl eq_refl) as Hs.
    destruct Hs as (Hs & _). exact (Hs s).
Qed.

Lemma run_resting ops :
  forallb validOp ops = true -> forallb silentOp ops = true ->
  restingInv (run ops).
Proof.
  unfold run. generalize construct reach_construct restingInv_construct.
  induction ops as [|o ops IH]; intros m Rm I V N; [exact I|].
  cbn [forallb] in V, N.
  apply andb_prop in V as [Vo V]. apply andb_prop in N as [No N].
  cbn [fold_left]. apply IH; [|  |exact V | exact N].
  - now constructor.
  - now apply apply_resting.
Qed.

(** ** The profile of [pluck] against the amplitude *)

Lemma sampleX_grid i :
  i < NUM_POINTS ->
  gridSample (sampleX i) = true /\ gridSample (sub one (sampleX i)) = true.
Proof.
  intros Hi.
  assert (H : forallb (fun j => gridSample (sampleX j) &&
                                gridSample (sub one (sampleX j)))
                      (seq 0 NUM_POINTS) = true) by (vm_compute; reflexivity).
  rewrite forallb_forall in H.
  specialize (H i). rewrite in_seq in H.
  exact (andb_prop _ _ (H (conj (Nat.le_0_l i) Hi))).
Qed.

Lemma pow2_lt_exponent a b : (2 ^ a < 2 ^ b)%Z -> (0 <= b)%Z -> (a < b)%Z.
Proof.
  intros H Hb. destruct (Z.le_gt_cases b a) as [L | G]; [|exact G].
  assert (2 ^ b <= 2 ^ a)%Z by (apply Z.pow_le_mono_r; lia). lia.
Qed.

(** The clamped arguments of [pluck]. *)
Lemma clampAmplitude_ok amplitude :
  valid amplitude = true ->
  okFloat (clampAmplitude amplitude) /\
  (valZ (clampAmplitude amplitude) <= valZ one)%Z.
Proof.
  intros V.
  assert (Ok : okFloat (clampAmplitude amplitude)).
  { split; [|apply clampAmplitude_shape].
    unfold clampAmplitude. apply clamp_valid; [reflexivity | reflexivity | exact V]. }
  split; [exact Ok|].
  destruct (@withinBounds_clamp zero one amplitude eq_refl eq_refl eq_refl)
    as (_ & _ & H1).
  apply leb_valZ; [exact Ok | | exact H1].
  split; [reflexivity | right; unfold one; eauto].
Qed.

Lemma clampPosition_ok position :
  valid position = true ->
  okFloat (clampPosition position) /\
  (0 < valZ (clampPosition position) <= valZ one)%Z.
Proof.
  intros V.
  assert (Ok : okFloat (clampPosition position)).
  { split.
    - unfold clampPosition. apply clamp_valid; [reflexivity | reflexivity | exact V].
    - right. apply clampPosition_shape. }
  split; [exact Ok|].
  destruct (@withinBounds_clamp f_0_1 f_0_9 position eq_refl eq_refl eq_refl)
    as (_ & H0 & H1).
  fold (clampPosition position) in H0, H1.
  assert (O1 : okFloat f_0_1) by (split; [reflexivity | right; unfold f_0_1; eauto]).
  assert (O9 : okFloat f_0_9) by (split; [reflexivity | right; unfold f_0_9; eauto]).
  pose proof (leb_valZ O1 Ok H0) as L0. pose proof (leb_valZ Ok O9 H1) as L1.
  assert (P1 : (0 < valZ f_0_1)%Z) by (vm_compute; reflexivity).
  assert (P9 : (valZ f_0_9 <= valZ one)%Z) by (vm_compute; discriminate).
  lia.
Qed.

Lemma leb_infinity y : okFloat y -> leb y (S754_infinity false) = true.
Proof. intros [_ [-> | (m & e & ->)]]; reflexivity. Qed.

(** The samples of [pluck] are bounded: by twice the clamped amplitude,
    and from [2^-118] on by the binary32 number that follows it. *)
Lemma pluckShape_bounded position amplitude i :
  valid position = true -> valid amplitude = true -> i < NUM_POINTS ->
  let a := clampAmplitude amplitude in
  let yi := pluckShape (clampPosition position) a i in
  leb yi (add a a) = true /\
  (leb f_pow2_m118 a = true ->
   forall z, valid z = true -> ltb a z = true -> leb yi z = true).
Proof.
  intros Vp Va Hi a yi.
  destruct (@clampAmplitude_ok _ Va) as [Oa Ha1]. fold a in Oa, Ha1.
  destruct (@clampPosition_ok _ Vp) as [Op [Pp Hp1]].
  destruct (sampleX_grid Hi) as [Gx G1x].
  destruct (@gridSample_spec _ Gx) as (Ox & Hx1 & _).
  (* the two branches are quotients [a * d1 / d2] with [d1 <= d2] *)
  assert (R : exists d1 d2,
             yi = div (mul a d1) d2 /\ gridSample d1 = true /\
             okFloat d2 /\ (0 < valZ d2)%Z /\ (valZ d1 <= valZ d2)%Z).
  { unfold yi, pluckShape. cbv zeta.
    destruct (ltb (sampleX i) (clampPosition position)) eqn:L.
    - exists (sampleX i), (clampPosition position).
      pose proof (ltb_valZ Ox Op L). repeat split; try assumption; try apply Op. lia.
    - exists (sub one (sampleX i)), (sub one (clampPosition position)).
      pose proof (not_ltb_valZ Ox Op L) as Lpx.
      destruct (clampPosition_shape position) as (mp & ep & Ep).
      destruct (@sub_one_position_finite position Vp) as (m2 & e2 & E2).
      rewrite Ep in *.
      destruct (@sub_one_spec mp ep (proj1 Op) Hp1) as [O2 V2]. cbv zeta in O2, V2.
      destruct Ox as [Vx [Ex | (mx & ex & Ex)]];
        [rewrite Ex in Lpx; cbn [valZ zero] in Lpx, Pp; lia|].
      rewrite Ex in *.
      destruct (@sub_one_spec mx ex Vx Hx1) as [O1 V1]. cbv zeta in O1, V1.
      split; [reflexivity|]. split; [exact G1x|]. split; [exact O2|]. split.
      + rewrite E2 in O2 |- *.
        destruct (@valid_shape _ _ _ (proj1 O2)) as (He2 & _). cbn [valZ].
        apply Z.mul_pos_pos; [lia | apply Z.pow_pos_nonneg; unfold SCALE; lia].
      + rewrite V1, V2. apply RND_mono. lia. }
  destruct R as (d1 & d2 & -> & G1 & O2 & P2 & H12).
  destruct (@ratio_bounds a d1 d2 Oa Ha1 G1 O2 P2 H12) as (Oy & Y2 & Yz).
  cbv zeta in Oy, Y2, Yz.
  destruct (add_self_spec Oa Ha1) as [Oc Ec].
  split.
  - apply valZ_leb; [exact Oy | exact Oc | lia].
  - intros Hlow z Vz Hz.
    destruct Oa as [Vaa [Ea | (ma & ea & Ea)]].
    { rewrite Ea in Hlow. discriminate. }
    assert (Hea : (-141 <= ea)%Z).
    { rewrite Ea in Hlow.
      assert (Ol : okFloat f_pow2_m118)
        by (split; [reflexivity | right; unfold f_pow2_m118; eauto]).
      rewrite Ea in Vaa.
      pose proof (leb_valZ Ol (@okFloat_finite _ _ Vaa) Hlow) as L.
      destruct (@valid_shape _ _ _ Vaa) as (He & Ua & _).
      unfold f_pow2_m118 in L. cbn [valZ] in L.
      assert (A : (2 ^ (23 + (-141 + SCALE)) < 2 ^ (24 + (ea + SCALE)))%Z).
      { rewrite (Z.pow_add_r 2 23 (-141 + SCALE)) by (unfold SCALE; lia).
        rewrite (Z.pow_add_r 2 24 (ea + SCALE)) by (unfold SCALE; lia).
        change (2 ^ 23)%Z with 8388608%Z. change (2 ^ 24)%Z with 16777216%Z.
        assert (0 < 2 ^ (ea + SCALE))%Z by (apply Z.pow_pos_nonneg; unfold SCALE; lia).
        clear - L Ua H. nia. }
      apply pow2_lt_exponent in A; unfold SCALE in *; lia. }
    assert (Okz : forall mz ez, z = S754_finite false mz ez -> okFloat z).
    { intros mz ez ->. now apply okFloat_finite. }
    rewrite Ea in Hz.
    destruct z as [sz|[|]| |[|] mz ez]; try discriminate.
    + now apply leb_infinity.
    + rewrite <- Ea in Hz.
      assert (Oz : okFloat (S754_finite false mz ez)) by (now apply okFloat_finite).
      assert (Oa' : okFloat a) by (split; [exact Vaa | right; eauto]).
      apply valZ_leb; [exact Oy | exact Oz|].
      apply (Yz ma ea); [exact Ea | exact Hea | exact Oz|].
      now apply ltb_valZ.
Qed.

(** * The companion synthesizer *)

(** ** Lists *)

Lemma set_repeat (x : float) n i : set (repeat x n) i x = repeat x n.
Proof.
  revert i. induction n as [|n IH]; intros [|i]; cbn [repeat set]; try reflexivity.
  now rewrite IH.
Qed.

Lemma get_repeat (x : float) n i : x = zero -> get (repeat x n) i = zero.
Proof.
  intros ->. unfold get. revert i.
  induction n as [|n IH]; intros [|i]; cbn [repeat nth]; auto.
Qed.

Lemma get_map_seq (f : nat -> float) n i :
  i < n -> get (map f (seq 0 n)) i = f i.
Proof.
  intros H. unfold get.
  rewrite nth_indep with (d' := f 0) by (now rewrite length_map, length_seq).
  rewrite map_nth, seq_nth by exact H. reflexivity.
Qed.

Lemma nth_map_seq (A : Type) (f : nat -> A) n i d :
  i < n -> nth i (map f (seq 0 n)) d = f i.
Proof.
  intros H.
  rewrite nth_indep with (d' := f 0) by (now rewrite length_map, length_seq).
  rewrite map_nth, seq_nth by exact H. reflexivity.
Qed.

Lemma map_const_seq (A : Type) (f : nat -> A) (x : A) n :
  (forall i, i < n -> f i = x) -> map f (seq 0 n) = repeat x n.
Proof.
  intros H. apply nth_ext with (d := x) (d' := x).
  - now rewrite length_map, length_seq, repeat_length.
  - intros i Hi. rewrite length_map, length_seq in Hi.
    rewrite nth_map_seq by exact Hi. rewrite nth_repeat. now apply H.
Qed.

Lemma setAt_length a i x : List.length (Mini.setAt a i x) = List.length a.
Proof.
  revert i. induction a as [|h t IH]; intros [|j]; cbn; auto.
Qed.

Lemma nth_setAt a i j x d :
  i < List.length a ->
  nth j (Mini.setAt a i x) d = if j =? i then x else nth j a d.
Proof.
  revert i j. induction a as [|h t IH]; intros [|i] [|j] H; cbn in *;
    try lia; try reflexivity.
  apply IH. lia.
Qed.

(** ** One call of [String::process] *)

Lemma safeSample_cases x :
  Mini.safeSample x = one \/ Mini.safeSample x = Mini.f_m1 \/
  Mini.safeSample x = zero \/
  (Mini.safeSample x = x /\ isfinite x = true /\
   ltb one x = false /\ ltb x Mini.f_m1 = false).
Proof.
  unfold Mini.safeSample. cbv zeta.
  destruct (ltb one x) eqn:H1.
  - left. reflexivity.
  - destruct (ltb x Mini.f_m1) eqn:H2.
    + right. left. reflexivity.
    + destruct (isfinite x) eqn:F; cbn [negb].
      * right. right. right. auto.
      * right. right. left. reflexivity.
Qed.

(** The sample [process] writes is a finite number of [[-1, 1]], whatever
    the excitation and the content of the line. *)
Lemma safeSample_bounded x : withinBounds Mini.f_m1 one (Mini.safeSample x).
Proof.
  destruct (safeSample_cases x) as [-> | [-> | [-> | (-> & F & H1 & H2)]]];
    try (repeat split; reflexivity).
  split; [exact F|]. split; apply not_ltb_leb; auto.
Qed.

Lemma String_process_wf e s : wfDelay s -> wfDelay (snd (Mini.String_process e s)).
Proof.
  intros (L & W & D). unfold wfDelay, Mini.String_process.
  cbn [snd Mini.delayLine Mini.writePos Mini.delayLength].
  rewrite set_length. split; [exact L|]. split; [|exact D].
  unfold Mini.MAX_DELAY. apply Z.rem_bound_pos; lia.
Qed.

Lemma String_process_writePos e s :
  wfDelay s ->
  Mini.writePos (snd (Mini.String_process e s)) = ((Mini.writePos s + 1) mod 2048)%Z.
Proof.
  intros (L & W & D). cbn [Mini.String_process snd Mini.writePos].
  unfold Mini.MAX_DELAY. apply Z.rem_mod_nonneg; lia.
Qed.

(** A cell that the write position does not pass keeps its content. *)
Lemma processMany_keeps es : forall s c x,
  wfDelay s -> (0 <= c < 2048)%Z ->
  get (Mini.delayLine s) (Z.to_nat c) = x ->
  (forall j, (0 <= j < Z.of_nat (List.length es))%Z ->
             ((Mini.writePos s + j) mod 2048 <> c)%Z) ->
  let s' := snd (processMany es s) in
  wfDelay s' /\
  get (Mini.delayLine s') (Z.to_nat c) = x /\
  Mini.writePos s' = ((Mini.writePos s + Z.of_nat (List.length es)) mod 2048)%Z /\
  Mini.delayLength s' = Mini.delayLength s.
Proof.
  induction es as [|e es IH]; intros s c x W Hc Hx Hfree; cbv zeta.
  - cbn [processMany snd List.length]. destruct W as (L & Wp & D).
    repeat split; try assumption; try lia.
    rewrite Z.add_0_r, Z.mod_small; lia.
  - cbn [processMany].
    pose proof (String_process_wf e W) as W1.
    pose proof (String_process_writePos e W) as P1.
    assert (D1 : Mini.delayLength (snd (Mini.String_process e s)) =
                 Mini.delayLength s) by reflexivity.
    assert (X1 : get (Mini.delayLine (snd (Mini.String_process e s)))
                     (Z.to_nat c) = x).
    { cbn [Mini.String_process snd Mini.delayLine].
      rewrite get_set_other; [exact Hx|].
      specialize (Hfree 0%Z). cbn [List.length] in Hfree.
      destruct W as (_ & Wp & _).
      rewrite Z.add_0_r, Z.mod_small in Hfree by lia. lia. }
    destruct (Mini.String_process e s) as [sample s1]. cbn [snd] in *.
    specialize (IH s1 c x W1 Hc X1).
    destruct (processMany es s1) as [samples s2]. cbn [snd] in *.
    destruct IH as (W2 & X2 & P2 & D2).
    + intros j Hj. rewrite P1.
      rewrite Zplus_mod_idemp_l.
      replace (Mini.writePos s + 1 + j)%Z with (Mini.writePos s + (1 + j))%Z by lia.
      apply Hfree. cbn [List.length]. lia.
    + repeat split; try apply W2; try assumption.
      * rewrite P2, P1, Zplus_mod_idemp_l. f_equal. cbn [List.length]. lia.
      * congruence.
Qed.

(** ** The loop of [String::pluck] *)

Lemma draws_succ k state : draws (S k) state = Mini.nextState (draws k state).
Proof. reflexivity. Qed.

Lemma draws_shift k state :
  draws k (Mini.nextState state) = draws (S k) state.
Proof. unfold draws. now rewrite Nat.iter_succ_r. Qed.

(** The loop of [String::pluck], started at turn [a]. *)
Lemma pluckLoop_spec w vel k : forall a line state,
  (0 <= w < 2048)%Z -> a + k <= 2047 ->
  List.length line = 2048 ->
  let r := fold_left (Mini.pluckIter w vel) (seq a k) (line, state) in
  List.length (fst r) = 2048 /\
  snd r = draws k state /\
  (forall i, a <= i < a + k ->
     get (fst r) (Z.to_nat ((w + 2048 - Z.of_nat i) mod 2048)) =
     mul (Mini.noiseValue (draws (S (i - a)) state)) vel) /\
  (forall c, c < 2048 ->
     (forall i, a <= i < a + k ->
        Z.to_nat ((w + 2048 - Z.of_nat i) mod 2048) <> c) ->
     get (fst r) c = get line c).
Proof.
  induction k as [|k IH]; intros a line state Hw Hak Hl; cbv zeta.
  - cbn [seq fold_left fst snd]. repeat split; try assumption; try lia.
  - cbn [seq fold_left].
    set (p := Z.to_nat ((w + 2048 - Z.of_nat a) mod 2048)).
    set (noise := mul (Mini.noiseValue (Mini.nextState state)) vel).
    assert (E : Mini.pluckIter w vel (line, state) a =
                (set line p noise, Mini.nextState state)).
    { unfold Mini.pluckIter, Mini.MAX_DELAY. cbv zeta.
      rewrite Z.rem_mod_nonneg by lia. reflexivity. }
    rewrite E.
    assert (Hp : p < 2048).
    { pose proof (Z.mod_pos_bound (w + 2048 - Z.of_nat a) 2048). lia. }
    specialize (IH (S a) (set line p noise) (Mini.nextState state) Hw).
    cbv zeta in IH.
    destruct IH as (L & Hs & C & O); [lia | now rewrite set_length |].
    split; [exact L|]. split; [rewrite Hs; apply draws_shift|]. split.
    + intros i Hi. destruct (Nat.eq_dec i a) as [-> | Hne].
      * rewrite O.
        -- fold p. rewrite get_set_same by (rewrite Hl; exact Hp).
           now rewrite Nat.sub_diag.
        -- exact Hp.
        -- intros j Hj. fold p. unfold p.
           intros Heq. apply Z2Nat.inj in Heq.
           ++ revert Heq. clear - Hw Hj Hak.
              Z.to_euclidean_division_equations. lia.
           ++ apply Z.mod_pos_bound. lia.
           ++ apply Z.mod_pos_bound. lia.
      * rewrite C by lia. rewrite draws_shift.
        replace (S (i - S a)) with (i - a) by lia. reflexivity.
    + intros c Hc Hfree. rewrite O.
      * apply get_set_other. fold p in Hfree. apply (Hfree a). lia.
      * exact Hc.
      * intros i Hi. apply Hfree. lia.
Qed.

Lemma String_pluck_spec vel s :
  wfDelay s ->
  let s' := Mini.String_pluck vel s in
  let count := Z.to_nat (Mini.delayLength s) in
  wfDelay s' /\ sameButLine s s' /\ Mini.energy s' = vel /\
  Mini.noiseState s' = draws count (Mini.noiseState s) /\
  (forall i, i < count ->
     get (Mini.delayLine s') (pluckPos s i) =
     mul (Mini.noiseValue (draws (S i) (Mini.noiseState s))) vel) /\
  (forall c, c < 2048 -> (forall i, i < count -> pluckPos s i <> c) ->
     get (Mini.delayLine s') c = get (Mini.delayLine s) c).
Proof.
  intros (L & W & D). cbv zeta. unfold Mini.String_pluck.
  pose proof (@pluckLoop_spec (Mini.writePos s) vel
                (Z.to_nat (Mini.delayLength s)) 0 (Mini.delayLine s)
                (Mini.noiseState s) W ltac:(lia) L) as H.
  cbv zeta in H.
  destruct (fold_left _ _ _) as [line state]. cbn [fst snd] in H.
  destruct H as (L' & S' & C & O).
  cbn [Mini.delayLine Mini.writePos Mini.delayLength Mini.energy Mini.noiseState].
  split; [exact (conj L' (conj W D))|].
  split; [repeat split|]. split; [reflexivity|]. split; [exact S'|].
  split.
  - intros i Hi. unfold pluckPos. rewrite C by lia.
    now rewrite Nat.sub_0_r.
  - intros c Hc Hfree. apply O; [exact Hc|].
    intros i Hi. apply Hfree. lia.
Qed.

(** ** One sample of [SympathyMini::process] *)

Lemma clampAccum_cases x :
  Mini.clampAccum x = S754_nan \/
  withinBounds (neg f_0_1) f_0_1 (Mini.clampAccum x).
Proof.
  unfold Mini.clampAccum. cbv zeta.
  destruct (ltb f_0_1 x) eqn:H1.
  - right. repeat split.
  - destruct (ltb x (neg f_0_1)) eqn:H2.
    + right. repeat split.
    + destruct x as [s|[|]| |s m e]; try discriminate; auto; right.
      * repeat split.
      * split; [reflexivity|]. split; apply not_ltb_leb; auto.
Qed.

(** The state after one sample, string by string. *)
Lemma processSample_state m :
  let accum := map (Mini.smooth m (Mini.excitationOf m)) (seq 0 4) in
  let m' := fst (Mini.processSample m) in
  Mini.excitationAccum m' = accum /\
  Mini.stringOutputs m' =
    map (fun s => fst (Mini.String_process (get accum s) (Mini.stringAt m s)))
        (seq 0 4) /\
  Mini.strings m' =
    map (fun s => snd (Mini.String_process (get accum s) (Mini.stringAt m s)))
        (seq 0 4) /\
  Mini.sympathyAmount m' = Mini.sympathyAmount m /\
  Mini.masterVolume m' = Mini.masterVolume m /\
  Mini.gateThreshold m' = Mini.gateThreshold m /\
  Mini.excitationDecay m' = Mini.excitationDecay m /\
  Mini.couplingScale m' = Mini.couplingScale m.
Proof.
  cbv zeta. unfold Mini.processSample, Mini.NUM_STRINGS. cbv zeta.
  destruct (fold_left _ _ _) as [l r].
  cbn [fst Mini.excitationAccum Mini.stringOutputs Mini.strings
       Mini.sympathyAmount Mini.masterVolume Mini.gateThreshold
       Mini.excitationDecay Mini.couplingScale].
  rewrite !map_map. repeat split.
Qed.

Lemma processSample_fields m s :
  s < 4 ->
  let m' := fst (Mini.processSample m) in
  let accum := Mini.smooth m (Mini.excitationOf m) s in
  get (Mini.excitationAccum m') s = accum /\
  get (Mini.stringOutputs m') s = fst (Mini.String_process accum (Mini.stringAt m s)) /\
  Mini.stringAt m' s = snd (Mini.String_process accum (Mini.stringAt m s)).
Proof.
  intros Hs. cbv zeta.
  destruct (processSample_state m) as (A & O & S' & _). cbv zeta in *.
  unfold Mini.stringAt at 2. rewrite A, O, S'.
  rewrite !get_map_seq by exact Hs.
  rewrite nth_map_seq by exact Hs.
  rewrite get_map_seq by exact Hs. auto.
Qed.

Lemma processLoop_add tanh a : forall b m,
  Mini.processLoop tanh (a + b) m =
  let '(m1, out1) := Mini.processLoop tanh a m in
  let '(m2, out2) := Mini.processLoop tanh b m1 in
  (m2, out1 ++ out2).
Proof.
  induction a as [|a IH]; intros b m.
  - cbn [Nat.add Mini.processLoop]. destruct (Mini.processLoop tanh b m).
    reflexivity.
  - cbn [Nat.add Mini.processLoop].
    destruct (Mini.processSample m) as [m1 [l r]].
    rewrite IH.
    destruct (Mini.processLoop tanh a m1) as [m2 out1].
    destruct (Mini.processLoop tanh b m2) as [m3 out2]. reflexivity.
Qed.

Lemma processLoop_shape tanh n : forall m,
  List.length (snd (Mini.processLoop tanh n m)) = 2 * n /\
  sameSettings m (fst (Mini.processLoop tanh n m)).
Proof.
  induction n as [|n IH]; intros m.
  - cbn. repeat split.
  - cbn [Mini.processLoop].
    destruct (processSample_state m) as (_ & _ & _ & S1 & S2 & S3 & S4 & S5).
    cbv zeta in *.
    destruct (Mini.processSample m) as [m1 [l r]]. cbn [fst] in *.
    destruct (IH m1) as [L (T1 & T2 & T3 & T4 & T5)].
    destruct (Mini.processLoop tanh n m1) as [m2 out]. cbn [fst snd] in *.
    split; [cbn [List.length]; lia|].
    unfold sameSettings. rewrite T1, T2, T3, T4, T5. auto.
Qed.

Lemma construct_fresh : Mini.construct = Some freshMini.
Proof. vm_compute. reflexivity. Qed.

(** ** A synthesizer at rest *)

(** A string at rest that is fed [0.0f] returns [0.0f] and stays at
    rest. *)
Lemma String_process_atRest s :
  stringAtRest s ->
  fst (Mini.String_process zero s) = zero /\
  stringAtRest (snd (Mini.String_process zero s)).
Proof.
  intros (L & W & F & P & E).
  assert (X : get (Mini.delayLine s) (Z.to_nat (Mini.readPos s)) = zero)
    by (rewrite L; now apply get_repeat).
  assert (N : Mini.newSample zero s = zero).
  { unfold Mini.newSample. cbv zeta. rewrite X, P, F. reflexivity. }
  cbn [Mini.String_process fst snd]. split; [exact X|].
  unfold stringAtRest.
  cbn [Mini.delayLine Mini.writePos Mini.feedback Mini.prevSample Mini.energy].
  rewrite N, X, E, L, set_repeat.
  split; [reflexivity|]. split; [|repeat split; assumption].
  unfold Mini.MAX_DELAY. apply Z.rem_bound_pos; lia.
Qed.

(** Outputs that are all zero excite nothing. *)
Lemma excitationOf_atRest m :
  Mini.stringOutputs m = repeat zero 4 ->
  isfinite (mul (Mini.sympathyAmount m) (Mini.couplingScale m)) = true ->
  Mini.excitationOf m = repeat zero 4.
Proof.
  intros O F. unfold Mini.excitationOf. cbv zeta.
  set (scale := mul (Mini.sympathyAmount m) (Mini.couplingScale m)) in *.
  assert (Z0 : forall c, isfinite c = true -> signBit c = Some false ->
                 add zero (mul (mul zero c) scale) = zero).
  { intros c Fc Sc. rewrite mul_zero_notNegative by (split; assumption).
    apply add_zero_signed_zero, mul_zero_finite, F. }
  assert (Hfrom : forall src, src < 4 ->
            fold_left (Mini.exciteFrom m scale src) (seq 0 Mini.NUM_STRINGS)
                      (repeat zero 4) = repeat zero 4).
  { intros src Hsrc. unfold Mini.exciteFrom. rewrite O.
    cbn [seq Mini.NUM_STRINGS fold_left].
    destruct src as [|[|[|[|src]]]]; [| | | |lia];
      cbn [Nat.eqb repeat get nth set];
      rewrite ?Z0 by reflexivity; cbn [set get nth];
      rewrite ?Z0 by reflexivity; cbn [set get nth];
      rewrite ?Z0 by reflexivity; cbn [set get nth];
      rewrite ?Z0 by reflexivity; reflexivity. }
  assert (Hall : forall src, src < 4 ->
            Mini.exciteAll m scale (repeat zero 4) src = repeat zero 4).
  { intros src Hsrc. unfold Mini.exciteAll.
    destruct (ltb _ _); [reflexivity | now apply Hfrom]. }
  change (seq 0 Mini.NUM_STRINGS) with [0; 1; 2; 3].
  change (repeat zero Mini.NUM_STRINGS) with (repeat zero 4).
  cbn [fold_left]. rewrite !Hall by lia. reflexivity.
Qed.

Lemma smooth_atRest m s :
  s < 4 ->
  Mini.excitationAccum m = repeat zero 4 ->
  finiteNotNegative (Mini.excitationDecay m) ->
  isfinite (sub one (Mini.excitationDecay m)) = true ->
  Mini.smooth m (repeat zero 4) s = zero.
Proof.
  intros Hs A D B. unfold Mini.smooth. cbv zeta. rewrite A.
  rewrite !get_repeat by reflexivity.
  rewrite (mul_zero_notNegative D).
  rewrite (add_zero_signed_zero (mul_zero_finite _ B)). reflexivity.
Qed.

(** One sample of a synthesizer at rest: both channels are [0.0f] before
    the soft clip and the synthesizer stays at rest. *)
Lemma processSample_atRest m :
  atRest m ->
  snd (Mini.processSample m) = (zero, zero) /\
  atRest (fst (Mini.processSample m)).
Proof.
  intros (S' & O & A & F & D & B & V).
  destruct (processSample_state m) as (A1 & O1 & S1 & P1 & P2 & P3 & P4 & P5).
  cbv zeta in *.
  rewrite (excitationOf_atRest m O F) in *.
  assert (EA : map (Mini.smooth m (repeat zero 4)) (seq 0 4) = repeat zero 4).
  { apply map_const_seq. intros i Hi. now apply smooth_atRest. }
  rewrite EA in *.
  assert (EO : Mini.stringOutputs (fst (Mini.processSample m)) = repeat zero 4).
  { rewrite O1. apply map_const_seq. intros i Hi.
    rewrite get_repeat by reflexivity.
    apply String_process_atRest. now apply S'. }
  split.
  - unfold Mini.processSample in *. cbv zeta in *.
    change (seq 0 Mini.NUM_STRINGS) with (seq 0 4) in *.
    rewrite (excitationOf_atRest m O F) in *. rewrite EA in *.
    cbn [fst Mini.stringOutputs] in EO.
    destruct (fold_left _ _ _) as [l r] eqn:Emix. cbn [snd].
    cbn [fst Mini.stringOutputs] in EO. rewrite EO in Emix.
    vm_compute in Emix. injection Emix as <- <-.
    change (S754_zero false) with zero.
    now rewrite (mul_zero_notNegative V).
  - unfold atRest. rewrite A1, EO, P1, P2, P4, P5.
    split; [|repeat split; try assumption; apply D || apply V].
    intros s Hs. unfold Mini.stringAt. rewrite S1.
    rewrite nth_map_seq by exact Hs. rewrite get_repeat by reflexivity.
    apply String_process_atRest. now apply S'.
Qed.

Lemma softClip_zero tanh : Mini.softClip tanh zero = zero.
Proof. reflexivity. Qed.

Lemma processLoop_atRest tanh n : forall m,
  atRest m ->
  snd (Mini.processLoop tanh n m) = repeat zero (2 * n) /\
  atRest (fst (Mini.processLoop tanh n m)).
Proof.
  induction n as [|n IH]; intros m R.
  - cbn. auto.
  - cbn [Mini.processLoop].
    destruct (processSample_atRest R) as [E R1].
    destruct (Mini.processSample m) as [m1 [l r]]. cbn [fst snd] in *.
    injection E as -> ->.
    destruct (IH m1 R1) as [E2 R2].
    destruct (Mini.processLoop tanh n m1) as [m2 out]. cbn [fst snd] in *.
    split; [|exact R2].
    rewrite !softClip_zero, E2.
    replace (2 * S n) with (S (S (2 * n))) by lia. reflexivity.
Qed.

Lemma freshMini_atRest : atRest freshMini.
Proof.
  unfold atRest. split; [|repeat split].
  intros s Hs. destruct s as [|[|[|[|s]]]]; [| | | |lia];
    repeat split; cbn; lia.
Qed.

(** * The claims *)

(** ** C1: the bridge constraint *)

Lemma bridgeShared_stepOnce m : bridgeShared (stepOnce m).
Proof.
  unfold bridgeShared.
  rewrite stepOnce_string1, stepOnce_string2, stepOnce_bridgeY.
  rewrite !commitString_y, !yNew_last.
  pose proof (eqb_refl_finite _ (newBridgeY_isfinite m)) as E.
  repeat split; assumption.
Qed.

(** C1: after [stepOnce] from any state, and after [step(n)] for every
    [n >= 1] (hence after each physics step inside it), [string1.y[199]],
    [string2.y[199]] and [bridgeY] are the same value; the value is finite,
    so the three also compare equal under [==]. *)
Theorem C1_bridge_constraint :
  forall m : Sim,
    bridgeShared (stepOnce m) /\
    forall n : Z, (0 < n)%Z -> bridgeShared (step n m).
Proof.
  intros m. split.
  - apply bridgeShared_stepOnce.
  - intros n Hn. destruct (step_pos m Hn) as [m0 ->].
    apply bridgeShared_stepOnce.
Qed.

Lemma C1_bridge_constraint_witness :
  (0 < 2)%Z /\ bridgeShared (step 2 (pluck 0 half one construct)).
Proof.
  split; [lia |].
  apply (proj2 (C1_bridge_constraint (pluck 0 half one construct)) 2%Z).
  lia.
Defined.

(** ** C2: the interior update *)

(** C2: in one physics step every interior sample [i] of [1..198] of
    either string becomes
    [2*y[i] - y_prev[i] + r*r*(y[i+1] - 2*y[i] + y[i-1]) - damping*dt*v]
    with [r = waveSpeed*dt/dx], [dx = 1/199] and [v = (y[i] - y_prev[i])/dt],
    each operator being the binary32 operation, in the order of the source;
    sample 0 of the new profile is [0.0], and [y[0]] is [0.0] in every
    reachable state. *)
Theorem C2_interior_update :
  forall (m : Sim) (i : nat),
    1 <= i <= 198 ->
    (get (y (string1 (stepOnce m))) i =
       leapfrog (waveSpeed (string1 m)) (damping (string1 m)) (dt m)
                (get (y (string1 m)) (i - 1)) (get (y (string1 m)) i)
                (get (y (string1 m)) (i + 1)) (get (y_prev (string1 m)) i) /\
     get (y (string2 (stepOnce m))) i =
       leapfrog (waveSpeed (string2 m)) (damping (string2 m)) (dt m)
                (get (y (string2 m)) (i - 1)) (get (y (string2 m)) i)
                (get (y (string2 m)) (i + 1)) (get (y_prev (string2 m)) i)) /\
    leftEndFixed (stepOnce m) /\
    (reachable m -> leftEndFixed m).
Proof.
  intros m i Hi. split; [|split].
  - rewrite stepOnce_string1, stepOnce_string2, !commitString_y.
    rewrite !yNew_interior by exact Hi.
    destruct i as [|j]; [lia|].
    rewrite !interior_leapfrog.
    replace (S j - 1) with j by lia. replace (S j + 1) with (S (S j)) by lia.
    split; reflexivity.
  - unfold leftEndFixed.
    rewrite stepOnce_string1, stepOnce_string2, !commitString_y.
    split; apply yNew_first.
  - apply reachable_leftEndFixed.
Qed.

Lemma C2_interior_update_witness :
  1 <= 100 <= 198 /\
  get (y (string1 (stepOnce (pluck 0 half one construct)))) 100 =
    leapfrog (waveSpeed (string1 (pluck 0 half one construct)))
             (damping (string1 (pluck 0 half one construct)))
             (dt (pluck 0 half one construct))
             (get (y (string1 (pluck 0 half one construct))) (100 - 1))
             (get (y (string1 (pluck 0 half one construct))) 100)
             (get (y (string1 (pluck 0 half one construct))) (100 + 1))
             (get (y_prev (string1 (pluck 0 half one construct))) 100) /\
  leftEndFixed (pluck 0 half one construct).
Proof.
  assert (H : 1 <= 100 <= 198) by lia.
  assert (R : reachable (pluck 0 half one construct))
    by exact (reach_apply (OpPluck 0 half one) reach_construct).
  destruct (C2_interior_update (pluck 0 half one construct) H)
    as ((E1 & _) & _ & L).
  exact (conj H (conj E1 (L R))).
Defined.

(** ** C3: the bridge position *)

Lemma want_candidateOf dt0 s : want dt0 s = candidateOf dt0 s.
Proof. reflexivity. Qed.

Lemma bridgeBlend_blendOf m : bridgeBlend m = blendOf m.
Proof.
  unfold bridgeBlend, bridgeCandidate, blendOf.
  now rewrite !want_candidateOf.
Qed.

(** What one step does to the bridge, for every state: the two candidates,
    their tension-weighted average, the blend with the previous position
    and the clamp.  The result of the clamp is always a finite number of
    [[-0.5, 0.5]], so the replacement by 0.0 that follows it in the source
    never takes place; a NaN or [+inf] blend ends as 0.5 and a [-inf] blend
    as -0.5. *)
Theorem bridge_update :
  forall m : Sim,
    bridgeY (stepOnce m) = max (neg half) (min half (blendOf m)) /\
    isfinite (bridgeY (stepOnce m)) = true /\
    leb (neg half) (bridgeY (stepOnce m)) = true /\
    leb (bridgeY (stepOnce m)) half = true /\
    max (neg half) (min half S754_nan) = half /\
    max (neg half) (min half (S754_infinity false)) = half /\
    max (neg half) (min half (S754_infinity true)) = neg half.
Proof.
  intros m.
  rewrite stepOnce_bridgeY, newBridgeY_clamp, bridgeBlend_blendOf.
  generalize (blendOf m). intros b.
  split; [reflexivity|]. split; [apply clampBridge_isfinite|].
  split; [|split; [|split; [|split]]].
  - destruct (clampBridge_cases b) as [-> | [-> | (-> & H1 & H2)]];
      try reflexivity.
    unfold leb, SFleb. unfold ltb, SFltb in H2. change (neg half) with f_m0_5.
    now destruct (SFcompare f_m0_5 b) as [[| |]|].
  - destruct (clampBridge_cases b) as [-> | [-> | (-> & H1 & H2)]];
      try reflexivity.
    unfold leb, SFleb. unfold ltb, SFltb in H1.
    now destruct (SFcompare b half) as [[| |]|].
  - reflexivity.
  - reflexivity.
  - reflexivity.
Qed.

(** C3 on a state the interface reaches: string 1 tuned to 1000 Hz, which
    the setter accepts and where the Courant number exceeds 1, plucked, and
    stepped 88 times.  The blended bridge value of the next step is NaN;
    the clamp returns 0.5 for it, the guard that follows sees a finite
    number, and the bridge ends at 0.5, not at the 0.0 the claim states.
    One step earlier the blend is [+inf], with the same outcome. *)
Theorem C3_nonfinite_blend_not_zeroed :
  let m87 := run [OpSetString1Frequency f_1000; OpPluck 0 f_0_9 one;
                  OpStep 87] in
  let m88 := stepOnce m87 in
  bridgeBlend m87 = S754_infinity false /\
  bridgeY m88 = half /\
  bridgeBlend m88 = S754_nan /\
  isfinite (bridgeBlend m88) = false /\
  bridgeY (stepOnce m88) = half /\
  eqb (bridgeY (stepOnce m88)) zero = false.
Proof.
  vm_compute. repeat split; reflexivity.
Qed.

(** ** C4: the bridge end under [pluck] *)

(** C4, as the code has it: the loop of [pluck] runs over all 200 samples,
    so it overwrites the bridge-end sample too.  Whatever [y[199]] and
    [y_prev[199]] held, wherever the bridge is and whatever binary32
    position and amplitude are passed, both become +0.0, the value
    [a*(1-x)/(1-p)] of the triangular profile at [x = 1]; [bridgeY] is left
    alone. *)
Theorem C4_pluck_bridge_end :
  forall (m : Sim) (i : Z) (position amplitude : float),
    wfSim m -> valid position = true ->
    get (y (plucked i (pluck i position amplitude m))) LAST = zero /\
    get (y_prev (plucked i (pluck i position amplitude m))) LAST = zero /\
    bridgeY (pluck i position amplitude m) = bridgeY m.
Proof.
  intros m i position amplitude W V.
  rewrite pluck_plucked.
  destruct (pluckString_cells (clampPosition position)
              (clampAmplitude amplitude) (plucked_wf i W) LAST_lt)
    as (E1 & E2 & _).
  rewrite E1, E2. change (LAST =? 0) with false. cbv iota.
  rewrite pluckShape_last by exact V.
  repeat split. unfold pluck. now destruct (i =? 0)%Z.
Qed.

Lemma C4_pluck_bridge_end_witness :
  let m := run [OpPluck 0 half one; OpStep 2] in
  (wfSim m /\ valid f_0_1 = true) /\
  get (y (plucked 0 (pluck 0 f_0_1 half m))) LAST = zero /\
  get (y_prev (plucked 0 (pluck 0 f_0_1 half m))) LAST = zero /\
  bridgeY (pluck 0 f_0_1 half m) = bridgeY m.
Proof.
  intros m.
  assert (W : wfSim m) by (apply reachable_wf, run_reachable).
  assert (V : valid f_0_1 = true) by reflexivity.
  exact (conj (conj W V) (@C4_pluck_bridge_end m 0%Z f_0_1 half W V)).
Defined.

(** [pluck] does not leave the bridge-end sample unchanged: two steps after
    a first pluck, [y[199]] and [y_prev[199]] of string 1 hold the last two
    bridge positions, neither of them zero, and a second pluck resets both
    to 0.0. *)
Lemma C4_pluck_bridge_end_counterexample :
  let m := run [OpPluck 0 half one; OpStep 2] in
  let m' := pluck 0 half one m in
  eqb (get (y (string1 m)) LAST) (get (y (string1 m')) LAST) = false /\
  eqb (get (y_prev (string1 m)) LAST) (get (y_prev (string1 m')) LAST) = false /\
  get (y (string1 m)) LAST = bridgeY m /\
  get (y (string1 m')) LAST = zero /\
  get (y_prev (string1 m')) LAST = zero.
Proof.
  vm_compute. repeat split; reflexivity.
Qed.

(** ** C5: the profile of [pluck] *)

(** C5, as the code has it: with [p] the clamped position and [a] the
    clamped amplitude, every sample [i] of the plucked string holds
    [a*x/p] when [x = i/199] is below [p] and [a*(1-x)/(1-p)] otherwise
    (binary32 operations, left to right); [y_prev] is a copy of [y], [v] is
    zero, [y[0]] and [y_prev[0]] are 0.0, the stored energies are those of
    the new buffers, and no sample is negative or NaN.  The upper bound
    [y[i] <= a] holds up to rounding: for binary32 arguments every sample is
    at most [a + a], and when [a] is [2^-118] at least it is at most the
    binary32 number that follows [a], that is, at most every binary32 number
    above [a]. *)
Theorem C5_pluck_profile :
  forall (m : Sim) (stringIndex : Z) (position amplitude : float) (i : nat),
    wfSim m -> i < NUM_POINTS ->
    let p := clampPosition position in
    let a := clampAmplitude amplitude in
    let x := div (of_int (Z.of_nat i)) (of_int 199) in
    let s := plucked stringIndex (pluck stringIndex position amplitude m) in
    get (y s) i = (if ltb x p then div (mul a x) p
                   else div (mul a (sub one x)) (sub one p)) /\
    get (y_prev s) i = get (y s) i /\
    get (v s) i = zero /\
    get (y s) 0 = zero /\ get (y_prev s) 0 = zero /\
    energiesCurrent s /\
    (valid position = true -> leb zero (get (y s) i) = true) /\
    (valid position = true -> valid amplitude = true ->
     leb (get (y s) i) (add a a) = true /\
     (leb f_pow2_m118 a = true ->
      forall z : float,
        valid z = true -> ltb a z = true -> leb (get (y s) i) z = true)).
Proof.
  intros m stringIndex position amplitude i W Hi. cbv zeta.
  rewrite pluck_plucked.
  pose proof (plucked_wf stringIndex W) as Ws.
  destruct (pluckString_cells (clampPosition position)
              (clampAmplitude amplitude) Ws Hi) as (E1 & E2 & E3).
  assert (H0 : 0 < NUM_POINTS) by (unfold NUM_POINTS; apply Nat.lt_0_succ).
  destruct (pluckString_cells (clampPosition position)
              (clampAmplitude amplitude) Ws H0) as (Z1 & Z2 & _).
  assert (E : get (y (pluckString (clampPosition position)
                        (clampAmplitude amplitude) (plucked stringIndex m))) i
              = pluckShape (clampPosition position) (clampAmplitude amplitude) i).
  { rewrite E1. destruct i as [|j]; [|reflexivity].
    cbn [Nat.eqb]. symmetry. apply pluckShape_first. }
  split; [exact E|]. split; [now rewrite E1, E2|]. split; [exact E3|].
  split; [exact Z1|]. split; [exact Z2|]. split; [|split].
  - unfold pluckString. cbv zeta. apply computeEnergy_current.
  - intros V. rewrite E. apply notNegative_number_leb.
    now apply pluckShape_nonneg.
  - intros Vp Va. rewrite E.
    exact (@pluckShape_bounded position amplitude i Vp Va Hi).
Qed.

Lemma C5_pluck_profile_witness :
  let m := run [OpPluck 1 f_0_9 half; OpStep 2] in
  let a := clampAmplitude one in
  let s := plucked 0 (pluck 0 f_0_1 one m) in
  (wfSim m /\ 150 < NUM_POINTS /\ valid f_0_1 = true /\ valid one = true /\
   leb f_pow2_m118 a = true /\ valid two = true /\ ltb a two = true) /\
  get (y_prev s) 150 = get (y s) 150 /\
  get (v s) 150 = zero /\
  leb zero (get (y s) 150) = true /\
  leb (get (y s) 150) (add a a) = true /\
  leb (get (y s) 150) two = true.
Proof.
  intros m a s.
  assert (W : wfSim m) by (apply reachable_wf, run_reachable).
  assert (Hi : 150 < NUM_POINTS) by (unfold NUM_POINTS; lia).
  assert (V : valid f_0_1 = true) by reflexivity.
  assert (Va : valid one = true) by reflexivity.
  assert (Hlow : leb f_pow2_m118 a = true) by reflexivity.
  assert (V2 : valid two = true) by reflexivity.
  assert (H2 : ltb a two = true) by reflexivity.
  destruct (@C5_pluck_profile m 0%Z f_0_1 one 150 W Hi)
    as (_ & E2 & E3 & _ & _ & _ & N & B).
  destruct (B V Va) as [B1 B2].
  exact (conj (conj W (conj Hi (conj V (conj Va (conj Hlow (conj V2 H2))))))
              (conj E2 (conj E3 (conj (N V) (conj B1 (B2 Hlow two V2 H2)))))).
Defined.

(** The bound [y[i] <= a] of the spec fails by one unit in the last place:
    plucked at [position = 26/199] with [amplitude = 0.75], sample 26 holds
    [12582913 * 2^-24], the binary32 number that follows
    [0.75 = 12582912 * 2^-24].  And below [2^-118] the sample can pass the
    number that follows the amplitude, because the product [a*(1-x)]
    underflows: plucked at [position = 139/199] with the amplitude
    [5 * 2^-149], sample 139 holds [7 * 2^-149], which is above
    [6 * 2^-149]. *)
Lemma C5_pluck_profile_counterexample :
  (let position := div (of_int 26) (of_int 199) in
   let amplitude := div (of_int 3) (of_int 4) in
   let s := string1 (pluck 0 position amplitude construct) in
   valid position = true /\ valid amplitude = true /\
   clampPosition position = position /\
   clampAmplitude amplitude = amplitude /\
   amplitude = S754_finite false 12582912 (-24) /\
   get (y s) 26 = S754_finite false 12582913 (-24) /\
   leb (get (y s) 26) amplitude = false) /\
  (let position := div (of_int 139) (of_int 199) in
   let amplitude := S754_finite false 5 (-149) in
   let next := S754_finite false 6 (-149) in
   let s := string1 (pluck 0 position amplitude construct) in
   valid position = true /\ valid amplitude = true /\
   clampPosition position = position /\
   clampAmplitude amplitude = amplitude /\
   valid next = true /\ ltb amplitude next = true /\
   get (y s) 139 = S754_finite false 7 (-149) /\
   leb (get (y s) 139) next = false).
Proof.
  split; vm_compute; repeat split; reflexivity.
Qed.

(** ** C6: energy *)




(** ** C7: a bridge of stiffness 0 *)

(** With stiffness 0 and a finite candidate, the blend is the previous
    bridge position. *)
Lemma bridgeBlend_decoupled m :
  bridgeStiffness m = zero ->
  valid (bridgeY m) = true -> bridgeY m <> S754_zero true ->
  isfinite (bridgeCandidate m) = true ->
  bridgeBlend m = bridgeY m.
Proof.
  intros Hk Hv Hz Hc. unfold bridgeBlend. rewrite Hk.
  change (sub one zero) with one. rewrite mul_one_l by exact Hv.
  destruct (bridgeCandidate m) as [sc|sc| |sc mc ec]; try discriminate;
    destruct (bridgeY m) as [[|]|sb| |sb mb eb]; try reflexivity;
    try congruence; now destruct sc.
Qed.

Lemma stepOnce_decoupled m :
  decoupled m -> isfinite (bridgeCandidate m) = true ->
  decoupled (stepOnce m) /\ bridgeY (stepOnce m) = bridgeY m /\
  string2 (stepOnce m) = commitString (dt m) (string2 m) (bridgeY m).
Proof.
  intros (Hk & Hv & Hz & Hlo & Hhi) Hc.
  assert (E : newBridgeY m = bridgeY m).
  { rewrite newBridgeY_clamp, bridgeBlend_decoupled by assumption.
    now apply clampBridge_id. }
  unfold decoupled.
  rewrite stepOnce_bridgeStiffness, stepOnce_bridgeY, stepOnce_string2, E.
  auto 10.
Qed.

Lemma decoupled_steps n : forall m m',
  decoupled m -> decoupled m' ->
  string2 m = string2 m' -> bridgeY m = bridgeY m' -> dt m = dt m' ->
  candidatesFinite n m = true -> candidatesFinite n m' = true ->
  string2 (Nat.iter n stepOnce m) = string2 (Nat.iter n stepOnce m') /\
  bridgeY (Nat.iter n stepOnce m) = bridgeY m /\
  bridgeY (Nat.iter n stepOnce m') = bridgeY m.
Proof.
  induction n as [|n IH]; intros m m' D D' E2 Eb Ed F F'.
  - cbn. auto.
  - cbn [candidatesFinite] in F, F'.
    apply andb_prop in F as [F0 F]. apply andb_prop in F' as [F0' F'].
    destruct (stepOnce_decoupled D F0) as (D1 & B1 & S1).
    destruct (stepOnce_decoupled D' F0') as (D1' & B1' & S1').
    rewrite !Nat.iter_succ_r.
    destruct (IH (stepOnce m) (stepOnce m')) as (R1 & R2 & R3); auto.
    + rewrite S1, S1'. congruence.
    + congruence.
    + rewrite !stepOnce_dt. exact Ed.
    + rewrite R1, R2, R3. rewrite B1. auto.
Qed.

(** With stiffness 0, two states that agree on string 2, on the bridge
    position (a binary32 value of [[-0.5, 0.5]] other than -0.0) and on [dt]
    and differ in string 1 in any way: as long as the tension-weighted
    bridge candidate stays finite in both runs, the bridge keeps its
    position and string 2 goes through the same states, stored energies
    included, in both. *)
Lemma decoupled_independence :
  forall (n : Z) (m m' : Sim),
    decoupled m -> decoupled m' ->
    string2 m = string2 m' -> bridgeY m = bridgeY m' -> dt m = dt m' ->
    candidatesFinite (Z.to_nat n) m = true ->
    candidatesFinite (Z.to_nat n) m' = true ->
    string2 (step n m) = string2 (step n m') /\
    totalEnergy (string2 (step n m)) = totalEnergy (string2 (step n m')) /\
    bridgeY (step n m) = bridgeY m /\
    bridgeY (step n m') = bridgeY m.
Proof.
  intros n m m' D D' E2 Eb Ed F F'. unfold step.
  destruct (decoupled_steps (Z.to_nat n) D D' E2 Eb Ed F F') as (R1 & R2 & R3).
  rewrite R1. auto.
Qed.

(** C7 fails in the code, through the guard that C3 shows to be dead.  Two
    runs with stiffness 0 at 1000 Hz, a frequency the setter accepts:
    string 1 is plucked in the second run only.  For 87 steps string 2 and
    the bridge are the same in both.  Then the plucked string has
    overflowed: its candidate is [+inf], the blend [0 * inf + 1 * bridgeY]
    is NaN, and the clamp, which comes first, turns NaN into 0.5.  The guard
    [if (!std::isfinite(newBridgeY)) newBridgeY = 0.0f], applied to the
    blend, would give 0.0, the position the bridge had, and string 2 would
    go on as in the first run.  As the code is, the bridge jumps to 0.5 and
    string 2 holds energy after the 88th step, while nothing has moved in
    the first run. *)
Theorem C7_decoupling_lost :
  let m := run [OpSetBridgeStiffness zero; OpSetString1Frequency f_1000] in
  let m' := pluck 0 f_0_9 one m in
  let m87 := step 87 m in
  let m87' := step 87 m' in
  let m88 := stepOnce m87 in
  let m88' := stepOnce m87' in
  (bridgeStiffness m = zero /\ bridgeStiffness m' = zero /\
   string2 m' = string2 m /\ bridgeY m' = bridgeY m /\ dt m' = dt m) /\
  (string2 m87' = string2 m87 /\ bridgeY m87' = zero /\ bridgeY m87 = zero) /\
  (bridgeCandidate m87' = S754_infinity false /\
   bridgeBlend m87' = S754_nan /\
   clampBridge (bridgeBlend m87') = half /\
   finiteOrZero (bridgeBlend m87') = zero /\
   commitString (dt m87') (string2 m87') (finiteOrZero (bridgeBlend m87'))
     = string2 m88) /\
  (bridgeY m88 = zero /\ totalEnergy (string2 m88) = zero /\
   bridgeY m88' = half /\
   leb (totalEnergy (string2 m88')) zero = false).
Proof.
  vm_compute. repeat split; reflexivity.
Qed.

(** ** C8: history *)

(** C8: in every reachable state the three history sequences have one
    common length, at most 500.  A step appends the triple
    [(string1.totalEnergy, string2.totalEnergy, bridgeY)] exactly when the
    incremented [stepCount] is a multiple of 100, after dropping the oldest
    entry of each sequence when 500 are held; otherwise it leaves the
    sequences alone, as do [pluck] and the setters. *)
Theorem C8_history :
  forall m : Sim,
    reachable m ->
    historyAligned m /\
    (let m' := stepOnce m in
     let full := HISTORY_LENGTH <=? List.length (energy1History m) in
     stepCount m' = wrap32 (stepCount m + 1) /\
     if (Z.rem (stepCount m') 100 =? 0)%Z
     then energy1History m' =
            evict full (energy1History m) ++ [totalEnergy (string1 m')] /\
          energy2History m' =
            evict full (energy2History m) ++ [totalEnergy (string2 m')] /\
          bridgeHistory m' = evict full (bridgeHistory m) ++ [bridgeY m']
     else sameHistory m m') /\
    (forall i p a, sameHistory m (pluck i p a m)) /\
    (forall f, sameHistory m (setString1Frequency f m) /\
               sameHistory m (setString2Frequency f m) /\
               sameHistory m (setDamping f m) /\
               sameHistory m (setBridgeStiffness f m)).
Proof.
  intros m R. split; [now apply reachable_historyAligned|].
  split; [|split].
  - cbv zeta. split; [apply stepOnce_stepCount | apply stepOnce_history].
  - intros i p a. unfold sameHistory, pluck.
    destruct (i =? 0)%Z; cbn; auto.
  - intros f. unfold sameHistory. cbn. auto 10.
Qed.

Lemma C8_history_witness :
  let ops := [OpPluck 0 half one; OpStep 99] in
  reachable (run ops) /\ historyAligned (run ops).
Proof.
  intros ops.
  exact (conj (run_reachable ops) (proj1 (C8_history (run_reachable ops)))).
Defined.

(** ** C9: reset *)

Lemma construct_freshValues : freshValues construct.
Proof. unfold freshValues. repeat split; vm_compute; reflexivity. Qed.

(** C9: [reset] on a reachable state gives exactly the state of a fresh
    instance, field by field: frequencies 261.63 and 392.00 with their
    tensions and wave speeds, zero buffers, a zero bridge with stiffness 1,
    time 0, step count 0 and empty histories. *)
Theorem C9_reset_is_construct :
  forall m : Sim,
    reachable m -> reset m = construct /\ freshValues (reset m).
Proof.
  intros m R.
  assert (E : reset m = construct).
  { unfold reset. rewrite (reachable_dt R). reflexivity. }
  split; [exact E|]. rewrite E. apply construct_freshValues.
Qed.

Lemma C9_reset_is_construct_witness :
  let ops := [OpSetString2Frequency f_50; OpPluck 1 half one; OpStep 250;
              OpSetBridgeStiffness half] in
  reachable (run ops) /\ reset (run ops) = construct.
Proof.
  intros ops.
  exact (conj (run_reachable ops)
              (proj1 (C9_reset_is_construct (run_reachable ops)))).
Defined.

(** ** C10: frame of the frequency setters *)

(** C10: [setString1Frequency] leaves the buffers, the damping, the
    stored energies and the force of string 1, the whole of string 2, the
    bridge, the clock, the step counter and the three histories as they
    were; [setString2Frequency] does so with the strings exchanged. *)
Theorem C10_setFrequency_frame :
  forall (f : float) (m : Sim),
    (sameButTuning (string1 m) (string1 (setString1Frequency f m)) /\
     string2 (setString1Frequency f m) = string2 m /\
     sameButStrings m (setString1Frequency f m)) /\
    (sameButTuning (string2 m) (string2 (setString2Frequency f m)) /\
     string1 (setString2Frequency f m) = string1 m /\
     sameButStrings m (setString2Frequency f m)).
Proof.
  intros f m. unfold sameButTuning, sameButStrings.
  split; cbn; repeat split; reflexivity.
Qed.

(** * Further properties *)

(** In every reachable state the bridge position is a finite number of
    [[-0.5, 0.5]]. *)
Theorem bridge_bounded : forall m : Sim, reachable m -> bridgeBounded m.
Proof.
  apply reachable_inv; try (intros; assumption).
  - repeat split.
  - intros i p a m H. unfold bridgeBounded, pluck. now destruct (i =? 0)%Z.
  - intros m _. unfold bridgeBounded.
    rewrite stepOnce_bridgeY, newBridgeY_clamp.
    split; [apply clampBridge_isfinite | apply clampBridge_range].
  - intros m _. repeat split.
Qed.

Lemma bridge_bounded_witness :
  let ops := [OpPluck 0 half one; OpStep 40; OpSetBridgeStiffness half;
              OpStep 7] in
  reachable (run ops) /\ bridgeBounded (run ops).
Proof.
  intros ops.
  exact (conj (run_reachable ops) (bridge_bounded (run_reachable ops))).
Defined.

(** In every reachable state both strings are tuned: the frequency is in
    [[50, 1000]], the tension follows from it and the wave speed from the
    tension. *)
Theorem strings_tuned :
  forall m : Sim, reachable m -> tuned (string1 m) /\ tuned (string2 m).
Proof.
  apply reachable_inv.
  - apply construct_tuned.
  - intros i p a m [H1 H2]. unfold pluck.
    destruct (i =? 0)%Z; cbn [string1 string2 withString1 withString2];
      split; try assumption; now apply pluckString_tuned.
  - intros m [H1 H2]. rewrite stepOnce_string1, stepOnce_string2.
    split; now apply commitString_tuned.
  - intros m _. apply construct_tuned.
  - intros f m [H1 H2]. cbn [string1 string2 setString1Frequency withString1].
    split; [apply setFrequency_tuned | exact H2].
  - intros f m [H1 H2]. cbn [string1 string2 setString2Frequency withString2].
    split; [exact H1 | apply setFrequency_tuned].
  - intros d m [H1 H2]. split; assumption.
  - intros k m [H1 H2]. split; assumption.
Qed.

Lemma strings_tuned_witness :
  let ops := [OpSetString1Frequency f_1000; OpPluck 0 half one; OpStep 12;
              OpSetDamping zero] in
  reachable (run ops) /\ tuned (string1 (run ops)) /\ tuned (string2 (run ops)).
Proof.
  intros ops.
  exact (conj (run_reachable ops) (strings_tuned (run_reachable ops))).
Defined.

(** At 1000 Hz, the upper end of the range the setters accept, the Courant
    number [waveSpeed*dt/dx] of the string is above 1; at the default
    frequencies it is below 1. *)
Theorem courant_at_1000 :
  let courant (m : Sim) (s : StringState) := div (mul (waveSpeed s) (dt m)) dx in
  let m := setString1Frequency f_1000 construct in
  ltb one (courant m (string1 m)) = true /\
  ltb (courant construct (string1 construct)) one = true /\
  ltb (courant construct (string2 construct)) one = true.
Proof. vm_compute. repeat split; reflexivity. Qed.

(** ** Arguments and parameters *)

(** The arguments of the host never reach the simulation as they are:
    every one of them goes through a clamp, which maps any float, NaN and
    the infinities included, to a finite number of its range, NaN to the
    upper bound, and a number of the range to itself. *)
Theorem arguments_sanitized : forall m : Sim,
  sanitizes f_0_1 f_0_9 clampPosition /\
  sanitizes zero one clampAmplitude /\
  sanitizes f_50 f_1000
    (fun x => frequency (string1 (setString1Frequency x m))) /\
  sanitizes f_50 f_1000
    (fun x => frequency (string2 (setString2Frequency x m))) /\
  sanitizes zero f_0_01 (fun x => damping (string1 (setDamping x m))) /\
  sanitizes zero f_0_01 (fun x => damping (string2 (setDamping x m))) /\
  sanitizes zero one (fun x => bridgeStiffness (setBridgeStiffness x m)).
Proof.
  intros m.
  repeat split; try (apply clamp_sanitizes; reflexivity).
Qed.

(** In every reachable state the two strings have one damping
    coefficient, a finite number of [[0, 0.01]], and the bridge stiffness is
    a finite number of [[0, 1]]. *)
Theorem parameters_bounded : forall m : Sim, reachable m -> parametersBounded m.
Proof.
  apply reachable_inv.
  - exact parametersBounded_construct.
  - intros i p a m (H1 & H2 & H3). unfold parametersBounded, pluck.
    destruct (i =? 0)%Z; cbn [withString1 withString2 string1 string2 bridgeStiffness];
      destruct (pluckString_parameters (clampPosition p) (clampAmplitude a)
                  (string1 m)) as [(_ & _ & _ & D1 & _) _];
      destruct (pluckString_parameters (clampPosition p) (clampAmplitude a)
                  (string2 m)) as [(_ & _ & _ & D2 & _) _];
      rewrite ?D1, ?D2; auto.
  - intros m (H1 & H2 & H3). unfold parametersBounded.
    rewrite stepOnce_string1, stepOnce_string2, stepOnce_bridgeStiffness.
    destruct (commitString_parameters (dt m) (string1 m) (newBridgeY m))
      as (_ & _ & _ & D1 & _).
    destruct (commitString_parameters (dt m) (string2 m) (newBridgeY m))
      as (_ & _ & _ & D2 & _).
    rewrite D1, D2. auto.
  - intros m _. exact parametersBounded_construct.
  - intros f m H. exact H.
  - intros f m H. exact H.
  - intros d m (_ & _ & H3). unfold parametersBounded, setDamping.
    cbn [withString1 withString2 withDamping string1 string2 damping bridgeStiffness].
    split; [reflexivity|]. split; [|exact H3].
    apply withinBounds_clamp; reflexivity.
  - intros k m (H1 & H2 & H3). unfold parametersBounded, setBridgeStiffness.
    cbn [string1 string2 bridgeStiffness].
    split; [exact H1|]. split; [exact H2|].
    apply withinBounds_clamp; reflexivity.
Qed.

Lemma parameters_bounded_witness :
  let ops := [OpSetDamping f_1000; OpPluck 1 half one; OpStep 5;
              OpSetBridgeStiffness f_m0_5] in
  reachable (run ops) /\ parametersBounded (run ops).
Proof.
  intros ops.
  exact (conj (run_reachable ops) (parameters_bounded (run_reachable ops))).
Defined.

(** ** Pluck *)

(** [pluck] assigns the three buffers and the three energies of the
    selected string and nothing else: the other string, the parameters and
    the stored bridge force of the selected one, the bridge, the clock and
    the history are those of before.  The buffers of the selected string
    depend on the clamped arguments alone: [y] and [y_prev] hold the same
    profile and [v] is zero everywhere. *)
Theorem pluck_frame :
  forall (m : Sim) (stringIndex : Z) (position amplitude : float),
    wfSim m ->
    let m' := pluck stringIndex position amplitude m in
    let profile :=
      pluckProfile (clampPosition position) (clampAmplitude amplitude) in
    sameButStrings m m' /\
    unplucked stringIndex m' = unplucked stringIndex m /\
    sameParameters (plucked stringIndex m) (plucked stringIndex m') /\
    forceOnBridge (plucked stringIndex m') =
      forceOnBridge (plucked stringIndex m) /\
    y (plucked stringIndex m') = profile /\
    y_prev (plucked stringIndex m') = profile /\
    v (plucked stringIndex m') = fill zero.
Proof.
  intros m i p a W. cbv zeta.
  pose proof (plucked_wf i W) as Ws.
  rewrite pluck_plucked.
  destruct (pluckString_parameters (clampPosition p) (clampAmplitude a)
              (plucked i m)) as [H F].
  destruct (pluckString_buffers (clampPosition p) (clampAmplitude a) Ws)
    as (By & Bp & Bv).
  generalize dependent (pluckString (clampPosition p) (clampAmplitude a)
                          (plucked i m)).
  intros s' H F By Bp Bv.
  split; [|split; [|auto 8]].
  - unfold sameButStrings, pluck. destruct (i =? 0)%Z; repeat split.
  - unfold unplucked, pluck. destruct (i =? 0)%Z; reflexivity.
Qed.

Lemma pluck_frame_witness :
  let m := run [OpPluck 0 half one; OpStep 3] in
  wfSim m /\
  let m' := pluck 1 f_0_1 half m in
  sameButStrings m m' /\ unplucked 1 m' = unplucked 1 m /\
  sameParameters (plucked 1 m) (plucked 1 m') /\
  forceOnBridge (plucked 1 m') = forceOnBridge (plucked 1 m) /\
  y (plucked 1 m') = pluckProfile (clampPosition f_0_1) (clampAmplitude half) /\
  y_prev (plucked 1 m') = pluckProfile (clampPosition f_0_1) (clampAmplitude half) /\
  v (plucked 1 m') = fill zero.
Proof.
  intros m.
  pose proof (reachable_wf (run_reachable [OpPluck 0 half one; OpStep 3])) as W.
  exact (conj W (@pluck_frame m 1%Z f_0_1 half W)).
Defined.

(** A pluck erases every trace of an earlier pluck of the same
    string, and plucks of different strings can be exchanged. *)
Theorem pluck_overwrites :
  forall (m : Sim) (stringIndex : Z) (p a q b : float),
    wfSim m ->
    pluck stringIndex p a (pluck stringIndex q b m) = pluck stringIndex p a m /\
    pluck 0 p a (pluck 1 q b m) = pluck 1 q b (pluck 0 p a m).
Proof.
  intros m i p a q b [W1 W2]. split.
  - unfold pluck. cbv zeta. destruct (i =? 0)%Z; unfold withString1, withString2;
      cbn [string1 string2 bridgeY bridgeV bridgeStiffness
           dt time stepCount energy1History energy2History bridgeHistory];
      now rewrite pluckString_twice.
  - unfold pluck. change (0 =? 0)%Z with true. change (1 =? 0)%Z with false.
    cbv beta iota zeta. unfold withString1, withString2.
    cbn [string1 string2 bridgeY bridgeV bridgeStiffness
         dt time stepCount energy1History energy2History bridgeHistory].
    reflexivity.
Qed.

Lemma pluck_overwrites_witness :
  let m := run [OpPluck 0 half one; OpStep 3] in
  wfSim m /\
  pluck 0 f_0_1 half (pluck 0 f_0_9 one m) = pluck 0 f_0_1 half m /\
  pluck 0 f_0_1 half (pluck 1 f_0_9 one m) = pluck 1 f_0_9 one (pluck 0 f_0_1 half m).
Proof.
  intros m.
  pose proof (reachable_wf (run_reachable [OpPluck 0 half one; OpStep 3])) as W.
  exact (conj W (@pluck_overwrites m 0%Z f_0_1 half f_0_9 one W)).
Defined.

(** ** Steps *)

(** [step] with a count that is not positive does nothing, and the
    counts of successive calls add up: [step(a)] followed by [step(b)] is
    [step(max(a,0) + max(b,0))]. *)
Theorem step_compose :
  forall (a b : Z) (m : Sim),
    step b (step a m) = step (Z.max a 0 + Z.max b 0) m.
Proof.
  intros a b m. unfold step.
  replace (Z.to_nat (Z.max a 0 + Z.max b 0))
    with (Z.to_nat b + Z.to_nat a)%nat by lia.
  now rewrite Nat.iter_add.
Qed.

(** After a step the derived quantities are those of the stored
    buffers: [y_prev] is the displacement of before the step, [v] is the
    backward difference [(y - y_prev)/dt] of every sample, the stored force
    on the bridge is [-tension * (y[N-1] - y[N-2])/dx] and the bridge
    velocity is the backward difference of the bridge position. *)
Theorem step_derived :
  forall m : Sim,
    wfSim m ->
    let m' := stepOnce m in
    derivedCurrent (dt m') (string1 m) (string1 m') /\
    derivedCurrent (dt m') (string2 m) (string2 m') /\
    bridgeV m' = div (sub (bridgeY m') (bridgeY m)) (dt m').
Proof.
  intros m [W1 W2]. cbv zeta.
  rewrite stepOnce_string1, stepOnce_string2, stepOnce_dt, stepOnce_bridgeY.
  split; [now apply commitString_derived|].
  split; [now apply commitString_derived|].
  unfold stepOnce. cbv zeta. destruct (_ =? 0)%Z; reflexivity.
Qed.

Lemma step_derived_witness :
  let m := run [OpPluck 0 half one; OpStep 3] in
  wfSim m /\
  let m' := stepOnce m in
  derivedCurrent (dt m') (string1 m) (string1 m') /\
  derivedCurrent (dt m') (string2 m) (string2 m') /\
  bridgeV m' = div (sub (bridgeY m') (bridgeY m)) (dt m').
Proof.
  intros m.
  pose proof (reachable_wf (run_reachable [OpPluck 0 half one; OpStep 3])) as W.
  exact (conj W (@step_derived m W)).
Defined.

(** The simulation treats its two strings alike.  Exchanging the
    strings and then stepping, plucking or tuning is the same as doing it on
    the other string and exchanging afterwards. *)
Theorem strings_interchangeable :
  forall m : Sim,
    historyAligned m ->
    (forall n, step n (swapStrings m) = swapStrings (step n m)) /\
    (forall p a, pluck 0 p a (swapStrings m) = swapStrings (pluck 1 p a m)) /\
    (forall p a, pluck 1 p a (swapStrings m) = swapStrings (pluck 0 p a m)) /\
    (forall f, setString1Frequency f (swapStrings m) =
               swapStrings (setString2Frequency f m)) /\
    (forall f, setString2Frequency f (swapStrings m) =
               swapStrings (setString1Frequency f m)) /\
    (forall d, setDamping d (swapStrings m) = swapStrings (setDamping d m)) /\
    (forall k, setBridgeStiffness k (swapStrings m) =
               swapStrings (setBridgeStiffness k m)).
Proof.
  intros m H. split; [intros n; now apply step_swap|].
  split; [|split; [|split; [|split; [|split]]]]; intros;
    unfold pluck, swapStrings;
    change (0 =? 0)%Z with true; change (1 =? 0)%Z with false;
    cbv beta iota zeta;
    unfold setString1Frequency, setString2Frequency, setDamping,
      setBridgeStiffness, withString1, withString2;
    cbn [string1 string2 bridgeY bridgeV bridgeStiffness dt time
         stepCount energy1History energy2History bridgeHistory];
    reflexivity.
Qed.

Lemma strings_interchangeable_witness :
  let m := run [OpPluck 0 half one; OpStep 3] in
  historyAligned m /\
  (forall n, step n (swapStrings m) = swapStrings (step n m)) /\
  (forall p a, pluck 0 p a (swapStrings m) = swapStrings (pluck 1 p a m)) /\
  (forall p a, pluck 1 p a (swapStrings m) = swapStrings (pluck 0 p a m)) /\
  (forall f, setString1Frequency f (swapStrings m) =
             swapStrings (setString2Frequency f m)) /\
  (forall f, setString2Frequency f (swapStrings m) =
             swapStrings (setString1Frequency f m)) /\
  (forall d, setDamping d (swapStrings m) = swapStrings (setDamping d m)) /\
  (forall k, setBridgeStiffness k (swapStrings m) =
             swapStrings (setBridgeStiffness k m)).
Proof.
  intros m.
  pose proof (reachable_historyAligned
                (run_reachable [OpPluck 0 half one; OpStep 3])) as H.
  exact (conj H (@strings_interchangeable m H)).
Defined.

(** The clock of the simulation cannot pass 64 seconds.  Once [time]
    is 64 or more, [time += dt] leaves it as it is, because the step
    [1/(44100*8)] is less than half a unit in the last place of the sum: no
    number of further steps moves the clock. *)
Theorem clock_stalls :
  forall (m : Sim) (numSteps : Z),
    dt m = dt construct -> valid (time m) = true ->
    leb f_64 (time m) = true ->
    time (step numSteps m) = time m.
Proof.
  intros m n Hdt V H. unfold step. now apply step_time_absorbed.
Qed.

Lemma clock_stalls_witness :
  let m := mkSim (string1 construct) (string2 construct) zero zero one
                 (dt construct) f_64 22579200 [] [] [] in
  dt m = dt construct /\ valid (time m) = true /\ leb f_64 (time m) = true /\
  time (step 1000 m) = time m.
Proof.
  intros m.
  assert (Hdt : dt m = dt construct) by reflexivity.
  assert (V : valid (time m) = true) by reflexivity.
  assert (H : leb f_64 (time m) = true) by reflexivity.
  exact (conj Hdt (conj V (conj H (@clock_stalls m 1000%Z Hdt V H)))).
Defined.

(** ** The read accessors *)

(** What the read accessors return in every reachable state.  The four
    buffer accessors return 200 values, the first displacement of each
    string being [0.0f]; the three histories have one length, at most 500;
    [getEnergy1()] is [getKinetic1() + getPotential1()], and likewise for
    string 2; each energy and [getTotalEnergy()] is NaN or compares
    [>= 0]. *)
Theorem accessors_consistent :
  forall m : Sim, reachable m -> accessorsConsistent m.
Proof.
  intros m R.
  destruct (reachable_wf R) as [(Y1 & _ & V1) (Y2 & _ & V2)].
  destruct (reachable_historyAligned R) as (A1 & A2 & A3).
  destruct (reachable_totalIsSum R) as [T1 T2].
  destruct (reachable_energyInv R)
    as [(_ & _ & _ & K1 & P1) (_ & _ & _ & K2 & P2)].
  destruct (reachable_leftEndFixed R) as [Z1 Z2].
  unfold totalIsSum in T1, T2.
  assert (E1 : notNegative (totalEnergy (string1 m)))
    by (rewrite T1; now apply add_notNegative).
  assert (E2 : notNegative (totalEnergy (string2 m)))
    by (rewrite T2; now apply add_notNegative).
  unfold accessorsConsistent, getString1Displacement, getString2Displacement,
    getString1Velocity, getString2Velocity, getEnergy1History,
    getEnergy2History, getBridgeHistory, getEnergy1, getEnergy2, getKinetic1,
    getKinetic2, getPotential1, getPotential2, getTotalEnergy.
  unfold nanOrNonNegative.
  split; [exact Y1|]. split; [exact Y2|]. split; [exact V1|]. split; [exact V2|].
  split; [symmetry; exact A1|]. split; [rewrite A1; symmetry; exact A2|].
  split; [exact A3|]. split; [exact T1|]. split; [exact T2|].
  split; [now apply notNegative_leb|]. split; [now apply notNegative_leb|].
  split; [now apply notNegative_leb|]. split; [now apply notNegative_leb|].
  split; [now apply notNegative_leb|]. split; [now apply notNegative_leb|].
  split; [apply notNegative_leb; now apply add_notNegative|].
  split; assumption.
Qed.

Lemma accessors_consistent_witness :
  let ops := [OpPluck 0 half one; OpStep 120; OpSetDamping f_0_01; OpStep 3] in
  reachable (run ops) /\ accessorsConsistent (run ops).
Proof.
  intros ops.
  exact (conj (run_reachable ops) (accessors_consistent (run_reachable ops))).
Defined.

(** ** Sequences of calls *)

(** The step counter and the histories count the steps.  As long as the
    counter does not overflow, after any sequence of calls [stepCount] is the
    number of steps run since the last [reset] and each of the three
    histories holds one entry per 100 of these steps, at most 500: the
    accessors return [min(500, stepCount / 100)] values. *)
Theorem history_counts_steps :
  forall ops : list Op,
    countable 0 ops = true ->
    counted (stepsSince 0 ops) (run ops).
Proof.
  intros ops H. unfold run. apply run_counted; [lia | | exact H].
  repeat split.
Qed.

Lemma history_counts_steps_witness :
  let ops := [OpStep 250; OpPluck 0 half one; OpStep (-3); OpStep 70;
              OpReset; OpSetDamping zero; OpStep 120] in
  countable 0 ops = true /\ counted (stepsSince 0 ops) (run ops).
Proof.
  intros ops.
  assert (H : countable 0 ops = true) by reflexivity.
  exact (conj H (history_counts_steps ops H)).
Defined.

(** Reading a parameter and writing it back changes nothing: in every
    reachable state, [setString1Frequency(getString1Frequency())],
    [setString2Frequency(getString2Frequency())],
    [setBridgeStiffness(getBridgeStiffness())] and [setDamping] of the stored
    damping leave the state as it is. *)
Theorem setter_round_trip :
  forall m : Sim,
    reachable m ->
    setString1Frequency (getString1Frequency m) m = m /\
    setString2Frequency (getString2Frequency m) m = m /\
    setBridgeStiffness (getBridgeStiffness m) m = m /\
    setDamping (damping (string1 m)) m = m.
Proof.
  intros m R.
  destruct (reachable_settingsStable R) as (S1 & S2 & S3 & S4).
  destruct (reachable_tuned R) as [T1 T2].
  pose proof (reachable_sameDamping R) as D.
  unfold setString1Frequency, setString2Frequency, setBridgeStiffness,
    setDamping, getString1Frequency, getString2Frequency, getBridgeStiffness.
  cbv zeta. rewrite S1, S2, S3, S4.
  rewrite (setFrequency_same T1), (setFrequency_same T2).
  unfold withString1, withString2.
  cbn [string1 string2 bridgeY bridgeV bridgeStiffness dt time stepCount
       energy1History energy2History bridgeHistory].
  rewrite withDamping_same. rewrite <- D at 1. rewrite withDamping_same.
  destruct m. repeat split.
Qed.

Lemma setter_round_trip_witness :
  let ops := [OpSetString1Frequency f_1000; OpSetDamping one; OpPluck 0 half one;
              OpStep 4; OpSetBridgeStiffness half] in
  reachable (run ops) /\
  setString1Frequency (getString1Frequency (run ops)) (run ops) = run ops /\
  setString2Frequency (getString2Frequency (run ops)) (run ops) = run ops /\
  setBridgeStiffness (getBridgeStiffness (run ops)) (run ops) = run ops /\
  setDamping (damping (string1 (run ops))) (run ops) = run ops.
Proof.
  intros ops.
  exact (conj (run_reachable ops) (setter_round_trip (run_reachable ops))).
Defined.

(** The last call of a setter wins, and setters of different parameters
    can be exchanged. *)
Theorem setters_compose :
  forall (m : Sim) (f g d e k l : float),
    setString1Frequency f (setString1Frequency g m) = setString1Frequency f m /\
    setString2Frequency f (setString2Frequency g m) = setString2Frequency f m /\
    setDamping d (setDamping e m) = setDamping d m /\
    setBridgeStiffness k (setBridgeStiffness l m) = setBridgeStiffness k m /\
    setString1Frequency f (setString2Frequency g m) =
      setString2Frequency g (setString1Frequency f m) /\
    setDamping d (setString1Frequency f m) =
      setString1Frequency f (setDamping d m) /\
    setDamping d (setString2Frequency f m) =
      setString2Frequency f (setDamping d m) /\
    setBridgeStiffness k (setString1Frequency f m) =
      setString1Frequency f (setBridgeStiffness k m) /\
    setBridgeStiffness k (setString2Frequency f m) =
      setString2Frequency f (setBridgeStiffness k m) /\
    setBridgeStiffness k (setDamping d m) =
      setDamping d (setBridgeStiffness k m).
Proof.
  intros m f g d e k l.
  unfold setString1Frequency, setString2Frequency, setDamping,
    setBridgeStiffness, withString1, withString2, withDamping, setFrequency.
  cbv zeta.
  cbn [string1 string2 bridgeY bridgeV bridgeStiffness dt time stepCount
       energy1History energy2History bridgeHistory
       y y_prev v frequency tension density damping waveSpeed length
       kineticEnergy potentialEnergy totalEnergy forceOnBridge].
  split; [reflexivity|]. split; [reflexivity|]. split; [reflexivity|].
  split; [reflexivity|]. split; [reflexivity|]. split; [reflexivity|].
  split; [reflexivity|]. split; [reflexivity|]. split; reflexivity.
Qed.

(** No division by zero.  After any sequence of calls whose frequency
    arguments are binary32 values, the tension and the wave speed of each
    string, the total tension by which [stepOnce] divides and the squares of
    the two Courant numbers are positive normal numbers: never zero,
    infinite or NaN. *)
Theorem coefficients_normal :
  forall ops : list Op,
    forallb validOp ops = true -> coefficientsNormal (run ops).
Proof.
  intros ops V.
  destruct (run_tunedValid ops V) as [H1 H2].
  pose proof (reachable_dt (run_reachable ops)) as Hdt.
  destruct (tunedValid_normal H1) as (T1 & W1 & C1).
  destruct (tunedValid_normal H2) as (T2 & W2 & C2).
  unfold coefficientsNormal. rewrite Hdt.
  split; [exact T1|]. split; [exact T2|]. split; [|auto].
  pose proof (@add_normal _ _ _ _ _ _ T1 T2) as N.
  specialize (N ltac:(unfold emin; cbn; lia) ltac:(cbn; lia)). exact N.
Qed.

Lemma coefficients_normal_witness :
  let ops := [OpSetString1Frequency f_1000; OpSetString2Frequency f_50;
              OpPluck 0 half one; OpStep 3] in
  forallb validOp ops = true /\ coefficientsNormal (run ops).
Proof.
  intros ops.
  assert (V : forallb validOp ops = true) by reflexivity.
  exact (conj V (coefficients_normal ops V)).
Defined.

(** Silence stays silence.  As long as no string is plucked with an
    amplitude above zero, whatever the steps, resets, settings and plucks of
    amplitude zero or less in between (any binary32 arguments, NaN and the
    infinities included), every displacement and velocity sample of both
    strings, the six energies, the two forces on the bridge, the bridge
    position and velocity and every entry of the three histories is a zero:
    the update creates no motion, no energy and no NaN out of nothing. *)
Theorem silence_persists :
  forall ops : list Op,
    forallb validOp ops = true -> forallb silentOp ops = true ->
    resting (run ops).
Proof.
  intros ops V N. exact (proj1 (run_resting ops V N)).
Qed.

Lemma silence_persists_witness :
  let ops := [OpSetDamping f_0_01; OpStep 150; OpSetString1Frequency f_1000;
              OpPluck 0 half zero; OpSetBridgeStiffness half; OpStep 3;
              OpPluck 1 S754_nan (neg one); OpReset; OpStep 2] in
  forallb validOp ops = true /\ forallb silentOp ops = true /\
  resting (run ops).
Proof.
  intros ops.
  assert (V : forallb validOp ops = true) by reflexivity.
  assert (N : forallb silentOp ops = true) by reflexivity.
  exact (conj V (conj N (silence_persists ops V N))).
Defined.

(** * Properties of the companion synthesizer *)

(** ** The delay line *)

(** When [setFrequency] returns, the delay length lies in [[2, 2047]]
    and nothing else has changed; it returns unless [SAMPLE_RATE / freq] has
    no integer part that is an [int], as for a frequency of zero or NaN.
    The constructor returns, with the delay lengths 168, 133, 112 and 89. *)
Theorem setFrequency_delayLength :
  forall (freq : float) (s : Mini.String),
    match Mini.String_setFrequency freq s with
    | Some s' =>
        (2 <= Mini.delayLength s' <= 2047)%Z /\ sameButDelayLength s s'
    | None => Mini.to_int (div Mini.SAMPLE_RATE freq) = None
    end /\
    Mini.String_setFrequency zero s = None /\
    Mini.String_setFrequency S754_nan s = None /\
    option_map (fun m => map Mini.delayLength (Mini.strings m)) Mini.construct =
      Some [168; 133; 112; 89]%Z.
Proof.
  intros f s. split; [|repeat split].
  unfold Mini.String_setFrequency.
  destruct (Mini.to_int (div Mini.SAMPLE_RATE f)) as [n|]; [|reflexivity].
  cbn [Mini.delayLength].
  split; [|repeat split].
  unfold Mini.MAX_DELAY. cbv zeta.
  change (2048 - 1)%Z with 2047%Z. destruct (Z.ltb_spec 2047 n) as [A | A];
    match goal with
    | |- context [(?a <? 2)%Z] => destruct (Z.ltb_spec a 2) as [B | B]
    end; lia.
Qed.

(** The sample a call of [process] writes to the delay line is the sample
    the [delayLength]-th call after it returns, whatever the excitations of
    the calls in between; it is a finite number of [[-1, 1]]. *)
Theorem delay_round_trip :
  forall (s : Mini.String) (e0 eL : float) (es : list float),
    wfDelay s ->
    List.length es = Z.to_nat (Mini.delayLength s) - 1 ->
    let s1 := snd (Mini.String_process e0 s) in
    let s2 := snd (processMany es s1) in
    fst (Mini.String_process eL s2) = Mini.newSample e0 s /\
    withinBounds Mini.f_m1 one (fst (Mini.String_process eL s2)).
Proof.
  intros s e0 eL es W Hes. cbv zeta.
  assert (E : fst (Mini.String_process eL
                     (snd (processMany es (snd (Mini.String_process e0 s))))) =
              Mini.newSample e0 s).
  { pose proof (String_process_wf e0 W) as W1.
    pose proof (String_process_writePos e0 W) as P1.
    destruct W as (L & Wp & D).
    assert (X1 : get (Mini.delayLine (snd (Mini.String_process e0 s)))
                     (Z.to_nat (Mini.writePos s)) = Mini.newSample e0 s).
    { cbn [Mini.String_process snd Mini.delayLine].
      apply get_set_same. rewrite L. lia. }
    assert (D1 : Mini.delayLength (snd (Mini.String_process e0 s)) =
                 Mini.delayLength s) by reflexivity.
    destruct (Mini.String_process e0 s) as [x0 s1]. cbn [snd] in *.
    destruct (@processMany_keeps es s1 (Mini.writePos s) (Mini.newSample e0 s)
                W1 Wp X1) as (W2 & X2 & P2 & D2).
    { intros j Hj. rewrite P1, Zplus_mod_idemp_l.
      intros Heq.
      assert (Hj' : (1 <= 1 + j < 2048)%Z) by lia.
      replace (Mini.writePos s + 1 + j)%Z
        with (Mini.writePos s + (1 + j))%Z in Heq by lia.
      revert Heq. generalize (Mini.writePos s) Wp (1 + j)%Z Hj'.
      intros w Hw k Hk Heq. clear - Hw Hk Heq.
      Z.to_euclidean_division_equations. lia. }
    destruct (processMany es s1) as [samples s2]. cbn [snd] in *.
    cbn [Mini.String_process fst]. rewrite <- X2. f_equal. f_equal.
    unfold Mini.readPos, Mini.MAX_DELAY. rewrite P2, P1, Zplus_mod_idemp_l, D2, D1.
    rewrite Z.rem_mod_nonneg.
    - assert (HL : (Z.of_nat (List.length es) = Mini.delayLength s - 1)%Z) by lia.
      rewrite HL. revert Wp D. clear.
      generalize (Mini.writePos s), (Mini.delayLength s). intros w l Hw Hl.
      Z.to_euclidean_division_equations. lia.
    - pose proof (Z.mod_pos_bound (Mini.writePos s + 1 + Z.of_nat (List.length es)) 2048).
      lia.
    - lia. }
  split; [exact E|]. rewrite E. apply safeSample_bounded.
Qed.

Lemma delay_round_trip_witness :
  let s := Mini.mkStr (repeat zero 2048) 2040 20 Mini.f_0_995 zero zero 12345 in
  let es := repeat half 19 in
  wfDelay s /\ List.length es = Z.to_nat (Mini.delayLength s) - 1 /\
  let s1 := snd (Mini.String_process one s) in
  let s2 := snd (processMany es s1) in
  fst (Mini.String_process zero s2) = Mini.newSample one s /\
  withinBounds Mini.f_m1 one (fst (Mini.String_process zero s2)).
Proof.
  intros s es.
  assert (W : wfDelay s) by (repeat split; cbn; lia).
  assert (H : List.length es = Z.to_nat (Mini.delayLength s) - 1) by reflexivity.
  exact (conj W (conj H (@delay_round_trip s one zero es W H))).
Defined.

(** What [String::pluck] does: it draws [delayLength] noise values and
    stores the [i]-th of them, times [velocity], [i] cells behind the write
    position; the other cells, the positions, the filter state and the
    feedback are left alone and [energy] becomes [velocity]. *)
Theorem String_pluck_fills :
  forall (velocity : float) (s : Mini.String),
    wfDelay s ->
    let s' := Mini.String_pluck velocity s in
    let count := Z.to_nat (Mini.delayLength s) in
    wfDelay s' /\ sameButLine s s' /\ Mini.energy s' = velocity /\
    Mini.noiseState s' = draws count (Mini.noiseState s) /\
    (forall i, i < count ->
       get (Mini.delayLine s') (pluckPos s i) =
       mul (Mini.noiseValue (draws (S i) (Mini.noiseState s))) velocity) /\
    (forall c, c < 2048 -> (forall i, i < count -> pluckPos s i <> c) ->
       get (Mini.delayLine s') c = get (Mini.delayLine s) c).
Proof. intros velocity s W. now apply String_pluck_spec. Qed.

Lemma String_pluck_fills_witness :
  let s := Mini.mkStr (repeat zero 2048) 5 20 Mini.f_0_995 zero zero 12345 in
  wfDelay s /\
  let s' := Mini.String_pluck half s in
  let count := Z.to_nat (Mini.delayLength s) in
  wfDelay s' /\ sameButLine s s' /\ Mini.energy s' = half /\
  Mini.noiseState s' = draws count (Mini.noiseState s) /\
  (forall i, i < count ->
     get (Mini.delayLine s') (pluckPos s i) =
     mul (Mini.noiseValue (draws (S i) (Mini.noiseState s))) half) /\
  (forall c, c < 2048 -> (forall i, i < count -> pluckPos s i <> c) ->
     get (Mini.delayLine s') c = get (Mini.delayLine s) c).
Proof.
  intros s.
  assert (W : wfDelay s) by (repeat split; cbn; lia).
  exact (conj W (@String_pluck_fills half s W)).
Defined.

(** After a pluck, the first call of [process] returns the sample it would
    have returned without the pluck; the [k]-th call after that one, for
    [k < delayLength], returns the noise value number [delayLength - k + 1]
    times [velocity].  The first noise value drawn, stored at the write
    position, is overwritten by the first call and never returned. *)
Theorem pluck_then_process :
  forall (velocity e e' : float) (s : Mini.String) (es : list float),
    wfDelay s ->
    S (List.length es) < Z.to_nat (Mini.delayLength s) ->
    let plucked := Mini.String_pluck velocity s in
    let s1 := snd (Mini.String_process e plucked) in
    let s2 := snd (processMany es s1) in
    let number := Z.to_nat (Mini.delayLength s) - List.length es in
    fst (Mini.String_process e plucked) = fst (Mini.String_process e s) /\
    Mini.newSample e plucked = Mini.newSample e s /\
    fst (Mini.String_process e' s2) =
      mul (Mini.noiseValue (draws number (Mini.noiseState s))) velocity.
Proof.
  intros vel e e' s es W Hes. cbv zeta.
  destruct (String_pluck_spec vel W) as (Wp & (Pw & Pd & Pf & Pp) & _ & _ & C & O).
  cbv zeta in *.
  pose proof W as (L & Hw & Hd).
  set (count := Z.to_nat (Mini.delayLength s)) in *.
  assert (R : Mini.readPos (Mini.String_pluck vel s) = Mini.readPos s)
    by (unfold Mini.readPos; now rewrite Pw, Pd).
  assert (Hr : (0 <= Mini.readPos s < 2048)%Z).
  { unfold Mini.readPos, Mini.MAX_DELAY. apply Z.rem_bound_pos; lia. }
  assert (X0 : get (Mini.delayLine (Mini.String_pluck vel s))
                   (Z.to_nat (Mini.readPos s)) =
               get (Mini.delayLine s) (Z.to_nat (Mini.readPos s))).
  { apply O; [lia|]. intros i Hi. unfold pluckPos, Mini.readPos, Mini.MAX_DELAY.
    rewrite Z.rem_mod_nonneg by lia.
    intros Heq. apply Z2Nat.inj in Heq; try (apply Z.mod_pos_bound; lia).
    assert (Hi' : (0 <= Z.of_nat i < Mini.delayLength s)%Z) by lia.
    revert Heq. generalize dependent (Z.of_nat i).
    generalize dependent (Mini.delayLength s).
    generalize dependent (Mini.writePos s). clear.
    intros. Z.to_euclidean_division_equations. lia. }
  split; [|split].
  - cbn [Mini.String_process fst]. rewrite R. exact X0.
  - unfold Mini.newSample. rewrite R, X0, Pp, Pf. reflexivity.
  - set (i := count - S (List.length es)).
    assert (Hi : i < count) by lia.
    assert (Hi1 : 1 <= i) by lia.
    pose proof (String_process_wf e Wp) as W1.
    pose proof (String_process_writePos e Wp) as P1.
    assert (D1 : Mini.delayLength (snd (Mini.String_process e (Mini.String_pluck vel s))) =
                 Mini.delayLength s) by (cbn [Mini.String_process snd Mini.delayLength]; exact Pd).
    assert (Hc : (0 <= Z.of_nat (pluckPos s i) < 2048)%Z).
    { unfold pluckPos.
      pose proof (Z.mod_pos_bound (Mini.writePos s + 2048 - Z.of_nat i) 2048).
      lia. }
    assert (X1 : get (Mini.delayLine (snd (Mini.String_process e (Mini.String_pluck vel s))))
                     (Z.to_nat (Z.of_nat (pluckPos s i))) =
                 mul (Mini.noiseValue (draws (S i) (Mini.noiseState s))) vel).
    { rewrite Nat2Z.id. cbn [Mini.String_process snd Mini.delayLine].
      rewrite get_set_other; [apply C; exact Hi|].
      rewrite Pw. unfold pluckPos. intros Heq.
      apply Z2Nat.inj in Heq; try lia; try (apply Z.mod_pos_bound; lia).
      assert (Hi' : (1 <= Z.of_nat i < 2048)%Z) by lia.
      revert Heq. generalize dependent (Z.of_nat i).
      generalize dependent (Mini.writePos s). clear.
      intros. Z.to_euclidean_division_equations. lia. }
    rewrite Pw in P1.
    destruct (Mini.String_process e (Mini.String_pluck vel s)) as [x0 s1].
    cbn [snd] in *.
    destruct (@processMany_keeps es s1 (Z.of_nat (pluckPos s i)) _ W1 Hc X1)
      as (W2 & X2 & P2 & D2).
    { intros j Hj. rewrite P1, Zplus_mod_idemp_l. unfold pluckPos.
      rewrite Z2Nat.id by (apply Z.mod_pos_bound; lia).
      assert (Hij : (1 <= 1 + j + Z.of_nat i < 2048)%Z) by lia.
      assert (Hi' : (0 <= Z.of_nat i)%Z) by lia.
      revert Hij Hi'. generalize (Z.of_nat i). revert Hw.
      generalize (Mini.writePos s). clear.
      intros w Hw k Hk Hk' Heq.
      Z.to_euclidean_division_equations. lia. }
    destruct (processMany es s1) as [samples s2]. cbn [snd] in *.
    cbn [Mini.String_process fst].
    replace (count - List.length es) with (S i) by lia.
    rewrite <- X2. f_equal. rewrite Nat2Z.id.
    unfold Mini.readPos, Mini.MAX_DELAY, pluckPos.
    rewrite P2, P1, Zplus_mod_idemp_l, D2, D1.
    rewrite Z.rem_mod_nonneg.
    + f_equal.
      assert (HL : (Z.of_nat (List.length es) =
                    Mini.delayLength s - 1 - Z.of_nat i)%Z) by lia.
      assert (Hi' : (1 <= Z.of_nat i < Mini.delayLength s)%Z) by lia.
      rewrite HL. revert Hi'. generalize (Z.of_nat i). revert Hw Hd.
      generalize (Mini.writePos s), (Mini.delayLength s). clear.
      intros w l Hw Hl k Hk.
      Z.to_euclidean_division_equations. lia.
    + pose proof (Z.mod_pos_bound
                    (Mini.writePos s + 1 + Z.of_nat (List.length es)) 2048).
      lia.
    + lia.
Qed.

Lemma pluck_then_process_witness :
  let s := Mini.mkStr (repeat zero 2048) 5 20 Mini.f_0_995 zero zero 12345 in
  let es := repeat zero 7 in
  wfDelay s /\ S (List.length es) < Z.to_nat (Mini.delayLength s) /\
  let plucked := Mini.String_pluck half s in
  let s1 := snd (Mini.String_process zero plucked) in
  let s2 := snd (processMany es s1) in
  let number := Z.to_nat (Mini.delayLength s) - List.length es in
  fst (Mini.String_process zero plucked) = fst (Mini.String_process zero s) /\
  Mini.newSample zero plucked = Mini.newSample zero s /\
  fst (Mini.String_process one s2) =
    mul (Mini.noiseValue (draws number (Mini.noiseState s))) half.
Proof.
  intros s es.
  assert (W : wfDelay s) by (repeat split; cbn; lia).
  assert (H : S (List.length es) < Z.to_nat (Mini.delayLength s)) by (cbn; lia).
  exact (conj W (conj H (@pluck_then_process half zero one s es W H))).
Defined.

(** The energy follower of [process]: a NaN energy stays NaN, a NaN sample
    is ignored, and otherwise the energy after the call is not below the
    magnitude of the sample returned. *)
Theorem energy_follower :
  forall (excitation : float) (s : Mini.String),
    let sample := fst (Mini.String_process excitation s) in
    let s' := snd (Mini.String_process excitation s) in
    (Mini.energy s = S754_nan -> Mini.energy s' = S754_nan) /\
    (sample = S754_nan -> Mini.energy s' = mul (Mini.energy s) Mini.f_0_9995) /\
    (Mini.energy s' = S754_nan \/ sample = S754_nan \/
     leb (Mini.abs sample) (Mini.energy s') = true).
Proof.
  intros e0 s. cbv zeta. cbn [Mini.String_process fst snd Mini.energy].
  generalize (get (Mini.delayLine s) (Z.to_nat (Mini.readPos s))).
  generalize (Mini.energy s). clear. intros energy sample.
  split; [intros ->; reflexivity|]. split.
  - intros ->. unfold Mini.newEnergy. cbv zeta.
    destruct (mul energy Mini.f_0_9995) as [?|[|]| |[|] ? ?]; reflexivity.
  - unfold Mini.newEnergy. cbv zeta.
    set (e := mul energy Mini.f_0_9995).
    destruct (ltb e (Mini.abs sample)) eqn:H.
    + destruct sample as [s|s| |s m0 e0]; auto; right; right;
        unfold leb, SFleb, Mini.abs; cbn [SFabs SFcompare]; try reflexivity.
      rewrite Z.compare_refl, Pos.compare_cont_refl. reflexivity.
    + unfold ltb, SFltb in H. unfold leb, SFleb.
      rewrite (compare_antisym e (Mini.abs sample)).
      destruct (SFcompare e (Mini.abs sample)) as [[| |]|] eqn:C;
        try discriminate; cbn [option_map CompOpp]; auto.
      destruct e as [?|?| |? ? ?]; auto;
        destruct sample as [?|?| |? ? ?]; auto; discriminate.
Qed.

(** ** The synthesizer *)

(** [SympathyMini::pluck] plucks the string of index [stringIndex] and
    leaves everything else alone; an index outside [[0, 3]] selects no
    string, so the call changes nothing. *)
Theorem mini_pluck_selects :
  forall (stringIndex : Z) (velocity : float) (m : Mini.SympathyMini),
    List.length (Mini.strings m) = 4 ->
    let m' := Mini.pluck stringIndex velocity m in
    sameButStringsMini m m' /\
    List.length (Mini.strings m') = 4 /\
    (forall j, j < 4 ->
       Mini.stringAt m' j =
       if (Z.of_nat j =? stringIndex)%Z
       then Mini.String_pluck velocity (Mini.stringAt m j)
       else Mini.stringAt m j) /\
    ((stringIndex < 0 \/ 4 <= stringIndex)%Z -> m' = m).
Proof.
  intros i vel m L. cbv zeta. unfold Mini.pluck, Mini.NUM_STRINGS.
  destruct (Z.leb_spec 0 i) as [H0 | H0];
    destruct (Z.ltb_spec i (Z.of_nat 4)) as [H4 | H4]; cbn [andb];
    try (split; [repeat split|]; split; [exact L|]; split; [|reflexivity];
         intros j Hj; destruct (Z.eqb_spec (Z.of_nat j) i); [lia | reflexivity]).
  split; [repeat split|]. unfold Mini.stringAt, Mini.withStrings.
  cbn [Mini.strings].
  split; [now rewrite setAt_length|]. split; [|lia].
  intros j Hj. rewrite nth_setAt by lia.
  destruct (Z.eqb_spec (Z.of_nat j) i) as [E | E].
  - subst i. rewrite Nat2Z.id, Nat.eqb_refl. reflexivity.
  - destruct (Nat.eqb_spec j (Z.to_nat i)) as [F | F]; [lia | reflexivity].
Qed.

Lemma mini_pluck_selects_witness :
  let m := Mini.mkSympathyMini (repeat Mini.String_new 4) (repeat zero 4)
             (repeat zero 4) Mini.f_0_3 Mini.f_0_7 f_0_01 f_0_9 Mini.f_0_03 in
  List.length (Mini.strings m) = 4 /\
  let m' := Mini.pluck 7 one m in
  sameButStringsMini m m' /\
  List.length (Mini.strings m') = 4 /\
  (forall j, j < 4 ->
     Mini.stringAt m' j =
     if (Z.of_nat j =? 7)%Z
     then Mini.String_pluck one (Mini.stringAt m j)
     else Mini.stringAt m j) /\
  ((7 < 0 \/ 4 <= 7)%Z -> m' = m).
Proof.
  intros m.
  assert (L : List.length (Mini.strings m) = 4) by reflexivity.
  exact (conj L (@mini_pluck_selects 7%Z one m L)).
Defined.

(** The five setters of the synthesizer clamp their argument: any float,
    NaN and the infinities included, becomes a finite number of the range
    of the parameter, NaN becomes the upper bound, and a number of the range
    is stored as it is. *)
Theorem mini_arguments_sanitized :
  forall m : Mini.SympathyMini,
    sanitizes zero one
      (fun x => Mini.sympathyAmount (Mini.setSympatheticAmount x m)) /\
    sanitizes zero one
      (fun x => Mini.masterVolume (Mini.setMasterVolume x m)) /\
    sanitizes zero f_0_1
      (fun x => Mini.gateThreshold (Mini.setGateThreshold x m)) /\
    sanitizes half Mini.f_0_999
      (fun x => Mini.excitationDecay (Mini.setExcitationDecay x m)) /\
    sanitizes f_0_001 Mini.f_0_2
      (fun x => Mini.couplingScale (Mini.setCouplingScale x m)).
Proof.
  intros m.
  split; [|split; [|split; [|split]]]; apply clamp_sanitizes; reflexivity.
Qed.

(** The smoothed excitation of every string is NaN or a finite number of
    [[-0.1, 0.1]]; whichever it is, the sample that [process] then writes to
    the delay line of the string is a finite number of [[-1, 1]]. *)
Theorem excitation_clamped :
  forall (m : Mini.SympathyMini) (s : nat),
    s < 4 ->
    let m' := fst (Mini.processSample m) in
    let accum := get (Mini.excitationAccum m') s in
    (accum = S754_nan \/ withinBounds (neg f_0_1) f_0_1 accum) /\
    Mini.delayLine (Mini.stringAt m' s) =
      set (Mini.delayLine (Mini.stringAt m s))
          (Z.to_nat (Mini.writePos (Mini.stringAt m s)))
          (Mini.newSample accum (Mini.stringAt m s)) /\
    withinBounds Mini.f_m1 one (Mini.newSample accum (Mini.stringAt m s)).
Proof.
  intros m s Hs. cbv zeta.
  destruct (processSample_fields m Hs) as (A & _ & S').
  cbv zeta in *. rewrite A, S'. split; [|split].
  - unfold Mini.smooth. cbv zeta. apply clampAccum_cases.
  - reflexivity.
  - apply safeSample_bounded.
Qed.

Lemma excitation_clamped_witness :
  let m := Mini.mkSympathyMini (repeat Mini.String_new 4) (repeat one 4)
             (repeat S754_nan 4) Mini.f_0_3 Mini.f_0_7 f_0_01 f_0_9 Mini.f_0_03 in
  2 < 4 /\
  let m' := fst (Mini.processSample m) in
  let accum := get (Mini.excitationAccum m') 2 in
  (accum = S754_nan \/ withinBounds (neg f_0_1) f_0_1 accum) /\
  Mini.delayLine (Mini.stringAt m' 2) =
    set (Mini.delayLine (Mini.stringAt m 2))
        (Z.to_nat (Mini.writePos (Mini.stringAt m 2)))
        (Mini.newSample accum (Mini.stringAt m 2)) /\
  withinBounds Mini.f_m1 one (Mini.newSample accum (Mini.stringAt m 2)).
Proof.
  intros m.
  assert (H : 2 < 4) by lia.
  exact (conj H (@excitation_clamped m 2 H)).
Defined.

(** [process(numSamples)] returns [2 * numSamples] values and leaves the
    five parameters alone; it has no result for a negative count, or for one
    whose double is not an [int]. *)
Theorem process_shape :
  forall (tanh : float -> float) (numSamples : Z) (m : Mini.SympathyMini),
    match Mini.process tanh numSamples m with
    | Some (m', output) =>
        (0 <= numSamples)%Z /\
        Z.of_nat (List.length output) = (2 * numSamples)%Z /\
        sameSettings m m'
    | None => (numSamples < 0 \/ 1073741823 < numSamples)%Z
    end.
Proof.
  intros tanh n m. unfold Mini.process.
  destruct (Z.leb_spec 0 n) as [H0 | H0];
    destruct (Z.leb_spec n 1073741823) as [H1 | H1]; cbn [andb]; try lia.
  destruct (processLoop_shape tanh (Z.to_nat n) m) as [L S'].
  destruct (Mini.processLoop tanh (Z.to_nat n) m) as [m' out].
  cbn [fst snd] in *. split; [exact H0|]. split; [lia | exact S'].
Qed.

(** Two calls of [process] in a row do what one call with the sum of the
    counts does: the state is the same and the output of the one call is the
    two outputs one after the other. *)
Theorem process_composes :
  forall (tanh : float -> float) (a b : Z) (m : Mini.SympathyMini),
    (0 <= a)%Z -> (0 <= b)%Z -> (a + b <= 1073741823)%Z ->
    Mini.process tanh (a + b) m = processTwice tanh a b m.
Proof.
  intros tanh a b m Ha Hb Hab. unfold processTwice, Mini.process.
  replace ((0 <=? a + b) && (a + b <=? 1073741823))%Z with true
    by (symmetry; apply andb_true_intro; split; apply Z.leb_le; lia).
  replace ((0 <=? a) && (a <=? 1073741823))%Z with true
    by (symmetry; apply andb_true_intro; split; apply Z.leb_le; lia).
  rewrite Z2Nat.inj_add by lia. rewrite processLoop_add.
  destruct (Mini.processLoop tanh (Z.to_nat a) m) as [m1 out1].
  replace ((0 <=? b) && (b <=? 1073741823))%Z with true
    by (symmetry; apply andb_true_intro; split; apply Z.leb_le; lia).
  destruct (Mini.processLoop tanh (Z.to_nat b) m1) as [m2 out2]. reflexivity.
Qed.

Lemma process_composes_witness :
  (0 <= 2)%Z /\ (0 <= 3)%Z /\ (2 + 3 <= 1073741823)%Z /\
  Mini.process (fun x => x) (2 + 3) (Mini.pluck 0 one freshMini) =
  processTwice (fun x => x) 2 3 (Mini.pluck 0 one freshMini).
Proof.
  assert (Ha : (0 <= 2)%Z) by lia.
  assert (Hb : (0 <= 3)%Z) by lia.
  assert (Hab : (2 + 3 <= 1073741823)%Z) by lia.
  exact (conj Ha (conj Hb (conj Hab
           (@process_composes (fun x => x) 2%Z 3%Z
              (Mini.pluck 0 one freshMini) Ha Hb Hab)))).
Defined.

(** A synthesizer at rest stays at rest: [process] returns only [0.0f]
    samples, whatever [tanh] is, and leaves the synthesizer at rest.  The
    synthesizer the constructor builds is at rest. *)
Theorem silence_in_silence_out :
  forall (tanh : float -> float) (numSamples : Z) (m : Mini.SympathyMini),
    atRest m -> (0 <= numSamples <= 1073741823)%Z ->
    exists m',
      Mini.process tanh numSamples m =
        Some (m', repeat zero (2 * Z.to_nat numSamples)) /\
      atRest m' /\
      Mini.construct = Some freshMini /\ atRest freshMini.
Proof.
  intros tanh n m R Hn. unfold Mini.process.
  replace ((0 <=? n) && (n <=? 1073741823))%Z with true
    by (symmetry; apply andb_true_intro; split; apply Z.leb_le; lia).
  destruct (processLoop_atRest tanh (Z.to_nat n) R) as [E R'].
  destruct (Mini.processLoop tanh (Z.to_nat n) m) as [m' out].
  cbn [fst snd] in *. subst out. exists m'.
  split; [reflexivity|]. split; [exact R'|].
  split; [exact construct_fresh | exact freshMini_atRest].
Qed.

Lemma silence_in_silence_out_witness :
  atRest freshMini /\ (0 <= 128 <= 1073741823)%Z /\
  exists m',
    Mini.process (fun x => x) 128 freshMini =
      Some (m', repeat zero (2 * Z.to_nat 128)) /\
    atRest m' /\
    Mini.construct = Some freshMini /\ atRest freshMini.
Proof.
  assert (Hn : (0 <= 128 <= 1073741823)%Z) by lia.
  exact (conj freshMini_atRest (conj Hn
           (@silence_in_silence_out (fun x => x) 128%Z freshMini
              freshMini_atRest Hn))).
Defined.
